(** * Multi-SFTP-Sync: path guard, host trust, credentials, transfer queue
      and connection pool, embedded from the JavaScript sources. *)

From Stdlib Require Import ZArith QArith Qround Ascii String List Lia Bool.
From stdpp Require Import base option list sorting gmap strings pretty.

Local Open Scope string_scope.
Local Open Scope Z_scope.

(** ** JavaScript values as the guarded functions receive them *)

(** A path argument is either a string or some other value; for the other
    values only their truthiness is ever inspected. *)
Inductive jsval : Type :=
  | JStr (s : string)
  | JNonStr (truthy : bool).

Definition js_truthy (v : jsval) : bool :=
  match v with
  | JStr s => negb (String.eqb s "")
  | JNonStr b => b
  end.

(** [v || d] *)
Definition js_or (v d : jsval) : jsval := if js_truthy v then v else d.

(** A thrown [Error] with its [code] property (empty when none is set). *)
Record js_error : Type := mkError { err_code : string; err_message : string }.

Inductive outcome (A : Type) : Type :=
  | Returns (a : A)
  | Throws (e : js_error).
Arguments Returns {A} a.
Arguments Throws {A} e.

(** A number of the runtime, as [Number(value)] yields it: not a
    number, a finite number, or an infinity. An integer is read as the
    number it is. *)
Inductive number : Type :=
  | NaN
  | Finite (q : Q)
  | PlusInfinity
  | MinusInfinity.

Definition integer (z : Z) : number := Finite (inject_Z z).

Coercion integer : Z >-> number.

(** ** String primitives used by [path.posix] *)

Module Str.

Definition len (s : string) : Z := Z.of_nat (String.length s).

(** [s.slice(a, b)] for [0 <= a]. *)
Definition slice (s : string) (a b : Z) : string :=
  String.substring (Z.to_nat a) (Z.to_nat (b - a)) s.

(** [s.slice(a)] *)
Definition slice_from (s : string) (a : Z) : string := slice s a (len s).

(** [s.charCodeAt(i)]; [None] stands for [NaN]. *)
Definition char_at (s : string) (i : Z) : option ascii :=
  if i <? 0 then None else String.get (Z.to_nat i) s.

Definition is_char (c : ascii) (o : option ascii) : bool :=
  match o with
  | Some d => Ascii.eqb c d
  | None => false
  end.

Fixpoint last_index_go (c : ascii) (s : string) (i : Z) (acc : Z) : Z :=
  match s with
  | EmptyString => acc
  | String d s' => last_index_go c s' (i + 1) (if Ascii.eqb c d then i else acc)
  end.

(** [s.lastIndexOf(c)], [-1] when absent. *)
Definition last_index_of (s : string) (c : ascii) : Z := last_index_go c s 0 (-1).

(** [s.startsWith(p)] *)
Fixpoint starts_with (p s : string) : bool :=
  match p, s with
  | EmptyString, _ => true
  | String _ _, EmptyString => false
  | String a p', String b s' => Ascii.eqb a b && starts_with p' s'
  end.

End Str.

(** ** [path.posix] of the Node.js runtime

    The repository calls [path.posix.normalize], [path.posix.relative] and
    [path.posix.isAbsolute]; they are embedded here from the runtime's
    [lib/path.js], loop by loop. *)

Module Posix.

Definition slash : ascii := "/"%char.
Definition dot : ascii := "."%char.

Definition isPosixPathSeparator (c : ascii) : bool := Ascii.eqb c slash.

(** Loop variables of [normalizeString]. *)
Record ns_state : Type := mkNs {
  res : string;
  lastSegmentLength : Z;
  lastSlash : Z;
  dots : Z
}.

Definition ns_init : ns_state :=
  {| res := ""; lastSegmentLength := 0; lastSlash := -1; dots := 0 |}.

(** What the [dots === 2] branch does when it does not [continue]. *)
Definition ns_above_root (allowAboveRoot : bool) (i : Z) (st : ns_state) : ns_state :=
  if allowAboveRoot then
    {| res := res st ++ (if Str.len (res st) >? 0 then "/.." else "..");
       lastSegmentLength := 2; lastSlash := i; dots := 0 |}
  else
    {| res := res st; lastSegmentLength := lastSegmentLength st;
       lastSlash := i; dots := 0 |}.

(** One iteration of the [for] loop body for index [i] and code [code]. *)
Definition ns_step (path : string) (allowAboveRoot : bool) (i : Z) (code : ascii)
    (st : ns_state) : ns_state :=
  if isPosixPathSeparator code then
    if (lastSlash st =? i - 1) || (dots st =? 1) then
      {| res := res st; lastSegmentLength := lastSegmentLength st;
         lastSlash := i; dots := 0 |}
    else if dots st =? 2 then
      if (Str.len (res st) <? 2)
         || negb (lastSegmentLength st =? 2)
         || negb (Str.is_char dot (Str.char_at (res st) (Str.len (res st) - 1)))
         || negb (Str.is_char dot (Str.char_at (res st) (Str.len (res st) - 2)))
      then
        if Str.len (res st) >? 2 then
          let lastSlashIndex := Str.last_index_of (res st) slash in
          if lastSlashIndex =? -1 then
            {| res := ""; lastSegmentLength := 0; lastSlash := i; dots := 0 |}
          else
            let r := Str.slice (res st) 0 lastSlashIndex in
            {| res := r;
               lastSegmentLength := Str.len r - 1 - Str.last_index_of r slash;
               lastSlash := i; dots := 0 |}
        else if negb (Str.len (res st) =? 0) then
          {| res := ""; lastSegmentLength := 0; lastSlash := i; dots := 0 |}
        else ns_above_root allowAboveRoot i st
      else ns_above_root allowAboveRoot i st
    else
      let seg := Str.slice path (lastSlash st + 1) i in
      {| res := if Str.len (res st) >? 0 then res st ++ "/" ++ seg else seg;
         lastSegmentLength := i - lastSlash st - 1;
         lastSlash := i; dots := 0 |}
  else if Ascii.eqb code dot && negb (dots st =? -1) then
    {| res := res st; lastSegmentLength := lastSegmentLength st;
       lastSlash := lastSlash st; dots := dots st + 1 |}
  else
    {| res := res st; lastSegmentLength := lastSegmentLength st;
       lastSlash := lastSlash st; dots := -1 |}.

(** The loop [for (i = 0; i <= path.length; ++i)]: [rest] is what remains
    of [path] from index [i] on, [code] the code of the previous
    iteration (initially 0). *)
Fixpoint ns_loop (path : string) (allowAboveRoot : bool) (rest : string) (i : Z)
    (code : ascii) (st : ns_state) : ns_state :=
  match rest with
  | String c rest' =>
      ns_loop path allowAboveRoot rest' (i + 1) c (ns_step path allowAboveRoot i c st)
  | EmptyString =>
      if isPosixPathSeparator code then st
      else ns_step path allowAboveRoot i slash st
  end.

Definition normalizeString (path : string) (allowAboveRoot : bool) : string :=
  res (ns_loop path allowAboveRoot path 0 Ascii.zero ns_init).

Definition isAbsolute (path : string) : bool :=
  (Str.len path >? 0) && Str.is_char slash (Str.char_at path 0).

Definition normalize (path : string) : string :=
  if Str.len path =? 0 then "."
  else
    let isAbs := Str.is_char slash (Str.char_at path 0) in
    let trailingSeparator := Str.is_char slash (Str.char_at path (Str.len path - 1)) in
    let p := normalizeString path (negb isAbs) in
    if Str.len p =? 0 then
      if isAbs then "/" else if trailingSeparator then "./" else "."
    else
      let p' := if trailingSeparator then p ++ "/" else p in
      if isAbs then "/" ++ p' else p'.

(** [resolve(p)] with one argument; [cwd] is what [process.cwd()] returns. *)
Definition resolve (cwd : string) (p : string) : string :=
  (* i = 0: the argument *)
  let '(resolvedPath, resolvedAbsolute) :=
    if Str.len p =? 0 then ("", false)
    else (p ++ "/" ++ "", Str.is_char slash (Str.char_at p 0)) in
  (* i = -1: the working directory *)
  let '(resolvedPath, resolvedAbsolute) :=
    if resolvedAbsolute then (resolvedPath, resolvedAbsolute)
    else if Str.len cwd =? 0 then (resolvedPath, resolvedAbsolute)
    else (cwd ++ "/" ++ resolvedPath, Str.is_char slash (Str.char_at cwd 0)) in
  let r := normalizeString resolvedPath (negb resolvedAbsolute) in
  if resolvedAbsolute then "/" ++ r
  else if Str.len r >? 0 then r else ".".

(** First loop of [relative]: the longest common prefix.  Returns the
    final [i] and [lastCommonSep]. *)
Fixpoint common_go (from to : string) (fuel : nat) (i lastCommonSep : Z) : Z * Z :=
  match fuel with
  | O => (i, lastCommonSep)
  | S fuel' =>
      match Str.char_at from (1 + i), Str.char_at to (1 + i) with
      | Some fromCode, Some toCode =>
          if negb (Ascii.eqb fromCode toCode) then (i, lastCommonSep)
          else common_go from to fuel' (i + 1)
                 (if Ascii.eqb fromCode slash then i else lastCommonSep)
      | _, _ => (i, lastCommonSep)
      end
  end.

(** Second loop of [relative]: one [..] per remaining segment of [from]. *)
Fixpoint ups_go (from : string) (fromEnd : Z) (fuel : nat) (i : Z) (out : string) : string :=
  match fuel with
  | O => out
  | S fuel' =>
      let out' :=
        if (i =? fromEnd) || Str.is_char slash (Str.char_at from i)
        then out ++ (if Str.len out =? 0 then ".." else "/..")
        else out in
      ups_go from fromEnd fuel' (i + 1) out'
  end.

Definition relative (cwd : string) (from0 to0 : string) : string :=
  if String.eqb from0 to0 then ""
  else
    let from := resolve cwd from0 in
    let to := resolve cwd to0 in
    if String.eqb from to then ""
    else
      let fromStart := 1 in
      let fromEnd := Str.len from in
      let fromLen := fromEnd - fromStart in
      let toStart := 1 in
      let toLen := Str.len to - toStart in
      let length := if fromLen <? toLen then fromLen else toLen in
      let '(i, lastCommonSep) := common_go from to (Z.to_nat length) 0 (-1) in
      let early : option string :=
        if i =? length then
          if toLen >? length then
            if Str.is_char slash (Str.char_at to (toStart + i))
            then Some (Str.slice_from to (toStart + i + 1))
            else if i =? 0 then Some (Str.slice_from to (toStart + i))
            else None
          else None
        else None in
      match early with
      | Some r => r
      | None =>
          let lastCommonSep :=
            if (i =? length) && negb (toLen >? length) && (fromLen >? length) then
              if Str.is_char slash (Str.char_at from (fromStart + i)) then i
              else if i =? 0 then 0 else lastCommonSep
            else lastCommonSep in
          let start := fromStart + lastCommonSep + 1 in
          let out := ups_go from fromEnd (Z.to_nat (fromEnd - start + 1)) start "" in
          out ++ Str.slice_from to (toStart + lastCommonSep)
      end.

End Posix.

(** ** src/security/pathGuard.js *)

Definition normalizeRemotePath (inputPath : jsval) : string :=
  let value := match inputPath with JStr s => s | JNonStr _ => "" end in
  let normalized := Posix.normalize value in
  if negb (Str.starts_with "/" normalized) then Posix.normalize ("/" ++ normalized)
  else normalized.

Definition PATH_GUARD_REMOTE_TRAVERSAL : string := "PATH_GUARD_REMOTE_TRAVERSAL".

(** [enabled] is [options.enabled !== false]; [cwd] is the process working
    directory that [path.posix.relative] falls back on. *)
Definition assertRemotePathSafe (cwd : string) (remoteBase remotePath : jsval)
    (enabled : bool) : outcome string :=
  if negb enabled then Returns (normalizeRemotePath remotePath)
  else
    let normalizedBase := normalizeRemotePath (js_or remoteBase (JStr "/")) in
    let normalizedTarget := normalizeRemotePath (js_or remotePath (JStr "/")) in
    let relative := Posix.relative cwd normalizedBase normalizedTarget in
    if Str.starts_with ".." relative || Posix.isAbsolute relative then
      Throws {| err_code := PATH_GUARD_REMOTE_TRAVERSAL;
                err_message := "Remote path traversal blocked: " ++ normalizedTarget
                               ++ " is outside " ++ normalizedBase |}
    else Returns normalizedTarget.

(** The containment test of [assertRemotePathSafe] on two normal forms. *)
Definition remote_escapes (normalizedBase normalizedTarget : string) : bool :=
  let relative := Posix.relative "/" normalizedBase normalizedTarget in
  Str.starts_with ".." relative || Posix.isAbsolute relative.

Definition isCriticalRemotePath (remotePath : jsval) (criticalPaths : list jsval) : bool :=
  let target := normalizeRemotePath (js_or remotePath (JStr "/")) in
  existsb (fun item => String.eqb (normalizeRemotePath item) target) criticalPaths.

(** ** Server configuration records, as [.vscode/sftp.json] lists them *)

Record ServerConfig : Type := mkConfig {
  cfg_name : option string;
  cfg_host : string;
  cfg_port : option N;
  cfg_username : string;
  cfg_password : option string;
  cfg_passphrase : option string;
  cfg_remotePath : jsval
}.

(** [config.port || 22]: an absent port and port 0 are both falsy. *)
Definition port_or_22 (config : ServerConfig) : N :=
  match cfg_port config with
  | Some 0%N | None => 22%N
  | Some p => p
  end.

(** [s || d] on strings: the empty string is falsy. *)
Definition str_or (s d : string) : string := if String.eqb s "" then d else s.

(** [config.name || config.host] *)
Definition server_name (config : ServerConfig) : string :=
  match cfg_name config with
  | Some n => str_or n (cfg_host config)
  | None => cfg_host config
  end.

(** ** HostTrustStore (src/security/hostTrustStore.js) *)

Module HostTrust.

Record entry : Type := mkEntry {
  host : string;
  port : N;
  fingerprint : string;
  source : string;
  trustedAt : string
}.

(** What a file of the trust database holds, as [JSON.parse] and the
    test [parsed && typeof parsed === 'object' && parsed.entries] of
    [_ensureLoaded] see it:
    - [FileState]: an object whose [entries] property is an object that
      holds one entry record per key;
    - [FileRejected]: a value on which the test fails, that is [null], a
      number, a string, a boolean, or an object whose [entries] property
      is missing or falsy;
    - [FileCorrupt]: text on which reading or parsing throws.

    A value that passes the test without holding entry records (an array,
    or an object whose [entries] is an array or a truthy number, string
    or boolean) is kept by [_ensureLoaded] as the state although it is no
    trust state. Such files are no [file_content]: this module is the
    store over trust states, and [HostTrustRaw] below follows the code on
    an [entries] property that is a primitive. *)
Inductive file_content : Type :=
  | FileState (entries : gmap string entry)
  | FileRejected
  | FileCorrupt (parse_error : string).

(** The store object ([this.state.entries], [this.loadedPath]) together
    with the file system and the logger's output. *)
Record world : Type := mkWorld {
  entries : gmap string entry;
  loadedPath : option string;
  files : gmap string file_content;
  dirs : gset string;
  log : list string
}.

Definition init (files0 : gmap string file_content) (dirs0 : gset string) : world :=
  {| entries := ∅; loadedPath := None; files := files0; dirs := dirs0; log := [] |}.

Record verdict : Type := mkVerdict {
  allowed : bool;
  policy : string;
  reason : string;
  expected : option string;
  actual : option string;
  message : option string
}.

Definition _hostKey (config : ServerConfig) : string :=
  cfg_host config ++ ":" ++ pretty (port_or_22 config).

(** The properties every object inherits from [Object.prototype]:
    [entries[name]] finds them, as a function or as the prototype itself,
    when [entries] has no property of its own under that name. A host
    key holds a colon and is none of them. *)
Definition inherited_names : list string :=
  ["constructor"; "hasOwnProperty"; "isPrototypeOf"; "propertyIsEnumerable";
   "toLocaleString"; "toString"; "valueOf"; "__proto__"; "__defineGetter__";
   "__defineSetter__"; "__lookupGetter__"; "__lookupSetter__"].

Fixpoint has_colon (s : string) : bool :=
  match s with
  | EmptyString => false
  | String c s' => Ascii.eqb c ":" || has_colon s'
  end.

Section Store.

(** [path.dirname] of the runtime. *)
Variable dirname : string -> string.

(** [storePath] is what [_resolveStorePath()] returns at the call. *)
Definition _ensureLoaded (storePath : string) (w : world) : world :=
  if decide (loadedPath w = Some storePath) then w
  else
    let dir := dirname storePath in
    let dirs1 := if decide (dir ∈ dirs w) then dirs w else {[dir]} ∪ dirs w in
    match files w !! storePath with
    | Some (FileState parsed) =>
        {| entries := parsed; loadedPath := Some storePath;
           files := files w; dirs := dirs1; log := log w |}
    | Some (FileCorrupt msg) =>
        {| entries := ∅; loadedPath := Some storePath;
           files := files w; dirs := dirs1;
           log := log w ++ ["[HOSTKEY] failed to load trust store: " ++ msg] |}
    | Some FileRejected | None =>
        {| entries := ∅; loadedPath := Some storePath;
           files := files w; dirs := dirs1; log := log w |}
    end.

Definition _persist (storePath : string) (w : world) : world :=
  let w1 := match loadedPath w with
            | None => _ensureLoaded storePath w
            | Some _ => w
            end in
  match loadedPath w1 with
  | Some p =>
      {| entries := entries w1; loadedPath := loadedPath w1;
         files := <[p := FileState (entries w1)]> (files w1);
         dirs := dirs w1; log := log w1 |}
  | None => w1
  end.

Definition getTrustedEntry (storePath : string) (config : ServerConfig) (w : world)
    : world * option entry :=
  let w1 := _ensureLoaded storePath w in
  (w1, entries w1 !! _hostKey config).

(** [now] is [new Date().toISOString()] at the call. *)
Definition trustFingerprint (storePath now : string) (config : ServerConfig)
    (fp src : string) (w : world) : world :=
  let w1 := _ensureLoaded storePath w in
  let key := _hostKey config in
  let e := {| host := cfg_host config; port := port_or_22 config;
              fingerprint := fp; source := src; trustedAt := now |} in
  _persist storePath
    {| entries := <[key := e]> (entries w1); loadedPath := loadedPath w1;
       files := files w1; dirs := dirs w1; log := log w1 |}.

(** [this.state.entries[hostKey]] is truthy for a stored record and for
    an inherited property; [delete] removes own properties only. *)
Definition removeTrust (storePath : string) (hostKey : string) (w : world)
    : world * bool :=
  let w1 := _ensureLoaded storePath w in
  if bool_decide (is_Some (entries w1 !! hostKey))
     || bool_decide (hostKey ∈ inherited_names)
  then
    (_persist storePath
       {| entries := delete hostKey (entries w1); loadedPath := loadedPath w1;
          files := files w1; dirs := dirs w1; log := log w1 |}, true)
  else (w1, false).

Definition verifyFingerprint (storePath now : string) (config : ServerConfig)
    (fp pol : string) (w : world) : world * verdict :=
  let w1 := _ensureLoaded storePath w in
  if String.eqb pol "off" then
    (w1, {| allowed := true; policy := pol; reason := "policy_off";
            expected := None; actual := None; message := None |})
  else
    let key := _hostKey config in
    match entries w1 !! key with
    | None =>
        if String.eqb pol "strict" then
          (w1, {| allowed := false; policy := pol; reason := "unknown_host";
                  expected := None; actual := None;
                  message := Some ("No trusted host key exists for " ++ key ++ ".") |})
        else
          let w2 := trustFingerprint storePath now config fp "tofu" w1 in
          ({| entries := entries w2; loadedPath := loadedPath w2;
              files := files w2; dirs := dirs w2;
              log := log w2 ++ ["[HOSTKEY] trusted new host fingerprint via TOFU for " ++ key] |},
           {| allowed := true; policy := pol; reason := "trusted_now";
              expected := None; actual := None; message := None |})
    | Some current =>
        if String.eqb (fingerprint current) fp then
          (w1, {| allowed := true; policy := pol; reason := "match";
                  expected := None; actual := None; message := None |})
        else
          (w1, {| allowed := false; policy := pol; reason := "mismatch";
                  expected := Some (fingerprint current); actual := Some fp;
                  message := Some ("Host key mismatch for " ++ key ++ ".") |})
    end.

End Store.

End HostTrust.

(** ** HostTrustStore over a state whose [entries] is a primitive

    [_ensureLoaded] keeps every parsed object with a truthy [entries]
    property as [this.state]. Here [entries] is either an object of entry
    records, as in [HostTrust], or a truthy number, string or boolean, as
    loaded from a file such as [{"entries": 5}]. On a primitive, reading
    a host key gives [undefined], and assigning one throws a TypeError,
    the body of a class being strict code. *)

Module HostTrustRaw.

(** The value of [this.state.entries]; a primitive is given by the result
    of [typeof] and by its text. *)
Inductive entries_value : Type :=
  | Records (m : gmap string HostTrust.entry)
  | Primitive (type text : string).

(** A file: one of [HostTrust]'s, or an object whose [entries] property
    is a truthy primitive. *)
Inductive file_content : Type :=
  | Plain (content : HostTrust.file_content)
  | PrimitiveEntries (type text : string).

Record world : Type := mkWorld {
  entries : entries_value;
  loadedPath : option string;
  files : gmap string file_content;
  dirs : gset string;
  log : list string
}.

Definition init (files0 : gmap string file_content) (dirs0 : gset string) : world :=
  {| entries := Records ∅; loadedPath := None; files := files0; dirs := dirs0; log := [] |}.

(** [this.state.entries[key]] for a host key; [None] is [undefined]. *)
Definition read (v : entries_value) (key : string) : option HostTrust.entry :=
  match v with
  | Records m => m !! key
  | Primitive _ _ => None
  end.

(** [this.state.entries[key] = e] *)
Definition assign (v : entries_value) (key : string) (e : HostTrust.entry)
    : outcome entries_value :=
  match v with
  | Records m => Returns (Records (<[key := e]> m))
  | Primitive type text =>
      Throws {| err_code := "";
                err_message := "Cannot create property '" ++ key ++ "' on "
                               ++ type ++ " '" ++ text ++ "'" |}
  end.

(** What [JSON.stringify(this.state, null, 2)] writes. *)
Definition serialized (v : entries_value) : file_content :=
  match v with
  | Records m => Plain (HostTrust.FileState m)
  | Primitive type text => PrimitiveEntries type text
  end.

Section Store.

Variable dirname : string -> string.

Definition _ensureLoaded (storePath : string) (w : world) : world :=
  if decide (loadedPath w = Some storePath) then w
  else
    let dir := dirname storePath in
    let dirs1 := if decide (dir ∈ dirs w) then dirs w else {[dir]} ∪ dirs w in
    match files w !! storePath with
    | Some (Plain (HostTrust.FileState parsed)) =>
        {| entries := Records parsed; loadedPath := Some storePath;
           files := files w; dirs := dirs1; log := log w |}
    | Some (PrimitiveEntries type text) =>
        {| entries := Primitive type text; loadedPath := Some storePath;
           files := files w; dirs := dirs1; log := log w |}
    | Some (Plain (HostTrust.FileCorrupt msg)) =>
        {| entries := Records ∅; loadedPath := Some storePath;
           files := files w; dirs := dirs1;
           log := log w ++ ["[HOSTKEY] failed to load trust store: " ++ msg] |}
    | Some (Plain HostTrust.FileRejected) | None =>
        {| entries := Records ∅; loadedPath := Some storePath;
           files := files w; dirs := dirs1; log := log w |}
    end.

Definition _persist (storePath : string) (w : world) : world :=
  let w1 := match loadedPath w with
            | None => _ensureLoaded storePath w
            | Some _ => w
            end in
  match loadedPath w1 with
  | Some p =>
      {| entries := entries w1; loadedPath := loadedPath w1;
         files := <[p := serialized (entries w1)]> (files w1);
         dirs := dirs w1; log := log w1 |}
  | None => w1
  end.

(** [trustFingerprint]: the world it leaves, and the error when the
    assignment throws. *)
Definition trustFingerprint (storePath now : string) (config : ServerConfig)
    (fp src : string) (w : world) : world * outcome unit :=
  let w1 := _ensureLoaded storePath w in
  let key := HostTrust._hostKey config in
  let e := {| HostTrust.host := cfg_host config; HostTrust.port := port_or_22 config;
              HostTrust.fingerprint := fp; HostTrust.source := src;
              HostTrust.trustedAt := now |} in
  match assign (entries w1) key e with
  | Returns v =>
      (_persist storePath
         {| entries := v; loadedPath := loadedPath w1;
            files := files w1; dirs := dirs w1; log := log w1 |}, Returns tt)
  | Throws error => (w1, Throws error)
  end.

Definition verifyFingerprint (storePath now : string) (config : ServerConfig)
    (fp pol : string) (w : world) : world * outcome HostTrust.verdict :=
  let w1 := _ensureLoaded storePath w in
  if String.eqb pol "off" then
    (w1, Returns {| HostTrust.allowed := true; HostTrust.policy := pol;
                    HostTrust.reason := "policy_off"; HostTrust.expected := None;
                    HostTrust.actual := None; HostTrust.message := None |})
  else
    let key := HostTrust._hostKey config in
    match read (entries w1) key with
    | None =>
        if String.eqb pol "strict" then
          (w1, Returns {| HostTrust.allowed := false; HostTrust.policy := pol;
                          HostTrust.reason := "unknown_host"; HostTrust.expected := None;
                          HostTrust.actual := None;
                          HostTrust.message :=
                            Some ("No trusted host key exists for " ++ key ++ ".") |})
        else
          match trustFingerprint storePath now config fp "tofu" w1 with
          | (w2, Throws error) => (w2, Throws error)
          | (w2, Returns _) =>
              ({| entries := entries w2; loadedPath := loadedPath w2;
                  files := files w2; dirs := dirs w2;
                  log := log w2
                         ++ ["[HOSTKEY] trusted new host fingerprint via TOFU for " ++ key] |},
               Returns {| HostTrust.allowed := true; HostTrust.policy := pol;
                          HostTrust.reason := "trusted_now"; HostTrust.expected := None;
                          HostTrust.actual := None; HostTrust.message := None |})
          end
    | Some current =>
        if String.eqb (HostTrust.fingerprint current) fp then
          (w1, Returns {| HostTrust.allowed := true; HostTrust.policy := pol;
                          HostTrust.reason := "match"; HostTrust.expected := None;
                          HostTrust.actual := None; HostTrust.message := None |})
        else
          (w1, Returns {| HostTrust.allowed := false; HostTrust.policy := pol;
                          HostTrust.reason := "mismatch";
                          HostTrust.expected := Some (HostTrust.fingerprint current);
                          HostTrust.actual := Some fp;
                          HostTrust.message :=
                            Some ("Host key mismatch for " ++ key ++ ".") |})
    end.

End Store.

(** A world of [HostTrust], seen as a world of this module. *)
Definition of_trust_state (w : HostTrust.world) : world :=
  {| entries := Records (HostTrust.entries w); loadedPath := HostTrust.loadedPath w;
     files := Plain <$> HostTrust.files w; dirs := HostTrust.dirs w;
     log := HostTrust.log w |}.

End HostTrustRaw.

(** ** CredentialStore (src/security/credentialStore.js) *)

Module Credential.

Inductive field : Type := Password | Passphrase.

Definition field_name (f : field) : string :=
  match f with
  | Password => "password"
  | Passphrase => "passphrase"
  end.

(** [config[field]] *)
Definition get_field (config : ServerConfig) (f : field) : option string :=
  match f with
  | Password => cfg_password config
  | Passphrase => cfg_passphrase config
  end.

(** [result[field] = v] *)
Definition set_field (config : ServerConfig) (f : field) (v : string) : ServerConfig :=
  match f with
  | Password =>
      {| cfg_name := cfg_name config; cfg_host := cfg_host config;
         cfg_port := cfg_port config; cfg_username := cfg_username config;
         cfg_password := Some v; cfg_passphrase := cfg_passphrase config;
         cfg_remotePath := cfg_remotePath config |}
  | Passphrase =>
      {| cfg_name := cfg_name config; cfg_host := cfg_host config;
         cfg_port := cfg_port config; cfg_username := cfg_username config;
         cfg_password := cfg_password config; cfg_passphrase := Some v;
         cfg_remotePath := cfg_remotePath config |}
  end.

(** [typeof v === 'string' && v.length > 0] *)
Definition nonempty_string (v : option string) : bool :=
  match v with
  | Some s => negb (String.eqb s "")
  | None => false
  end.

(** The [options] argument; [None] is a property that is not set. *)
Record options : Type := mkOptions {
  autoMigrate : option bool;
  overwrite : option bool
}.

(** The store object: [context.secrets] when a context was given, the
    one-time notification flag, the logger's output and the calls made to
    [onAutoMigrated]. *)
Record store : Type := mkStore {
  context : option (gmap string string);
  didNotifyMigration : bool;
  log : list string;
  notified : list (list string)
}.

Definition _secretKey (workspaceId : string) (config : ServerConfig) (f : field) : string :=
  let host := str_or (cfg_host config) "unknown-host" in
  let port := port_or_22 config in
  let username := str_or (cfg_username config) "unknown-user" in
  let workspace := str_or workspaceId "unknown-workspace" in
  workspace ++ ":" ++ host ++ ":" ++ pretty port ++ ":" ++ username ++ ":" ++ field_name f.

(** [this.context.secrets.get(key)] *)
Definition secrets_get (st : store) (key : string) : option string :=
  match context st with
  | Some secrets => secrets !! key
  | None => None
  end.

(** [this.context.secrets.store(key, value)] *)
Definition secrets_store (st : store) (key value : string) : store :=
  {| context := (fun secrets => <[key := value]> secrets) <$> context st;
     didNotifyMigration := didNotifyMigration st;
     log := log st; notified := notified st |}.

Definition add_log (st : store) (line : string) : store :=
  {| context := context st; didNotifyMigration := didNotifyMigration st;
     log := log st ++ [line]; notified := notified st |}.

(** Loop variables of [resolve]: the store, [result] and [migratedFields]. *)
Record resolve_acc : Type := mkAcc {
  acc_store : store;
  acc_result : ServerConfig;
  acc_migrated : list field
}.

(** One iteration of the loop of [resolve] over the secret fields. *)
Definition resolve_field (workspaceId : string) (config : ServerConfig)
    (autoMig overwr : bool) (acc : resolve_acc) (f : field) : resolve_acc :=
  let st := acc_store acc in
  let key := _secretKey workspaceId config f in
  let secretValue := secrets_get st key in
  let plainValue := get_field config f in
  if nonempty_string secretValue && negb overwr then
    {| acc_store := st;
       acc_result := set_field (acc_result acc) f (default "" secretValue);
       acc_migrated := acc_migrated acc |}
  else if nonempty_string plainValue && autoMig && bool_decide (is_Some (context st)) then
    {| acc_store :=
         add_log (secrets_store st key (default "" plainValue))
           ("[SECURITY] auto-migrated " ++ field_name f ++ " to SecretStorage for "
            ++ cfg_host config ++ ":" ++ pretty (port_or_22 config));
       acc_result := set_field (acc_result acc) f (default "" plainValue);
       acc_migrated := acc_migrated acc ++ [f] |}
  else if nonempty_string secretValue && overwr then
    {| acc_store := st;
       acc_result := set_field (acc_result acc) f (default "" secretValue);
       acc_migrated := acc_migrated acc |}
  else acc.

Record resolved : Type := mkResolved {
  config : ServerConfig;
  migratedFields : list field
}.

Definition resolve (st : store) (cfg : ServerConfig) (workspaceId : string)
    (opts : options) : store * resolved :=
  let autoMig := negb (bool_decide (autoMigrate opts = Some false)) in
  let overwr := bool_decide (overwrite opts = Some true) in
  let acc := fold_left (resolve_field workspaceId cfg autoMig overwr)
               [Password; Passphrase]
               {| acc_store := st; acc_result := cfg; acc_migrated := [] |} in
  let st1 := acc_store acc in
  let st2 :=
    if negb (Nat.eqb (List.length (acc_migrated acc)) 0) && negb (didNotifyMigration st1) then
      {| context := context st1; didNotifyMigration := true; log := log st1;
         notified := notified st1 ++ [map field_name (acc_migrated acc)] |}
    else st1 in
  (st2, {| config := acc_result acc; migratedFields := acc_migrated acc |}).

(** One iteration of the loop of [migrateFromPlaintext]: the store and
    [migratedCount]. *)
Definition migrate_field (workspaceId : string) (cfg : ServerConfig) (overwr : bool)
    (acc : store * Z) (f : field) : store * Z :=
  let '(st, migratedCount) := acc in
  let plainValue := get_field cfg f in
  if negb (nonempty_string plainValue) || negb (bool_decide (is_Some (context st))) then acc
  else
    let key := _secretKey workspaceId cfg f in
    if negb overwr && nonempty_string (secrets_get st key) then acc
    else (secrets_store st key (default "" plainValue), migratedCount + 1).

Definition migrateFromPlaintext (st : store) (cfg : ServerConfig) (workspaceId : string)
    (opts : options) : store * Z :=
  let overwr := negb (bool_decide (overwrite opts = Some false)) in
  fold_left (migrate_field workspaceId cfg overwr) [Password; Passphrase] (st, 0).

(** [migrateAll]; [configs || []] is the list itself or empty. *)
Definition migrateAll (st : store) (configs : list ServerConfig) (workspaceId : string)
    (opts : options) : store * Z :=
  fold_left
    (fun (acc : store * Z) cfg =>
       let '(st1, n) := migrateFromPlaintext (fst acc) cfg workspaceId opts in
       (st1, snd acc + n))
    configs (st, 0).

End Credential.



(** ** Credential store: notions used to state its properties *)

Module CredentialSpec.

Import Credential.

(** Whether the loop of [resolve] migrates field [f] on secrets [sec]. *)
Definition migrates (sec : gmap string string) (ws : string) (cfg : ServerConfig)
    (am : bool) (f : field) : bool :=
  negb (nonempty_string (sec !! _secretKey ws cfg f))
  && nonempty_string (get_field cfg f) && am.

Definition secrets_after (sec : gmap string string) (ws : string) (cfg : ServerConfig)
    (am : bool) (f : field) : gmap string string :=
  if migrates sec ws cfg am f
  then <[_secretKey ws cfg f := default "" (get_field cfg f)]> sec
  else sec.

(** The value [result[f]] is set to by one iteration, if any. *)
Definition resolved_value (sec : gmap string string) (ws : string) (cfg : ServerConfig)
    (am : bool) (f : field) : option string :=
  if nonempty_string (sec !! _secretKey ws cfg f) then sec !! _secretKey ws cfg f
  else if migrates sec ws cfg am f then get_field cfg f
  else None.

Definition apply_value (c : ServerConfig) (f : field) (v : option string) : ServerConfig :=
  match v with
  | Some s => set_field c f s
  | None => c
  end.

(** Every non-empty plaintext field of [cfg] already has a non-empty
    value in secret storage. *)
Definition all_stored (st : store) (ws : string) (cfg : ServerConfig) : Prop :=
  forall f, nonempty_string (get_field cfg f) = true ->
            nonempty_string (secrets_get st (_secretKey ws cfg f)) = true.

Definition no_options : options := {| autoMigrate := None; overwrite := None |}.

Definition keep_existing : options := {| autoMigrate := None; overwrite := Some false |}.

Definition empty_store : store :=
  {| context := Some ∅; didNotifyMigration := false; log := []; notified := [] |}.

(** The loop of [migrateAll] from an arbitrary running count. *)
Definition migrateAll_from (st : store) (n : Z) (cfgs : list ServerConfig) (ws : string)
    (opts : options) : store * Z :=
  fold_left
    (fun (acc : store * Z) cfg =>
       let '(st1, m) := migrateFromPlaintext (fst acc) cfg ws opts in
       (st1, snd acc + m))
    cfgs (st, n).

End CredentialSpec.

(** ** TransferQueue (src/transferQueue.js) *)

Module TQ.

(** [createCancellationError()] *)
Definition createCancellationError : js_error :=
  {| err_code := "OPERATION_CANCELED"; err_message := "Operation canceled" |}.

(** What [token.onCancellationRequested(listener)] returned and
    [item.disposeCancel] holds: nothing ([null] or [undefined]), a function
    that removes the listener, or an object that cannot be called, such as
    the [{ dispose }] object of [createNoopToken] and of the editor's
    cancellation tokens. *)
Inductive dispose_val : Type :=
  | DisposeNull
  | DisposeFunction
  | DisposeObject.

(** A cancellation token: its flag, whether it has an
    [onCancellationRequested] function, what that function returns, and the
    items whose listener is registered, oldest first. *)
Record token : Type := mkToken {
  isCancellationRequested : bool;
  has_onCancellationRequested : bool;
  registration_result : dispose_val;
  listeners : list nat
}.

(** How a promise settled. *)
Inductive settled : Type :=
  | Resolved (value : string)
  | Rejected (error : js_error).

(** [n || 1]: [NaN] and zero are falsy. *)
Definition or_1 (n : number) : number :=
  match n with
  | NaN => integer 1
  | Finite q => if Qeq_bool q 0 then integer 1 else n
  | PlusInfinity | MinusInfinity => n
  end.

(** [Math.max(1, n)] *)
Definition max_1 (n : number) : number :=
  match n with
  | NaN => NaN
  | Finite q => if Qle_bool 1 q then n else integer 1
  | PlusInfinity => PlusInfinity
  | MinusInfinity => integer 1
  end.

(** [a < n] for an integer [a]. *)
Definition below (a : Z) (n : number) : bool :=
  match n with
  | NaN | MinusInfinity => false
  | Finite q => negb (Qle_bool q (inject_Z a))
  | PlusInfinity => true
  end.

(** The queue item objects; [task] names the task closure. *)
Record item : Type := mkItem {
  task : nat;
  token_of : option nat;
  label : string;
  started : bool;
  canceled : bool;
  disposeCancel : dispose_val
}.

(** The lines handed to [this.logger], with the item they are about. *)
Inductive log_entry : Type :=
  | LogEnqueued (id : nat) (active queued : Z)
  | LogStarted (id : nat) (active : Z)
  | LogFinished (id : nat) (active queued : Z)
  | LogCanceled (id : nat).

(** The queue object and what surrounds it: items are objects with
    identity, so [queue] lists their identities and [items] is the heap;
    [futures] holds the promise returned by each [enqueue] ([None] while
    pending); [running] are the items whose promise chain built by
    [_drain] has not settled; [uncaught] collects errors thrown out of a
    handler. *)
Record state : Type := mkState {
  concurrency : number;
  queue : list nat;
  activeCount : Z;
  items : gmap nat item;
  futures : gmap nat (option settled);
  tokens : gmap nat token;
  running : gset nat;
  log : list log_entry;
  next_item : nat;
  uncaught : list string
}.

(** [Math.max(1, Number(v) || 1)]; [v] is [None] when the value is
    [undefined], and the number that [Number(v)] yields otherwise. The
    result is 1 or more, but need not be an integer. *)
Definition clamp_concurrency (v : option number) : number :=
  max_1 (or_1 (default NaN v)).

(** [new TransferQueue({ concurrency })], with the tokens that exist. *)
Definition init (concurrency0 : option number) (tokens0 : gmap nat token) : state :=
  {| concurrency := clamp_concurrency concurrency0; queue := []; activeCount := 0;
     items := ∅; futures := ∅; tokens := tokens0; running := ∅; log := [];
     next_item := 0; uncaught := [] |}.

Record stats_t : Type := mkStats { active : Z; queued : Z; stats_concurrency : number }.

Definition stats (s : state) : stats_t :=
  {| active := activeCount s; queued := Z.of_nat (length (queue s));
     stats_concurrency := concurrency s |}.

(** A token that is not a known object has none of the properties. *)
Definition get_token (s : state) (t : nat) : token :=
  default (mkToken false false DisposeNull []) (tokens s !! t).

Definition set_queue (s : state) (q : list nat) : state :=
  {| concurrency := concurrency s; queue := q; activeCount := activeCount s;
     items := items s; futures := futures s; tokens := tokens s;
     running := running s; log := log s; next_item := next_item s;
     uncaught := uncaught s |}.

Definition set_item (s : state) (id : nat) (it : item) : state :=
  {| concurrency := concurrency s; queue := queue s; activeCount := activeCount s;
     items := <[id := it]> (items s); futures := futures s; tokens := tokens s;
     running := running s; log := log s; next_item := next_item s;
     uncaught := uncaught s |}.

Definition set_token (s : state) (t : nat) (tk : token) : state :=
  {| concurrency := concurrency s; queue := queue s; activeCount := activeCount s;
     items := items s; futures := futures s; tokens := <[t := tk]> (tokens s);
     running := running s; log := log s; next_item := next_item s;
     uncaught := uncaught s |}.

Definition add_log (s : state) (e : log_entry) : state :=
  {| concurrency := concurrency s; queue := queue s; activeCount := activeCount s;
     items := items s; futures := futures s; tokens := tokens s;
     running := running s; log := log s ++ [e]; next_item := next_item s;
     uncaught := uncaught s |}.

(** [resolve(v)] or [reject(e)] on the promise of item [id]: a promise
    settles once, later calls do nothing. *)
Definition settle_future (s : state) (id : nat) (o : settled) : state :=
  match futures s !! id with
  | Some None =>
      {| concurrency := concurrency s; queue := queue s; activeCount := activeCount s;
         items := items s; futures := <[id := Some o]> (futures s); tokens := tokens s;
         running := running s; log := log s; next_item := next_item s;
         uncaught := uncaught s |}
  | _ => s
  end.

(** The body of [_drain]'s loop once [item] is admitted: mark it started,
    count it, log, and build the promise chain that will call the task. *)
Definition start (s : state) (id : nat) (it : item) : state :=
  {| concurrency := concurrency s; queue := queue s;
     activeCount := activeCount s + 1;
     items := <[id := mkItem (task it) (token_of it) (label it) true (canceled it)
                        (disposeCancel it)]> (items s);
     futures := futures s; tokens := tokens s;
     running := {[id]} ∪ running s;
     log := log s ++ [LogStarted id (activeCount s + 1)];
     next_item := next_item s; uncaught := uncaught s |}.

(** [_drain]: [q] is [this.queue] at the loop test. *)
Fixpoint drain_loop (q : list nat) (s : state) : state :=
  match q with
  | [] => s
  | id :: q' =>
      if below (activeCount s) (concurrency s) then
        let s1 := set_queue s q' in
        match items s1 !! id with
        | None => drain_loop q' s1
        | Some it =>
            if canceled it then drain_loop q' s1
            else drain_loop q' (start s1 id it)
        end
      else s
  end.

Definition _drain (s : state) : state := drain_loop (queue s) s.

Definition setConcurrency (s : state) (value : option number) : state :=
  _drain
    {| concurrency := clamp_concurrency value; queue := queue s;
       activeCount := activeCount s; items := items s; futures := futures s;
       tokens := tokens s; running := running s; log := log s;
       next_item := next_item s; uncaught := uncaught s |}.

(** The disposer returned by a token removes the item's listener. *)
Definition remove_listener (s : state) (id : nat) : state :=
  match items s !! id with
  | Some it =>
      match token_of it with
      | Some t =>
          let tk := get_token s t in
          set_token s t
            (mkToken (isCancellationRequested tk) (has_onCancellationRequested tk)
               (registration_result tk)
               (filter (fun x => x ≠ id) (listeners tk)))
      | None => s
      end
  | None => s
  end.

Definition type_error : string := "TypeError: item.disposeCancel is not a function".

(** [item.disposeCancel?.()]: [None] when the call throws. *)
Definition call_disposeCancel (s : state) (id : nat) : option state :=
  match disposeCancel <$> items s !! id with
  | Some DisposeObject => None
  | Some DisposeFunction => Some (remove_listener s id)
  | _ => Some s
  end.

Definition throw_uncaught (s : state) (msg : string) : state :=
  {| concurrency := concurrency s; queue := queue s; activeCount := activeCount s;
     items := items s; futures := futures s; tokens := tokens s;
     running := running s; log := log s; next_item := next_item s;
     uncaught := uncaught s ++ [msg] |}.

(** [clearPending(reason)]: the loop stops at the first item whose
    disposer call throws, and the error leaves [clearPending]. *)
Fixpoint clear_loop (reason : string) (q : list nat) (s : state) : state :=
  match q with
  | [] => s
  | id :: q' =>
      let s1 := settle_future (set_queue s q') id (Rejected (mkError "" reason)) in
      match call_disposeCancel s1 id with
      | Some s2 => clear_loop reason q' s2
      | None => throw_uncaught s1 type_error
      end
  end.

Definition clearPending (s : state) (reason : string) : state :=
  clear_loop reason (queue s) s.

(** The listener [enqueue] registers on the token, run for item [id]. *)
Definition cancel_listener (s : state) (id : nat) : state :=
  match items s !! id with
  | Some it =>
      if started it then s
      else
        let s1 := set_item s id
                    (mkItem (task it) (token_of it) (label it) (started it) true
                       (disposeCancel it)) in
        let s2 := set_queue s1 (filter (fun x => x ≠ id) (queue s1)) in
        add_log (settle_future s2 id (Rejected createCancellationError)) (LogCanceled id)
  | None => s
  end.

(** [token && token.isCancellationRequested] *)
Definition token_canceled (s : state) (token0 : option nat) : bool :=
  match token0 with
  | Some t => isCancellationRequested (get_token s t)
  | None => false
  end.

(** [token && typeof token.onCancellationRequested === 'function'] *)
Definition token_registers (s : state) (token0 : option nat) : bool :=
  match token0 with
  | Some t => has_onCancellationRequested (get_token s t)
  | None => false
  end.

(** [new Promise(...)]: the promise [enqueue] returns is the future of the
    fresh identity [next_item s]. *)
Definition new_future (s : state) : state :=
  {| concurrency := concurrency s; queue := queue s; activeCount := activeCount s;
     items := items s; futures := <[next_item s := None]> (futures s);
     tokens := tokens s; running := running s; log := log s;
     next_item := S (next_item s); uncaught := uncaught s |}.

(** The [item] object, with [disposeCancel] as the registration sets it. *)
Definition new_item (s : state) (task0 : nat) (token0 : option nat) (label0 : string)
    : item :=
  mkItem task0 token0 (str_or label0 "task") false false
    (match token0 with
     | Some t =>
         if token_registers s token0 then registration_result (get_token s t)
         else DisposeNull
     | None => DisposeNull
     end).

(** [token.onCancellationRequested(listener)] for item [id]. *)
Definition register_listener (s : state) (token0 : option nat) (id : nat) : state :=
  match token0 with
  | Some t =>
      if token_registers s token0 then
        let tk := get_token s t in
        set_token s t
          (mkToken (isCancellationRequested tk) (has_onCancellationRequested tk)
             (registration_result tk) (listeners tk ++ [id]))
      else s
  | None => s
  end.

(** The executor of [enqueue] from the registration to the log line. *)
Definition push_item (s : state) (task0 : nat) (token0 : option nat) (label0 : string)
    : state :=
  let id := next_item s in
  let s1 := register_listener (new_future s) token0 id in
  let s2 := set_queue (set_item s1 id (new_item s task0 token0 label0)) (queue s1 ++ [id]) in
  add_log s2 (LogEnqueued id (activeCount s2) (Z.of_nat (length (queue s2)))).

(** [enqueue(task, { token, label })] *)
Definition enqueue (s : state) (task0 : nat) (token0 : option nat) (label0 : string)
    : state :=
  if token_canceled s token0 then
    settle_future (new_future s) (next_item s) (Rejected createCancellationError)
  else _drain (push_item s task0 token0 label0).

(** The token fires: its flag is set and its listeners run in order. *)
Definition cancel (s : state) (t : nat) : state :=
  match tokens s !! t with
  | Some tk =>
      if isCancellationRequested tk then s
      else
        let s1 := set_token s t
                    (mkToken true (has_onCancellationRequested tk)
                       (registration_result tk) (listeners tk)) in
        fold_left cancel_listener (listeners tk) s1
  | None => s
  end.

(** The task of a running item settles with [o]: the chain hands the
    outcome to the item's promise, then runs the [finally] handler. *)
Definition settle (s : state) (id : nat) (o : settled) : state :=
  if decide (id ∈ running s) then
    let s1 :=
      settle_future
        {| concurrency := concurrency s; queue := queue s;
           activeCount := activeCount s; items := items s; futures := futures s;
           tokens := tokens s; running := running s ∖ {[id]}; log := log s;
           next_item := next_item s; uncaught := uncaught s |} id o in
    let s2 :=
      {| concurrency := concurrency s1; queue := queue s1;
         activeCount := Z.max 0 (activeCount s1 - 1); items := items s1;
         futures := futures s1; tokens := tokens s1; running := running s1;
         log := log s1; next_item := next_item s1; uncaught := uncaught s1 |} in
    match call_disposeCancel s2 id with
    | None => throw_uncaught s2 type_error
    | Some s3 =>
        _drain (add_log s3 (LogFinished id (activeCount s3) (Z.of_nat (length (queue s3)))))
    end
  else s.

(** What can happen to a queue. *)
Inductive event : Type :=
  | Enqueue (task0 : nat) (token0 : option nat) (label0 : string)
  | Cancel (t : nat)
  | Settle (id : nat) (o : settled)
  | SetConcurrency (value : option number)
  | ClearPending (reason : string).

Definition step (s : state) (e : event) : state :=
  match e with
  | Enqueue task0 token0 label0 => enqueue s task0 token0 label0
  | Cancel t => cancel s t
  | Settle id o => settle s id o
  | SetConcurrency value => setConcurrency s value
  | ClearPending reason => clearPending s reason
  end.

Definition run (s : state) (evs : list event) : state := fold_left step evs s.

(** Events that leave the cap alone. *)
Definition keeps_cap (e : event) : bool :=
  match e with
  | SetConcurrency _ => false
  | _ => true
  end.

(** The items started so far, in the order they were started. *)
Definition started_ids (l : list log_entry) : list nat :=
  omap (fun e => match e with LogStarted id _ => Some id | _ => None end) l.

(** Nothing is waiting that could be admitted. *)
Definition drained (s : state) : Prop :=
  queue s = [] \/ below (activeCount s) (concurrency s) = false.

End TQ.

(** ** Transfer queue: notions used to state its properties *)

Module TQSpec.

Import TQ.

(** States reached from [s0] by events that [allowed] admits. *)
Inductive reaches (allowed : event -> bool) (s0 : state) : state -> Prop :=
  | reaches_refl : reaches allowed s0 s0
  | reaches_step s e :
      reaches allowed s0 s -> allowed e = true -> reaches allowed s0 (step s e).

Definition any_event (e : event) : bool := true.

(** Reachable from a fresh queue. *)
Definition reachable (s : state) : Prop :=
  exists c toks, reaches any_event (init c toks) s.

(** Reachable from a fresh queue without [setConcurrency]. *)
Definition reachable_fixed_cap (c : option number) (s : state) : Prop :=
  exists toks, reaches keeps_cap (init c toks) s.

(** The shape every reachable queue has. Identities grow with the order
    of the [enqueue] calls, so sortedness by identity is enqueue order. *)
Record wf (s : state) : Prop := mkWf {
  wf_queue_sorted : StronglySorted Nat.lt (queue s);
  wf_queue_pending : forall id, id ∈ queue s ->
    exists it, items s !! id = Some it /\ started it = false /\ canceled it = false;
  wf_queue_future : forall id, id ∈ queue s -> futures s !! id = Some None;
  wf_queue_fresh : forall id, id ∈ queue s -> (id < next_item s)%nat;
  wf_running_started : forall id, id ∈ running s ->
    exists it, items s !! id = Some it /\ started it = true;
  wf_running_future : forall id, id ∈ running s -> futures s !! id = Some None;
  wf_active : activeCount s = Z.of_nat (size (running s));
  wf_started_sorted : StronglySorted Nat.lt (started_ids (log s));
  wf_started_before_queue : forall a b,
    a ∈ started_ids (log s) -> b ∈ queue s -> (a < b)%nat;
  wf_started_fresh : forall a, a ∈ started_ids (log s) -> (a < next_item s)%nat;
  wf_running_fresh : forall id, id ∈ running s -> (id < next_item s)%nat;
  wf_listening : forall id it t,
    id ∈ queue s -> items s !! id = Some it -> token_of it = Some t ->
    has_onCancellationRequested (get_token s t) = true ->
    id ∈ listeners (get_token s t)
}.

(** No waiting item listens on a token that has already fired. *)
Definition live (s : state) : Prop :=
  forall id it t,
    id ∈ queue s -> items s !! id = Some it -> token_of it = Some t ->
    has_onCancellationRequested (get_token s t) = true ->
    isCancellationRequested (get_token s t) = false.

(** The tokens of [s'] have the flags they have in [s]. *)
Definition same_flags (s s' : state) : Prop :=
  forall t,
    has_onCancellationRequested (get_token s' t) = has_onCancellationRequested (get_token s t)
    /\ isCancellationRequested (get_token s' t) = isCancellationRequested (get_token s t).

(** The state [settle] reaches before it calls the disposer. *)
Definition settle_prefix (s : state) (id : nat) (o : settled) : state :=
  let s1 :=
    settle_future
      {| concurrency := concurrency s; queue := queue s;
         activeCount := activeCount s; items := items s; futures := futures s;
         tokens := tokens s; running := running s ∖ {[id]}; log := log s;
         next_item := next_item s; uncaught := uncaught s |} id o in
  {| concurrency := concurrency s1; queue := queue s1;
     activeCount := Z.max 0 (activeCount s1 - 1); items := items s1;
     futures := futures s1; tokens := tokens s1; running := running s1;
     log := log s1; next_item := next_item s1; uncaught := uncaught s1 |}.

(** [s'] comes from [s] by steps that admit nothing: the queue only
    loses items, nothing is started, the counters stand still. *)
Definition quiet (s s' : state) : Prop :=
  (forall x, x ∈ queue s' -> x ∈ queue s)
  /\ started_ids (log s') = started_ids (log s)
  /\ next_item s' = next_item s
  /\ activeCount s' = activeCount s
  /\ concurrency s' = concurrency s.

(** The tasks that can run at once under cap [c]: the least integer
    that is not below it; any number under an infinite cap ([None]);
    none under a cap that nothing is below. *)
Definition slots (c : number) : option Z :=
  match c with
  | Finite q => Some (Qceiling q)
  | PlusInfinity => None
  | NaN | MinusInfinity => Some 0
  end.

(** The cap [c] is in force and respected. *)
Definition within_cap (c : number) (s : state) : Prop :=
  concurrency s = c
  /\ match slots c with
     | Some n => activeCount s <= n
     | None => True
     end.

(** Item [id] has been dropped for good: it is neither waiting nor
    started, and its identity is used up. *)
Definition dropped (id : nat) (s : state) : Prop :=
  (id ∉ queue s) /\ (id ∉ started_ids (log s)) /\ (id < next_item s)%nat.

End TQSpec.



(** ** ConnectionManager (src/connectionManager.js) *)

Module CM.

(** [_connectionKey(config)] *)
Definition _connectionKey (config : ServerConfig) : string :=
  cfg_host config ++ ":" ++ pretty (port_or_22 config) ++ ":" ++ cfg_username config.

(** A pooled connection; [sftp] names the transport handle. *)
Record connection : Type := mkConnection {
  sftp : nat;
  conn_config : ServerConfig;
  lastUsed : Z
}.

Inductive promise_state : Type :=
  | Pending
  | Fulfilled (handle : nat)
  | Rejected (error : string).

(** Where a call of [_createConnection] stands: awaiting
    [_buildConnectOptions]; awaiting [sftp.connect(options)]; awaiting
    [sftp.end()] in the [catch] block; returned or thrown. *)
Inductive attempt_stage : Type :=
  | Building
  | Connecting
  | Ending (error : string)
  | Finished.

(** A call of [_createConnection(config, key)]. Its transport handle, its
    promise and the call itself share one identity. *)
Record attempt : Type := mkAttempt {
  a_key : string;
  a_config : ServerConfig;
  a_stage : attempt_stage
}.

(** Where a call of [getConnection] stands: at the [await] of the shared
    promise, at the [await] of its own promise, or finished. *)
Inductive caller_state : Type :=
  | AwaitingShared (config : ServerConfig) (key : string) (p : nat)
  | AwaitingOwn (key : string) (p : nat)
  | Returned (handle : nat)
  | Threw (error : string).

(** The manager's maps, the promises and suspended calls of the event
    loop, the transports whose socket is gone ([dead]) or on which [end()]
    was called ([ended]), every [sftp.connect] invocation in order, and
    the clock that [Date.now()] reads. *)
Record state : Type := mkState {
  connections : gmap string connection;
  connecting : gmap string nat;
  dirCache : gmap string (gset string);
  lastHostKeyValidation : gmap string HostTrust.verdict;
  promises : gmap nat promise_state;
  attempts : gmap nat attempt;
  callers : gmap nat caller_state;
  dead : gset nat;
  ended : list nat;
  connect_calls : list (string * nat);
  clock : Z;
  next_attempt : nat;
  next_caller : nat
}.

Definition init : state :=
  {| connections := ∅; connecting := ∅; dirCache := ∅; lastHostKeyValidation := ∅;
     promises := ∅; attempts := ∅; callers := ∅; dead := ∅; ended := [];
     connect_calls := []; clock := 0; next_attempt := 0; next_caller := 0 |}.

Definition maxIdleTime : Z := 5 * 60 * 1000.

(** [_isConnectionAlive(conn)] *)
Definition _isConnectionAlive (s : state) (conn : connection) : bool :=
  negb (bool_decide (sftp conn ∈ dead s)).

Definition set_pool (s : state) (pool : gmap string connection)
    (cache : gmap string (gset string)) (ended' : list nat) : state :=
  {| connections := pool; connecting := connecting s; dirCache := cache;
     lastHostKeyValidation := lastHostKeyValidation s; promises := promises s;
     attempts := attempts s; callers := callers s; dead := dead s; ended := ended';
     connect_calls := connect_calls s; clock := clock s;
     next_attempt := next_attempt s; next_caller := next_caller s |}.

Definition set_connecting (s : state) (m : gmap string nat) : state :=
  {| connections := connections s; connecting := m; dirCache := dirCache s;
     lastHostKeyValidation := lastHostKeyValidation s; promises := promises s;
     attempts := attempts s; callers := callers s; dead := dead s; ended := ended s;
     connect_calls := connect_calls s; clock := clock s;
     next_attempt := next_attempt s; next_caller := next_caller s |}.

Definition set_caller (s : state) (cid : nat) (c : caller_state) : state :=
  {| connections := connections s; connecting := connecting s; dirCache := dirCache s;
     lastHostKeyValidation := lastHostKeyValidation s; promises := promises s;
     attempts := attempts s; callers := <[cid := c]> (callers s); dead := dead s;
     ended := ended s; connect_calls := connect_calls s; clock := clock s;
     next_attempt := next_attempt s; next_caller := next_caller s |}.

Definition set_attempt (s : state) (p : nat) (a : attempt) (ps : promise_state) : state :=
  {| connections := connections s; connecting := connecting s; dirCache := dirCache s;
     lastHostKeyValidation := lastHostKeyValidation s;
     promises := <[p := ps]> (promises s);
     attempts := <[p := a]> (attempts s); callers := callers s; dead := dead s;
     ended := ended s; connect_calls := connect_calls s; clock := clock s;
     next_attempt := next_attempt s; next_caller := next_caller s |}.

(** [_safeCloseConnection(key, conn)] *)
Definition _safeCloseConnection (s : state) (key : string) (conn : connection) : state :=
  set_pool s (delete key (connections s)) (delete key (dirCache s))
    (ended s ++ [sftp conn]).

(** [_createConnection(config, key)] up to its first [await], and
    [this.connecting.set(key, connectPromise)]. *)
Definition start_attempt (s : state) (config : ServerConfig) (key : string) : state * nat :=
  let p := next_attempt s in
  ({| connections := connections s; connecting := <[key := p]> (connecting s);
      dirCache := dirCache s; lastHostKeyValidation := lastHostKeyValidation s;
      promises := <[p := Pending]> (promises s);
      attempts := <[p := mkAttempt key config Building]> (attempts s);
      callers := callers s; dead := dead s; ended := ended s;
      connect_calls := connect_calls s; clock := clock s;
      next_attempt := S p; next_caller := next_caller s |}, p).

(** [getConnection] from the pool lookup on: reuse a live pooled
    connection, or discard a dead one and start a connect. *)
Definition from_pool (s : state) (cid : nat) (config : ServerConfig) (key : string) : state :=
  let fresh (s0 : state) :=
    let '(s1, p) := start_attempt s0 config key in
    set_caller s1 cid (AwaitingOwn key p) in
  match connections s !! key with
  | Some conn =>
      if _isConnectionAlive s conn then
        set_caller
          (set_pool s
             (<[key := mkConnection (sftp conn) (conn_config conn) (clock s)]> (connections s))
             (dirCache s) (ended s))
          cid (Returned (sftp conn))
      else fresh (_safeCloseConnection s key conn)
  | None => fresh s
  end.

(** A call [getConnection(config)] up to its first [await] or [return]. *)
Definition getConnection (s : state) (config : ServerConfig) : state :=
  let key := _connectionKey config in
  let cid := next_caller s in
  let s0 :=
    {| connections := connections s; connecting := connecting s; dirCache := dirCache s;
       lastHostKeyValidation := lastHostKeyValidation s; promises := promises s;
       attempts := attempts s; callers := callers s; dead := dead s; ended := ended s;
       connect_calls := connect_calls s; clock := clock s;
       next_attempt := next_attempt s; next_caller := S cid |} in
  match connecting s0 !! key with
  | Some p => set_caller s0 cid (AwaitingShared config key p)
  | None => from_pool s0 cid config key
  end.

(** A suspended [getConnection] continues once the promise it awaits has
    settled. *)
Definition resume (s : state) (cid : nat) : state :=
  match callers s !! cid with
  | Some (AwaitingShared config key p) =>
      match promises s !! p with
      | Some (Fulfilled h) => set_caller s cid (Returned h)
      | Some (Rejected e) =>
          from_pool (set_connecting s (delete key (connecting s))) cid config key
      | _ => s
      end
  | Some (AwaitingOwn key p) =>
      match promises s !! p with
      | Some (Fulfilled h) =>
          set_caller (set_connecting s (delete key (connecting s))) cid (Returned h)
      | Some (Rejected e) =>
          set_caller (set_connecting s (delete key (delete key (connecting s)))) cid
            (Threw e)
      | _ => s
      end
  | _ => s
  end.

(** [_wrapHostKeyError(connectionKey, error)] *)
Definition _wrapHostKeyError (s : state) (key : string) (error : string) : string :=
  match lastHostKeyValidation s !! key with
  | Some v =>
      if HostTrust.allowed v then error
      else if String.eqb (HostTrust.reason v) "unknown_host" then
        "Host key is unknown for " ++ key
        ++ ". Trust it manually or switch to TOFU mode."
      else if String.eqb (HostTrust.reason v) "mismatch" then
        "Host key mismatch for " ++ key ++ ". Expected "
        ++ default "undefined" (HostTrust.expected v) ++ ", got "
        ++ default "undefined" (HostTrust.actual v) ++ "."
      else "Host key validation failed for " ++ key ++ "."
  | None => error
  end.

(** [_buildConnectOptions] settles for attempt [p]: on success
    [sftp.connect(connectOptions)] is invoked, on failure the [catch]
    block starts. *)
Definition build_done (s : state) (p : nat) (failure : option string) : state :=
  match attempts s !! p with
  | Some (mkAttempt key config Building) =>
      match failure with
      | None =>
          {| connections := connections s; connecting := connecting s;
             dirCache := dirCache s; lastHostKeyValidation := lastHostKeyValidation s;
             promises := promises s;
             attempts := <[p := mkAttempt key config Connecting]> (attempts s);
             callers := callers s; dead := dead s; ended := ended s;
             connect_calls := connect_calls s ++ [(key, p)]; clock := clock s;
             next_attempt := next_attempt s; next_caller := next_caller s |}
      | Some e => set_attempt s p (mkAttempt key config (Ending e)) Pending
      end
  | _ => s
  end.

(** The host verifier installed by [_createHostVerifier] records the
    verdict of the trust store while the transport connects. *)
Definition host_verified (s : state) (p : nat) (v : HostTrust.verdict) : state :=
  match attempts s !! p with
  | Some (mkAttempt key config Connecting) =>
      {| connections := connections s; connecting := connecting s;
         dirCache := dirCache s;
         lastHostKeyValidation := <[key := v]> (lastHostKeyValidation s);
         promises := promises s; attempts := attempts s; callers := callers s;
         dead := dead s; ended := ended s; connect_calls := connect_calls s;
         clock := clock s; next_attempt := next_attempt s;
         next_caller := next_caller s |}
  | _ => s
  end.

(** [sftp.connect] settles for attempt [p]. *)
Definition connect_done (s : state) (p : nat) (failure : option string) : state :=
  match attempts s !! p with
  | Some (mkAttempt key config Connecting) =>
      match failure with
      | None =>
          {| connections := <[key := mkConnection p config (clock s)]> (connections s);
             connecting := connecting s;
             dirCache := <[key := ∅]> (dirCache s);
             lastHostKeyValidation := delete key (lastHostKeyValidation s);
             promises := <[p := Fulfilled p]> (promises s);
             attempts := <[p := mkAttempt key config Finished]> (attempts s);
             callers := callers s; dead := dead s; ended := ended s;
             connect_calls := connect_calls s; clock := clock s;
             next_attempt := next_attempt s; next_caller := next_caller s |}
      | Some e => set_attempt s p (mkAttempt key config (Ending e)) Pending
      end
  | _ => s
  end.

(** [sftp.end()] of the [catch] block settles: the wrapped error is thrown. *)
Definition end_done (s : state) (p : nat) : state :=
  match attempts s !! p with
  | Some (mkAttempt key config (Ending e)) =>
      let s1 := set_attempt s p (mkAttempt key config Finished)
                  (Rejected (_wrapHostKeyError s key e)) in
      {| connections := connections s1; connecting := connecting s1;
         dirCache := dirCache s1; lastHostKeyValidation := lastHostKeyValidation s1;
         promises := promises s1; attempts := attempts s1; callers := callers s1;
         dead := dead s1; ended := ended s1 ++ [p]; connect_calls := connect_calls s1;
         clock := clock s1; next_attempt := next_attempt s1;
         next_caller := next_caller s1 |}
  | _ => s
  end.

(** The transport of attempt [p] emits [error]: [_handleConnectionError]. *)
Definition transport_error (s : state) (p : nat) : state :=
  match attempts s !! p with
  | Some a =>
      match connections s !! a_key a with
      | Some conn => _safeCloseConnection s (a_key a) conn
      | None => s
      end
  | None => s
  end.

(** The transport of attempt [p] emits [end] or [close]:
    [_handleConnectionClose]. *)
Definition transport_closed (s : state) (p : nat) : state :=
  match attempts s !! p with
  | Some a =>
      match connections s !! a_key a with
      | Some _ =>
          set_pool s (delete (a_key a) (connections s)) (delete (a_key a) (dirCache s))
            (ended s)
      | None => s
      end
  | None => s
  end.

(** [closeConnection(config)] up to its [await]. *)
Definition closeConnection (s : state) (config : ServerConfig) : state :=
  let key := _connectionKey config in
  match connections s !! key with
  | Some conn =>
      set_pool s (delete key (connections s)) (delete key (dirCache s))
        (ended s ++ [sftp conn])
  | None => s
  end.

(** [_cleanupIdleConnections()] *)
Definition _cleanupIdleConnections (s : state) : state :=
  map_fold
    (fun key conn acc =>
       if clock s - lastUsed conn >? maxIdleTime
       then _safeCloseConnection acc key conn else acc)
    s (connections s).

Definition socket_lost (s : state) (h : nat) : state :=
  {| connections := connections s; connecting := connecting s; dirCache := dirCache s;
     lastHostKeyValidation := lastHostKeyValidation s; promises := promises s;
     attempts := attempts s; callers := callers s; dead := {[h]} ∪ dead s;
     ended := ended s; connect_calls := connect_calls s; clock := clock s;
     next_attempt := next_attempt s; next_caller := next_caller s |}.

Definition tick (s : state) (dt : Z) : state :=
  {| connections := connections s; connecting := connecting s; dirCache := dirCache s;
     lastHostKeyValidation := lastHostKeyValidation s; promises := promises s;
     attempts := attempts s; callers := callers s; dead := dead s; ended := ended s;
     connect_calls := connect_calls s; clock := clock s + Z.max 0 dt;
     next_attempt := next_attempt s; next_caller := next_caller s |}.

(** What can happen to a manager. *)
Inductive event : Type :=
  | Call (config : ServerConfig)
  | Resume (cid : nat)
  | BuildDone (p : nat) (failure : option string)
  | HostVerified (p : nat) (v : HostTrust.verdict)
  | ConnectDone (p : nat) (failure : option string)
  | EndDone (p : nat)
  | TransportError (p : nat)
  | TransportClosed (p : nat)
  | SocketLost (h : nat)
  | CloseConnection (config : ServerConfig)
  | CleanupIdle
  | Tick (dt : Z).

Definition step (s : state) (e : event) : state :=
  match e with
  | Call config => getConnection s config
  | Resume cid => resume s cid
  | BuildDone p failure => build_done s p failure
  | HostVerified p v => host_verified s p v
  | ConnectDone p failure => connect_done s p failure
  | EndDone p => end_done s p
  | TransportError p => transport_error s p
  | TransportClosed p => transport_closed s p
  | SocketLost h => socket_lost s h
  | CloseConnection config => closeConnection s config
  | CleanupIdle => _cleanupIdleConnections s
  | Tick dt => tick s dt
  end.

Definition run (s : state) (evs : list event) : state := fold_left step evs s.

(** Event [e] in state [s] is a caller that awaited the shared promise
    of its key and resumes on its rejection: the [catch] of
    [getConnection] that deletes the registration and goes on to the
    pool and to a connect of its own. *)
Definition retries_shared (s : state) (e : event) : bool :=
  match e with
  | Resume cid =>
      match callers s !! cid with
      | Some (AwaitingShared _ _ p) =>
          match promises s !! p with
          | Some (Rejected _) => true
          | _ => false
          end
      | _ => false
      end
  | _ => false
  end.

(** No event of [evs], run from [s], is such a retry. *)
Fixpoint without_shared_retry (s : state) (evs : list event) : bool :=
  match evs with
  | [] => true
  | e :: evs' => negb (retries_shared s e) && without_shared_retry (step s e) evs'
  end.

(** The [sftp.connect] invocations made for [key]. *)
Definition connects_for (s : state) (key : string) : list nat :=
  omap (fun kp => if String.eqb (fst kp) key then Some (snd kp) else None)
    (connect_calls s).

(** Attempt [p] has not settled yet. *)
Definition in_flight (s : state) (key : string) (p : nat) : Prop :=
  exists a, attempts s !! p = Some a /\ a_key a = key /\ a_stage a <> Finished.

(** Caller [cid] is suspended on promise [p] for [key]. *)
Definition awaits (s : state) (cid : nat) (key : string) (p : nat) : Prop :=
  (exists config, callers s !! cid = Some (AwaitingShared config key p))
  \/ callers s !! cid = Some (AwaitingOwn key p).

End CM.



(** ** Connection manager: notions used to state its properties *)

Module CMSpec.

Import CM.

(** States reached from [s0] by events that [allowed] admits. *)
Inductive reaches (allowed : event -> bool) (s0 : state) : state -> Prop :=
  | reaches_refl : reaches allowed s0 s0
  | reaches_step s e :
      reaches allowed s0 s -> allowed e = true -> reaches allowed s0 (step s e).

(** The fields that the connect bookkeeping reads and writes. *)
Definition core (s : state)
    : gmap string nat * gmap nat promise_state * gmap nat attempt
      * gmap nat caller_state * list (string * nat) * nat * nat :=
  (connecting s, promises s, attempts s, callers s, connect_calls s,
   next_attempt s, next_caller s).

(** States reached from [s0] by steps that [barred] does not bar in the
    state they are taken from. *)
Inductive reaches_unless (barred : state -> event -> bool) (s0 : state) : state -> Prop :=
  | reaches_unless_refl : reaches_unless barred s0 s0
  | reaches_unless_step s e :
      reaches_unless barred s0 s -> barred s e = false ->
      reaches_unless barred s0 (step s e).

(** What holds of the bookkeeping, whatever fails, until a caller that
    awaited a shared promise resumes on its rejection. *)
Record dedup_inv (s : state) : Prop := mkDedup {
  di_registered : forall p a,
    attempts s !! p = Some a -> a_stage a <> Finished ->
    connecting s !! a_key a = Some p;
  di_promise : forall p a,
    attempts s !! p = Some a ->
    match a_stage a with
    | Building | Connecting | Ending _ => promises s !! p = Some Pending
    | Finished => exists ps, promises s !! p = Some ps /\ ps <> Pending
    end;
  di_own : forall cid k p,
    callers s !! cid = Some (AwaitingOwn k p) -> connecting s !! k = Some p;
  di_own_unique : forall cid cid' k p p',
    callers s !! cid = Some (AwaitingOwn k p) ->
    callers s !! cid' = Some (AwaitingOwn k p') -> cid = cid';
  di_shared : forall cid config k p,
    callers s !! cid = Some (AwaitingShared config k p) ->
    exists a, attempts s !! p = Some a /\ a_key a = k;
  di_connecting : forall k p,
    connecting s !! k = Some p -> exists a, attempts s !! p = Some a /\ a_key a = k;
  di_fresh_attempt : forall p, is_Some (attempts s !! p) -> (p < next_attempt s)%nat;
  di_fresh_caller : forall cid, is_Some (callers s !! cid) -> (cid < next_caller s)%nat;
  di_calls : forall k p,
    (k, p) ∈ connect_calls s ->
    exists a, attempts s !! p = Some a /\ a_key a = k /\ a_stage a <> Building;
  di_calls_once : NoDup (map snd (connect_calls s));
  di_called : forall p a,
    attempts s !! p = Some a ->
    a_stage a = Connecting \/ (exists h, promises s !! p = Some (Fulfilled h)) ->
    (a_key a, p) ∈ connect_calls s
}.

End CMSpec.



(** ** extension.js: the delete guard and [deleteFromServer] *)

Module Extension.

(** The value of the [safety.criticalRemotePaths] setting: an array; a
    falsy value ([null], [false], [0], the empty string), which
    [|| []] replaces by the empty array; or a truthy value that is not
    an array (a number, a string, [true], an object), which [|| []]
    keeps and which has no [some] method. *)
Inductive paths_setting : Type :=
  | PathArray (items : list jsval)
  | PathsFalsy
  | PathsNotArray.

(** What [getSafetyConfig()] returns; for the two switches [None] is a
    setting that is not a boolean. *)
Record SafetyConfig : Type := mkSafety {
  blockPathTraversal : option bool;
  blockCriticalDeletes : option bool;
  criticalRemotePaths : paths_setting
}.

(** [safety.criticalRemotePaths || []] when it is an array. *)
Definition listed_paths (safety : SafetyConfig) : option (list jsval) :=
  match criticalRemotePaths safety with
  | PathArray items => Some items
  | PathsFalsy => Some []
  | PathsNotArray => None
  end.

(** The TypeError of [criticalPaths.some(...)] on a value without that
    method. *)
Definition some_is_not_a_function : js_error :=
  {| err_code := ""; err_message := "criticalPaths.some is not a function" |}.

(** [{ blocked: true, reason }] or [{ blocked: false, normalized }]; or
    the error thrown out of [checkDeleteSafety]. *)
Inductive safety_result : Type :=
  | Blocked (reason : string)
  | Safe (normalized : string)
  | SafetyThrew (error : js_error).

Definition checkDeleteSafety (safety : SafetyConfig) (remotePath : jsval) : safety_result :=
  let normalized := normalizeRemotePath remotePath in
  if String.eqb normalized "/" then Blocked "Root path deletion is blocked."
  else if negb (bool_decide (blockCriticalDeletes safety = Some false)) then
    match listed_paths safety with
    | Some criticalPaths =>
        if isCriticalRemotePath (JStr normalized) criticalPaths
        then Blocked ("Critical remote path deletion is blocked: " ++ normalized)
        else Safe normalized
    | None => SafetyThrew some_is_not_a_function
    end
  else Safe normalized.

(** The closure handed to the queue by [deleteFromServer]. *)
Record delete_task : Type := mkDeleteTask {
  dt_config : ServerConfig;
  dt_relativePath : string;
  dt_guardedRemotePath : string
}.

(** The module-level objects [deleteFromServer] works on: the transfer
    queue, the connection manager, the task closures created so far (a
    closure is named by its position), and the lines appended to the
    output channel. *)
Record world : Type := mkWorld {
  transferQueue : TQ.state;
  connectionManager : CM.state;
  closures : list delete_task;
  output : list string
}.

(** What the promise of [deleteFromServer] takes:
    [{ success: false, blocked: true, reason }], the promise returned by
    [transferQueue.enqueue], or the error thrown before either. *)
Inductive delete_result : Type :=
  | DeleteBlocked (reason : string)
  | DeleteQueued (future : nat)
  | DeleteThrew (error : js_error).

(** [logTagged(tag, message)] *)
Definition logTagged (w : world) (tag message : string) : world :=
  {| transferQueue := transferQueue w; connectionManager := connectionManager w;
     closures := closures w;
     output := (output w ++ [("[" ++ tag ++ "] " ++ message)%string])%list |}.

(** [appendOperationLog(line)] *)
Definition appendOperationLog (w : world) (line : string) : world :=
  {| transferQueue := transferQueue w; connectionManager := connectionManager w;
     closures := closures w; output := (output w ++ [line])%list |}.

(** [deleteFromServer(relativePath, config, remotePath, { token })] up to
    its [return]. *)
Definition deleteFromServer (w : world) (safety : SafetyConfig) (relativePath : string)
    (config : ServerConfig) (remotePath : jsval) (token : option nat)
    : world * delete_result :=
  let serverName := server_name config in
  let label := "delete:" ++ serverName ++ ":" ++ relativePath in
  match checkDeleteSafety safety remotePath with
  | Blocked reason =>
      let w1 := logTagged w "PATH_GUARD" reason in
      let w2 := appendOperationLog w1
                  ("✗ [" ++ serverName ++ "] Delete blocked for " ++ relativePath
                   ++ ": " ++ reason) in
      (w2, DeleteBlocked reason)
  | Safe guardedRemotePath =>
      let task := length (closures w) in
      ({| transferQueue := TQ.enqueue (transferQueue w) task token label;
          connectionManager := connectionManager w;
          closures :=
            (closures w ++ [mkDeleteTask config relativePath guardedRemotePath])%list;
          output := output w |},
       DeleteQueued (TQ.next_item (transferQueue w)))
  | SafetyThrew error => (w, DeleteThrew error)
  end.

End Extension.

(** ** Concrete inputs used to exercise the statements *)

Module Demo.

Definition config : ServerConfig :=
  {| cfg_name := None; cfg_host := "files.example.org"; cfg_port := None;
     cfg_username := "deploy"; cfg_password := Some "s3cret"; cfg_passphrase := None;
     cfg_remotePath := JStr "/srv/app" |}.

Definition dirname (p : string) : string := "/var/lib/trust".

Definition storePath : string := "/var/lib/trust/host-trust-store.json".

Definition known_entry : HostTrust.entry :=
  HostTrust.mkEntry "files.example.org" 22 "SHA256:aaaa" "manual" "2024-01-01T00:00:00.000Z".

Definition known_world : HostTrust.world :=
  {| HostTrust.entries := {[ "files.example.org:22" := known_entry ]};
     HostTrust.loadedPath := Some storePath;
     HostTrust.files := ∅; HostTrust.dirs := ∅; HostTrust.log := [] |}.

(** An editor-style token: [onCancellationRequested] returns an object
    with a [dispose] method, as [createNoopToken] does. *)
Definition disposable_token : TQ.token := TQ.mkToken false true TQ.DisposeObject [].

(** A token whose registration returns a function. *)
Definition callable_token : TQ.token := TQ.mkToken false true TQ.DisposeFunction [].

Definition fired_token : TQ.token := TQ.mkToken true true TQ.DisposeFunction [].

(** One slot; two uploads sharing the token of one progress dialog. *)
Definition two_uploads : TQ.state :=
  TQ.run (TQ.init (Some (integer 1)) {[ 0%nat := disposable_token ]})
    [TQ.Enqueue 0 (Some 0%nat) "upload:a"; TQ.Enqueue 1 (Some 0%nat) "upload:b"].

(** The first upload then completes. *)
Definition first_upload_done : TQ.state :=
  TQ.settle two_uploads 0 (TQ.Resolved "ok").

(** The same with a token whose registration returns a function. *)
Definition two_cancellable : TQ.state :=
  TQ.run (TQ.init (Some (integer 1)) {[ 0%nat := callable_token; 1%nat := fired_token ]})
    [TQ.Enqueue 0 (Some 0%nat) "upload:a"; TQ.Enqueue 1 (Some 0%nat) "upload:b"].

(** A cap of 2.5, and four uploads without token. *)
Definition uploads_under_fractional_cap : list TQ.event :=
  [TQ.Enqueue 0 None "upload:a"; TQ.Enqueue 1 None "upload:b";
   TQ.Enqueue 2 None "upload:c"; TQ.Enqueue 3 None "upload:d"].

Definition four_uploads_cap_2_5 : TQ.state :=
  TQ.run (TQ.init (Some (Finite (5 # 2))) ∅) uploads_under_fractional_cap.

(** A token that is only a flag: it has no [onCancellationRequested]. *)
Definition flag_token : TQ.token := TQ.mkToken false false TQ.DisposeNull [].

(** One slot; an upload without token runs, a second one waits with the
    flag-only token. *)
Definition waiting_with_flag_token : TQ.state :=
  TQ.run (TQ.init (Some (integer 1)) {[ 0%nat := flag_token ]})
    [TQ.Enqueue 0 None "upload:a"; TQ.Enqueue 1 (Some 0%nat) "upload:b"].

Definition key : string := CM._connectionKey config.

(** Two concurrent calls for one key. *)
Definition two_calls : CM.state := CM.run CM.init [CM.Call config; CM.Call config].

(** ... whose transport connect then fails; both calls are resumed, in
    the order they suspended, and the retry of the second builds its
    options. *)
Definition two_calls_failed : CM.state :=
  CM.run two_calls
    [CM.BuildDone 0 None; CM.ConnectDone 0 (Some "connect ECONNREFUSED"); CM.EndDone 0].

Definition two_calls_retried : CM.state :=
  CM.run two_calls_failed [CM.Resume 0; CM.Resume 1; CM.BuildDone 1 None].

(** Three concurrent calls whose connect fails; after all three resume,
    the two waiters have each started a connect of their own. *)
Definition three_calls_retried : CM.state :=
  CM.run CM.init
    [CM.Call config; CM.Call config; CM.Call config;
     CM.BuildDone 0 None; CM.ConnectDone 0 (Some "connect ECONNREFUSED"); CM.EndDone 0;
     CM.Resume 0; CM.Resume 1; CM.Resume 2; CM.BuildDone 1 None; CM.BuildDone 2 None].

(** Three concurrent calls while the connect is under way. *)
Definition three_calls_connecting : CM.state :=
  CM.run CM.init [CM.Call config; CM.Call config; CM.Call config; CM.BuildDone 0 None].

(** A lone call whose connect fails and which throws; then three
    concurrent calls, the first of which connects. *)
Definition calls_after_failure : list CM.event :=
  [CM.Call config; CM.BuildDone 0 None; CM.ConnectDone 0 (Some "connect ECONNREFUSED");
   CM.EndDone 0; CM.Resume 0;
   CM.Call config; CM.Call config; CM.Call config; CM.BuildDone 1 None].

(** A safety configuration with the critical-path block switched off
    and an empty list of critical paths. *)
Definition lax_safety : Extension.SafetyConfig :=
  {| Extension.blockPathTraversal := Some false;
     Extension.blockCriticalDeletes := Some false;
     Extension.criticalRemotePaths := Extension.PathArray [] |}.

Definition fresh_world : Extension.world :=
  {| Extension.transferQueue := TQ.init (Some (integer 5)) ∅;
     Extension.connectionManager := CM.init;
     Extension.closures := []; Extension.output := [] |}.

End Demo.

(** ** Paths as lists of segments

    The meaning of the path guard in terms of segments, against which the
    embedded text-level functions are compared. *)

Module PathSpec.

(** The segments of [s] between slashes; [cur] is the segment being read. *)
Fixpoint split (s : string) (cur : string) : list string :=
  match s with
  | EmptyString => [cur]
  | String c s' =>
      if Ascii.eqb c "/" then cur :: split s' "" else split s' (cur ++ String c "")
  end.

(** Empty segments and [.] name no directory. *)
Definition segments (s : string) : list string :=
  List.filter (fun x => negb (String.eqb x "") && negb (String.eqb x ".")) (split s "").

(** Resolve [..] from the root; [above] is the path so far, innermost
    directory first. At the root [..] stays at the root. *)
Fixpoint resolve_dots (above : list string) (l : list string) : list string :=
  match l with
  | [] => rev above
  | x :: l' =>
      if String.eqb x ".." then resolve_dots (tl above) l'
      else resolve_dots (x :: above) l'
  end.

(** The directories an absolute reading of [s] passes through. *)
Definition canonical (s : string) : list string := resolve_dots [] (segments s).

Fixpoint join (l : list string) : string :=
  match l with
  | [] => ""
  | [x] => x
  | x :: l' => x ++ "/" ++ join l'
  end.

Fixpoint ends_with_slash (s : string) : bool :=
  match s with
  | EmptyString => false
  | String c EmptyString => Ascii.eqb c "/"
  | String _ s' => ends_with_slash s'
  end.

(** The normal form of a remote path: the canonical segments below the
    root, with the trailing slash of the input when any segment is left. *)
Definition normal_form (s : string) : string :=
  match canonical s with
  | [] => "/"
  | l => "/" ++ join l ++ (if ends_with_slash s then "/" else "")
  end.

Fixpoint prefix_of (a b : list string) : option (list string) :=
  match a, b with
  | [], _ => Some b
  | x :: a', y :: b' => if String.eqb x y then prefix_of a' b' else None
  | _ :: _, [] => None
  end.

(** [target] lies in [base]: its canonical segments extend those of
    [base], and the first segment below [base] does not begin with two
    dots. *)
Definition inside (base target : string) : bool :=
  match prefix_of (canonical base) (canonical target) with
  | Some [] => true
  | Some (x :: _) => negb (Str.starts_with ".." x)
  | None => false
  end.

(** What the guard is meant to answer. *)
Definition guard (base target : string) : option string :=
  if inside base target then Some (normal_form target) else None.

(** All strings over [alphabet] of length [n], and of length at most [n]. *)
Fixpoint strings_of_length (alphabet : list ascii) (n : nat) : list string :=
  match n with
  | O => [""]
  | S n' =>
      flat_map (fun s => List.map (fun c => String c s) alphabet)
        (strings_of_length alphabet n')
  end.

Fixpoint strings_up_to (alphabet : list ascii) (n : nat) : list string :=
  match n with
  | O => [""]
  | S n' => (strings_up_to alphabet n' ++ strings_of_length alphabet n)%list
  end.

(** What [assertRemotePathSafe] answers, without the error text. *)
Definition guard_of_code (base target : string) : option string :=
  match assertRemotePathSafe "/" (JStr base) (JStr target) true with
  | Returns t => Some t
  | Throws _ => None
  end.

Definition agree (base target : string) : bool :=
  match guard_of_code base target, guard base target with
  | Some a, Some b => String.eqb a b
  | None, None => true
  | _, _ => false
  end.

(** The alphabets of the exhaustive comparison: a separator, a dot and
    one or two letters produce every shape of segment the text-level
    functions distinguish. *)
Definition alphabet3 : list ascii := ["/"%char; "."%char; "a"%char].
Definition alphabet4 : list ascii := ["/"%char; "."%char; "a"%char; "b"%char].

Definition agree_on (bases targets : list string) : bool :=
  forallb (fun b => forallb (fun t => agree b t) targets) bases.

End PathSpec.

(** ** Credential store: successive calls on one store *)

Module CredentialRuns.

Import Credential.

(** [new CredentialStore({ context })] *)
Definition create (ctx : option (gmap string string)) : store :=
  {| context := ctx; didNotifyMigration := false; log := []; notified := [] |}.

(** The arguments of one call of [resolve]. *)
Record resolve_call : Type := mkCall {
  rc_config : ServerConfig;
  rc_workspaceId : string;
  rc_options : options
}.

(** Calls of [resolve] one after the other on the same store, with their
    results in call order. *)
Fixpoint resolve_all (st : store) (calls : list resolve_call) : store * list resolved :=
  match calls with
  | [] => (st, [])
  | c :: calls' =>
      let '(st1, r) := resolve st (rc_config c) (rc_workspaceId c) (rc_options c) in
      let '(st2, rs) := resolve_all st1 calls' in
      (st2, r :: rs)
  end.

(** Whether a call reported a migrated field. *)
Definition migrated_some (r : resolved) : bool :=
  negb (Nat.eqb (List.length (migratedFields r)) 0).

(** The secret fields for which a config carries a non-empty plaintext
    value, in the order of the loops. *)
Definition plaintext_fields (cfg : ServerConfig) : list field :=
  List.filter (fun f => nonempty_string (get_field cfg f)) [Password; Passphrase].

End CredentialRuns.

(** ** Transfer queue: admission count and bookkeeping of the promises *)

Module TQAccount.

Import TQ.

(** How many waiting items fit under the cap: under a finite cap, as
    many as the cap rounded up leaves room for; all of them under an
    infinite cap. *)
Definition free_slots (s : state) : nat :=
  match concurrency s with
  | Finite q =>
      Z.to_nat (Z.min (Z.of_nat (length (queue s))) (Z.max 0 (Qceiling q - activeCount s)))
  | PlusInfinity => length (queue s)
  | NaN | MinusInfinity => 0
  end.

(** The queue with another cap, before [_drain] runs. *)
Definition with_cap (s : state) (c : number) : state :=
  {| concurrency := c; queue := queue s; activeCount := activeCount s;
     items := items s; futures := futures s; tokens := tokens s;
     running := running s; log := log s; next_item := next_item s;
     uncaught := uncaught s |}.

(** Every promise [enqueue] has returned is known by its identity, and one
    that is still pending belongs to an item that waits or runs. *)
Definition accounted (s : state) : Prop :=
  (forall id, is_Some (futures s !! id) <-> (id < next_item s)%nat)
  /\ (forall id, futures s !! id = Some None -> id ∈ queue s \/ id ∈ running s).

(** The disposer of item [id] can be called: it is a function or absent. *)
Definition disposable (s : state) (id : nat) : Prop :=
  disposeCancel <$> items s !! id <> Some DisposeObject.

(** What [clearPending(reason)] rejects with. *)
Definition cleared (reason : string) : settled := Rejected (mkError "" reason).

End TQAccount.

(** ** Connection manager: what holds of the pool whatever happens *)

Module CMPool.

Import CM.

(** Reachable from a new manager by any events, failures included. *)
Definition any_event (e : event) : bool := true.

Definition reachable (s : state) : Prop := CMSpec.reaches any_event init s.


(** A pooled connection has been idle for longer than [maxIdleTime]. *)
Definition idle (s : state) (conn : connection) : bool :=
  clock s - lastUsed conn >? maxIdleTime.

End CMPool.

(** ** extension.js: suppression of repeated operations *)

Module Dedupe.

Definition OPERATION_DEDUPE_TTL_MS : Z := 1500.

(** [cleanupOperationDedupe()]; [now] is what [Date.now()] returns there. *)
Definition cleanupOperationDedupe (now : Z) (operationDedupe : gmap string Z)
    : gmap string Z :=
  filter (fun kv => ~ (now - kv.2 > OPERATION_DEDUPE_TTL_MS)) operationDedupe.

(** The key built from the operation type, the server and the path;
    nothing is escaped, so a colon inside a field is not told from a
    separator. *)
Definition operation_key (opType : string) (config : ServerConfig) (relativePath : string)
    : string :=
  opType ++ ":" ++ cfg_host config ++ ":" ++ pretty (port_or_22 config) ++ ":"
  ++ cfg_username config ++ ":" ++ relativePath.

(** [shouldSkipDuplicateOperation(opType, config, relativePath)]; [now1]
    and [now2] are the two readings of [Date.now()], in [cleanup] and in
    the function itself. A time stamp of 0 is falsy. *)
Definition shouldSkipDuplicateOperation (now1 now2 : Z) (opType : string)
    (config : ServerConfig) (relativePath : string) (operationDedupe : gmap string Z)
    : gmap string Z * bool :=
  let m := cleanupOperationDedupe now1 operationDedupe in
  let key := operation_key opType config relativePath in
  match m !! key with
  | Some lastSeen =>
      if negb (lastSeen =? 0) && (now2 - lastSeen <=? OPERATION_DEDUPE_TTL_MS)
      then (m, true)
      else (<[key := now2]> m, false)
  | None => (<[key := now2]> m, false)
  end.

(** One call with its two clock readings. *)
Record call : Type := mkCall {
  c_now1 : Z;
  c_now2 : Z;
  c_opType : string;
  c_config : ServerConfig;
  c_relativePath : string
}.

Definition c_key (c : call) : string :=
  operation_key (c_opType c) (c_config c) (c_relativePath c).

(** Successive calls on the module's map, with their answers in order. *)
Fixpoint run (m : gmap string Z) (calls : list call) : gmap string Z * list bool :=
  match calls with
  | [] => (m, [])
  | c :: calls' =>
      let '(m1, r) := shouldSkipDuplicateOperation (c_now1 c) (c_now2 c) (c_opType c)
                        (c_config c) (c_relativePath c) m in
      let '(m2, rs) := run m1 calls' in
      (m2, r :: rs)
  end.

(** The clock readings are positive and never go back; [t] is the last
    reading before the calls. *)
Fixpoint clock_advances (t : Z) (calls : list call) : Prop :=
  match calls with
  | [] => True
  | c :: calls' =>
      0 < c_now1 c /\ t <= c_now1 c /\ c_now1 c <= c_now2 c /\ clock_advances (c_now2 c) calls'
  end.

(** The answers read off the times alone: [last] holds, per key, when the
    operation was last let through; nothing is ever cleaned up. *)
Fixpoint skipped_by_time (last : gmap string Z) (calls : list call) : list bool :=
  match calls with
  | [] => []
  | c :: calls' =>
      match last !! c_key c with
      | Some t =>
          if c_now2 c - t <=? OPERATION_DEDUPE_TTL_MS
          then true :: skipped_by_time last calls'
          else false :: skipped_by_time (<[c_key c := c_now2 c]> last) calls'
      | None => false :: skipped_by_time (<[c_key c := c_now2 c]> last) calls'
      end
  end.

(** How the module's map [m] relates to the times [last] at which each
    key was last let through, at clock reading [t]: what the map holds is
    in [last], and what it has lost had expired. *)
Definition tracks (t : Z) (m last : gmap string Z) : Prop :=
  (forall k ts, m !! k = Some ts -> last !! k = Some ts /\ 0 < ts <= t)
  /\ (forall k ts, last !! k = Some ts ->
        0 < ts <= t /\ (m !! k = None -> t - ts > OPERATION_DEDUPE_TTL_MS)).

End Dedupe.

(** ** StatusBarManager (src/statusBarManager.js) *)

Module StatusBar.

Inductive op_type : Type := Upload | Download | Delete.

(** The [type] strings of the history and error records. *)
Definition type_name (t : op_type) : string :=
  match t with
  | Upload => "upload"
  | Download => "download"
  | Delete => "delete"
  end.

Inductive op_status : Type := Start | Success | Error.

Record history_record : Type := mkHistory {
  h_type : op_type;
  h_fileName : string;
  h_status : op_status;
  h_error : option string;
  h_time : Z
}.

Record error_record : Type := mkErrorRecord {
  e_type : op_type;
  e_file : string;
  e_error : option string;
  e_time : Z
}.

Record log_record : Type := mkLog {
  line : string;
  time : Z
}.

(** [this.stats] *)
Record stats_t : Type := mkStats {
  uploading : Z;
  downloading : Z;
  deleting : Z;
  totalUploaded : Z;
  totalDownloaded : Z;
  totalDeleted : Z;
  lastOperation : option string;
  errors : list error_record
}.

(** [this.statusBarItem]; [backgroundColor] is the theme colour's name. *)
Record item_t : Type := mkItem {
  text : string;
  tooltip : string;
  backgroundColor : option string;
  disposed : bool
}.

(** The manager with its status bar item and its output channel
    ([channel] holds the lines of [statusOutputChannel]). *)
Record state : Type := mkState {
  statusBarItem : item_t;
  stats : stats_t;
  currentFiles : list string;
  logLines : list log_record;
  history : list history_record;
  isOutputChannelVisible : bool;
  channel : list string;
  channel_shown : bool
}.

Definition maxLogLines : nat := 50.
Definition maxHistory : nat := 50.

Definition idle_text : string := "$(cloud) SFTP".

Definition empty_stats : stats_t :=
  {| uploading := 0; downloading := 0; deleting := 0; totalUploaded := 0;
     totalDownloaded := 0; totalDeleted := 0; lastOperation := None; errors := [] |}.

(** [new StatusBarManager(outputChannel)] *)
Definition create : state :=
  {| statusBarItem :=
       {| text := idle_text;
          tooltip := "Multi SFTP Sync - Click to view operation logs";
          backgroundColor := None; disposed := false |};
     stats := empty_stats; currentFiles := []; logLines := []; history := [];
     isOutputChannelVisible := false; channel := []; channel_shown := false |}.

Definition set_item (s : state) (it : item_t) : state :=
  {| statusBarItem := it; stats := stats s; currentFiles := currentFiles s;
     logLines := logLines s; history := history s;
     isOutputChannelVisible := isOutputChannelVisible s; channel := channel s;
     channel_shown := channel_shown s |}.

Definition set_stats (s : state) (st : stats_t) : state :=
  {| statusBarItem := statusBarItem s; stats := st; currentFiles := currentFiles s;
     logLines := logLines s; history := history s;
     isOutputChannelVisible := isOutputChannelVisible s; channel := channel s;
     channel_shown := channel_shown s |}.

Definition set_currentFiles (s : state) (l : list string) : state :=
  {| statusBarItem := statusBarItem s; stats := stats s; currentFiles := l;
     logLines := logLines s; history := history s;
     isOutputChannelVisible := isOutputChannelVisible s; channel := channel s;
     channel_shown := channel_shown s |}.

Definition set_history (s : state) (h : list history_record) : state :=
  {| statusBarItem := statusBarItem s; stats := stats s; currentFiles := currentFiles s;
     logLines := logLines s; history := h;
     isOutputChannelVisible := isOutputChannelVisible s; channel := channel s;
     channel_shown := channel_shown s |}.

(** [getIdleTooltip()] *)
Definition getIdleTooltip (s : state) : string :=
  "Multi SFTP Sync" ++ String "010" (String "010" "")
  ++ "Totals:" ++ String "010" ""
  ++ "  Uploaded: " ++ pretty (totalUploaded (stats s)) ++ " files" ++ String "010" ""
  ++ "  Downloaded: " ++ pretty (totalDownloaded (stats s)) ++ " files" ++ String "010" ""
  ++ "  Deleted: " ++ pretty (totalDeleted (stats s)) ++ " files" ++ String "010" ""
  ++ match lastOperation (stats s) with
     | Some op => if String.eqb op "" then ""
                  else String "010" "" ++ "Last operation: " ++ op
     | None => ""
     end
  ++ String "010" (String "010" "") ++ "Click to view details".

(** The busy form of the item for the verb [doing] and the count [n]. *)
Definition busy_item (s : state) (doing : string) (n : Z) : item_t :=
  let displayName :=
    match last (currentFiles s) with
    | Some currentFile => if String.eqb currentFile "" then pretty n ++ " files"
                          else currentFile
    | None => pretty n ++ " files"
    end in
  {| text := "$(sync~spin) SFTP (" ++ displayName ++ ")";
     tooltip := doing ++ ": " ++ displayName ++ String "010" ""
                ++ "Click to view operation logs";
     backgroundColor := Some "statusBarItem.warningBackground";
     disposed := disposed (statusBarItem s) |}.

(** [updateDisplay()] *)
Definition updateDisplay (s : state) : state :=
  set_item s
    (if uploading (stats s) >? 0 then busy_item s "Uploading" (uploading (stats s))
     else if downloading (stats s) >? 0 then busy_item s "Downloading" (downloading (stats s))
     else if deleting (stats s) >? 0 then busy_item s "Deleting" (deleting (stats s))
     else {| text := idle_text; tooltip := getIdleTooltip s; backgroundColor := None;
             disposed := disposed (statusBarItem s) |}).

(** [addHistory(type, fileName, status, error)]; [now] is [new Date()]. *)
Definition addHistory (s : state) (t : op_type) (fileName : string) (status : op_status)
    (error : option string) (now : Z) : state :=
  match status with
  | Start => s
  | _ =>
      let h := mkHistory t fileName status error now :: history s in
      set_history s (if (maxHistory <? length h)%nat then take maxHistory h else h)
  end.

(** [this.currentFiles.indexOf(fileName)] and [splice(index, 1)]: the
    first occurrence is removed. *)
Fixpoint remove_first (fileName : string) (l : list string) : list string :=
  match l with
  | [] => []
  | x :: l' => if String.eqb x fileName then l' else x :: remove_first fileName l'
  end.

Definition startUpload (s : state) (fileName : string) (now : Z) : state :=
  let st := stats s in
  let s1 := set_stats s
              (mkStats (uploading st + 1) (downloading st) (deleting st) (totalUploaded st)
                 (totalDownloaded st) (totalDeleted st) (lastOperation st) (errors st)) in
  let s2 := set_currentFiles s1 (currentFiles s1 ++ [fileName]) in
  updateDisplay (addHistory s2 Upload fileName Start None now).

Definition finishUpload (s : state) (fileName : string) (success : bool)
    (error : option string) (now : Z) : state :=
  let st := stats s in
  let s1 := set_stats s
              (mkStats (Z.max 0 (uploading st - 1)) (downloading st) (deleting st)
                 (totalUploaded st) (totalDownloaded st) (totalDeleted st)
                 (lastOperation st) (errors st)) in
  let s2 := set_currentFiles s1 (remove_first fileName (currentFiles s1)) in
  let st2 := stats s2 in
  let s3 :=
    if success then
      addHistory
        (set_stats s2
           (mkStats (uploading st2) (downloading st2) (deleting st2) (totalUploaded st2 + 1)
              (totalDownloaded st2) (totalDeleted st2) (Some ("Upload: " ++ fileName))
              (errors st2)))
        Upload fileName Success None now
    else
      let s' := addHistory s2 Upload fileName Error error now in
      let st' := stats s' in
      set_stats s'
        (mkStats (uploading st') (downloading st') (deleting st') (totalUploaded st')
           (totalDownloaded st') (totalDeleted st') (lastOperation st')
           (errors st' ++ [mkErrorRecord Upload fileName error now])) in
  updateDisplay s3.

Definition startDownload (s : state) (fileName : string) (now : Z) : state :=
  let st := stats s in
  let s1 := set_stats s
              (mkStats (uploading st) (downloading st + 1) (deleting st) (totalUploaded st)
                 (totalDownloaded st) (totalDeleted st) (lastOperation st) (errors st)) in
  let s2 := set_currentFiles s1 (currentFiles s1 ++ [fileName]) in
  updateDisplay (addHistory s2 Download fileName Start None now).

Definition finishDownload (s : state) (fileName : string) (success : bool)
    (error : option string) (now : Z) : state :=
  let st := stats s in
  let s1 := set_stats s
              (mkStats (uploading st) (Z.max 0 (downloading st - 1)) (deleting st)
                 (totalUploaded st) (totalDownloaded st) (totalDeleted st)
                 (lastOperation st) (errors st)) in
  let s2 := set_currentFiles s1 (remove_first fileName (currentFiles s1)) in
  let st2 := stats s2 in
  let s3 :=
    if success then
      addHistory
        (set_stats s2
           (mkStats (uploading st2) (downloading st2) (deleting st2) (totalUploaded st2)
              (totalDownloaded st2 + 1) (totalDeleted st2) (Some ("Download: " ++ fileName))
              (errors st2)))
        Download fileName Success None now
    else
      let s' := addHistory s2 Download fileName Error error now in
      let st' := stats s' in
      set_stats s'
        (mkStats (uploading st') (downloading st') (deleting st') (totalUploaded st')
           (totalDownloaded st') (totalDeleted st') (lastOperation st')
           (errors st' ++ [mkErrorRecord Download fileName error now])) in
  updateDisplay s3.

Definition startDelete (s : state) (fileName : string) (now : Z) : state :=
  let st := stats s in
  let s1 := set_stats s
              (mkStats (uploading st) (downloading st) (deleting st + 1) (totalUploaded st)
                 (totalDownloaded st) (totalDeleted st) (lastOperation st) (errors st)) in
  let s2 := set_currentFiles s1 (currentFiles s1 ++ [fileName]) in
  updateDisplay (addHistory s2 Delete fileName Start None now).

Definition finishDelete (s : state) (fileName : string) (success : bool)
    (error : option string) (now : Z) : state :=
  let st := stats s in
  let s1 := set_stats s
              (mkStats (uploading st) (downloading st) (Z.max 0 (deleting st - 1))
                 (totalUploaded st) (totalDownloaded st) (totalDeleted st)
                 (lastOperation st) (errors st)) in
  let s2 := set_currentFiles s1 (remove_first fileName (currentFiles s1)) in
  let st2 := stats s2 in
  let s3 :=
    if success then
      addHistory
        (set_stats s2
           (mkStats (uploading st2) (downloading st2) (deleting st2) (totalUploaded st2)
              (totalDownloaded st2) (totalDeleted st2 + 1) (Some ("Delete: " ++ fileName))
              (errors st2)))
        Delete fileName Success None now
    else
      let s' := addHistory s2 Delete fileName Error error now in
      let st' := stats s' in
      set_stats s'
        (mkStats (uploading st') (downloading st') (deleting st') (totalUploaded st')
           (totalDownloaded st') (totalDeleted st') (lastOperation st')
           (errors st' ++ [mkErrorRecord Delete fileName error now])) in
  updateDisplay s3.

(** [reset()] *)
Definition reset (s : state) : state :=
  updateDisplay (set_history (set_stats s empty_stats) []).

(** [dispose()] *)
Definition dispose (s : state) : state :=
  set_item s
    {| text := text (statusBarItem s); tooltip := tooltip (statusBarItem s);
       backgroundColor := backgroundColor (statusBarItem s); disposed := true |}.

(** What the item and the counters look like after every call. *)
Definition display_ok (s : state) : Prop :=
  0 <= uploading (stats s) /\ 0 <= downloading (stats s) /\ 0 <= deleting (stats s)
  /\ (text (statusBarItem s) = idle_text
      <-> uploading (stats s) + downloading (stats s) + deleting (stats s) = 0)
  /\ (backgroundColor (statusBarItem s) = None
      <-> uploading (stats s) + downloading (stats s) + deleting (stats s) = 0)
  /\ (length (history s) <= maxHistory)%nat.

Section Channel.

(** [date.toLocaleString('en-US')] and [date.toLocaleTimeString('en-US')]
    of the runtime. *)
Variable toLocaleString : Z -> string.
Variable toLocaleTimeString : Z -> string.

Definition rule : string := string_of_list_ascii (repeat "="%char 70).

(** [refreshOutputChannel()]; [now] is [new Date()]. *)
Definition refreshOutputChannel (s : state) (now : Z) : state :=
  {| statusBarItem := statusBarItem s; stats := stats s; currentFiles := currentFiles s;
     logLines := logLines s; history := history s;
     isOutputChannelVisible := isOutputChannelVisible s;
     channel :=
       [rule; "Multi SFTP Sync Operation Log"; "Updated at: " ++ toLocaleString now;
        rule; ""]
       ++ (match logLines s with
           | [] => ["  (No operation records yet)"]
           | _ => map (fun record =>
                         "[" ++ toLocaleTimeString (time record) ++ "] " ++ line record)
                    (rev (logLines s))
           end)
       ++ [""; rule];
     channel_shown := channel_shown s |}.

(** [addLogLine(logLine)]; [now] is [new Date()], read for the record and
    again when the channel is refreshed. *)
Definition addLogLine (s : state) (logLine : string) (now : Z) : state :=
  let l := mkLog logLine now :: logLines s in
  let s1 :=
    {| statusBarItem := statusBarItem s; stats := stats s; currentFiles := currentFiles s;
       logLines := if (maxLogLines <? length l)%nat then take maxLogLines l else l;
       history := history s; isOutputChannelVisible := isOutputChannelVisible s;
       channel := channel s; channel_shown := channel_shown s |} in
  if isOutputChannelVisible s1 then refreshOutputChannel s1 now else s1.

(** [showStatus()] *)
Definition showStatus (s : state) (now : Z) : state :=
  let s1 :=
    {| statusBarItem := statusBarItem s; stats := stats s; currentFiles := currentFiles s;
       logLines := logLines s; history := history s; isOutputChannelVisible := true;
       channel := channel s; channel_shown := channel_shown s |} in
  let s2 := refreshOutputChannel s1 now in
  {| statusBarItem := statusBarItem s2; stats := stats s2; currentFiles := currentFiles s2;
     logLines := logLines s2; history := history s2;
     isOutputChannelVisible := isOutputChannelVisible s2;
     channel := channel s2; channel_shown := true |}.

(** The calls made on a manager. *)
Inductive call : Type :=
  | StartUpload (fileName : string)
  | FinishUpload (fileName : string) (success : bool) (error : option string)
  | StartDownload (fileName : string)
  | FinishDownload (fileName : string) (success : bool) (error : option string)
  | StartDelete (fileName : string)
  | FinishDelete (fileName : string) (success : bool) (error : option string)
  | AddLogLine (logLine : string)
  | ShowStatus
  | Reset
  | Dispose.

(** A call at time [now]: what [new Date()] gives during the call. *)
Definition step (s : state) (c : call * Z) : state :=
  let now := c.2 in
  match c.1 with
  | StartUpload f => startUpload s f now
  | FinishUpload f ok e => finishUpload s f ok e now
  | StartDownload f => startDownload s f now
  | FinishDownload f ok e => finishDownload s f ok e now
  | StartDelete f => startDelete s f now
  | FinishDelete f ok e => finishDelete s f ok e now
  | AddLogLine l => addLogLine s l now
  | ShowStatus => showStatus s now
  | Reset => reset s
  | Dispose => dispose s
  end.

Definition run (s : state) (calls : list (call * Z)) : state := fold_left step calls s.

(** The log records of the [addLogLine] calls among [calls], newest first. *)
Definition logged (calls : list (call * Z)) : list log_record :=
  rev (omap (fun c => match c.1 with AddLogLine l => Some (mkLog l c.2) | _ => None end)
         calls).

(** Whether a call reports the successful end of an operation of type
    [t], and whether it reports a failed one. *)
Definition finished_ok (t : op_type) (c : call * Z) : bool :=
  match t, c.1 with
  | Upload, FinishUpload _ true _ => true
  | Download, FinishDownload _ true _ => true
  | Delete, FinishDelete _ true _ => true
  | _, _ => false
  end.

Definition finished_failed (c : call * Z) : option error_record :=
  match c.1 with
  | FinishUpload f false e => Some (mkErrorRecord Upload f e c.2)
  | FinishDownload f false e => Some (mkErrorRecord Download f e c.2)
  | FinishDelete f false e => Some (mkErrorRecord Delete f e c.2)
  | _ => None
  end.

(** The calls made after the last [reset]; [acc] holds the ones seen
    since the last [reset] so far. *)
Fixpoint since_reset (calls : list (call * Z)) (acc : list (call * Z)) : list (call * Z) :=
  match calls with
  | [] => acc
  | c :: calls' =>
      match c.1 with
      | Reset => since_reset calls' []
      | _ => since_reset calls' (acc ++ [c])
      end
  end.

End Channel.

End StatusBar.

(** ** Connection manager: host key verdicts and the errors of failed connects *)

Module CMHostKey.

Import CM.

(** What a caller is told after the host verifier blocked the key of
    [key] with verdict [v]. *)
Definition host_key_error (key : string) (v : HostTrust.verdict) : string :=
  if String.eqb (HostTrust.reason v) "unknown_host" then
    "Host key is unknown for " ++ key ++ ". Trust it manually or switch to TOFU mode."
  else if String.eqb (HostTrust.reason v) "mismatch" then
    "Host key mismatch for " ++ key ++ ". Expected "
    ++ default "undefined" (HostTrust.expected v) ++ ", got "
    ++ default "undefined" (HostTrust.actual v) ++ "."
  else "Host key validation failed for " ++ key ++ ".".

(** Event [e] in state [s] records a verdict for [key], or is a connect
    for [key] that succeeds. *)
Definition touches_verdict (s : state) (e : event) (key : string) : bool :=
  match e with
  | HostVerified p _ | ConnectDone p None =>
      match attempts s !! p with
      | Some (mkAttempt k _ Connecting) => String.eqb k key
      | _ => false
      end
  | _ => false
  end.

(** No event of [evs], run from [s], records a verdict for [key] or is a
    successful connect for [key]. *)
Fixpoint verdict_kept (key : string) (s : state) (evs : list event) : Prop :=
  match evs with
  | [] => True
  | e :: evs' => touches_verdict s e key = false /\ verdict_kept key (step s e) evs'
  end.

End CMHostKey.

(** ** Connection manager: the cache of remote directories (ensureDir) *)

Module DirCache.

(** [this.dirCache] maps a connection key to a [Set] object; [sets] is
    the content of every [Set] created so far, so that a [Set] captured
    before an [await] can still be written once the map no longer holds
    it. [mkdirs] lists the calls [sftp.mkdir(remoteDir, true)]. *)
Record state : Type := mkState {
  dirCache : gmap string nat;
  sets : gmap nat (gset string);
  next_set : nat;
  mkdirs : list (string * string)
}.

Definition init : state :=
  {| dirCache := ∅; sets := ∅; next_set := 0; mkdirs := [] |}.

(** [this.dirCache.set(key, new Set())] *)
Definition new_set (s : state) (key : string) : state :=
  {| dirCache := <[key := next_set s]> (dirCache s);
     sets := <[next_set s := ∅]> (sets s);
     next_set := S (next_set s); mkdirs := mkdirs s |}.

(** [this.dirCache.delete(key)] *)
Definition delete_key (s : state) (key : string) : state :=
  {| dirCache := delete key (dirCache s); sets := sets s; next_set := next_set s;
     mkdirs := mkdirs s |}.

(** [this.dirCache.clear()] *)
Definition clear (s : state) : state :=
  {| dirCache := ∅; sets := sets s; next_set := next_set s; mkdirs := mkdirs s |}.

(** [remoteDir.split('/')]; [cur] is the piece being read. *)
Fixpoint split_slash (s : string) (cur : string) : list string :=
  match s with
  | EmptyString => [cur]
  | String c s' =>
      if Ascii.eqb c "/" then cur :: split_slash s' "" else split_slash s' (cur ++ String c "")
  end.

(** [remoteDir.split('/').filter(Boolean)] *)
Definition parts (remoteDir : string) : list string :=
  List.filter (fun x => negb (String.eqb x "")) (split_slash remoteDir "").

(** The values [currentPath] takes in the loop over the parts. *)
Fixpoint current_paths (currentPath : string) (l : list string) : list string :=
  match l with
  | [] => []
  | part :: l' =>
      let currentPath' := currentPath ++ "/" ++ part in
      currentPath' :: current_paths currentPath' l'
  end.

(** [ensureDir(config, remoteDir, sftp)] up to its [await] or [return]:
    [None] when the directory is cached, else the [Set] held in [cache]
    while [sftp.mkdir] runs. *)
Definition ensureDir (s : state) (config : ServerConfig) (remoteDir : string)
    : state * option nat :=
  let key := CM._connectionKey config in
  let s1 := match dirCache s !! key with
            | Some _ => s
            | None => new_set s key
            end in
  match dirCache s1 !! key with
  | Some cache =>
      if bool_decide (remoteDir ∈ default ∅ (sets s1 !! cache)) then (s1, None)
      else ({| dirCache := dirCache s1; sets := sets s1; next_set := next_set s1;
               mkdirs := mkdirs s1 ++ [(key, remoteDir)] |}, Some cache)
  | None => (s1, None)
  end.

Definition cache_add (s : state) (cache : nat) (dirs : list string) : state :=
  {| dirCache := dirCache s;
     sets := <[cache := list_to_set dirs ∪ default ∅ (sets s !! cache)]> (sets s);
     next_set := next_set s; mkdirs := mkdirs s |}.

(** [ensureDir] after its [await]: [sftp.mkdir] succeeded ([ok]) or
    threw. *)
Definition mkdir_done (s : state) (cache : nat) (remoteDir : string) (ok : bool) : state :=
  if ok then cache_add s cache (remoteDir :: current_paths "" (parts remoteDir))
  else cache_add s cache [remoteDir].

(** What happens to the cache: a connect succeeds for [key]; the
    connection of [key] is closed or lost; [closeAll]; a call of
    [ensureDir]; the [mkdir] of an earlier call settles. *)
Inductive event : Type :=
  | Connected (key : string)
  | Closed (key : string)
  | ClosedAll
  | EnsureDir (config : ServerConfig) (remoteDir : string)
  | MkdirDone (cache : nat) (remoteDir : string) (ok : bool).

Definition step (s : state) (e : event) : state :=
  match e with
  | Connected key => new_set s key
  | Closed key => delete_key s key
  | ClosedAll => clear s
  | EnsureDir config remoteDir => (ensureDir s config remoteDir).1
  | MkdirDone cache remoteDir ok => mkdir_done s cache remoteDir ok
  end.

Definition run (s : state) (evs : list event) : state := fold_left step evs s.

(** The connection of [key] is neither replaced nor closed by [e]. *)
Definition keeps_connection (key : string) (e : event) : bool :=
  match e with
  | Connected k | Closed k => negb (String.eqb k key)
  | ClosedAll => false
  | _ => true
  end.

(** Every [Set] in the map has been created. *)
Definition wf (s : state) : Prop :=
  forall k c, dirCache s !! k = Some c -> (c < next_set s)%nat /\ is_Some (sets s !! c).

(** [cache] is the [Set] of [key] and holds at least [dirs]. *)
Definition holds (s : state) (key : string) (cache : nat) (dirs : gset string) : Prop :=
  dirCache s !! key = Some cache
  /\ exists content, sets s !! cache = Some content /\ dirs ⊆ content.

End DirCache.

(** ** DownloadManager (src/downloadManager.js): downloadFile *)

Module Download.


(** What the calls of [downloadFile] on the connection manager, the file
    system and the transport are, in order. *)
Inductive effect : Type :=
  | GetConnection (config : ServerConfig)
  | ExistsSync (dir : string)
  | MkdirSync (dir : string)
  | SftpGet (sftp : nat) (remotePath localPath : string).

(** [{ success: true, localPath }] or [{ success: false, error }] *)
Inductive download_result : Type :=
  | Succeeded (localPath : string)
  | Failed (error : string).


(** What a call did: its effects, the lines it wrote to the output
    channel, and what it returned. *)
Record call : Type := mkCall {
  effects : list effect;
  log : list string;
  result : download_result
}.


Section Runtime.

(** [process.cwd()] and [path.dirname] of the runtime; [path] is
    [path.posix], as on every host but Windows. *)
Variable cwd : string.
Variable dirname : string -> string.






End Runtime.

End Download.

(** ** Path guard: what the text-level functions compute on segments *)

Module PathSem.

Import PathSpec.

(** The string a path argument is read as. *)
Definition text (v : jsval) : string :=
  match v with
  | JStr s => s
  | JNonStr _ => ""
  end.

(** What one segment does to the path so far: [k] counts the [..] kept
    in front (only when going above the start is allowed), [above] holds
    the directories passed, innermost first. *)
Definition seg_step (allowAboveRoot : bool) (st : nat * list string) (x : string)
    : nat * list string :=
  if String.eqb x "" || String.eqb x "." then st
  else if String.eqb x ".." then
    match st.2 with
    | _ :: above' => (st.1, above')
    | [] => (if allowAboveRoot then S st.1 else st.1, [])
    end
  else (st.1, x :: st.2).

Definition process (allowAboveRoot : bool) (l : list string) : nat * list string :=
  fold_left (seg_step allowAboveRoot) l (0%nat, []).

Definition pieces (st : nat * list string) : list string := repeat ".." st.1 ++ rev st.2.

Definition render (st : nat * list string) : string := join (pieces st).

(** The length of the last piece. *)
Definition lastlen (st : nat * list string) : Z :=
  match st.2 with
  | x :: _ => Str.len x
  | [] => match st.1 with O => 0 | S _ => 2 end
  end.

Fixpoint noslash (s : string) : bool :=
  match s with
  | EmptyString => true
  | String c s' => negb (Ascii.eqb c "/") && noslash s'
  end.

(** The value of [dots] after reading the characters of [s] since the
    last separator; [d] is the value before. *)
Fixpoint dots_after (d : Z) (s : string) : Z :=
  match s with
  | EmptyString => d
  | String c s' => dots_after (if Ascii.eqb c "." && negb (d =? -1) then d + 1 else -1) s'
  end.

(** A directory name: not empty, without separator, neither [.] nor [..]. *)
Definition clean (x : string) : bool :=
  negb (String.eqb x "") && noslash x && negb (String.eqb x ".") && negb (String.eqb x "..").

(** Pieces are not empty and hold no separator. *)
Definition piece_ok (x : string) : Prop := x <> "" /\ noslash x = true.

(** Separators only. *)
Fixpoint allslash (s : string) : bool :=
  match s with
  | EmptyString => true
  | String c s' => Ascii.eqb c "/" && allslash s'
  end.

(** A piece that [segments] keeps. *)
Definition seg_ok (x : string) : Prop := piece_ok x /\ x <> ".".

Fixpoint alldots (s : string) : bool :=
  match s with
  | EmptyString => true
  | String c s' => Ascii.eqb c "." && alldots s'
  end.

(** The directories passed are names, and [..] is kept in front only
    when going above the start is allowed. *)
Definition segs_ok (allowAboveRoot : bool) (st : nat * list string) : Prop :=
  Forall (fun x => clean x = true) st.2 /\ (allowAboveRoot = false -> st.1 = 0%nat).

(** The loop variables of [normalizeString] at index [i], with [cur] read
    since the last separator and [st] made of the segments before it. *)
Definition ns_inv (i : Z) (cur : string) (st : nat * list string) (ns : Posix.ns_state)
    : Prop :=
  Posix.res ns = render st
  /\ Posix.lastSegmentLength ns = lastlen st
  /\ Posix.lastSlash ns = i - 1 - Str.len cur
  /\ Posix.dots ns = dots_after 0 cur.

Import Posix.

(** The [dots === 2] branch of [normalizeString]. *)
Definition dotdot_branch (allowAboveRoot : bool) (i : Z) (st : Posix.ns_state)
    : Posix.ns_state :=
  if (Str.len (res st) <? 2)
     || negb (lastSegmentLength st =? 2)
     || negb (Str.is_char dot (Str.char_at (res st) (Str.len (res st) - 1)))
     || negb (Str.is_char dot (Str.char_at (res st) (Str.len (res st) - 2)))
  then
    if Str.len (res st) >? 2 then
      let lastSlashIndex := Str.last_index_of (res st) slash in
      if lastSlashIndex =? -1 then
        {| res := ""; lastSegmentLength := 0; lastSlash := i; dots := 0 |}
      else
        let r := Str.slice (res st) 0 lastSlashIndex in
        {| res := r;
           lastSegmentLength := Str.len r - 1 - Str.last_index_of r slash;
           lastSlash := i; dots := 0 |}
    else if negb (Str.len (res st) =? 0) then
      {| res := ""; lastSegmentLength := 0; lastSlash := i; dots := 0 |}
    else ns_above_root allowAboveRoot i st
  else ns_above_root allowAboveRoot i st.

(** [relative] once both paths are resolved and differ. *)
Definition relative_resolved (from to : string) : string :=
  let fromStart := 1 in
  let fromEnd := Str.len from in
  let fromLen := fromEnd - fromStart in
  let toStart := 1 in
  let toLen := Str.len to - toStart in
  let length := if fromLen <? toLen then fromLen else toLen in
  let '(i, lastCommonSep) := common_go from to (Z.to_nat length) 0 (-1) in
  let early : option string :=
    if i =? length then
      if toLen >? length then
        if Str.is_char slash (Str.char_at to (toStart + i))
        then Some (Str.slice_from to (toStart + i + 1))
        else if i =? 0 then Some (Str.slice_from to (toStart + i))
        else None
      else None
    else None in
  match early with
  | Some r => r
  | None =>
      let lastCommonSep :=
        if (i =? length) && negb (toLen >? length) && (fromLen >? length) then
          if Str.is_char slash (Str.char_at from (fromStart + i)) then i
          else if i =? 0 then 0 else lastCommonSep
        else lastCommonSep in
      let start := fromStart + lastCommonSep + 1 in
      let out := ups_go from fromEnd (Z.to_nat (fromEnd - start + 1)) start "" in
      (out ++ Str.slice_from to (toStart + lastCommonSep))%string
  end.

End PathSem.

(** * Properties *)

(** ** Checks of the embedded [path.posix] against the runtime's documented results *)

Example normalize_doc : Posix.normalize "/foo/bar//baz/asdf/quux/.." = "/foo/bar/baz/asdf".
Proof. vm_compute. reflexivity. Qed.

Example normalize_above_root : Posix.normalize "../../a/b/../c" = "../../a/c".
Proof. vm_compute. reflexivity. Qed.

Example normalize_keeps_trailing : Posix.normalize "/../x/./y/" = "/x/y/".
Proof. vm_compute. reflexivity. Qed.

Example relative_doc :
  Posix.relative "/cwd" "/data/orandea/test/aaa" "/data/orandea/impl/bbb" = "../../impl/bbb".
Proof. vm_compute. reflexivity. Qed.

Example relative_to_root : Posix.relative "/cwd" "/foo/bar" "/" = "../..".
Proof. vm_compute. reflexivity. Qed.

Example relative_sibling_prefix : Posix.relative "/cwd" "/foo/bar" "/foo/barbaz" = "../barbaz".
Proof. vm_compute. reflexivity. Qed.

(** ** Path guard: lemmas *)

Section PathGuardFacts.

Lemma len_cons c s : (Str.len (String c s) =? 0) = false.
Proof. unfold Str.len. simpl String.length. apply Z.eqb_neq. lia. Qed.

Lemma normalize_of_absolute r :
  Posix.normalize (String Posix.slash r) = "/"
  \/ exists p, Posix.normalize (String Posix.slash r) = String Posix.slash p.
Proof.
  unfold Posix.normalize. rewrite len_cons.
  replace (Str.is_char Posix.slash (Str.char_at (String Posix.slash r) 0)) with true
    by reflexivity.
  cbv zeta.
  destruct (Str.len _ =? 0); [left; reflexivity|].
  right. eexists. reflexivity.
Qed.

Lemma starts_with_slash s :
  Str.starts_with "/" s = true -> exists r, s = String Posix.slash r.
Proof.
  destruct s as [|c r]; cbn [Str.starts_with]; [intros H; discriminate H|].
  destruct (Ascii.eqb_spec "/" c) as [E|E]; intros H.
  - subst c. eauto.
  - discriminate H.
Qed.

(** [normalizeRemotePath] always yields an absolute path. *)
Lemma normalizeRemotePath_absolute v :
  exists r, normalizeRemotePath v = String Posix.slash r.
Proof.
  unfold normalizeRemotePath.
  set (n := Posix.normalize _).
  destruct (Str.starts_with "/" n) eqn:Hs; simpl negb; cbv iota.
  - apply starts_with_slash in Hs. exact Hs.
  - change ("/" ++ n) with (String Posix.slash n).
    destruct (normalize_of_absolute n) as [-> | [p ->]]; eauto.
Qed.

(** On an absolute path [resolve] never consults the working directory. *)
Lemma resolve_absolute cwd r :
  Posix.resolve cwd (String Posix.slash r)
  = "/" ++ Posix.normalizeString (String Posix.slash r ++ "/") false.
Proof.
  unfold Posix.resolve. rewrite len_cons.
  replace (Str.is_char Posix.slash (Str.char_at (String Posix.slash r) 0)) with true
    by reflexivity.
  reflexivity.
Qed.

Lemma relative_absolute_cwd cwd cwd' a b :
  Posix.relative cwd (String Posix.slash a) (String Posix.slash b)
  = Posix.relative cwd' (String Posix.slash a) (String Posix.slash b).
Proof. unfold Posix.relative. rewrite !resolve_absolute. reflexivity. Qed.

(** The fallback [remotePath || '/'] does not change the normal form. *)
Lemma normalizeRemotePath_or_root v :
  normalizeRemotePath (js_or v (JStr "/")) = normalizeRemotePath v.
Proof.
  destruct v as [s|[|]]; unfold js_or; simpl js_truthy; try reflexivity.
  destruct s; reflexivity.
Qed.

End PathGuardFacts.

(** With the guard disabled the candidate is only normalized. *)
Example assertRemotePathSafe_disabled :
  assertRemotePathSafe "/" (JStr "/srv/app") (JStr "/srv/app/../../etc/passwd") false
  = Returns "/etc/passwd".
Proof. vm_compute. reflexivity. Qed.

(** The test is on the text of the relative path: a name under the base
    that itself begins with two dots makes it start with [..] as well. *)
Example assertRemotePathSafe_dotted_name :
  Posix.relative "/" "/srv/app" "/srv/app/..cache/x" = "..cache/x"
  /\ remote_escapes "/srv/app" "/srv/app/..cache/x" = true.
Proof. split; vm_compute; reflexivity. Qed.

(** A base with a trailing slash, an empty base and a missing candidate. *)
Example assertRemotePathSafe_edge_inputs :
  assertRemotePathSafe "/" (JStr "/srv/app/") (JStr "/srv/app/a//b/") true
    = Returns "/srv/app/a/b/"
  /\ assertRemotePathSafe "/" (JStr "") (JStr "etc/passwd") true = Returns "/etc/passwd"
  /\ assertRemotePathSafe "/" (JStr "/srv/app") (JNonStr false) true
     = Throws (mkError PATH_GUARD_REMOTE_TRAVERSAL
                 "Remote path traversal blocked: / is outside /srv/app").
Proof. repeat split; vm_compute; reflexivity. Qed.

(** [isCriticalRemotePath] matches whole normalized paths only. *)
Example isCriticalRemotePath_exact :
  isCriticalRemotePath (JStr "/etc") [JStr "/"; JStr "/etc"; JStr "/var"] = true
  /\ isCriticalRemotePath (JStr "/etc/app") [JStr "/"; JStr "/etc"; JStr "/var"] = false
  /\ isCriticalRemotePath (JStr "/var/../etc/.") [JStr "/"; JStr "/etc"; JStr "/var"] = true.
Proof. repeat split; vm_compute; reflexivity. Qed.

(** On every base of up to 4 characters and every candidate of up to 6
    characters over [/], [.] and [a], and on every base of up to 3 and
    candidate of up to 5 characters with a second letter, the guard returns
    exactly when the candidate's canonical segments extend the base's and
    the first segment below the base does not begin with two dots, and it
    returns the normal form of the candidate. *)
Lemma guard_agrees_with_segments :
  PathSpec.agree_on (PathSpec.strings_up_to PathSpec.alphabet3 4)
    (PathSpec.strings_up_to PathSpec.alphabet3 6) = true
  /\ PathSpec.agree_on (PathSpec.strings_up_to PathSpec.alphabet4 3)
       (PathSpec.strings_up_to PathSpec.alphabet4 5) = true.
Proof. split; vm_compute; reflexivity. Qed.

(** ** Host trust store: lemmas *)

Section HostTrustFacts.

Variable dirname : string -> string.

Lemma ensureLoaded_loadedPath storePath w :
  HostTrust.loadedPath (HostTrust._ensureLoaded dirname storePath w) = Some storePath.
Proof.
  unfold HostTrust._ensureLoaded.
  destruct (decide (HostTrust.loadedPath w = Some storePath)) as [E|E]; [exact E|].
  destruct (HostTrust.files w !! storePath) as [[| |]|]; reflexivity.
Qed.

Lemma ensureLoaded_files storePath w :
  HostTrust.files (HostTrust._ensureLoaded dirname storePath w) = HostTrust.files w.
Proof.
  unfold HostTrust._ensureLoaded.
  destruct (decide (HostTrust.loadedPath w = Some storePath)) as [E|E]; [reflexivity|].
  destruct (HostTrust.files w !! storePath) as [[| |]|]; reflexivity.
Qed.

Lemma ensureLoaded_loaded storePath w :
  HostTrust.loadedPath w = Some storePath ->
  HostTrust._ensureLoaded dirname storePath w = w.
Proof.
  intros E. unfold HostTrust._ensureLoaded.
  destruct (decide (HostTrust.loadedPath w = Some storePath)); [reflexivity|contradiction].
Qed.

Lemma ensureLoaded_idem storePath w :
  HostTrust._ensureLoaded dirname storePath (HostTrust._ensureLoaded dirname storePath w)
  = HostTrust._ensureLoaded dirname storePath w.
Proof. apply ensureLoaded_loaded, ensureLoaded_loadedPath. Qed.

(** What [trustFingerprint] leaves behind on a store that is loaded from
    [storePath]: the new entry in memory and the whole state in the file. *)
Lemma trustFingerprint_loaded storePath now cfg fp src w :
  HostTrust.loadedPath w = Some storePath ->
  let e := HostTrust.mkEntry (cfg_host cfg) (port_or_22 cfg) fp src now in
  let w' := HostTrust.trustFingerprint dirname storePath now cfg fp src w in
  HostTrust.entries w' = <[HostTrust._hostKey cfg := e]> (HostTrust.entries w)
  /\ HostTrust.files w'
     = <[storePath := HostTrust.FileState (HostTrust.entries w')]> (HostTrust.files w)
  /\ HostTrust.loadedPath w' = Some storePath.
Proof.
  intros E e w'. subst w' e. unfold HostTrust.trustFingerprint.
  rewrite (ensureLoaded_loaded _ _ E).
  unfold HostTrust._persist. cbn [HostTrust.loadedPath]. rewrite E.
  cbn. auto.
Qed.

(** On a trust state, that is a store whose file is absent, cannot be
    parsed, is rejected by the load test or holds entry records,
    [verifyFingerprint] decides by cases: policy [off] allows with
    reason [policy_off]; otherwise an unknown host is blocked as
    [unknown_host] under [strict] and trusted, stored and written to the
    file as [trusted_now] under [tofu]; a known host is allowed as [match]
    when the stored fingerprint equals the offered one and blocked as
    [mismatch], with the stored and the offered fingerprint, when not. *)
Theorem verifyFingerprint_case_analysis
    (storePath now : string) (cfg : ServerConfig) (fp pol : string) (w : HostTrust.world) :
  let w1 := HostTrust._ensureLoaded dirname storePath w in
  let key := HostTrust._hostKey cfg in
  let r := HostTrust.verifyFingerprint dirname storePath now cfg fp pol w in
  (pol = "off" ->
     r.2 = HostTrust.mkVerdict true pol "policy_off" None None None)
  /\ (pol = "strict" -> HostTrust.entries w1 !! key = None ->
        HostTrust.allowed r.2 = false /\ HostTrust.reason r.2 = "unknown_host"
        /\ HostTrust.policy r.2 = pol)
  /\ (pol = "tofu" -> HostTrust.entries w1 !! key = None ->
        r.2 = HostTrust.mkVerdict true pol "trusted_now" None None None
        /\ HostTrust.entries r.1 !! key
           = Some (HostTrust.mkEntry (cfg_host cfg) (port_or_22 cfg) fp "tofu" now)
        /\ HostTrust.files r.1 !! storePath
           = Some (HostTrust.FileState (HostTrust.entries r.1)))
  /\ (pol <> "off" -> forall e, HostTrust.entries w1 !! key = Some e ->
        HostTrust.fingerprint e = fp ->
        r.2 = HostTrust.mkVerdict true pol "match" None None None)
  /\ (pol <> "off" -> forall e, HostTrust.entries w1 !! key = Some e ->
        HostTrust.fingerprint e <> fp ->
        HostTrust.allowed r.2 = false /\ HostTrust.reason r.2 = "mismatch"
        /\ HostTrust.policy r.2 = pol
        /\ HostTrust.expected r.2 = Some (HostTrust.fingerprint e)
        /\ HostTrust.actual r.2 = Some fp).
Proof.
  intros w1 key r. subst r. unfold HostTrust.verifyFingerprint.
  fold w1. fold key.
  repeat split.
  - intros ->. reflexivity.
  - rewrite H0. subst pol. reflexivity.
  - rewrite H0. subst pol. reflexivity.
  - rewrite H0. subst pol. reflexivity.
  - subst pol. cbn [String.eqb Ascii.eqb]. rewrite H0. reflexivity.
  - subst pol. rewrite H0. cbn -[HostTrust.trustFingerprint].
    destruct (trustFingerprint_loaded storePath now cfg fp "tofu" w1
                (ensureLoaded_loadedPath storePath w)) as (He & _ & _).
    rewrite He. apply lookup_insert_eq.
  - subst pol. rewrite H0. cbn -[HostTrust.trustFingerprint].
    destruct (trustFingerprint_loaded storePath now cfg fp "tofu" w1
                (ensureLoaded_loadedPath storePath w)) as (_ & Hf & _).
    rewrite Hf. apply lookup_insert_eq.
  - intros Hoff e He Hfp.
    apply String.eqb_neq in Hoff. rewrite Hoff, He.
    apply String.eqb_eq in Hfp. rewrite Hfp. reflexivity.
  - apply String.eqb_neq in H. rewrite H, H0.
    apply String.eqb_neq in H1. rewrite H1. reflexivity.
  - apply String.eqb_neq in H. rewrite H, H0.
    apply String.eqb_neq in H1. rewrite H1. reflexivity.
  - apply String.eqb_neq in H. rewrite H, H0.
    apply String.eqb_neq in H1. rewrite H1. reflexivity.
  - apply String.eqb_neq in H. rewrite H, H0.
    apply String.eqb_neq in H1. rewrite H1. reflexivity.
  - apply String.eqb_neq in H. rewrite H, H0.
    apply String.eqb_neq in H1. rewrite H1. reflexivity.
Qed.

(** C4. Under [strict], verifying an unknown host only performs the lazy
    load: no entry is added in memory, no file is written, and on a store
    that is already loaded nothing changes at all. *)
Theorem verifyFingerprint_strict_unknown_frame
    (storePath now : string) (cfg : ServerConfig) (fp : string) (w : HostTrust.world) :
  HostTrust.entries (HostTrust._ensureLoaded dirname storePath w) !! HostTrust._hostKey cfg
    = None ->
  let r := HostTrust.verifyFingerprint dirname storePath now cfg fp "strict" w in
  r.1 = HostTrust._ensureLoaded dirname storePath w
  /\ HostTrust.entries r.1 !! HostTrust._hostKey cfg = None
  /\ HostTrust.files r.1 = HostTrust.files w
  /\ (HostTrust.loadedPath w = Some storePath -> r.1 = w)
  /\ HostTrust.allowed r.2 = false
  /\ HostTrust.reason r.2 = "unknown_host".
Proof.
  intros Hnone r. subst r. unfold HostTrust.verifyFingerprint.
  cbn [String.eqb Ascii.eqb]. rewrite Hnone. cbn [fst snd].
  repeat split.
  - exact Hnone.
  - apply ensureLoaded_files.
  - apply ensureLoaded_loaded.
Qed.

End HostTrustFacts.

Lemma verifyFingerprint_case_analysis_witness :
  (HostTrust.verifyFingerprint Demo.dirname Demo.storePath "t0" Demo.config
     "SHA256:aaaa" "off" (HostTrust.init ∅ ∅)).2
   = HostTrust.mkVerdict true "off" "policy_off" None None None
  /\ HostTrust.reason
       (HostTrust.verifyFingerprint Demo.dirname Demo.storePath "t0" Demo.config
          "SHA256:aaaa" "strict" (HostTrust.init ∅ ∅)).2 = "unknown_host"
  /\ (HostTrust.verifyFingerprint Demo.dirname Demo.storePath "t0" Demo.config
        "SHA256:aaaa" "tofu" (HostTrust.init ∅ ∅)).2
     = HostTrust.mkVerdict true "tofu" "trusted_now" None None None
  /\ (HostTrust.verifyFingerprint Demo.dirname Demo.storePath "t0" Demo.config
        "SHA256:aaaa" "tofu" Demo.known_world).2
     = HostTrust.mkVerdict true "tofu" "match" None None None
  /\ HostTrust.expected
       (HostTrust.verifyFingerprint Demo.dirname Demo.storePath "t0" Demo.config
          "SHA256:bbbb" "tofu" Demo.known_world).2 = Some "SHA256:aaaa".
Proof.
  split; [|split; [|split; [|split]]].
  - apply (verifyFingerprint_case_analysis Demo.dirname Demo.storePath "t0" Demo.config
             "SHA256:aaaa" "off" (HostTrust.init ∅ ∅)).
    reflexivity.
  - apply (verifyFingerprint_case_analysis Demo.dirname Demo.storePath "t0" Demo.config
             "SHA256:aaaa" "strict" (HostTrust.init ∅ ∅)); vm_compute; reflexivity.
  - apply (verifyFingerprint_case_analysis Demo.dirname Demo.storePath "t0" Demo.config
             "SHA256:aaaa" "tofu" (HostTrust.init ∅ ∅)); vm_compute; reflexivity.
  - apply (proj1 (proj2 (proj2 (proj2
             (verifyFingerprint_case_analysis Demo.dirname Demo.storePath "t0" Demo.config
                "SHA256:aaaa" "tofu" Demo.known_world)))))
      with (e := Demo.known_entry); [discriminate | vm_compute; reflexivity | reflexivity].
  - apply (proj2 (proj2 (proj2 (proj2
             (verifyFingerprint_case_analysis Demo.dirname Demo.storePath "t0" Demo.config
                "SHA256:bbbb" "tofu" Demo.known_world)))))
      with (e := Demo.known_entry); [discriminate | vm_compute; reflexivity | discriminate].
Defined.

Lemma verifyFingerprint_strict_unknown_frame_witness :
  (HostTrust.verifyFingerprint Demo.dirname Demo.storePath "t0" Demo.config
     "SHA256:aaaa" "strict" (HostTrust.init ∅ ∅)).1
  = HostTrust._ensureLoaded Demo.dirname Demo.storePath (HostTrust.init ∅ ∅)
  /\ HostTrust.files
       (HostTrust.verifyFingerprint Demo.dirname Demo.storePath "t0" Demo.config
          "SHA256:aaaa" "strict" (HostTrust.init ∅ ∅)).1 = ∅.
Proof.
  pose proof (verifyFingerprint_strict_unknown_frame Demo.dirname Demo.storePath "t0"
                Demo.config "SHA256:aaaa" (HostTrust.init ∅ ∅)) as H.
  cbv zeta in H.
  assert (Hnone : HostTrust.entries
            (HostTrust._ensureLoaded Demo.dirname Demo.storePath (HostTrust.init ∅ ∅))
            !! HostTrust._hostKey Demo.config = None) by (vm_compute; reflexivity).
  destruct (H Hnone) as (H1 & _ & H3 & _).
  split; [exact H1 | exact H3].
Defined.

(** ** Credential store: lemmas *)

Section CredentialFacts.

Import Credential CredentialSpec.

Lemma append_inv_head (p a b : string) : p ++ a = p ++ b -> a = b.
Proof. induction p as [|c p IH]; cbn; intros H; [exact H|]. injection H. exact IH. Qed.

Lemma secretKey_field_inj ws cfg f g : _secretKey ws cfg f = _secretKey ws cfg g -> f = g.
Proof.
  unfold _secretKey. cbv zeta. intros H.
  repeat (apply append_inv_head in H).
  destruct f, g; try reflexivity; discriminate H.
Qed.

Lemma get_set_field_same c f v : get_field (set_field c f v) f = Some v.
Proof. destruct f; reflexivity. Qed.

Lemma get_set_field_other c f g v : f <> g -> get_field (set_field c f v) g = get_field c g.
Proof. destruct f, g; intros H; try reflexivity; contradiction. Qed.

Lemma nonempty_string_Some v s : v = Some s -> s <> "" -> nonempty_string v = true.
Proof. intros -> Hs. cbn. apply String.eqb_neq in Hs. rewrite Hs. reflexivity. Qed.

Lemma nonempty_string_inv v :
  nonempty_string v = true -> exists s, v = Some s /\ s <> "".
Proof.
  destruct v as [s|]; cbn; [|discriminate].
  destruct (String.eqb_spec s ""); [discriminate|]. eauto.
Qed.

Lemma resolve_field_no_overwrite ws cfg am acc f sec :
  context (acc_store acc) = Some sec ->
  let acc' := resolve_field ws cfg am false acc f in
  context (acc_store acc') = Some (secrets_after sec ws cfg am f)
  /\ didNotifyMigration (acc_store acc') = didNotifyMigration (acc_store acc)
  /\ acc_migrated acc' = (acc_migrated acc ++ (if migrates sec ws cfg am f then [f] else []))%list
  /\ acc_result acc' = apply_value (acc_result acc) f (resolved_value sec ws cfg am f).
Proof.
  intros Hctx acc'. subst acc'.
  unfold resolve_field, secrets_after, resolved_value, migrates, secrets_get.
  cbv zeta. rewrite Hctx.
  destruct (nonempty_string (sec !! _secretKey ws cfg f)) eqn:Hsec; cbn [negb andb].
  - apply nonempty_string_inv in Hsec as (s & -> & _).
    cbn. rewrite app_nil_r. auto.
  - rewrite (bool_decide_eq_true_2 (is_Some (Some sec))) by eauto.
    rewrite andb_true_r.
    destruct (nonempty_string (get_field cfg f) && am) eqn:Hplain.
    + apply andb_prop in Hplain as [Hplain _].
      apply nonempty_string_inv in Hplain as (p & -> & _).
      cbn. rewrite Hctx. cbn. auto.
    + cbn. rewrite app_nil_r. auto.
Qed.

Lemma secrets_after_other sec ws cfg am f g :
  f <> g -> secrets_after sec ws cfg am f !! _secretKey ws cfg g = sec !! _secretKey ws cfg g.
Proof.
  intros Hne. unfold secrets_after.
  destruct (migrates sec ws cfg am f); [|reflexivity].
  apply lookup_insert_ne. intros E. apply Hne. eapply secretKey_field_inj, E.
Qed.

Lemma secrets_after_same sec ws cfg am f :
  secrets_after sec ws cfg am f !! _secretKey ws cfg f
  = if migrates sec ws cfg am f then get_field cfg f else sec !! _secretKey ws cfg f.
Proof.
  unfold secrets_after.
  destruct (migrates sec ws cfg am f) eqn:Hm; [|reflexivity].
  rewrite lookup_insert_eq.
  unfold migrates in Hm. apply andb_prop in Hm as [Hm _]. apply andb_prop in Hm as [_ Hm].
  apply nonempty_string_inv in Hm as (p & -> & _). reflexivity.
Qed.

(** After one iteration for [f], a further iteration for [f] has nothing
    left to migrate. *)
Lemma migrates_after_same sec ws cfg am f :
  migrates (secrets_after sec ws cfg am f) ws cfg am f = false.
Proof.
  unfold migrates at 1. rewrite secrets_after_same.
  destruct (migrates sec ws cfg am f) eqn:Hm.
  - unfold migrates in Hm. apply andb_prop in Hm as [Hm _]. apply andb_prop in Hm as [_ Hm].
    rewrite Hm. reflexivity.
  - exact Hm.
Qed.

Lemma migrates_other sec ws cfg am f g :
  f <> g -> migrates (secrets_after sec ws cfg am f) ws cfg am g = migrates sec ws cfg am g.
Proof. intros Hne. unfold migrates. rewrite secrets_after_other by exact Hne. reflexivity. Qed.

Lemma resolved_value_after_same sec ws cfg am f :
  (nonempty_string (sec !! _secretKey ws cfg f) || migrates sec ws cfg am f = true ->
   resolved_value (secrets_after sec ws cfg am f) ws cfg am f = resolved_value sec ws cfg am f)
  /\ (nonempty_string (sec !! _secretKey ws cfg f) || migrates sec ws cfg am f = false ->
      resolved_value (secrets_after sec ws cfg am f) ws cfg am f = None
      /\ resolved_value sec ws cfg am f = None).
Proof.
  unfold resolved_value at 1 3. rewrite migrates_after_same, secrets_after_same.
  unfold resolved_value.
  destruct (nonempty_string (sec !! _secretKey ws cfg f)) eqn:Hs.
  - assert (Hm : migrates sec ws cfg am f = false) by (unfold migrates; rewrite Hs; reflexivity).
    rewrite Hm, Hs. split; [reflexivity|discriminate].
  - destruct (migrates sec ws cfg am f) eqn:Hm; cbn [orb].
    + split; [|discriminate]. intros _.
      unfold migrates in Hm. apply andb_prop in Hm as [Hm _]. apply andb_prop in Hm as [_ Hm].
      rewrite Hm. reflexivity.
    + rewrite Hs. split; [discriminate|auto].
Qed.

End CredentialFacts.

Section ResolveFacts.

Import Credential CredentialSpec.

Lemma resolved_value_other sec ws cfg am f g :
  f <> g ->
  resolved_value (secrets_after sec ws cfg am f) ws cfg am g = resolved_value sec ws cfg am g.
Proof.
  intros Hne. unfold resolved_value.
  rewrite migrates_other, secrets_after_other by exact Hne. reflexivity.
Qed.

(** [resolve] without [overwrite], as two iterations over the secrets. *)
Lemma resolve_no_overwrite st cfg ws opts sec :
  context st = Some sec ->
  overwrite opts <> Some true ->
  let am := negb (bool_decide (autoMigrate opts = Some false)) in
  let sec1 := secrets_after sec ws cfg am Password in
  let sec2 := secrets_after sec1 ws cfg am Passphrase in
  let r := resolve st cfg ws opts in
  context r.1 = Some sec2
  /\ migratedFields r.2
     = ((if migrates sec ws cfg am Password then [Password] else [])
        ++ (if migrates sec1 ws cfg am Passphrase then [Passphrase] else []))%list
  /\ config r.2
     = apply_value (apply_value cfg Password (resolved_value sec ws cfg am Password))
         Passphrase (resolved_value sec1 ws cfg am Passphrase).
Proof.
  intros Hctx Hov am sec1 sec2 r. subst r. unfold resolve. cbv zeta.
  rewrite (bool_decide_eq_false_2 _ Hov). fold am. cbn [fold_left].
  set (acc0 := {| acc_store := st; acc_result := cfg; acc_migrated := [] |}).
  destruct (resolve_field_no_overwrite ws cfg am acc0 Password sec Hctx)
    as (Hc1 & _ & Hm1 & Hr1).
  set (acc1 := resolve_field ws cfg am false acc0 Password) in *.
  destruct (resolve_field_no_overwrite ws cfg am acc1 Passphrase sec1 Hc1)
    as (Hc2 & _ & Hm2 & Hr2).
  set (acc2 := resolve_field ws cfg am false acc1 Passphrase) in *.
  cbn [fst snd config migratedFields].
  split; [|split].
  - destruct (_ && _); cbn [context]; exact Hc2.
  - rewrite Hm2, Hm1. reflexivity.
  - rewrite Hr2, Hr1. reflexivity.
Qed.

(** C7. With a secret storage and no [overwrite], [resolve] treats each
    of [password] and [passphrase] alike: a non-empty stored secret is
    used and the field is not migrated; failing that, a non-empty
    plaintext value is stored, used and listed as migrated when
    [autoMigrate] is enabled; a second call then migrates nothing, leaves
    the storage alone and returns the stored values. *)
Theorem resolve_prefers_secret_then_migrates
    (st : store) (cfg : ServerConfig) (ws : string) (opts : options)
    (sec : gmap string string) :
  context st = Some sec ->
  overwrite opts <> Some true ->
  let r := resolve st cfg ws opts in
  let r2 := resolve r.1 cfg ws opts in
  (forall f v, sec !! _secretKey ws cfg f = Some v -> v <> "" ->
     get_field (config r.2) f = Some v
     /\ (f ∉ migratedFields (snd r))
     /\ secrets_get r.1 (_secretKey ws cfg f) = Some v)
  /\ (forall f p, nonempty_string (sec !! _secretKey ws cfg f) = false ->
        get_field cfg f = Some p -> p <> "" -> autoMigrate opts <> Some false ->
        secrets_get r.1 (_secretKey ws cfg f) = Some p
        /\ get_field (config r.2) f = Some p
        /\ f ∈ migratedFields r.2)
  /\ (migratedFields r2.2 = []
      /\ context r2.1 = context r.1
      /\ config r2.2 = config r.2
      /\ forall f v, secrets_get r.1 (_secretKey ws cfg f) = Some v -> v <> "" ->
           get_field (config r2.2) f = Some v).
Proof.
  intros Hctx Hov r r2.
  set (am := negb (bool_decide (autoMigrate opts = Some false))).
  set (sec1 := secrets_after sec ws cfg am Password).
  set (sec2 := secrets_after sec1 ws cfg am Passphrase).
  destruct (resolve_no_overwrite st cfg ws opts sec Hctx Hov) as (Hc & Hm & Hr).
  fold am sec1 sec2 r in Hc, Hm, Hr.
  assert (Hne : Password <> Passphrase) by discriminate.
  assert (Hne' : Passphrase <> Password) by discriminate.
  assert (Hget : forall k, secrets_get r.1 k = sec2 !! k).
  { intros k. unfold secrets_get. rewrite Hc. reflexivity. }
  (* the first call, field by field *)
  assert (Ha : forall f v, sec !! _secretKey ws cfg f = Some v -> v <> "" ->
     get_field (config r.2) f = Some v /\ (f ∉ migratedFields (snd r))
     /\ sec2 !! _secretKey ws cfg f = Some v).
  { intros f v Hv Hnv.
    pose proof (nonempty_string_Some _ _ Hv Hnv) as Hs.
    rewrite Hr, Hm. destruct f.
    - assert (Hmig : migrates sec ws cfg am Password = false)
        by (unfold migrates; rewrite Hs; reflexivity).
      assert (Hrv : resolved_value sec ws cfg am Password = Some v)
        by (unfold resolved_value; rewrite Hs; exact Hv).
      rewrite Hmig, Hrv. cbn [apply_value app].
      split; [|split].
      + destruct (resolved_value sec1 ws cfg am Passphrase); cbn [apply_value];
          [rewrite get_set_field_other by exact Hne'|]; apply get_set_field_same.
      + destruct (migrates sec1 ws cfg am Passphrase); [|apply not_elem_of_nil].
        intros Hin. apply list_elem_of_singleton in Hin. discriminate Hin.
      + unfold sec2. rewrite secrets_after_other by exact Hne'.
        unfold sec1, secrets_after. rewrite Hmig. exact Hv.
    - assert (Hv1 : sec1 !! _secretKey ws cfg Passphrase = Some v)
        by (unfold sec1; rewrite secrets_after_other by exact Hne; exact Hv).
      pose proof (nonempty_string_Some _ _ Hv1 Hnv) as Hs1.
      assert (Hmig : migrates sec1 ws cfg am Passphrase = false)
        by (unfold migrates; rewrite Hs1; reflexivity).
      assert (Hrv : resolved_value sec1 ws cfg am Passphrase = Some v)
        by (unfold resolved_value; rewrite Hs1; exact Hv1).
      rewrite Hmig, Hrv. cbn [apply_value]. rewrite app_nil_r.
      split; [|split].
      + apply get_set_field_same.
      + destruct (migrates sec ws cfg am Password); [|apply not_elem_of_nil].
        intros Hin. apply list_elem_of_singleton in Hin. discriminate Hin.
      + unfold sec2, secrets_after. rewrite Hmig. exact Hv1. }
  assert (Hb : forall f p, nonempty_string (sec !! _secretKey ws cfg f) = false ->
        get_field cfg f = Some p -> p <> "" -> am = true ->
        sec2 !! _secretKey ws cfg f = Some p
        /\ get_field (config r.2) f = Some p /\ f ∈ migratedFields r.2).
  { intros f p Hs Hp Hnp Ham.
    pose proof (nonempty_string_Some _ _ Hp Hnp) as Hpl.
    rewrite Hr, Hm. destruct f.
    - assert (Hmig : migrates sec ws cfg am Password = true)
        by (unfold migrates; rewrite Hs, Hpl, Ham; reflexivity).
      assert (Hrv : resolved_value sec ws cfg am Password = Some p)
        by (unfold resolved_value; rewrite Hs, Hmig; exact Hp).
      rewrite Hmig, Hrv. cbn [apply_value].
      split; [|split].
      + unfold sec2. rewrite secrets_after_other by exact Hne'.
        unfold sec1. rewrite secrets_after_same, Hmig. exact Hp.
      + destruct (resolved_value sec1 ws cfg am Passphrase); cbn [apply_value];
          [rewrite get_set_field_other by exact Hne'|]; apply get_set_field_same.
      + apply elem_of_app. left. apply list_elem_of_singleton. reflexivity.
    - assert (Hs1 : nonempty_string (sec1 !! _secretKey ws cfg Passphrase) = false)
        by (unfold sec1; rewrite secrets_after_other by exact Hne; exact Hs).
      assert (Hmig : migrates sec1 ws cfg am Passphrase = true)
        by (unfold migrates; rewrite Hs1, Hpl, Ham; reflexivity).
      assert (Hrv : resolved_value sec1 ws cfg am Passphrase = Some p)
        by (unfold resolved_value; rewrite Hs1, Hmig; exact Hp).
      rewrite Hmig, Hrv. cbn [apply_value].
      split; [|split].
      + unfold sec2. rewrite secrets_after_same, Hmig. exact Hp.
      + apply get_set_field_same.
      + apply elem_of_app. right. apply list_elem_of_singleton. reflexivity. }
  (* the second call *)
  destruct (resolve_no_overwrite r.1 cfg ws opts sec2 Hc Hov) as (Hc2 & Hm2 & Hr2).
  fold am r2 in Hc2, Hm2, Hr2.
  assert (Hmp : migrates sec2 ws cfg am Password = false).
  { unfold sec2. rewrite migrates_other by exact Hne'. apply migrates_after_same. }
  assert (Hs3 : secrets_after sec2 ws cfg am Password = sec2)
    by (unfold secrets_after at 1; rewrite Hmp; reflexivity).
  rewrite Hs3 in Hc2, Hm2, Hr2.
  assert (Hmq : migrates sec2 ws cfg am Passphrase = false) by apply migrates_after_same.
  assert (Hs4 : secrets_after sec2 ws cfg am Passphrase = sec2)
    by (unfold secrets_after at 1; rewrite Hmq; reflexivity).
  rewrite Hs4 in Hc2. rewrite Hmp, Hmq in Hm2.
  assert (Hcfg : config r2.2 = config r.2).
  { rewrite Hr2, Hr.
    assert (E2 : apply_value (apply_value cfg Password (resolved_value sec2 ws cfg am Password))
               Passphrase (resolved_value sec2 ws cfg am Passphrase)
             = apply_value (apply_value cfg Password (resolved_value sec ws cfg am Password))
               Passphrase (resolved_value sec1 ws cfg am Passphrase));
      [|exact E2].
    unfold sec2 at 1. rewrite resolved_value_other by exact Hne'.
    destruct (resolved_value_after_same sec ws cfg am Password) as [Hp1 Hp0].
    destruct (resolved_value_after_same sec1 ws cfg am Passphrase) as [Hq1 Hq0].
    fold sec1 in Hp1, Hp0. fold sec2 in Hq1, Hq0.
    destruct (nonempty_string (sec !! _secretKey ws cfg Password)
              || migrates sec ws cfg am Password);
      destruct (nonempty_string (sec1 !! _secretKey ws cfg Passphrase)
                || migrates sec1 ws cfg am Passphrase).
    - rewrite Hp1, Hq1 by reflexivity. reflexivity.
    - destruct (Hq0 eq_refl) as [-> ->]. rewrite Hp1 by reflexivity. reflexivity.
    - destruct (Hp0 eq_refl) as [-> ->]. rewrite Hq1 by reflexivity. reflexivity.
    - destruct (Hp0 eq_refl) as [-> ->]. destruct (Hq0 eq_refl) as [-> ->]. reflexivity. }
  split; [|split; [|repeat split]].
  - intros f v Hv Hnv. rewrite Hget. apply Ha; assumption.
  - intros f p Hs Hp Hnp Ham. rewrite Hget. apply Hb; try assumption.
    unfold am. rewrite bool_decide_eq_false_2 by exact Ham. reflexivity.
  - exact Hm2.
  - rewrite Hc2, Hc. reflexivity.
  - exact Hcfg.
  - intros f v Hv Hnv. rewrite Hget in Hv.
    pose proof (nonempty_string_Some _ _ Hv Hnv) as Hs.
    rewrite Hr2. destruct f.
    + assert (Hrv : resolved_value sec2 ws cfg am Password = Some v)
        by (unfold resolved_value; rewrite Hs; exact Hv).
      rewrite Hrv. cbn [apply_value].
      destruct (resolved_value sec2 ws cfg am Passphrase); cbn [apply_value];
        [rewrite get_set_field_other by exact Hne'|]; apply get_set_field_same.
    + assert (Hrv : resolved_value sec2 ws cfg am Passphrase = Some v)
        by (unfold resolved_value; rewrite Hs; exact Hv).
      rewrite Hrv. cbn [apply_value]. apply get_set_field_same.
Qed.

End ResolveFacts.

Lemma resolve_prefers_secret_then_migrates_witness :
  let r := Credential.resolve CredentialSpec.empty_store Demo.config "ws"
             CredentialSpec.no_options in
  Credential.secrets_get r.1
    (Credential._secretKey "ws" Demo.config Credential.Password) = Some "s3cret"
  /\ Credential.get_field (Credential.config r.2) Credential.Password = Some "s3cret"
  /\ Credential.Password ∈ Credential.migratedFields r.2
  /\ Credential.migratedFields
       (Credential.resolve r.1 Demo.config "ws" CredentialSpec.no_options).2 = [].
Proof.
  destruct (resolve_prefers_secret_then_migrates CredentialSpec.empty_store Demo.config
              "ws" CredentialSpec.no_options ∅ eq_refl ltac:(discriminate))
    as (_ & Hb & Hc & _).
  destruct (Hb Credential.Password "s3cret" eq_refl eq_refl ltac:(discriminate)
              ltac:(discriminate)) as (H1 & H2 & H3).
  repeat split; assumption.
Defined.

Section MigrateFacts.

Import Credential CredentialSpec.

Lemma migrate_field_stored ws cfg st n f :
  nonempty_string (get_field cfg f) = true ->
  nonempty_string (secrets_get st (_secretKey ws cfg f)) = true ->
  migrate_field ws cfg false (st, n) f = (st, n).
Proof.
  intros Hp Hs. unfold migrate_field. rewrite Hp, Hs. cbn [negb orb andb].
  destruct (bool_decide _); reflexivity.
Qed.

Lemma migrate_field_keeps ws cfg st n f :
  (nonempty_string (get_field cfg f) = true ->
   nonempty_string (secrets_get st (_secretKey ws cfg f)) = true) ->
  migrate_field ws cfg false (st, n) f = (st, n).
Proof.
  intros H. destruct (nonempty_string (get_field cfg f)) eqn:Hp.
  - apply migrate_field_stored; auto.
  - unfold migrate_field. rewrite Hp. reflexivity.
Qed.

Lemma migrateFromPlaintext_keep_existing st cfg ws am :
  all_stored st ws cfg ->
  migrateFromPlaintext st cfg ws {| autoMigrate := am; overwrite := Some false |} = (st, 0).
Proof.
  intros Hall. unfold migrateFromPlaintext. cbn [overwrite].
  rewrite bool_decide_eq_true_2 by reflexivity. cbn [negb fold_left].
  rewrite !migrate_field_keeps by (intros; apply Hall; assumption). reflexivity.
Qed.

Lemma migrateAll_keep_existing st cfgs ws am :
  Forall (all_stored st ws) cfgs ->
  migrateAll st cfgs ws {| autoMigrate := am; overwrite := Some false |} = (st, 0).
Proof.
  unfold migrateAll. generalize 0 as n.
  induction cfgs as [|cfg cfgs IH]; intros n Hall; [reflexivity|].
  apply Forall_cons in Hall as [Hc Hall].
  cbn [fold_left fst snd]. rewrite (migrateFromPlaintext_keep_existing _ _ _ _ Hc).
  rewrite Z.add_0_r. apply IH, Hall.
Qed.

(** Storing never empties a key: a non-empty secret stays non-empty. *)
Lemma migrate_field_mono ws cfg ow st n f k :
  nonempty_string (secrets_get st k) = true ->
  nonempty_string (secrets_get (migrate_field ws cfg ow (st, n) f).1 k) = true.
Proof.
  intros Hk. unfold migrate_field.
  destruct (nonempty_string (get_field cfg f)) eqn:Hp; cbn [negb orb]; [|exact Hk].
  destruct (bool_decide (is_Some (context st))); cbn [negb]; [|exact Hk].
  destruct (negb ow && _); [exact Hk|]. cbn [fst].
  unfold secrets_get, secrets_store in *. cbn [context].
  destruct (context st) as [sec|]; [|discriminate Hk]. cbn [fmap option_fmap option_map].
  destruct (decide (_secretKey ws cfg f = k)) as [<-|Hne].
  - rewrite lookup_insert_eq.
    apply nonempty_string_inv in Hp as (p & -> & Hne). cbn [default].
    eapply nonempty_string_Some; eauto.
  - rewrite lookup_insert_ne by exact Hne. exact Hk.
Qed.

Lemma migrate_field_context ws cfg ow st n f :
  is_Some (context st) -> is_Some (context (migrate_field ws cfg ow (st, n) f).1).
Proof.
  intros [sec Hs]. unfold migrate_field. rewrite Hs.
  destruct (_ || _); [cbn; rewrite Hs; eauto|].
  destruct (_ && _); cbn; rewrite Hs; cbn; eauto.
Qed.

(** One iteration leaves its own field stored. *)
Lemma migrate_field_stores ws cfg ow st n f :
  is_Some (context st) ->
  nonempty_string (get_field cfg f) = true ->
  nonempty_string (secrets_get (migrate_field ws cfg ow (st, n) f).1 (_secretKey ws cfg f))
  = true.
Proof.
  intros [sec Hs] Hp. unfold migrate_field. rewrite Hp, Hs.
  rewrite bool_decide_eq_true_2 by eauto. cbn [negb orb].
  destruct (negb ow && _) eqn:Hk.
  - apply andb_prop in Hk as [_ Hk]. exact Hk.
  - cbn [fst]. unfold secrets_get, secrets_store. cbn [context]. rewrite Hs.
    cbn [fmap option_fmap option_map]. rewrite lookup_insert_eq.
    apply nonempty_string_inv in Hp as (p & -> & Hne). cbn [default].
    eapply nonempty_string_Some; eauto.
Qed.

Lemma migrateFromPlaintext_mono st cfg ws opts k :
  nonempty_string (secrets_get st k) = true ->
  nonempty_string (secrets_get (migrateFromPlaintext st cfg ws opts).1 k) = true.
Proof.
  intros Hk. unfold migrateFromPlaintext. cbn [fold_left].
  set (ow := negb _).
  destruct (migrate_field ws cfg ow (st, 0) Password) as [st1 n1] eqn:E1.
  apply migrate_field_mono.
  change st1 with (st1, n1).1. rewrite <- E1. apply migrate_field_mono, Hk.
Qed.

Lemma migrateFromPlaintext_context st cfg ws opts :
  is_Some (context st) -> is_Some (context (migrateFromPlaintext st cfg ws opts).1).
Proof.
  intros Hs. unfold migrateFromPlaintext. cbn [fold_left].
  set (ow := negb _).
  destruct (migrate_field ws cfg ow (st, 0) Password) as [st1 n1] eqn:E1.
  apply migrate_field_context.
  change st1 with (st1, n1).1. rewrite <- E1. apply migrate_field_context, Hs.
Qed.

(** A first call, whatever its options, stores every plaintext field. *)
Lemma migrateFromPlaintext_all_stored st cfg ws opts :
  is_Some (context st) ->
  all_stored (migrateFromPlaintext st cfg ws opts).1 ws cfg.
Proof.
  intros Hs f Hp. unfold migrateFromPlaintext. cbn [fold_left].
  set (ow := negb _).
  destruct (migrate_field ws cfg ow (st, 0) Password) as [st1 n1] eqn:E1.
  assert (Hs1 : is_Some (context st1)).
  { change st1 with (st1, n1).1. rewrite <- E1. apply migrate_field_context, Hs. }
  destruct f.
  - apply migrate_field_mono.
    change st1 with (st1, n1).1. rewrite <- E1. apply migrate_field_stores; assumption.
  - apply migrate_field_stores; assumption.
Qed.

End MigrateFacts.

Section MigrateAllFacts.

Import Credential CredentialSpec.

Lemma migrateAll_from_cons st n cfg cfgs ws opts :
  migrateAll_from st n (cfg :: cfgs) ws opts
  = migrateAll_from (migrateFromPlaintext st cfg ws opts).1
      (n + (migrateFromPlaintext st cfg ws opts).2) cfgs ws opts.
Proof.
  unfold migrateAll_from. cbn [fold_left fst snd].
  destruct (migrateFromPlaintext st cfg ws opts). reflexivity.
Qed.

Lemma migrateAll_from_mono cfgs ws opts k : forall st n,
  nonempty_string (secrets_get st k) = true ->
  nonempty_string (secrets_get (migrateAll_from st n cfgs ws opts).1 k) = true.
Proof.
  induction cfgs as [|cfg cfgs IH]; intros st n Hk; [exact Hk|].
  rewrite migrateAll_from_cons. apply IH, migrateFromPlaintext_mono, Hk.
Qed.

Lemma migrateAll_from_all_stored cfgs ws opts : forall st n,
  is_Some (context st) ->
  Forall (all_stored (migrateAll_from st n cfgs ws opts).1 ws) cfgs.
Proof.
  induction cfgs as [|cfg cfgs IH]; intros st n Hs; [constructor|].
  rewrite migrateAll_from_cons. constructor.
  - intros f Hp. apply migrateAll_from_mono.
    apply migrateFromPlaintext_all_stored; assumption.
  - apply IH, migrateFromPlaintext_context, Hs.
Qed.

(** C8, as the code has it. With [overwrite: false], a call on a
    configuration (or list of configurations) whose non-empty plaintext
    fields all have a non-empty value in secret storage writes nothing and
    returns 0; a first call with any options leaves the store in that
    condition. *)
Theorem migrate_idempotent_when_overwrite_false
    (st : store) (cfg : ServerConfig) (cfgs : list ServerConfig) (ws : string)
    (am : option bool) (first : options) :
  (all_stored st ws cfg ->
     migrateFromPlaintext st cfg ws {| autoMigrate := am; overwrite := Some false |}
     = (st, 0))
  /\ (Forall (all_stored st ws) cfgs ->
        migrateAll st cfgs ws {| autoMigrate := am; overwrite := Some false |} = (st, 0))
  /\ (is_Some (context st) ->
        let st1 := (migrateFromPlaintext st cfg ws first).1 in
        let st2 := (migrateAll st cfgs ws first).1 in
        migrateFromPlaintext st1 cfg ws {| autoMigrate := am; overwrite := Some false |}
        = (st1, 0)
        /\ migrateAll st2 cfgs ws {| autoMigrate := am; overwrite := Some false |}
           = (st2, 0)).
Proof.
  split; [|split].
  - apply migrateFromPlaintext_keep_existing.
  - apply migrateAll_keep_existing.
  - intros Hs st1 st2. split.
    + apply migrateFromPlaintext_keep_existing, migrateFromPlaintext_all_stored, Hs.
    + apply migrateAll_keep_existing.
      apply (migrateAll_from_all_stored cfgs ws first st 0 Hs).
Qed.

Lemma migrate_idempotent_when_overwrite_false_witness :
  migrateFromPlaintext
    (migrateFromPlaintext empty_store Demo.config "ws" no_options).1
    Demo.config "ws" keep_existing
  = ((migrateFromPlaintext empty_store Demo.config "ws" no_options).1, 0)
  /\ migrateAll
       (migrateAll empty_store [Demo.config] "ws" no_options).1
       [Demo.config] "ws" keep_existing
     = ((migrateAll empty_store [Demo.config] "ws" no_options).1, 0).
Proof.
  apply (migrate_idempotent_when_overwrite_false empty_store Demo.config [Demo.config]
           "ws" None no_options).
  eexists. reflexivity.
Defined.

(** With the [overwrite] option not set, a repeated call on a store that
    already holds every plaintext field writes the field again and counts
    it: the count is 1, not 0, for [migrateFromPlaintext] and [migrateAll]. *)
Lemma migrate_repeat_without_option_counts :
  let st1 := (migrateFromPlaintext empty_store Demo.config "ws" no_options).1 in
  all_stored st1 "ws" Demo.config
  /\ (migrateFromPlaintext st1 Demo.config "ws" no_options).2 = 1
  /\ (migrateAll st1 [Demo.config] "ws" no_options).2 = 1.
Proof.
  split; [|split].
  - apply migrateFromPlaintext_all_stored. eexists. reflexivity.
  - vm_compute. reflexivity.
  - vm_compute. reflexivity.
Qed.

End MigrateAllFacts.

(** ** Transfer queue: lemmas *)

Section QueueFacts.

Import TQ TQSpec.
Local Open Scope list_scope.

Lemma StronglySorted_filter_lt (P : nat -> Prop) `{!forall x, Decision (P x)} (l : list nat) :
  StronglySorted Nat.lt l -> StronglySorted Nat.lt (filter P l).
Proof.
  induction 1 as [|x l Hs IH Hall]; [constructor|].
  rewrite filter_cons. destruct (decide (P x)); [|exact IH].
  constructor; [exact IH|].
  apply Forall_forall. intros y Hy. apply list_elem_of_filter in Hy as [_ Hy].
  rewrite Forall_forall in Hall. apply Hall, Hy.
Qed.

Lemma sorted_head_lt (x y : nat) (l : list nat) :
  StronglySorted Nat.lt (x :: l) -> y ∈ l -> (x < y)%nat.
Proof.
  intros Hs Hy. apply StronglySorted_inv in Hs as [_ Hall].
  rewrite Forall_forall in Hall. apply Hall, Hy.
Qed.

Lemma started_ids_app l1 l2 : started_ids (l1 ++ l2) = started_ids l1 ++ started_ids l2.
Proof. unfold started_ids. apply omap_app. Qed.

Lemma get_token_set_token s t tk t' :
  get_token (set_token s t tk) t' = if decide (t = t') then tk else get_token s t'.
Proof.
  unfold get_token, set_token. cbn [tokens].
  destruct (decide (t = t')) as [->|Hne].
  - rewrite lookup_insert_eq. reflexivity.
  - rewrite lookup_insert_ne by exact Hne. reflexivity.
Qed.

(** [_drain] preserves whatever one turn of its loop preserves. *)
Lemma drain_invariant (P : state -> Prop) :
  (forall s id q', queue s = id :: q' ->
     below (activeCount s) (concurrency s) = true -> P s ->
     P (set_queue s q')
     /\ forall it, items s !! id = Some it -> canceled it = false ->
          P (start (set_queue s q') id it)) ->
  forall s, P s -> P (_drain s).
Proof.
  intros Hturn s. unfold _drain.
  generalize (eq_refl (queue s)). generalize (queue s) at 1 3 as q.
  intros q. revert s. induction q as [|id q' IH]; intros s Hq HP; [exact HP|].
  cbn [drain_loop].
  destruct (below (activeCount s) (concurrency s)) eqn:Hlt; [|exact HP].
  destruct (Hturn s id q' (eq_sym Hq) Hlt HP) as [Hskip Hstart].
  cbn [set_queue items].
  destruct (items s !! id) as [it|] eqn:Hit.
  - destruct (canceled it) eqn:Hc.
    + apply IH; [reflexivity|exact Hskip].
    + apply IH; [reflexivity|]. apply Hstart; [reflexivity|exact Hc].
  - apply IH; [reflexivity|exact Hskip].
Qed.

Ltac wf_fields :=
  constructor;
  cbn [set_queue set_item set_token add_log start throw_uncaught
       queue items futures next_item running activeCount log tokens concurrency uncaught].

Lemma wf_pop s id q' : wf s -> queue s = id :: q' -> wf (set_queue s q').
Proof.
  intros [] Hq. rewrite Hq in *. wf_fields; try assumption.
  - apply StronglySorted_inv in wf_queue_sorted0 as [? _]. assumption.
  - intros x Hx. apply wf_queue_pending0. right. exact Hx.
  - intros x Hx. apply wf_queue_future0. right. exact Hx.
  - intros x Hx. apply wf_queue_fresh0. right. exact Hx.
  - intros a b Ha Hb. apply wf_started_before_queue0; [exact Ha|]. right. exact Hb.
  - intros x it t Hx. apply wf_listening0. right. exact Hx.
Qed.

(** A waiting item is not running. *)
Lemma wf_queue_not_running s id : wf s -> id ∈ queue s -> id ∉ running s.
Proof.
  intros Hwf Hq Hr.
  destruct (wf_queue_pending s Hwf id Hq) as (it & Hit & Hst & _).
  destruct (wf_running_started s Hwf id Hr) as (it' & Hit' & Hst').
  congruence.
Qed.

Lemma wf_queue_NoDup s : wf s -> NoDup (queue s).
Proof.
  intros Hwf. pose proof (wf_queue_sorted s Hwf) as Hs.
  induction Hs as [|x l Hs IH Hall]; constructor; [|exact IH].
  intros Hx. rewrite Forall_forall in Hall. specialize (Hall x Hx).
  unfold Nat.lt in Hall. lia.
Qed.

Lemma wf_start s id q' it :
  wf s -> queue s = id :: q' -> items s !! id = Some it ->
  wf (start (set_queue s q') id it).
Proof.
  intros Hwf Hq Hit.
  assert (Hin : id ∈ queue s) by (rewrite Hq; left).
  pose proof (wf_queue_not_running s id Hwf Hin) as Hnr.
  assert (Hlt : forall x, x ∈ q' -> (id < x)%nat).
  { intros x Hx. eapply sorted_head_lt; [|exact Hx].
    rewrite <- Hq. apply Hwf. }
  destruct Hwf. rewrite Hq in *. wf_fields.
  - apply StronglySorted_inv in wf_queue_sorted0 as [? _]. assumption.
  - intros x Hx. specialize (Hlt x Hx).
    rewrite lookup_insert_ne by lia. apply wf_queue_pending0. right. exact Hx.
  - intros x Hx. apply wf_queue_future0. right. exact Hx.
  - intros x Hx. apply wf_queue_fresh0. right. exact Hx.
  - intros x Hx. destruct (decide (x = id)) as [->|Hne].
    + rewrite lookup_insert_eq. eexists. split; reflexivity.
    + rewrite lookup_insert_ne by congruence. apply wf_running_started0.
      apply elem_of_union in Hx as [Hx|Hx]; [|exact Hx].
      apply elem_of_singleton in Hx. contradiction.
  - intros x Hx. destruct (decide (x = id)) as [->|Hne].
    + apply wf_queue_future0. left.
    + apply wf_running_future0.
      apply elem_of_union in Hx as [Hx|Hx]; [|exact Hx].
      apply elem_of_singleton in Hx. contradiction.
  - rewrite size_union by set_solver. rewrite size_singleton. lia.
  - rewrite started_ids_app. cbn. apply StronglySorted_app. split; [|split].
    + intros a b Ha Hb. apply list_elem_of_singleton in Hb as ->.
      apply wf_started_before_queue0; [exact Ha|left].
    + assumption.
    + repeat constructor.
  - intros a b Ha Hb. rewrite started_ids_app in Ha. cbn in Ha.
    apply elem_of_app in Ha as [Ha|Ha].
    + apply wf_started_before_queue0; [exact Ha|]. right. exact Hb.
    + apply list_elem_of_singleton in Ha as ->. apply Hlt, Hb.
  - intros a Ha. rewrite started_ids_app in Ha. cbn in Ha.
    apply elem_of_app in Ha as [Ha|Ha]; [apply wf_started_fresh0, Ha|].
    apply list_elem_of_singleton in Ha as ->. apply wf_queue_fresh0. left.
  - intros x Hx. apply elem_of_union in Hx as [Hx|Hx].
    + apply elem_of_singleton in Hx as ->. apply wf_queue_fresh0. left.
    + apply wf_running_fresh0, Hx.
  - intros x it' t Hx Hit' Ht Hon. specialize (Hlt x Hx).
    rewrite lookup_insert_ne in Hit' by lia.
    eapply wf_listening0; eauto. right. exact Hx.
Qed.

Lemma wf_drain s : wf s -> wf (_drain s).
Proof.
  apply drain_invariant. intros s0 id q' Hq _ Hwf. split.
  - eapply wf_pop; eauto.
  - intros it Hit _. apply wf_start; assumption.
Qed.


Lemma futures_settle_future s x o y :
  y <> x -> futures (settle_future s x o) !! y = futures s !! y.
Proof.
  intros Hne. unfold settle_future.
  destruct (futures s !! x) as [[|]|]; cbn [futures]; try reflexivity.
  apply lookup_insert_ne. congruence.
Qed.

Lemma settle_future_pending s x o :
  futures s !! x = Some None -> futures (settle_future s x o) !! x = Some (Some o).
Proof.
  intros H. unfold settle_future. rewrite H. cbn [futures]. apply lookup_insert_eq.
Qed.

Lemma settle_future_fields s x o :
  queue (settle_future s x o) = queue s
  /\ items (settle_future s x o) = items s
  /\ tokens (settle_future s x o) = tokens s
  /\ running (settle_future s x o) = running s
  /\ activeCount (settle_future s x o) = activeCount s
  /\ concurrency (settle_future s x o) = concurrency s
  /\ log (settle_future s x o) = log s
  /\ next_item (settle_future s x o) = next_item s
  /\ uncaught (settle_future s x o) = uncaught s.
Proof.
  unfold settle_future. destruct (futures s !! x) as [[|]|]; cbn; repeat split.
Qed.

Lemma wf_settle_future s x o :
  wf s -> x ∉ queue s -> x ∉ running s -> wf (settle_future s x o).
Proof.
  intros Hwf Hq Hr.
  destruct (settle_future_fields s x o) as (Eq & Ei & Et & Er & Ea & _ & El & En & _).
  destruct Hwf. constructor; rewrite ?Eq, ?Ei, ?Er, ?Ea, ?El, ?En; try assumption.
  - intros y Hy. rewrite futures_settle_future by (intros ->; contradiction).
    apply wf_queue_future0, Hy.
  - intros y Hy. rewrite futures_settle_future by (intros ->; contradiction).
    apply wf_running_future0, Hy.
  - intros y it t Hy Hit Ht. unfold get_token. rewrite Et. eapply wf_listening0; eauto.
Qed.

Lemma wf_add_log s e :
  started_ids [e] = [] -> wf s -> wf (add_log s e).
Proof.
  intros He []. wf_fields; rewrite ?started_ids_app, ?He, ?app_nil_r; assumption.
Qed.

Lemma wf_throw_uncaught s msg : wf s -> wf (throw_uncaught s msg).
Proof. intros []. wf_fields; assumption. Qed.

(** Removing the listener of an item that is not waiting. *)
Lemma wf_remove_listener s id : wf s -> id ∉ queue s -> wf (remove_listener s id).
Proof.
  intros Hwf Hq. unfold remove_listener.
  destruct (items s !! id) as [it|]; [|exact Hwf].
  destruct (token_of it) as [t|]; [|exact Hwf].
  destruct Hwf. wf_fields; try assumption.
  intros x it' t' Hx Hit' Ht'. rewrite get_token_set_token.
  destruct (decide (t = t')) as [<-|Hne]; cbn [has_onCancellationRequested listeners].
  - intros Hon. apply list_elem_of_filter. split; [intros ->; contradiction|].
    eapply wf_listening0; eauto.
  - apply wf_listening0 with (it := it'); assumption.
Qed.

Lemma call_disposeCancel_Some s id s' :
  call_disposeCancel s id = Some s' -> s' = s \/ s' = remove_listener s id.
Proof.
  unfold call_disposeCancel.
  destruct (disposeCancel <$> items s !! id) as [[| |]|]; intros H; inversion H; auto.
Qed.

Lemma wf_call_disposeCancel s id s' :
  wf s -> id ∉ queue s -> call_disposeCancel s id = Some s' -> wf s'.
Proof.
  intros Hwf Hq H. apply call_disposeCancel_Some in H as [->| ->]; [exact Hwf|].
  apply wf_remove_listener; assumption.
Qed.

Lemma wf_cancel_listener s id : wf s -> wf (cancel_listener s id).
Proof.
  intros Hwf. unfold cancel_listener.
  destruct (items s !! id) as [it|] eqn:Hit; [|exact Hwf].
  destruct (started it) eqn:Hst; [exact Hwf|].
  assert (Hnr : id ∉ running s).
  { intros Hr. destruct (wf_running_started s Hwf id Hr) as (it' & Hit' & Hst'). congruence. }
  apply wf_add_log; [reflexivity|].
  apply wf_settle_future.
  - destruct Hwf. wf_fields; try assumption.
    + apply StronglySorted_filter_lt. assumption.
    + intros x Hx. apply list_elem_of_filter in Hx as [Hne Hx].
      rewrite lookup_insert_ne by congruence. apply wf_queue_pending0, Hx.
    + intros x Hx. apply list_elem_of_filter in Hx as [Hne Hx]. apply wf_queue_future0, Hx.
    + intros x Hx. apply list_elem_of_filter in Hx as [Hne Hx]. apply wf_queue_fresh0, Hx.
    + intros x Hx. rewrite lookup_insert_ne by (intros ->; contradiction).
      apply wf_running_started0, Hx.
    + intros a b Ha Hb. apply list_elem_of_filter in Hb as [_ Hb].
      apply wf_started_before_queue0; assumption.
    + intros x it' t Hx Hit' Ht. apply list_elem_of_filter in Hx as [Hne Hx].
      rewrite lookup_insert_ne in Hit' by congruence.
      apply wf_listening0 with (it := it'); assumption.
  - cbn [set_queue set_item queue]. intros Hx. apply list_elem_of_filter in Hx as [Hne _].
    contradiction.
  - exact Hnr.
Qed.

Lemma wf_fold_cancel_listener l : forall s, wf s -> wf (fold_left cancel_listener l s).
Proof.
  induction l as [|x l IH]; intros s Hwf; [exact Hwf|].
  cbn [fold_left]. apply IH, wf_cancel_listener, Hwf.
Qed.

Lemma wf_cancel s t : wf s -> wf (cancel s t).
Proof.
  intros Hwf. unfold cancel.
  destruct (tokens s !! t) as [tk|] eqn:Htk; [|exact Hwf].
  destruct (isCancellationRequested tk); [exact Hwf|].
  apply wf_fold_cancel_listener.
  destruct Hwf. wf_fields; try assumption.
  intros x it t' Hx Hit Ht'. rewrite get_token_set_token.
  destruct (decide (t = t')) as [<-|Hne]; cbn [has_onCancellationRequested listeners].
  - intros Hon. specialize (wf_listening0 x it t Hx Hit Ht').
    unfold get_token in wf_listening0. rewrite Htk in wf_listening0.
    apply wf_listening0, Hon.
  - apply wf_listening0 with (it := it); assumption.
Qed.


Lemma wf_init c toks : wf (init c toks).
Proof.
  constructor; cbn.
  - constructor.
  - intros id H. exfalso. eapply not_elem_of_nil, H.
  - intros id H. exfalso. eapply not_elem_of_nil, H.
  - intros id H. exfalso. eapply not_elem_of_nil, H.
  - intros id H. apply elem_of_empty in H. contradiction.
  - intros id H. apply elem_of_empty in H. contradiction.
  - reflexivity.
  - constructor.
  - intros a b H. exfalso. eapply not_elem_of_nil, H.
  - intros a H. exfalso. eapply not_elem_of_nil, H.
  - intros id H. apply elem_of_empty in H. contradiction.
  - intros id it t H. exfalso. eapply not_elem_of_nil, H.
Qed.

Lemma register_listener_fields s token0 id :
  let s1 := register_listener s token0 id in
  queue s1 = queue s /\ items s1 = items s /\ futures s1 = futures s
  /\ running s1 = running s /\ activeCount s1 = activeCount s
  /\ concurrency s1 = concurrency s /\ log s1 = log s /\ next_item s1 = next_item s
  /\ same_flags s s1
  /\ (forall t, listeners (get_token s1 t)
         = if decide (token0 = Some t /\ token_registers s token0 = true)
           then listeners (get_token s t) ++ [id] else listeners (get_token s t)).
Proof.
  unfold register_listener. cbv zeta.
  destruct token0 as [t|].
  - destruct (token_registers s (Some t)) eqn:Hreg.
    + cbn [set_token queue items futures running activeCount concurrency log next_item].
      repeat split; try reflexivity.
      * rewrite get_token_set_token. destruct (decide (t = t0)) as [<-|]; reflexivity.
      * rewrite get_token_set_token. destruct (decide (t = t0)) as [<-|]; reflexivity.
      * intros t'. rewrite get_token_set_token.
        destruct (decide (t = t')) as [<-|Hne].
        -- rewrite decide_True by auto. reflexivity.
        -- rewrite decide_False by (intros [E _]; congruence). reflexivity.
    + repeat split; try reflexivity.
      all: try (intros t'; rewrite decide_False by (intros [_ E]; discriminate);
                reflexivity).
  - repeat split; try reflexivity.
    all: try (intros t'; rewrite decide_False by (intros [E _]; discriminate);
              reflexivity).
Qed.

Lemma wf_new_future s : wf s -> wf (new_future s).
Proof.
  intros Hwf.
  assert (Hq : next_item s ∉ queue s).
  { intros H. apply (wf_queue_fresh s Hwf) in H. lia. }
  assert (Hr : next_item s ∉ running s).
  { intros H. apply (wf_running_fresh s Hwf) in H. lia. }
  destruct Hwf. unfold new_future. wf_fields; try assumption.
  - intros x Hx. rewrite lookup_insert_ne by (intros <-; contradiction).
    apply wf_queue_future0, Hx.
  - intros x Hx. apply wf_queue_fresh0 in Hx. lia.
  - intros x Hx. rewrite lookup_insert_ne by (intros <-; contradiction).
    apply wf_running_future0, Hx.
  - intros x Hx. apply wf_started_fresh0 in Hx. lia.
  - intros x Hx. apply wf_running_fresh0 in Hx. lia.
Qed.

Lemma wf_push_item s task0 token0 label0 : wf s -> wf (push_item s task0 token0 label0).
Proof.
  intros Hwf. unfold push_item. cbv zeta.
  set (id := next_item s). set (it := new_item s task0 token0 label0).
  assert (Hq : id ∉ queue s).
  { intros H. apply (wf_queue_fresh s Hwf) in H. unfold id in H. lia. }
  assert (Hr : id ∉ running s).
  { intros H. apply (wf_running_fresh s Hwf) in H. unfold id in H. lia. }
  destruct (register_listener_fields (new_future s) token0 id)
    as (Eq & Ei & Ef & Er & Ea & _ & El & En & Hfl & Hlis).
  cbv zeta in *. set (s1 := register_listener (new_future s) token0 id) in *.
  cbn [new_future queue items futures running activeCount log next_item] in *.
  fold id in Ef, En.
  apply wf_add_log; [reflexivity|].
  destruct Hwf.
  constructor;
    cbn [set_queue set_item queue items futures next_item running activeCount log tokens];
    rewrite ?Eq, ?Ei, ?Ef, ?Er, ?Ea, ?El, ?En; try assumption.
  - apply StronglySorted_app. split; [|split]; [|assumption|repeat constructor].
    intros a b Ha Hb. apply list_elem_of_singleton in Hb as ->.
    apply wf_queue_fresh0, Ha.
  - intros x Hx. apply elem_of_app in Hx as [Hx|Hx].
    + rewrite lookup_insert_ne by (intros <-; contradiction). apply wf_queue_pending0, Hx.
    + apply list_elem_of_singleton in Hx as ->. rewrite lookup_insert_eq.
      eexists. split; [reflexivity|]. split; reflexivity.
  - intros x Hx. apply elem_of_app in Hx as [Hx|Hx].
    + rewrite lookup_insert_ne by (intros <-; contradiction). apply wf_queue_future0, Hx.
    + apply list_elem_of_singleton in Hx as ->. apply lookup_insert_eq.
  - intros x Hx. apply elem_of_app in Hx as [Hx|Hx].
    + apply wf_queue_fresh0 in Hx. unfold id. lia.
    + apply list_elem_of_singleton in Hx as ->. lia.
  - intros x Hx. rewrite lookup_insert_ne by (intros <-; contradiction).
    apply wf_running_started0, Hx.
  - intros x Hx. rewrite lookup_insert_ne by (intros <-; contradiction).
    apply wf_running_future0, Hx.
  - intros a b Ha Hb. apply elem_of_app in Hb as [Hb|Hb].
    + apply wf_started_before_queue0; assumption.
    + apply list_elem_of_singleton in Hb as ->. apply wf_started_fresh0, Ha.
  - intros a Ha. apply wf_started_fresh0 in Ha. unfold id. lia.
  - intros x Hx. apply wf_running_fresh0 in Hx. unfold id. lia.
  - intros x it' t Hx Hit' Ht Hon.
    assert (Hget : get_token (set_queue (set_item s1 id it) (queue s ++ [id])) t
                   = get_token s1 t) by reflexivity.
    rewrite Hget in *. clear Hget.
    destruct (Hfl t) as [E1 _]. rewrite E1 in Hon. rewrite Hlis.
    assert (Hnf : get_token (new_future s) t = get_token s t) by reflexivity.
    assert (Hreg : token_registers (new_future s) token0 = token_registers s token0)
      by reflexivity.
    rewrite Hnf in *. rewrite Hreg.
    apply elem_of_app in Hx as [Hx|Hx].
    + rewrite lookup_insert_ne in Hit' by (intros <-; contradiction).
      assert (Hold : x ∈ listeners (get_token s t)) by (eapply wf_listening0; eauto).
      destruct (decide _); [apply elem_of_app; left|]; exact Hold.
    + apply list_elem_of_singleton in Hx as ->. rewrite lookup_insert_eq in Hit'.
      injection Hit' as <-. cbn [it new_item token_of] in Ht.
      rewrite decide_True by (split; [exact Ht|rewrite Ht; exact Hon]).
      apply elem_of_app. right. apply list_elem_of_singleton. reflexivity.
Qed.

Lemma wf_enqueue s task0 token0 label0 : wf s -> wf (enqueue s task0 token0 label0).
Proof.
  intros Hwf. unfold enqueue. destruct (token_canceled s token0).
  - apply wf_settle_future; [apply wf_new_future, Hwf| |].
    + intros H. apply (wf_queue_fresh s Hwf) in H. lia.
    + intros H. apply (wf_running_fresh s Hwf) in H. lia.
  - apply wf_drain, wf_push_item, Hwf.
Qed.

Lemma queue_remove_listener s id : queue (remove_listener s id) = queue s.
Proof.
  unfold remove_listener. destruct (items s !! id) as [it|]; [|reflexivity].
  destruct (token_of it); reflexivity.
Qed.

Lemma queue_call_disposeCancel s id s' :
  call_disposeCancel s id = Some s' -> queue s' = queue s.
Proof.
  intros H. apply call_disposeCancel_Some in H as [->| ->]; [reflexivity|].
  apply queue_remove_listener.
Qed.

Lemma settle_unfold s id o :
  id ∈ running s ->
  settle s id o =
    match call_disposeCancel (settle_prefix s id o) id with
    | None => throw_uncaught (settle_prefix s id o) type_error
    | Some s3 =>
        _drain (add_log s3 (LogFinished id (activeCount s3) (Z.of_nat (length (queue s3)))))
    end.
Proof. intros H. unfold settle. rewrite decide_True by exact H. reflexivity. Qed.

Lemma settle_prefix_fields s id o :
  queue (settle_prefix s id o) = queue s
  /\ items (settle_prefix s id o) = items s
  /\ tokens (settle_prefix s id o) = tokens s
  /\ running (settle_prefix s id o) = running s ∖ {[id]}
  /\ activeCount (settle_prefix s id o) = Z.max 0 (activeCount s - 1)
  /\ concurrency (settle_prefix s id o) = concurrency s
  /\ log (settle_prefix s id o) = log s
  /\ next_item (settle_prefix s id o) = next_item s
  /\ (forall y, y <> id -> futures (settle_prefix s id o) !! y = futures s !! y).
Proof.
  unfold settle_prefix. cbv zeta.
  match goal with |- context [settle_future ?s0 id o] =>
    destruct (settle_future_fields s0 id o) as (Eq & Ei & Et & Er & Ea & Ec & El & En & _);
    pose proof (futures_settle_future s0 id o) as Ef
  end.
  cbn [queue items tokens running activeCount concurrency log next_item futures] in *.
  rewrite Eq, Ei, Et, Er, Ea, Ec, El, En. repeat split. exact Ef.
Qed.

Lemma wf_settle_prefix s id o : wf s -> id ∈ running s -> wf (settle_prefix s id o).
Proof.
  intros Hwf Hr.
  destruct (settle_prefix_fields s id o) as (Eq & Ei & Et & Er & Ea & _ & El & En & Ef).
  assert (Hnq : id ∉ queue s).
  { intros Hq. exact (wf_queue_not_running s id Hwf Hq Hr). }
  destruct Hwf. constructor; rewrite ?Eq, ?Ei, ?Er, ?Ea, ?El, ?En; try assumption.
  - intros x Hx. rewrite Ef by (intros ->; contradiction). apply wf_queue_future0, Hx.
  - intros x Hx. apply elem_of_difference in Hx as [Hx _]. apply wf_running_started0, Hx.
  - intros x Hx. apply elem_of_difference in Hx as [Hx Hne].
    rewrite Ef by (intros ->; apply Hne, elem_of_singleton; reflexivity).
    apply wf_running_future0, Hx.
  - rewrite size_difference by (apply singleton_subseteq_l, Hr).
    rewrite size_singleton.
    assert (size (running s) <> 0%nat).
    { intros H0. apply size_empty_inv in H0. apply (not_elem_of_empty (C:=gset nat) id).
      rewrite <- H0. exact Hr. }
    lia.
  - intros x Hx. apply elem_of_difference in Hx as [Hx _]. apply wf_running_fresh0, Hx.
  - intros x it t Hx Hit Ht. unfold get_token. rewrite Et. eapply wf_listening0; eauto.
Qed.

Lemma wf_settle s id o : wf s -> wf (settle s id o).
Proof.
  intros Hwf. destruct (decide (id ∈ running s)) as [Hr|Hr].
  - rewrite settle_unfold by exact Hr.
    pose proof (wf_settle_prefix s id o Hwf Hr) as Hp.
    assert (Hnq : id ∉ queue (settle_prefix s id o)).
    { destruct (settle_prefix_fields s id o) as (-> & _).
      intros Hq. exact (wf_queue_not_running s id Hwf Hq Hr). }
    destruct (call_disposeCancel (settle_prefix s id o) id) as [s3|] eqn:Hd.
    + apply wf_drain, wf_add_log; [reflexivity|].
      eapply wf_call_disposeCancel; eauto.
    + apply wf_throw_uncaught, Hp.
  - unfold settle. rewrite decide_False by exact Hr. exact Hwf.
Qed.

Lemma wf_clear_loop reason q : forall s, queue s = q -> wf s -> wf (clear_loop reason q s).
Proof.
  induction q as [|id q' IH]; intros s Hq Hwf; [exact Hwf|].
  cbn [clear_loop].
  assert (Hin : id ∈ queue s) by (rewrite Hq; left).
  assert (Hnq : id ∉ q').
  { pose proof (wf_queue_NoDup s Hwf) as Hnd. rewrite Hq in Hnd.
    apply NoDup_cons in Hnd as [Hnd _]. exact Hnd. }
  assert (Hwf1 : wf (settle_future (set_queue s q') id (Rejected (mkError "" reason)))).
  { apply wf_settle_future; [eapply wf_pop; eauto|exact Hnq|].
    cbn [set_queue running]. eapply wf_queue_not_running; eauto. }
  set (s1 := settle_future (set_queue s q') id (Rejected (mkError "" reason))) in *.
  assert (Hq1 : queue s1 = q').
  { subst s1. destruct (settle_future_fields (set_queue s q') id
                          (Rejected (mkError "" reason))) as (-> & _). reflexivity. }
  destruct (call_disposeCancel s1 id) as [s2|] eqn:Hd.
  - apply IH.
    + rewrite (queue_call_disposeCancel _ _ _ Hd). exact Hq1.
    + eapply wf_call_disposeCancel; eauto. rewrite Hq1. exact Hnq.
  - apply wf_throw_uncaught, Hwf1.
Qed.

Lemma wf_clearPending s reason : wf s -> wf (clearPending s reason).
Proof. intros Hwf. apply wf_clear_loop; [reflexivity|exact Hwf]. Qed.

Lemma wf_setConcurrency s value : wf s -> wf (setConcurrency s value).
Proof.
  intros Hwf. unfold setConcurrency. apply wf_drain.
  destruct Hwf. constructor; cbn; assumption.
Qed.

Lemma wf_step s e : wf s -> wf (step s e).
Proof.
  destruct e; cbn [step].
  - apply wf_enqueue.
  - apply wf_cancel.
  - apply wf_settle.
  - apply wf_setConcurrency.
  - apply wf_clearPending.
Qed.

Lemma wf_reaches allowed s0 s : wf s0 -> reaches allowed s0 s -> wf s.
Proof. intros H0. induction 1; [exact H0|]. apply wf_step. assumption. Qed.

Lemma wf_reachable s : reachable s -> wf s.
Proof. intros (c & toks & H). eapply wf_reaches; [apply wf_init|exact H]. Qed.


(** *** No waiting item listens on a fired token *)

Lemma live_mono s s' :
  (forall x, x ∈ queue s' -> x ∈ queue s /\ items s' !! x = items s !! x) ->
  same_flags s s' -> live s -> live s'.
Proof.
  intros Hsub Hfl Hlive x it t Hx Hit Ht Hon.
  destruct (Hsub x Hx) as [Hx' Hi]. destruct (Hfl t) as [E1 E2].
  rewrite E2. rewrite E1 in Hon. rewrite Hi in Hit. eapply Hlive; eauto.
Qed.

Lemma same_flags_refl s : same_flags s s.
Proof. intros t. split; reflexivity. Qed.

Lemma same_flags_tokens s s' : tokens s' = tokens s -> same_flags s s'.
Proof. intros E t. unfold get_token. rewrite E. split; reflexivity. Qed.

Lemma live_drain s : wf s -> live s -> live (_drain s).
Proof.
  intros Hwf Hlive.
  apply (drain_invariant (fun s => wf s /\ live s)); [|split; assumption].
  intros s0 id q' Hq _ [Hwf0 Hl0]. split; [split|].
  - eapply wf_pop; eauto.
  - apply (live_mono s0); [|apply same_flags_tokens; reflexivity|exact Hl0].
    cbn [set_queue queue items]. intros x Hx. rewrite Hq. split; [right; exact Hx|reflexivity].
  - intros it Hit _. split; [apply wf_start; assumption|].
    apply (live_mono s0); [|apply same_flags_tokens; reflexivity|exact Hl0].
    cbn [start set_queue queue items]. intros x Hx. rewrite Hq. split; [right; exact Hx|].
    apply lookup_insert_ne. intros <-.
    pose proof (wf_queue_NoDup s0 Hwf0) as Hnd. rewrite Hq in Hnd.
    apply NoDup_cons in Hnd as [Hnd _]. contradiction.
Qed.

Lemma live_settle_future s x o : live s -> live (settle_future s x o).
Proof.
  destruct (settle_future_fields s x o) as (Eq & Ei & Et & _).
  apply live_mono; [|apply same_flags_tokens, Et].
  intros y Hy. rewrite Eq in Hy. rewrite Ei. auto.
Qed.

Lemma same_flags_remove_listener s id : same_flags s (remove_listener s id).
Proof.
  unfold remove_listener. destruct (items s !! id) as [it|]; [|apply same_flags_refl].
  destruct (token_of it) as [t|]; [|apply same_flags_refl].
  intros t'. rewrite get_token_set_token.
  destruct (decide (t = t')) as [<-|]; split; reflexivity.
Qed.

Lemma items_remove_listener s id : items (remove_listener s id) = items s.
Proof.
  unfold remove_listener. destruct (items s !! id) as [it|]; [|reflexivity].
  destruct (token_of it); reflexivity.
Qed.

Lemma live_call_disposeCancel s id s' :
  call_disposeCancel s id = Some s' -> live s -> live s'.
Proof.
  intros H. apply call_disposeCancel_Some in H as [->| ->]; [auto|].
  apply (live_mono s); [|apply same_flags_remove_listener].
  intros x Hx. rewrite queue_remove_listener in Hx. rewrite items_remove_listener. auto.
Qed.

Lemma live_cancel_listener s id : live s -> live (cancel_listener s id).
Proof.
  intros Hl. unfold cancel_listener.
  destruct (items s !! id) as [it|]; [|exact Hl].
  destruct (started it); [exact Hl|].
  apply (live_mono s); [| |exact Hl].
  - cbn [add_log queue items].
    match goal with |- context [settle_future ?s0 id ?o] =>
      destruct (settle_future_fields s0 id o) as (-> & -> & _) end.
    cbn [set_queue set_item queue items]. intros x Hx.
    apply list_elem_of_filter in Hx as [Hne Hx]. split; [exact Hx|].
    apply lookup_insert_ne. congruence.
  - apply same_flags_tokens. cbn [add_log tokens].
    match goal with |- context [settle_future ?s0 id ?o] =>
      destruct (settle_future_fields s0 id o) as (_ & _ & -> & _) end.
    reflexivity.
Qed.

(** What the listeners of a firing token leave behind. *)
Lemma fold_cancel_listener_facts l : forall s,
  let s' := fold_left cancel_listener l s in
  tokens s' = tokens s
  /\ (forall x, x ∈ queue s' -> x ∈ queue s /\ items s' !! x = items s !! x)
  /\ (forall x it, x ∈ l -> items s !! x = Some it -> started it = false ->
        x ∉ queue s').
Proof.
  induction l as [|h l IH]; intros s; cbn [fold_left].
  - split; [reflexivity|]. split; [auto|]. intros x it Hx. inversion Hx.
  - destruct (IH (cancel_listener s h)) as (Et & Hq & Hrm). cbv zeta in *.
    assert (Hstep : tokens (cancel_listener s h) = tokens s
             /\ (forall x, x ∈ queue (cancel_listener s h) ->
                     x ∈ queue s /\ items (cancel_listener s h) !! x = items s !! x)
             /\ (forall it, items s !! h = Some it -> started it = false ->
                     h ∉ queue (cancel_listener s h))
             /\ (forall x, x <> h -> items (cancel_listener s h) !! x = items s !! x)).
    { unfold cancel_listener.
      destruct (items s !! h) as [ih|] eqn:Hh.
      - destruct (started ih) eqn:Hst.
        + repeat split; auto. intros it Hit. injection Hit as <-. congruence.
        + cbn [add_log queue items tokens].
          match goal with |- context [settle_future ?s0 h ?o] =>
            destruct (settle_future_fields s0 h o) as (-> & -> & -> & _) end.
          cbn [set_queue set_item queue items tokens].
          split; [reflexivity|]. split; [|split].
          * intros x Hx. apply list_elem_of_filter in Hx as [Hne Hx]. split; [exact Hx|].
            apply lookup_insert_ne. congruence.
          * intros _ _ _ Hx. apply list_elem_of_filter in Hx as [Hne _]. congruence.
          * intros x Hne. apply lookup_insert_ne. congruence.
      - repeat split; auto. intros it Hit. discriminate Hit. }
    destruct Hstep as (Et1 & Hq1 & Hrm1 & Hi1).
    split; [congruence|]. split.
    + intros x Hx. destruct (Hq x Hx) as [Hx1 Hi]. destruct (Hq1 x Hx1) as [Hx0 Hi0].
      split; [exact Hx0|congruence].
    + intros x it Hx Hit Hst Hin. destruct (Hq x Hin) as [Hx1 _].
      destruct (decide (x = h)) as [->|Hne].
      * exact (Hrm1 it Hit Hst Hx1).
      * apply elem_of_cons in Hx as [Hx|Hx]; [contradiction|].
        apply (Hrm x it Hx); [rewrite Hi1 by exact Hne; exact Hit|exact Hst|exact Hin].
Qed.

Lemma live_cancel s t : wf s -> live s -> live (cancel s t).
Proof.
  intros Hwf Hl. unfold cancel.
  destruct (tokens s !! t) as [tk|] eqn:Htk; [|exact Hl].
  destruct (isCancellationRequested tk) eqn:Hfl; [exact Hl|].
  set (s1 := set_token s t _).
  destruct (fold_cancel_listener_facts (listeners tk) s1) as (Et & Hq & Hrm).
  cbv zeta in *. intros x it t' Hx Hit Ht' Hon.
  destruct (Hq x Hx) as [Hx1 Hi]. rewrite Hi in Hit.
  cbn [s1 set_token queue items] in Hx1, Hit.
  unfold get_token in Hon |- *. rewrite Et in Hon |- *. fold (get_token s1 t') in Hon |- *.
  unfold s1 in Hon |- *. rewrite get_token_set_token in Hon |- *.
  destruct (decide (t = t')) as [<-|Hne].
  - exfalso. cbn in Hon.
    assert (Hlis : x ∈ listeners tk).
    { pose proof (wf_listening s Hwf x it t Hx1 Hit Ht') as H.
      unfold get_token in H. rewrite Htk in H. apply H, Hon. }
    destruct (wf_queue_pending s Hwf x Hx1) as (it' & Hit' & Hst & _).
    apply (Hrm x it' Hlis); [exact Hit'|exact Hst|exact Hx].
  - eapply Hl; eauto.
Qed.

Lemma live_settle s id o : wf s -> live s -> live (settle s id o).
Proof.
  intros Hwf Hl. destruct (decide (id ∈ running s)) as [Hr|Hr].
  - rewrite settle_unfold by exact Hr.
    pose proof (wf_settle_prefix s id o Hwf Hr) as Hp.
    destruct (settle_prefix_fields s id o) as (Eq & Ei & Et & _).
    assert (Hlp : live (settle_prefix s id o)).
    { apply (live_mono s); [|apply same_flags_tokens, Et|exact Hl].
      intros x Hx. rewrite Eq in Hx. rewrite Ei. auto. }
    assert (Hnq : id ∉ queue (settle_prefix s id o)).
    { rewrite Eq. intros Hq. exact (wf_queue_not_running s id Hwf Hq Hr). }
    destruct (call_disposeCancel (settle_prefix s id o) id) as [s3|] eqn:Hd.
    + apply live_drain.
      * apply wf_add_log; [reflexivity|]. eapply wf_call_disposeCancel; eauto.
      * apply (live_mono s3);
          [|apply same_flags_tokens; reflexivity|eapply live_call_disposeCancel; eauto].
        cbn [add_log queue items]. auto.
    + apply (live_mono (settle_prefix s id o));
        [|apply same_flags_tokens; reflexivity|exact Hlp].
      cbn [throw_uncaught queue items]. auto.
  - unfold settle. rewrite decide_False by exact Hr. exact Hl.
Qed.


Lemma live_push_item s task0 token0 label0 :
  wf s -> live s -> token_canceled s token0 = false ->
  live (push_item s task0 token0 label0).
Proof.
  intros Hwf Hl Hpre. unfold push_item. cbv zeta.
  set (id := next_item s). set (it := new_item s task0 token0 label0).
  assert (Hq : id ∉ queue s).
  { intros H. apply (wf_queue_fresh s Hwf) in H. unfold id in H. lia. }
  destruct (register_listener_fields (new_future s) token0 id)
    as (Eq & Ei & _ & _ & _ & _ & _ & _ & Hfl & _).
  cbv zeta in *. set (s1 := register_listener (new_future s) token0 id) in *.
  cbn [new_future queue items] in Eq, Ei.
  intros x it' t Hx Hit' Ht Hon.
  match type of Hon with has_onCancellationRequested (get_token ?s3 t) = true =>
    assert (Hget : get_token s3 t = get_token s1 t) by reflexivity end.
  rewrite Hget in *. clear Hget. destruct (Hfl t) as [E1 E2]. rewrite E1 in Hon. rewrite E2.
  assert (Hnf : get_token (new_future s) t = get_token s t) by reflexivity.
  rewrite Hnf in *.
  cbn [add_log set_queue set_item queue items] in Hx, Hit'. rewrite Eq in Hx.
  rewrite Ei in Hit'.
  apply elem_of_app in Hx as [Hx|Hx].
  - rewrite lookup_insert_ne in Hit' by (intros <-; contradiction). eapply Hl; eauto.
  - apply list_elem_of_singleton in Hx as ->. rewrite lookup_insert_eq in Hit'.
    injection Hit' as <-. cbn [it new_item token_of] in Ht.
    unfold token_canceled in Hpre. rewrite Ht in Hpre. exact Hpre.
Qed.

Lemma live_enqueue s task0 token0 label0 :
  wf s -> live s -> live (enqueue s task0 token0 label0).
Proof.
  intros Hwf Hl. unfold enqueue. destruct (token_canceled s token0) eqn:Hpre.
  - apply live_settle_future.
    apply (live_mono s); [|apply same_flags_tokens; reflexivity|exact Hl]. cbn. auto.
  - apply live_drain; [apply wf_push_item, Hwf|].
    apply live_push_item; assumption.
Qed.

Lemma live_clear_loop reason q : forall s,
  queue s = q -> live s -> live (clear_loop reason q s).
Proof.
  induction q as [|id q' IH]; intros s Hq Hl; [exact Hl|].
  cbn [clear_loop].
  set (s1 := settle_future (set_queue s q') id (Rejected (mkError "" reason))).
  assert (Hl1 : live s1).
  { apply live_settle_future.
    apply (live_mono s); [|apply same_flags_tokens; reflexivity|exact Hl].
    cbn [set_queue queue items]. intros x Hx. rewrite Hq. split; [right; exact Hx|reflexivity]. }
  assert (Hq1 : queue s1 = q').
  { subst s1. destruct (settle_future_fields (set_queue s q') id
                          (Rejected (mkError "" reason))) as (-> & _). reflexivity. }
  destruct (call_disposeCancel s1 id) as [s2|] eqn:Hd.
  - apply IH.
    + rewrite (queue_call_disposeCancel _ _ _ Hd). exact Hq1.
    + eapply live_call_disposeCancel; eauto.
  - apply (live_mono s1); [|apply same_flags_tokens; reflexivity|exact Hl1].
    cbn [throw_uncaught queue items]. auto.
Qed.

Lemma live_step s e : wf s -> live s -> live (step s e).
Proof.
  intros Hwf Hl. destruct e; cbn [step].
  - apply live_enqueue; assumption.
  - apply live_cancel; assumption.
  - apply live_settle; assumption.
  - unfold setConcurrency. apply live_drain.
    + destruct Hwf. constructor; cbn; assumption.
    + apply (live_mono s); [|apply same_flags_tokens; reflexivity|exact Hl]. cbn. auto.
  - apply live_clear_loop; [reflexivity|exact Hl].
Qed.

Lemma live_init c toks : live (init c toks).
Proof. intros x it t Hx. cbn in Hx. exfalso. eapply not_elem_of_nil, Hx. Qed.

Lemma live_reachable s : reachable s -> live s.
Proof.
  intros (c & toks & H).
  assert (wf s /\ live s) as [_ Hl]; [|exact Hl].
  induction H as [|s e H IH Hal].
  - split; [apply wf_init|apply live_init].
  - destruct IH as [Hwf Hl]. split; [apply wf_step, Hwf|apply live_step; assumption].
Qed.


(** *** Steps that admit nothing *)

Lemma quiet_refl s : quiet s s.
Proof. repeat split; auto. Qed.

Lemma quiet_trans s1 s2 s3 : quiet s1 s2 -> quiet s2 s3 -> quiet s1 s3.
Proof.
  intros (Hq & Hl & Hn & Ha & Hc) (Hq' & Hl' & Hn' & Ha' & Hc').
  split; [auto|]. repeat split; congruence.
Qed.

Lemma quiet_settle_future s x o : quiet s (settle_future s x o).
Proof.
  destruct (settle_future_fields s x o) as (Eq & _ & _ & _ & Ea & Ec & El & En & _).
  split; [intros y; rewrite Eq; auto|]. repeat split; congruence.
Qed.

Lemma quiet_remove_listener s id : quiet s (remove_listener s id).
Proof.
  unfold remove_listener. destruct (items s !! id) as [it|]; [|apply quiet_refl].
  destruct (token_of it); [|apply quiet_refl]. repeat split; auto.
Qed.

Lemma quiet_call_disposeCancel s id s' : call_disposeCancel s id = Some s' -> quiet s s'.
Proof.
  intros H. apply call_disposeCancel_Some in H as [->| ->];
    [apply quiet_refl|apply quiet_remove_listener].
Qed.

Lemma quiet_cancel_listener s id : quiet s (cancel_listener s id).
Proof.
  unfold cancel_listener. destruct (items s !! id) as [it|]; [|apply quiet_refl].
  destruct (started it); [apply quiet_refl|].
  match goal with |- context [settle_future ?s0 id ?o] =>
    destruct (settle_future_fields s0 id o) as (Eq & _ & _ & _ & Ea & Ec & El & En & _) end.
  repeat split; cbn [add_log queue log next_item activeCount concurrency];
    rewrite ?Eq, ?Ea, ?Ec, ?El, ?En; cbn [set_queue set_item queue log]; try reflexivity.
  - intros x Hx. apply list_elem_of_filter in Hx as [_ Hx]. exact Hx.
  - rewrite started_ids_app. cbn. apply app_nil_r.
Qed.

Lemma quiet_fold_cancel_listener l : forall s, quiet s (fold_left cancel_listener l s).
Proof.
  induction l as [|x l IH]; intros s; [apply quiet_refl|].
  cbn [fold_left]. eapply quiet_trans; [apply quiet_cancel_listener|apply IH].
Qed.

Lemma quiet_cancel s t : quiet s (cancel s t).
Proof.
  unfold cancel. destruct (tokens s !! t) as [tk|]; [|apply quiet_refl].
  destruct (isCancellationRequested tk); [apply quiet_refl|].
  eapply quiet_trans; [|apply quiet_fold_cancel_listener]. repeat split; auto.
Qed.

Lemma quiet_clear_loop reason q : forall s, queue s = q -> quiet s (clear_loop reason q s).
Proof.
  induction q as [|id q' IH]; intros s Hq; [apply quiet_refl|].
  cbn [clear_loop].
  set (s1 := settle_future (set_queue s q') id (Rejected (mkError "" reason))).
  assert (H1 : quiet s s1).
  { eapply quiet_trans; [|apply quiet_settle_future].
    repeat split; auto. cbn [set_queue queue]. intros x Hx. rewrite Hq. right. exact Hx. }
  assert (Hq1 : queue s1 = q').
  { subst s1. destruct (settle_future_fields (set_queue s q') id
                          (Rejected (mkError "" reason))) as (-> & _). reflexivity. }
  destruct (call_disposeCancel s1 id) as [s2|] eqn:Hd.
  - eapply quiet_trans; [exact H1|].
    eapply quiet_trans; [apply (quiet_call_disposeCancel _ _ _ Hd)|].
    apply IH. rewrite (queue_call_disposeCancel _ _ _ Hd). exact Hq1.
  - eapply quiet_trans; [exact H1|]. repeat split; auto.
Qed.

(** *** The cap *)

(** An integer is below a finite number exactly when it is below that
    number rounded up. *)
Lemma below_finite a q : below a (Finite q) = (a <? Qceiling q).
Proof.
  cbn [below].
  destruct (Qle_bool q (inject_Z a)) eqn:E; cbn [negb]; symmetry.
  - apply Z.ltb_ge. apply Qle_bool_iff in E.
    apply Qceiling_resp_le in E. rewrite Qceiling_Z in E. exact E.
  - apply Z.ltb_lt. destruct (Z.lt_ge_cases a (Qceiling q)) as [H|H]; [exact H|].
    exfalso. assert (Hq : (q <= inject_Z a)%Q).
    { eapply Qle_trans; [apply Qle_ceiling|]. rewrite <- Zle_Qle. exact H. }
    apply Qle_bool_iff in Hq. congruence.
Qed.

Lemma within_cap_quiet c s s' : quiet s s' -> within_cap c s -> within_cap c s'.
Proof. intros (_ & _ & _ & Ha & Hc) [E H]. split; [congruence|]. rewrite Ha. exact H. Qed.

Lemma within_cap_drain c s : within_cap c s -> within_cap c (_drain s).
Proof.
  apply drain_invariant. intros s0 id q' Hq Hlt [E H]. split; [split; assumption|].
  intros it _ _. split; cbn [start set_queue concurrency activeCount]; [exact E|].
  rewrite E in Hlt. destruct c as [|q| |]; cbn [slots] in *; try discriminate Hlt; [|exact I].
  rewrite below_finite in Hlt. apply Z.ltb_lt in Hlt. lia.
Qed.

Lemma within_cap_push_item c s task0 token0 label0 :
  within_cap c s -> within_cap c (push_item s task0 token0 label0).
Proof.
  intros [E H]. unfold push_item. cbv zeta.
  destruct (register_listener_fields (new_future s) token0 (next_item s))
    as (_ & _ & _ & _ & Ea & Ec & _).
  cbv zeta in *. split; cbn [add_log set_queue set_item concurrency activeCount];
    rewrite ?Ea, ?Ec; assumption.
Qed.

Lemma within_cap_step c s e :
  keeps_cap e = true -> wf s -> within_cap c s -> within_cap c (step s e).
Proof.
  intros He Hwf Hcap. destruct e; cbn [step]; try discriminate He.
  - unfold enqueue. destruct (token_canceled s token0).
    + eapply within_cap_quiet; [apply quiet_settle_future|]. exact Hcap.
    + apply within_cap_drain, within_cap_push_item, Hcap.
  - eapply within_cap_quiet; [apply quiet_cancel|exact Hcap].
  - destruct (decide (id ∈ running s)) as [Hr|Hr].
    + rewrite settle_unfold by exact Hr.
      destruct (settle_prefix_fields s id o) as (_ & _ & _ & _ & Ea & Ec & _).
      assert (Hp : within_cap c (settle_prefix s id o)).
      { destruct Hcap as [E H]. split; [congruence|]. rewrite Ea.
        destruct (slots c) as [n|]; [|exact I].
        pose proof (wf_active s Hwf). lia. }
      destruct (call_disposeCancel (settle_prefix s id o) id) as [s3|] eqn:Hd.
      * apply within_cap_drain.
        apply (within_cap_quiet c s3); [repeat split; auto|].
        -- cbn [add_log log]. rewrite started_ids_app. cbn. apply app_nil_r.
        -- eapply within_cap_quiet; [apply (quiet_call_disposeCancel _ _ _ Hd)|exact Hp].
      * destruct Hp as [E H]. split; assumption.
    + unfold settle. rewrite decide_False by exact Hr. exact Hcap.
  - eapply within_cap_quiet; [apply quiet_clear_loop; reflexivity|exact Hcap].
Qed.

(** The clamped cap is a finite number that is 1 or more, or infinite. *)
Lemma clamp_concurrency_ge_1 v :
  match clamp_concurrency v with
  | Finite q => (1 <= q)%Q
  | PlusInfinity => True
  | NaN | MinusInfinity => False
  end.
Proof.
  unfold clamp_concurrency, max_1, or_1, integer.
  destruct (default NaN v) as [|q| |]; try exact I; try (cbn; discriminate).
  destruct (Qeq_bool q 0); [cbn; discriminate|].
  destruct (Qle_bool 1 q) eqn:E; [apply Qle_bool_iff, E|cbn; discriminate].
Qed.

Lemma clamp_concurrency_slots v :
  match slots (clamp_concurrency v) with
  | Some n => 1 <= n
  | None => True
  end.
Proof.
  pose proof (clamp_concurrency_ge_1 v) as H.
  destruct (clamp_concurrency v) as [|q| |]; cbn [slots]; try contradiction; [|exact I].
  apply Qceiling_resp_le in H. exact H.
Qed.

Lemma within_cap_reaches c toks s :
  reaches keeps_cap (init c toks) s -> within_cap (clamp_concurrency c) s.
Proof.
  induction 1 as [|s e H IH He].
  - split; [reflexivity|]. cbn [init activeCount].
    pose proof (clamp_concurrency_slots c) as Hs.
    destruct (slots (clamp_concurrency c)); [lia|exact I].
  - apply within_cap_step; [exact He| |exact IH].
    eapply wf_reaches; [apply wf_init|exact H].
Qed.

Lemma reaches_any allowed s0 s : reaches allowed s0 s -> reaches any_event s0 s.
Proof. induction 1; [constructor|]. constructor; [assumption|reflexivity]. Qed.

(** *** Admission is attempted to the end *)

Lemma drained_drain s : drained (_drain s).
Proof.
  unfold _drain. generalize (eq_refl (queue s)). generalize (queue s) at 1 3 as q.
  intros q. revert s. induction q as [|id q' IH]; intros s Hq.
  - left. cbn. symmetry. exact Hq.
  - cbn [drain_loop]. destruct (below (activeCount s) (concurrency s)) eqn:Hlt.
    + cbn [set_queue items]. destruct (items s !! id) as [it|].
      * destruct (canceled it); apply IH; reflexivity.
      * apply IH. reflexivity.
    + right. exact Hlt.
Qed.

(** *** Dropped items stay dropped *)

Lemma dropped_quiet id s s' : quiet s s' -> dropped id s -> dropped id s'.
Proof.
  intros (Hq & Hl & Hn & _) (H1 & H2 & H3). repeat split.
  - intros Hx. apply H1, Hq, Hx.
  - rewrite Hl. exact H2.
  - rewrite Hn. exact H3.
Qed.

Lemma dropped_drain id s : dropped id s -> dropped id (_drain s).
Proof.
  apply drain_invariant. intros s0 x q' Hq _ (H1 & H2 & H3). split.
  - repeat split; cbn [set_queue queue log next_item]; try assumption.
    intros Hx. apply H1. rewrite Hq. right. exact Hx.
  - intros it _ _. repeat split; cbn [start set_queue queue log next_item]; try assumption.
    + intros Hx. apply H1. rewrite Hq. right. exact Hx.
    + rewrite started_ids_app. cbn. intros Hx. apply elem_of_app in Hx as [Hx|Hx].
      * contradiction.
      * apply list_elem_of_singleton in Hx as ->. apply H1. rewrite Hq. left.
Qed.

Lemma dropped_step id s e : dropped id s -> dropped id (step s e).
Proof.
  intros Hd. destruct e; cbn [step].
  - unfold enqueue. destruct (token_canceled s token0).
    + eapply dropped_quiet; [apply quiet_settle_future|].
      destruct Hd as (H1 & H2 & H3). repeat split; cbn; auto.
    + apply dropped_drain. destruct Hd as (H1 & H2 & H3).
      unfold push_item. cbv zeta.
      destruct (register_listener_fields (new_future s) token0 (next_item s))
        as (Eq & _ & _ & _ & _ & _ & El & En & _).
      cbv zeta in *. repeat split;
        cbn [add_log set_queue set_item queue log next_item]; rewrite ?Eq, ?El, ?En;
        cbn [new_future queue log next_item].
      * intros Hx. apply elem_of_app in Hx as [Hx|Hx]; [contradiction|].
        apply list_elem_of_singleton in Hx. lia.
      * rewrite started_ids_app. cbn. rewrite app_nil_r. exact H2.
      * lia.
  - eapply dropped_quiet; [apply quiet_cancel|exact Hd].
  - destruct (decide (id0 ∈ running s)) as [Hr|Hr].
    + rewrite settle_unfold by exact Hr.
      destruct (settle_prefix_fields s id0 o) as (Eq & _ & _ & _ & _ & _ & El & En & _).
      assert (Hp : dropped id (settle_prefix s id0 o)).
      { destruct Hd as (H1 & H2 & H3). repeat split; rewrite ?Eq, ?El, ?En; assumption. }
      destruct (call_disposeCancel (settle_prefix s id0 o) id0) as [s3|] eqn:Hdc.
      * apply dropped_drain.
        pose proof (dropped_quiet id _ _ (quiet_call_disposeCancel _ _ _ Hdc) Hp)
          as (H1 & H2 & H3).
        repeat split; cbn [add_log queue log next_item]; try assumption.
        rewrite started_ids_app. cbn. rewrite app_nil_r. exact H2.
      * destruct Hp as (H1 & H2 & H3). repeat split; assumption.
    + unfold settle. rewrite decide_False by exact Hr. exact Hd.
  - unfold setConcurrency. apply dropped_drain.
    destruct Hd as (H1 & H2 & H3). repeat split; assumption.
  - eapply dropped_quiet; [apply quiet_clear_loop; reflexivity|exact Hd].
Qed.

Lemma dropped_run id evs : forall s, dropped id s -> dropped id (run s evs).
Proof.
  induction evs as [|e evs IH]; intros s Hd; [exact Hd|].
  cbn [run fold_left]. apply IH, dropped_step, Hd.
Qed.


(** *** Futures and the running set *)

Lemma drain_keeps_futures s : futures (_drain s) = futures s.
Proof.
  apply (drain_invariant (fun s' => futures s' = futures s)); [|reflexivity].
  intros s0 id q' _ _ E. split; [exact E|]. intros it _ _. exact E.
Qed.

Lemma futures_call_disposeCancel s id s' :
  call_disposeCancel s id = Some s' -> futures s' = futures s.
Proof.
  intros H. apply call_disposeCancel_Some in H as [->| ->]; [reflexivity|].
  unfold remove_listener. destruct (items s !! id) as [it|]; [|reflexivity].
  destruct (token_of it); reflexivity.
Qed.

(** A running item's future takes the task's outcome. *)
Lemma settle_hands_over_outcome s id o :
  id ∈ running s -> futures s !! id = Some None ->
  futures (settle s id o) !! id = Some (Some o).
Proof.
  intros Hr Hf. rewrite settle_unfold by exact Hr.
  assert (Hp : futures (settle_prefix s id o) !! id = Some (Some o)).
  { unfold settle_prefix. cbv zeta. cbn [futures].
    apply settle_future_pending. exact Hf. }
  destruct (call_disposeCancel (settle_prefix s id o) id) as [s3|] eqn:Hd.
  - rewrite drain_keeps_futures. cbn [add_log futures].
    rewrite (futures_call_disposeCancel _ _ _ Hd). exact Hp.
  - exact Hp.
Qed.

Lemma cancel_listener_fields s h :
  running (cancel_listener s h) = running s
  /\ (forall x, x <> h -> futures (cancel_listener s h) !! x = futures s !! x
                          /\ items (cancel_listener s h) !! x = items s !! x)
  /\ (forall it, items s !! h = Some it -> started it = true -> cancel_listener s h = s)
  /\ (forall it, items s !! h = Some it -> started it = false ->
        futures s !! h = Some None ->
        futures (cancel_listener s h) !! h = Some (Some (Rejected createCancellationError)))
  /\ (forall x o, futures s !! x = Some (Some o) ->
        futures (cancel_listener s h) !! x = Some (Some o)).
Proof.
  unfold cancel_listener. destruct (items s !! h) as [ih|] eqn:Hh.
  - destruct (started ih) eqn:Hst.
    + repeat split; auto. intros it Hit. injection Hit as <-. congruence.
    + cbn [add_log running futures items].
      match goal with |- context [settle_future ?s0 h ?o] =>
        destruct (settle_future_fields s0 h o) as (_ & Ei & _ & Er & _);
        pose proof (futures_settle_future s0 h o) as Hne;
        pose proof (settle_future_pending s0 h o) as Hpend;
        set (s1 := settle_future s0 h o) in *
      end.
      cbn [set_queue set_item running futures items] in *.
      split; [exact Er|]. split; [|split; [|split]].
      * intros x Hx. rewrite Hne by exact Hx. rewrite Ei.
        split; [reflexivity|]. apply lookup_insert_ne. congruence.
      * intros it Hit. injection Hit as <-. congruence.
      * intros _ _ _ Hf. apply Hpend, Hf.
      * intros x o Hx. destruct (decide (x = h)) as [->|Hxh].
        -- subst s1. unfold settle_future. cbn [set_queue set_item futures].
           rewrite Hx. exact Hx.
        -- rewrite Hne by exact Hxh. exact Hx.
  - repeat split; auto. intros it Hit. discriminate Hit.
Qed.

(** The listeners of a firing token reject every waiting item they were
    registered for, and leave started items alone. *)
Lemma fold_cancel_listener_futures l : forall s,
  let s' := fold_left cancel_listener l s in
  running s' = running s
  /\ (forall x it, x ∈ l -> items s !! x = Some it -> started it = false ->
        futures s !! x = Some None ->
        futures s' !! x = Some (Some (Rejected createCancellationError)))
  /\ (forall x o, futures s !! x = Some (Some o) -> futures s' !! x = Some (Some o))
  /\ (forall x it, items s !! x = Some it -> started it = true ->
        futures s' !! x = futures s !! x).
Proof.
  induction l as [|h l IH]; intros s; cbn [fold_left].
  - repeat split; auto. intros x it Hx. inversion Hx.
  - destruct (IH (cancel_listener s h)) as (Er & Hrej & Hkeep & Hst). cbv zeta in *.
    destruct (cancel_listener_fields s h) as (Er1 & Hoth & Hnop & Hrej1 & Hkeep1).
    split; [congruence|]. split; [|split].
    + intros x it Hx Hit Hns Hf. destruct (decide (x = h)) as [->|Hne].
      * apply Hkeep. eapply Hrej1; eauto.
      * apply elem_of_cons in Hx as [Hx|Hx]; [contradiction|].
        destruct (Hoth x Hne) as [Ef Ei].
        apply (Hrej x it Hx); [rewrite Ei; exact Hit|exact Hns|rewrite Ef; exact Hf].
    + intros x o Hx. apply Hkeep, Hkeep1, Hx.
    + intros x it Hit Hs. destruct (decide (x = h)) as [->|Hne].
      * rewrite (Hnop it Hit Hs) in *. apply (Hst h it Hit Hs).
      * destruct (Hoth x Hne) as [Ef Ei].
        rewrite (Hst x it); [exact Ef|rewrite Ei; exact Hit|exact Hs].
Qed.


(** *** What holds of every reachable queue *)

(** With a fixed cap, the cap in force is the clamped setting, a finite
    number that is 1 or more or infinity; the active count is the number
    of running tasks and never exceeds the cap rounded up to an integer.
    So it never exceeds a cap that is an integer, and exceeds a
    fractional cap by less than 1. *)
Lemma activeCount_within_cap c s :
  reachable_fixed_cap c s ->
  concurrency s = clamp_concurrency c
  /\ activeCount s = Z.of_nat (size (running s))
  /\ 0 <= activeCount s
  /\ (clamp_concurrency c = PlusInfinity
      \/ exists q, clamp_concurrency c = Finite q /\ (1 <= q)%Q
           /\ activeCount s <= Qceiling q
           /\ (inject_Z (activeCount s) < q + 1)%Q
           /\ forall n : Z, (q == inject_Z n)%Q -> activeCount s <= n).
Proof.
  intros [toks H].
  destruct (within_cap_reaches c toks s H) as [Ec Ha].
  assert (Hwf : wf s) by (eapply wf_reaches; [apply wf_init|exact H]).
  pose proof (wf_active s Hwf) as Hact.
  split; [exact Ec|]. split; [exact Hact|]. split; [lia|].
  pose proof (clamp_concurrency_ge_1 c) as Hge.
  destruct (clamp_concurrency c) as [|q| |]; try contradiction; [|left; reflexivity].
  right. exists q. cbn [slots] in Ha.
  split; [reflexivity|]. split; [exact Hge|]. split; [exact Ha|]. split.
  - apply Qle_lt_trans with (y := inject_Z (Qceiling q)); [rewrite <- Zle_Qle; exact Ha|].
    pose proof (Qceiling_lt q) as Hl. unfold Z.sub in Hl.
    rewrite inject_Z_plus in Hl.
    assert (E : (inject_Z (Qceiling q)
                 == inject_Z (Qceiling q) + inject_Z (-1) + 1)%Q)
      by (change (inject_Z (-1)) with (-1 # 1)%Q; ring).
    apply Qle_lt_trans with (y := (inject_Z (Qceiling q) + inject_Z (-1) + 1)%Q).
    + apply Qle_lteq. right. exact E.
    + apply Qplus_lt_l. exact Hl.
  - intros n En. rewrite (Qceiling_comp _ _ En), Qceiling_Z in Ha. exact Ha.
Qed.

(** Items start in the order they were enqueued, and before anything that
    still waits. *)
Lemma started_in_enqueue_order s :
  reachable s ->
  StronglySorted Nat.lt (started_ids (log s))
  /\ StronglySorted Nat.lt (queue s)
  /\ forall a b, a ∈ started_ids (log s) -> b ∈ queue s -> (a < b)%nat.
Proof.
  intros H. apply wf_reachable in H. destruct H. repeat split; assumption.
Qed.

(** When the disposer call does not throw, a completion decrements the
    count and admits whatever fits. *)
Lemma completion_redrains s id o :
  wf s -> id ∈ running s ->
  disposeCancel <$> items s !! id <> Some DisposeObject ->
  drained (settle s id o) /\ uncaught (settle s id o) = uncaught s.
Proof.
  intros Hwf Hr Hd. rewrite settle_unfold by exact Hr.
  destruct (settle_prefix_fields s id o) as (_ & Ei & _).
  unfold call_disposeCancel. rewrite Ei.
  assert (Hu : uncaught (settle_prefix s id o) = uncaught s).
  { unfold settle_prefix. cbv zeta. cbn [uncaught].
    match goal with |- context [settle_future ?s0 id o] =>
      destruct (settle_future_fields s0 id o) as (_ & _ & _ & _ & _ & _ & _ & _ & ->) end.
    reflexivity. }
  assert (Hdr : forall s', uncaught (_drain s') = uncaught s').
  { intros s'. apply (drain_invariant (fun x => uncaught x = uncaught s')); [|reflexivity].
    intros s0 x q' _ _ E. split; [exact E|]. intros it _ _. exact E. }
  destruct (disposeCancel <$> items s !! id) as [[| |]|] eqn:E.
  - split; [apply drained_drain|]. rewrite Hdr. exact Hu.
  - split; [apply drained_drain|]. rewrite Hdr. cbn [add_log uncaught].
    unfold remove_listener. destruct (items (settle_prefix s id o) !! id) as [it|];
      [destruct (token_of it)|]; exact Hu.
  - contradiction.
  - split; [apply drained_drain|]. rewrite Hdr. exact Hu.
Qed.

End QueueFacts.

(** C6. The cap and the start order hold in every reachable queue, but a
    completion does not always attempt admission again. With one slot and
    two uploads that share an editor-style token, the first upload
    completes, the count drops to 0, the call [item.disposeCancel?.()]
    throws because the token returned an object, [_drain] is never
    reached, and the second upload stays in the queue although the slot
    is free. *)
Theorem completion_with_disposable_token_stalls :
  TQ.queue Demo.two_uploads = [1%nat]
  /\ TQ.activeCount Demo.two_uploads = 1
  /\ TQ.activeCount Demo.first_upload_done = 0
  /\ TQ.concurrency Demo.first_upload_done = 1
  /\ TQ.queue Demo.first_upload_done = [1%nat]
  /\ TQ.started_ids (TQ.log Demo.first_upload_done) = [0%nat]
  /\ TQ.futures Demo.first_upload_done !! 0%nat = Some (Some (TQ.Resolved "ok"))
  /\ TQ.futures Demo.first_upload_done !! 1%nat = Some None
  /\ TQ.uncaught Demo.first_upload_done = [TQ.type_error]
  /\ ~ TQ.drained Demo.first_upload_done.
Proof.
  repeat split; try (vm_compute; reflexivity).
  intros [H|H]; vm_compute in H; discriminate H.
Qed.

(** ** Transfer queue: cancellation *)

Section CancellationFacts.

Import TQ TQSpec.
Local Open Scope list_scope.

Lemma get_token_has_on s t :
  has_onCancellationRequested (get_token s t) = true ->
  exists tk, tokens s !! t = Some tk /\ get_token s t = tk.
Proof.
  unfold get_token. destruct (tokens s !! t) as [tk|]; cbn; [eauto|discriminate].
Qed.

(** Part 1: a token that is already canceled. *)
Lemma enqueue_canceled_token s task0 t label0 :
  isCancellationRequested (get_token s t) = true ->
  let s' := enqueue s task0 (Some t) label0 in
  futures s' !! next_item s = Some (Some (Rejected createCancellationError))
  /\ queue s' = queue s /\ stats s' = stats s /\ items s' = items s
  /\ running s' = running s /\ log s' = log s
  /\ (wf s -> forall evs, dropped (next_item s) (run s' evs)).
Proof.
  intros Hc s'. subst s'. unfold enqueue, token_canceled. rewrite Hc.
  destruct (settle_future_fields (new_future s) (next_item s)
              (Rejected createCancellationError))
    as (Eq & Ei & _ & Er & Ea & Ec & El & En & _).
  cbn [new_future queue items running activeCount concurrency log next_item] in *.
  split; [|split; [|split; [|split; [|split; [|split]]]]]; try assumption.
  - apply settle_future_pending. cbn [new_future futures]. apply lookup_insert_eq.
  - unfold stats. rewrite Eq, Ea, Ec. reflexivity.
  - intros Hwf evs. apply dropped_run. split; [|split].
    + rewrite Eq. intros H. apply (wf_queue_fresh s Hwf) in H. lia.
    + rewrite El. intros H. apply (wf_started_fresh s Hwf) in H. lia.
    + rewrite En. lia.
Qed.

(** Part 2: the token fires while the item waits. *)
Lemma cancel_pending_item s id it t :
  reachable s -> id ∈ queue s -> items s !! id = Some it -> token_of it = Some t ->
  has_onCancellationRequested (get_token s t) = true ->
  let s' := cancel s t in
  (id ∉ queue s')
  /\ futures s' !! id = Some (Some (Rejected createCancellationError))
  /\ forall evs, dropped id (run s' evs).
Proof.
  intros Hreach Hq Hit Ht Hon s'.
  pose proof (wf_reachable s Hreach) as Hwf.
  pose proof (live_reachable s Hreach id it t Hq Hit Ht Hon) as Hfl.
  pose proof (wf_listening s Hwf id it t Hq Hit Ht Hon) as Hlis.
  destruct (get_token_has_on s t Hon) as (tk & Htk & Eg). rewrite Eg in *.
  destruct (wf_queue_pending s Hwf id Hq) as (it' & Hit' & Hns & _).
  assert (it' = it) by congruence. subst it'.
  pose proof (wf_queue_future s Hwf id Hq) as Hfut.
  assert (Es' : s' = fold_left cancel_listener (listeners tk)
                       (set_token s t (mkToken true (has_onCancellationRequested tk)
                                         (registration_result tk) (listeners tk)))).
  { subst s'. unfold cancel. rewrite Htk, Hfl. reflexivity. }
  set (s1 := set_token s t _) in Es'.
  destruct (fold_cancel_listener_facts (listeners tk) s1) as (_ & _ & Hrm).
  destruct (fold_cancel_listener_futures (listeners tk) s1) as (_ & Hrej & _).
  cbv zeta in *. rewrite <- Es' in *.
  assert (Hnq : id ∉ queue s') by (apply (Hrm id it Hlis Hit Hns)).
  split; [exact Hnq|]. split; [apply (Hrej id it Hlis Hit Hns Hfut)|].
  intros evs. apply dropped_run.
  destruct (quiet_cancel s t) as (_ & El & En & _). fold s' in El, En.
  split; [exact Hnq|split].
  - rewrite El. intros H. pose proof (wf_started_before_queue s Hwf id id H Hq). lia.
  - rewrite En. apply (wf_queue_fresh s Hwf), Hq.
Qed.

(** Part 3: the token fires after the item has started. *)
Lemma cancel_started_item s id t o :
  reachable s -> id ∈ running s ->
  let s' := cancel s t in
  id ∈ running s'
  /\ futures s' !! id = Some None
  /\ started_ids (log s') = started_ids (log s)
  /\ futures (settle s' id o) !! id = Some (Some o).
Proof.
  intros Hreach Hr s'.
  pose proof (wf_reachable s Hreach) as Hwf.
  destruct (wf_running_started s Hwf id Hr) as (it & Hit & Hst).
  pose proof (wf_running_future s Hwf id Hr) as Hfut.
  assert (Hrun : running s' = running s /\ futures s' !! id = futures s !! id).
  { subst s'. unfold cancel. destruct (tokens s !! t) as [tk|]; [|auto].
    destruct (isCancellationRequested tk); [auto|].
    set (s1 := set_token s t _).
    destruct (fold_cancel_listener_futures (listeners tk) s1) as (Er & _ & _ & Hkeep).
    cbv zeta in *. split; [exact Er|]. apply (Hkeep id it Hit Hst). }
  destruct Hrun as [Er Ef].
  destruct (quiet_cancel s t) as (_ & El & _). fold s' in El.
  assert (Hr' : id ∈ running s') by (rewrite Er; exact Hr).
  assert (Hf' : futures s' !! id = Some None) by (rewrite Ef; exact Hfut).
  split; [exact Hr'|]. split; [exact Hf'|]. split; [exact El|].
  apply settle_hands_over_outcome; assumption.
Qed.

(** C5. A token that is already canceled makes [enqueue] reject with an
    error whose code is [OPERATION_CANCELED] without touching the queue,
    and the item never waits or starts afterwards; a token that has an
    [onCancellationRequested] function and fires while the item waits
    removes it from the queue and rejects its future with the same error,
    for good; a token that fires after the item started leaves it
    running, and its future takes the task's outcome. *)
Theorem enqueue_cancellation_contract (s : state) :
  reachable s ->
  (forall task0 t label0,
     isCancellationRequested (get_token s t) = true ->
     let s' := enqueue s task0 (Some t) label0 in
     futures s' !! next_item s
       = Some (Some (Rejected (mkError "OPERATION_CANCELED" "Operation canceled")))
     /\ queue s' = queue s /\ stats s' = stats s /\ running s' = running s
     /\ log s' = log s
     /\ forall evs, dropped (next_item s) (run s' evs))
  /\ (forall id it t,
        id ∈ queue s -> items s !! id = Some it -> token_of it = Some t ->
        has_onCancellationRequested (get_token s t) = true ->
        let s' := cancel s t in
        (id ∉ queue s')
        /\ futures s' !! id
           = Some (Some (Rejected (mkError "OPERATION_CANCELED" "Operation canceled")))
        /\ forall evs, dropped id (run s' evs))
  /\ (forall id t o,
        id ∈ running s ->
        let s' := cancel s t in
        id ∈ running s'
        /\ futures s' !! id = Some None
        /\ started_ids (log s') = started_ids (log s)
        /\ futures (settle s' id o) !! id = Some (Some o)).
Proof.
  intros Hreach. split; [|split].
  - intros task0 t label0 Hc s'.
    destruct (enqueue_canceled_token s task0 t label0 Hc)
      as (H1 & H2 & H3 & _ & H5 & H6 & H7).
    split; [exact H1|]. split; [exact H2|]. split; [exact H3|]. split; [exact H5|].
    split; [exact H6|]. apply H7, wf_reachable, Hreach.
  - intros id it t. apply cancel_pending_item. exact Hreach.
  - intros id t o. apply cancel_started_item. exact Hreach.
Qed.

(** A token without [onCancellationRequested] is accepted by [enqueue],
    but nothing is registered with it: when it is canceled while the
    second upload waits, the upload stays in the queue with its promise
    pending, is started when the slot frees, and its promise takes the
    outcome of the task. *)
Lemma cancel_of_flag_token_is_not_seen :
  queue Demo.waiting_with_flag_token = [1%nat]
  /\ token_of <$> items Demo.waiting_with_flag_token !! 1%nat = Some (Some 0%nat)
  /\ (let s' := cancel Demo.waiting_with_flag_token 0 in
      isCancellationRequested (get_token s' 0) = true
      /\ queue s' = [1%nat]
      /\ futures s' !! 1%nat = Some None
      /\ (let s'' := settle s' 0 (Resolved "ok") in
          queue s'' = []
          /\ started_ids (log s'') = [0%nat; 1%nat]
          /\ futures (settle s'' 1 (Resolved "uploaded")) !! 1%nat
             = Some (Some (Resolved "uploaded")))).
Proof. cbv zeta. repeat split; vm_compute; reflexivity. Qed.

Lemma reaches_run s0 evs : reaches any_event s0 (run s0 evs).
Proof.
  induction evs as [|e evs IH] using rev_ind; [constructor|].
  unfold run. rewrite fold_left_app. cbn [fold_left]. constructor; [exact IH|reflexivity].
Qed.

Lemma reachable_run c toks evs : reachable (run (init c toks) evs).
Proof. exists c, toks. apply reaches_run. Qed.

Lemma enqueue_cancellation_contract_witness :
  futures (enqueue Demo.two_cancellable 7 (Some 1%nat) "late") !! 2%nat
    = Some (Some (Rejected (mkError "OPERATION_CANCELED" "Operation canceled")))
  /\ queue (enqueue Demo.two_cancellable 7 (Some 1%nat) "late") = [1%nat]
  /\ (1%nat ∉ queue (cancel Demo.two_cancellable 0))
  /\ futures (cancel Demo.two_cancellable 0) !! 1%nat
      = Some (Some (Rejected (mkError "OPERATION_CANCELED" "Operation canceled")))
  /\ futures (settle (cancel Demo.two_cancellable 0) 0 (Resolved "ok")) !! 0%nat
      = Some (Some (Resolved "ok")).
Proof.
  destruct (enqueue_cancellation_contract Demo.two_cancellable
              (reachable_run _ _ _)) as (H1 & H2 & H3).
  assert (Eq : queue Demo.two_cancellable = [1%nat]) by (vm_compute; reflexivity).
  destruct (H1 7%nat 1%nat "late" ltac:(vm_compute; reflexivity)) as (F1 & Q1 & _).
  destruct (H2 1%nat
              (mkItem 1 (Some 0%nat) "upload:b" false false DisposeFunction) 0%nat
              ltac:(rewrite Eq; left) ltac:(vm_compute; reflexivity) eq_refl
              ltac:(vm_compute; reflexivity)) as (Q2 & F2 & _).
  destruct (H3 0%nat 0%nat (Resolved "ok")
              ltac:(match goal with |- ?P => apply (bool_decide_unpack P) end;
                    vm_compute; exact I)) as (_ & _ & _ & F3).
  rewrite Eq in Q1. repeat split; assumption.
Defined.

End CancellationFacts.

(** ** Connection manager: lemmas *)

Section PoolFacts.

Import CM CMSpec.
Local Open Scope list_scope.

Lemma dedup_inv_core s s' : core s' = core s -> dedup_inv s -> dedup_inv s'.
Proof.
  unfold core. intros E []. injection E as E1 E2 E3 E4 E5 E6 E7.
  constructor; rewrite ?E1, ?E2, ?E3, ?E4, ?E5, ?E6, ?E7; assumption.
Qed.

Lemma dedup_inv_init : dedup_inv init.
Proof.
  constructor; cbn.
  - intros p a H. rewrite lookup_empty in H. discriminate H.
  - intros p a H. rewrite lookup_empty in H. discriminate H.
  - intros cid k p H. rewrite lookup_empty in H. discriminate H.
  - intros cid cid' k p p' H. rewrite lookup_empty in H. discriminate H.
  - intros cid cfg k p H. rewrite lookup_empty in H. discriminate H.
  - intros k p H. rewrite lookup_empty in H. discriminate H.
  - intros p [a H]. rewrite lookup_empty in H. discriminate H.
  - intros p [a H]. rewrite lookup_empty in H. discriminate H.
  - intros k p H. inversion H.
  - constructor.
  - intros p a H. rewrite lookup_empty in H. discriminate H.
Qed.

Lemma core_safeClose s key conn : core (_safeCloseConnection s key conn) = core s.
Proof. reflexivity. Qed.

Lemma core_cleanup s : core (_cleanupIdleConnections s) = core s.
Proof.
  unfold _cleanupIdleConnections.
  apply (map_fold_weak_ind (fun acc _ => core acc = core s)); [reflexivity|].
  intros key conn m acc _ IH. destruct (_ >? _); [|exact IH].
  rewrite core_safeClose. exact IH.
Qed.

Lemma dedup_inv_set_caller_done s cid c :
  dedup_inv s -> (cid < next_caller s)%nat ->
  (forall k p, c <> AwaitingOwn k p) -> (forall cfg k p, c <> AwaitingShared cfg k p) ->
  dedup_inv (set_caller s cid c).
Proof.
  intros [] Hcid Hown Hsh.
  constructor; cbn [set_caller connecting promises attempts callers connect_calls
                    next_attempt next_caller]; try assumption.
  - intros cid' k p H. destruct (decide (cid' = cid)) as [->|Hne].
    + rewrite lookup_insert_eq in H. injection H as ->. exfalso. eapply Hown. reflexivity.
    + rewrite lookup_insert_ne in H by congruence. eapply di_own0, H.
  - intros c1 c2 k p p' H1 H2.
    destruct (decide (c1 = cid)) as [->|Hne1].
    { rewrite lookup_insert_eq in H1. injection H1 as ->. exfalso. eapply Hown. reflexivity. }
    destruct (decide (c2 = cid)) as [->|Hne2].
    { rewrite lookup_insert_eq in H2. injection H2 as ->. exfalso. eapply Hown. reflexivity. }
    rewrite lookup_insert_ne in H1, H2 by congruence. eapply di_own_unique0; eauto.
  - intros cid' cfg k p H. destruct (decide (cid' = cid)) as [->|Hne].
    + rewrite lookup_insert_eq in H. injection H as ->. exfalso. eapply Hsh. reflexivity.
    + rewrite lookup_insert_ne in H by congruence. eapply di_shared0, H.
  - intros cid' [c' H]. destruct (decide (cid' = cid)) as [->|Hne]; [exact Hcid|].
    rewrite lookup_insert_ne in H by congruence. apply di_fresh_caller0. eauto.
Qed.

Lemma dedup_inv_from_pool s cid config key :
  dedup_inv s -> connecting s !! key = None -> (cid < next_caller s)%nat ->
  dedup_inv (from_pool s cid config key).
Proof.
  intros Hinv Hnone Hcid.
  assert (Hfresh : forall s0, core s0 = core s ->
            dedup_inv (let '(s1, p) := start_attempt s0 config key in
                       set_caller s1 cid (AwaitingOwn key p))).
  { intros s0 Hcore. pose proof (dedup_inv_core s s0 Hcore Hinv) as H0.
    unfold core in Hcore. injection Hcore as E1 E2 E3 E4 E5 E6 E7.
    rewrite <- E1 in Hnone. rewrite <- E7 in Hcid. clear E1 E2 E3 E4 E5 E6 E7 Hinv.
    destruct H0. unfold start_attempt. cbv zeta.
    assert (Hnew : attempts s0 !! next_attempt s0 = None).
    { destruct (attempts s0 !! next_attempt s0) eqn:E; [|reflexivity].
      exfalso. assert (next_attempt s0 < next_attempt s0)%nat; [|lia].
      apply di_fresh_attempt0. eauto. }
    constructor; cbn [set_caller connecting promises attempts callers connect_calls
                      next_attempt next_caller].
    - intros p a Ha Hst. destruct (decide (p = next_attempt s0)) as [->|Hne].
      + rewrite lookup_insert_eq in Ha. injection Ha as <-. cbn. apply lookup_insert_eq.
      + rewrite lookup_insert_ne in Ha by congruence.
        pose proof (di_registered0 p a Ha Hst) as Hreg.
        rewrite lookup_insert_ne; [exact Hreg|]. intros E. rewrite <- E in Hreg.
        congruence.
    - intros p a Ha. destruct (decide (p = next_attempt s0)) as [->|Hne].
      + rewrite lookup_insert_eq in Ha. injection Ha as <-. cbn. apply lookup_insert_eq.
      + rewrite lookup_insert_ne in Ha by congruence.
        pose proof (di_promise0 p a Ha) as Hp.
        destruct (a_stage a); rewrite ?lookup_insert_ne by congruence; exact Hp.
    - intros c k p H. destruct (decide (c = cid)) as [->|Hne].
      + rewrite lookup_insert_eq in H. injection H as <- <-. apply lookup_insert_eq.
      + rewrite lookup_insert_ne in H by congruence.
        pose proof (di_own0 c k p H) as Ho.
        rewrite lookup_insert_ne; [exact Ho|]. intros <-. congruence.
    - intros c1 c2 k p p' H1 H2.
      destruct (decide (c1 = cid)) as [->|Hne1]; destruct (decide (c2 = cid)) as [->|Hne2];
        try reflexivity.
      + rewrite lookup_insert_eq in H1. injection H1 as <- <-.
        rewrite lookup_insert_ne in H2 by congruence.
        pose proof (di_own0 c2 key p' H2). congruence.
      + rewrite lookup_insert_eq in H2. injection H2 as <- <-.
        rewrite lookup_insert_ne in H1 by congruence.
        pose proof (di_own0 c1 key p H1). congruence.
      + rewrite lookup_insert_ne in H1, H2 by congruence. eapply di_own_unique0; eauto.
    - intros c cfg k p H. destruct (decide (c = cid)) as [->|Hne].
      + rewrite lookup_insert_eq in H. discriminate H.
      + rewrite lookup_insert_ne in H by congruence.
        destruct (di_shared0 c cfg k p H) as (a & Ha & Hk). exists a. split; [|exact Hk].
        rewrite lookup_insert_ne; [exact Ha|]. intros <-. congruence.
    - intros k p H. destruct (decide (k = key)) as [->|Hne].
      + rewrite lookup_insert_eq in H. injection H as <-.
        rewrite lookup_insert_eq. eexists. split; reflexivity.
      + rewrite lookup_insert_ne in H by congruence.
        destruct (di_connecting0 k p H) as (a & Ha & Hk). exists a. split; [|exact Hk].
        rewrite lookup_insert_ne; [exact Ha|]. intros <-. congruence.
    - intros p [a Ha]. destruct (decide (p = next_attempt s0)) as [->|Hne]; [lia|].
      rewrite lookup_insert_ne in Ha by congruence.
      assert (p < next_attempt s0)%nat by (apply di_fresh_attempt0; eauto). lia.
    - intros c [c' H]. destruct (decide (c = cid)) as [->|Hne]; [exact Hcid|].
      rewrite lookup_insert_ne in H by congruence. apply di_fresh_caller0. eauto.
    - intros k p H. destruct (di_calls0 k p H) as (a & Ha & Hk & Hst).
      exists a. split; [|split; assumption].
      rewrite lookup_insert_ne; [exact Ha|]. intros <-. congruence.
    - assumption.
    - intros p a Ha Hst. destruct (decide (p = next_attempt s0)) as [->|Hne].
      + rewrite lookup_insert_eq in Ha. injection Ha as <-. cbn in Hst.
        rewrite lookup_insert_eq in Hst.
        destruct Hst as [Hst|[h Hst]]; discriminate Hst.
      + rewrite lookup_insert_ne in Ha by congruence.
        rewrite lookup_insert_ne in Hst by congruence. apply di_called0; assumption. }
  unfold from_pool. cbv zeta. destruct (connections s !! key) as [conn|].
  - destruct (_isConnectionAlive s conn).
    + apply dedup_inv_set_caller_done.
      * eapply dedup_inv_core; [|exact Hinv]. reflexivity.
      * exact Hcid.
      * intros k p. discriminate.
      * intros cfg k p. discriminate.
    + apply Hfresh. reflexivity.
  - apply Hfresh. reflexivity.
Qed.

Lemma dedup_inv_getConnection s config : dedup_inv s -> dedup_inv (getConnection s config).
Proof.
  intros Hinv. unfold getConnection. cbv zeta.
  set (s0 := {| connections := connections s; connecting := connecting s;
                dirCache := dirCache s; lastHostKeyValidation := lastHostKeyValidation s;
                promises := promises s; attempts := attempts s; callers := callers s;
                dead := dead s; ended := ended s; connect_calls := connect_calls s;
                clock := clock s; next_attempt := next_attempt s;
                next_caller := S (next_caller s) |}).
  assert (H0 : dedup_inv s0).
  { destruct Hinv. constructor; cbn; try assumption.
    intros cid H. apply di_fresh_caller0 in H. lia. }
  assert (Hcid : (next_caller s < next_caller s0)%nat) by (cbn; lia).
  assert (Hnew : callers s0 !! next_caller s = None).
  { cbn. destruct (callers s !! next_caller s) eqn:E; [|reflexivity].
    exfalso. assert (next_caller s < next_caller s)%nat; [|lia].
    apply (di_fresh_caller s Hinv). eauto. }
  destruct (connecting s0 !! _connectionKey config) as [p|] eqn:Hc.
  - destruct (di_connecting s0 H0 _ p Hc) as (a & Ha & Hk).
    destruct H0.
    constructor; cbn [set_caller connecting promises attempts callers connect_calls
                      next_attempt next_caller]; try assumption.
    + intros c k q H. rewrite lookup_insert_ne in H; [eapply di_own0, H|].
      intros <-. rewrite lookup_insert_eq in H. discriminate H.
    + intros c1 c2 k q q' H1 H2.
      rewrite lookup_insert_ne in H1
        by (intros <-; rewrite lookup_insert_eq in H1; discriminate H1).
      rewrite lookup_insert_ne in H2
        by (intros <-; rewrite lookup_insert_eq in H2; discriminate H2).
      eapply di_own_unique0; eauto.
    + intros c cfg k q H. destruct (decide (c = next_caller s)) as [->|Hne].
      * rewrite lookup_insert_eq in H. injection H as <- <- <-. eauto.
      * rewrite lookup_insert_ne in H by congruence. eapply di_shared0, H.
    + intros c [c' H]. destruct (decide (c = next_caller s)) as [->|Hne]; [exact Hcid|].
      rewrite lookup_insert_ne in H by congruence. apply di_fresh_caller0. eauto.
  - apply dedup_inv_from_pool; assumption.
Qed.

(** The owner of an attempt leaves: the registration of its key goes,
    and no attempt in flight loses its own. *)
Lemma dedup_inv_owner_done s cid key p c m :
  dedup_inv s -> callers s !! cid = Some (AwaitingOwn key p) ->
  (exists ps, promises s !! p = Some ps /\ ps <> Pending) ->
  (forall k q, c <> AwaitingOwn k q) -> (forall cfg k q, c <> AwaitingShared cfg k q) ->
  m = delete key (connecting s) ->
  dedup_inv (set_caller (set_connecting s m) cid c).
Proof.
  intros Hinv Hc (ps & Hp & Hps) Hown Hsh ->.
  pose proof (di_own s Hinv cid key p Hc) as Hreg.
  assert (Hcid : (cid < next_caller s)%nat) by (apply (di_fresh_caller s Hinv); eauto).
  destruct Hinv.
  constructor; cbn [set_caller set_connecting connecting promises attempts callers
                    connect_calls next_attempt next_caller]; try assumption.
  - intros q b Hb Hst. pose proof (di_registered0 q b Hb Hst) as Hq.
    rewrite lookup_delete_ne; [exact Hq|]. intros E. rewrite <- E in Hq.
    assert (q = p) by congruence. subst q.
    pose proof (di_promise0 p b Hb) as Hpr.
    destruct (a_stage b); try contradiction; congruence.
  - intros c' k q H. destruct (decide (c' = cid)) as [->|Hne].
    + rewrite lookup_insert_eq in H. injection H as ->. exfalso. eapply Hown. reflexivity.
    + rewrite lookup_insert_ne in H by congruence.
      pose proof (di_own0 c' k q H) as Ho.
      rewrite lookup_delete_ne; [exact Ho|]. intros <-.
      apply Hne. eapply di_own_unique0; eauto.
  - intros c1 c2 k q q' H1 H2.
    destruct (decide (c1 = cid)) as [->|Hne1].
    { rewrite lookup_insert_eq in H1. injection H1 as ->. exfalso. eapply Hown. reflexivity. }
    destruct (decide (c2 = cid)) as [->|Hne2].
    { rewrite lookup_insert_eq in H2. injection H2 as ->. exfalso. eapply Hown. reflexivity. }
    rewrite lookup_insert_ne in H1, H2 by congruence. eapply di_own_unique0; eauto.
  - intros c' cfg k q H. destruct (decide (c' = cid)) as [->|Hne].
    + rewrite lookup_insert_eq in H. injection H as ->. exfalso. eapply Hsh. reflexivity.
    + rewrite lookup_insert_ne in H by congruence. eapply di_shared0, H.
  - intros k q H. apply lookup_delete_Some in H as [_ H]. eapply di_connecting0, H.
  - intros c' [c'' H]. destruct (decide (c' = cid)) as [->|Hne]; [exact Hcid|].
    rewrite lookup_insert_ne in H by congruence. apply di_fresh_caller0. eauto.
Qed.

Lemma dedup_inv_resume s cid :
  retries_shared s (Resume cid) = false -> dedup_inv s -> dedup_inv (resume s cid).
Proof.
  intros Hbar Hinv. unfold resume. unfold retries_shared in Hbar.
  destruct (callers s !! cid) as [[cfg key p|key p|h|e]|] eqn:Hc; try exact Hinv.
  - destruct (promises s !! p) as [[|h|e]|] eqn:Hp; try exact Hinv; [|discriminate Hbar].
    apply dedup_inv_set_caller_done; [exact Hinv| | |].
    + apply (di_fresh_caller s Hinv). eauto.
    + intros k q. discriminate.
    + intros c k q. discriminate.
  - destruct (promises s !! p) as [[|h|e]|] eqn:Hp; try exact Hinv.
    + apply (dedup_inv_owner_done s cid key p _ _ Hinv Hc);
        [eexists; split; [exact Hp|discriminate]|discriminate|discriminate|reflexivity].
    + apply (dedup_inv_owner_done s cid key p _ _ Hinv Hc);
        [eexists; split; [exact Hp|discriminate]|discriminate|discriminate|].
      apply map_eq. intros k. destruct (decide (k = key)) as [->|Hne].
      * rewrite !lookup_delete_eq. reflexivity.
      * rewrite !lookup_delete_ne by congruence. reflexivity.
Qed.

(** An attempt fails while it builds its options or connects: it goes
    on to end its transport, still registered and pending. *)
Lemma dedup_inv_failed s p key cfg st e :
  dedup_inv s -> attempts s !! p = Some (mkAttempt key cfg st) ->
  st = Building \/ st = Connecting ->
  dedup_inv (set_attempt s p (mkAttempt key cfg (Ending e)) Pending).
Proof.
  intros Hinv Ha Hst0.
  assert (Hp : promises s !! p = Some Pending).
  { pose proof (di_promise s Hinv p _ Ha) as H. cbn in H.
    destruct Hst0 as [-> | ->]; exact H. }
  destruct Hinv.
  constructor; cbn [set_attempt connecting promises attempts callers connect_calls
                    next_attempt next_caller]; try assumption.
  - intros q b Hb Hst. destruct (decide (q = p)) as [->|Hne].
    + rewrite lookup_insert_eq in Hb. injection Hb as <-. cbn.
      apply (di_registered0 p _ Ha). cbn. destruct Hst0 as [-> | ->]; discriminate.
    + rewrite lookup_insert_ne in Hb by congruence. apply di_registered0; assumption.
  - intros q b Hb. destruct (decide (q = p)) as [->|Hne].
    + rewrite lookup_insert_eq in Hb. injection Hb as <-. cbn. apply lookup_insert_eq.
    + rewrite lookup_insert_ne in Hb by congruence.
      pose proof (di_promise0 q b Hb) as Hq.
      destruct (a_stage b); rewrite ?lookup_insert_ne by congruence; exact Hq.
  - intros c cfg' k q H. destruct (di_shared0 c cfg' k q H) as (b & Hb & Hk).
    destruct (decide (q = p)) as [->|Hne].
    + rewrite lookup_insert_eq. eexists. split; [reflexivity|].
      rewrite Ha in Hb. injection Hb as <-. exact Hk.
    + rewrite lookup_insert_ne by congruence. eauto.
  - intros k q H. destruct (di_connecting0 k q H) as (b & Hb & Hk).
    destruct (decide (q = p)) as [->|Hne].
    + rewrite lookup_insert_eq. eexists. split; [reflexivity|].
      rewrite Ha in Hb. injection Hb as <-. exact Hk.
    + rewrite lookup_insert_ne by congruence. eauto.
  - intros q [b Hb]. destruct (decide (q = p)) as [->|Hne].
    + apply di_fresh_attempt0. eauto.
    + rewrite lookup_insert_ne in Hb by congruence. apply di_fresh_attempt0. eauto.
  - intros k q H. destruct (di_calls0 k q H) as (b & Hb & Hk & Hst).
    destruct (decide (q = p)) as [->|Hne].
    + rewrite lookup_insert_eq. eexists. split; [reflexivity|].
      rewrite Ha in Hb. injection Hb as <-. split; [exact Hk|discriminate].
    + rewrite lookup_insert_ne by congruence. eauto.
  - intros q b Hb Hst. destruct (decide (q = p)) as [->|Hne].
    + rewrite lookup_insert_eq in Hb. injection Hb as <-. cbn in Hst.
      rewrite lookup_insert_eq in Hst. destruct Hst as [Hst|[h Hst]]; discriminate Hst.
    + rewrite lookup_insert_ne in Hb by congruence.
      rewrite lookup_insert_ne in Hst by congruence. apply di_called0; assumption.
Qed.

Lemma dedup_inv_build_done s p failure :
  dedup_inv s -> dedup_inv (build_done s p failure).
Proof.
  intros Hinv. unfold build_done.
  destruct (attempts s !! p) as [[key cfg [| | |]]|] eqn:Ha; try exact Hinv.
  destruct failure as [e|]; [eapply dedup_inv_failed; eauto|].
  destruct Hinv.
  constructor; cbn [connecting promises attempts callers connect_calls next_attempt
                    next_caller]; try assumption.
  - intros q b Hb Hst. destruct (decide (q = p)) as [->|Hne].
    + rewrite lookup_insert_eq in Hb. injection Hb as <-. cbn.
      apply (di_registered0 p _ Ha). discriminate.
    + rewrite lookup_insert_ne in Hb by congruence. apply di_registered0; assumption.
  - intros q b Hb. destruct (decide (q = p)) as [->|Hne].
    + rewrite lookup_insert_eq in Hb. injection Hb as <-. cbn.
      apply (di_promise0 p _ Ha).
    + rewrite lookup_insert_ne in Hb by congruence. apply di_promise0, Hb.
  - intros c cfg' k q H. destruct (di_shared0 c cfg' k q H) as (b & Hb & Hk).
    destruct (decide (q = p)) as [->|Hne].
    + rewrite lookup_insert_eq. eexists. split; [reflexivity|].
      rewrite Ha in Hb. injection Hb as <-. exact Hk.
    + rewrite lookup_insert_ne by congruence. eauto.
  - intros k q H. destruct (di_connecting0 k q H) as (b & Hb & Hk).
    destruct (decide (q = p)) as [->|Hne].
    + rewrite lookup_insert_eq. eexists. split; [reflexivity|].
      rewrite Ha in Hb. injection Hb as <-. exact Hk.
    + rewrite lookup_insert_ne by congruence. eauto.
  - intros q [b Hb]. destruct (decide (q = p)) as [->|Hne].
    + apply di_fresh_attempt0. eauto.
    + rewrite lookup_insert_ne in Hb by congruence. apply di_fresh_attempt0. eauto.
  - intros k q H. apply elem_of_app in H as [H|H].
    + destruct (di_calls0 k q H) as (b & Hb & Hk & Hst).
      destruct (decide (q = p)) as [->|Hne].
      * rewrite Ha in Hb. injection Hb as <-. cbn in Hst. contradiction.
      * rewrite lookup_insert_ne by congruence. eauto.
    + apply list_elem_of_singleton in H. injection H as -> ->.
      rewrite lookup_insert_eq. eexists. split; [reflexivity|]. split; [reflexivity|].
      discriminate.
  - rewrite map_app. cbn. apply NoDup_app. split; [exact di_calls_once0|]. split.
    + intros q Hq Hq'. apply list_elem_of_singleton in Hq' as ->.
      apply list_elem_of_fmap in Hq as ([k q] & E & Hin). cbn in E. subst q.
      destruct (di_calls0 k p Hin) as (b & Hb & _ & Hst).
      rewrite Ha in Hb. injection Hb as <-. cbn in Hst. contradiction.
    + apply NoDup_singleton.
  - intros q b Hb Hst. apply elem_of_app. destruct (decide (q = p)) as [->|Hne].
    + rewrite lookup_insert_eq in Hb. injection Hb as <-. cbn.
      right. apply list_elem_of_singleton. reflexivity.
    + rewrite lookup_insert_ne in Hb by congruence. left. apply di_called0; assumption.
Qed.

Lemma dedup_inv_connect_done s p failure :
  dedup_inv s -> dedup_inv (connect_done s p failure).
Proof.
  intros Hinv. unfold connect_done.
  destruct (attempts s !! p) as [[key cfg [| | |]]|] eqn:Ha; try exact Hinv.
  destruct failure as [e|]; [eapply dedup_inv_failed; eauto|].
  destruct Hinv.
  constructor; cbn [connecting promises attempts callers connect_calls next_attempt
                    next_caller]; try assumption.
  - intros q b Hb Hst. destruct (decide (q = p)) as [->|Hne].
    + rewrite lookup_insert_eq in Hb. injection Hb as <-. cbn in Hst. contradiction.
    + rewrite lookup_insert_ne in Hb by congruence. apply di_registered0; assumption.
  - intros q b Hb. destruct (decide (q = p)) as [->|Hne].
    + rewrite lookup_insert_eq in Hb. injection Hb as <-. cbn.
      rewrite lookup_insert_eq. eexists. split; [reflexivity|discriminate].
    + rewrite lookup_insert_ne in Hb by congruence.
      pose proof (di_promise0 q b Hb) as Hp.
      destruct (a_stage b); rewrite ?lookup_insert_ne by congruence; exact Hp.
  - intros c cfg' k q H. destruct (di_shared0 c cfg' k q H) as (b & Hb & Hk).
    destruct (decide (q = p)) as [->|Hne].
    + rewrite lookup_insert_eq. eexists. split; [reflexivity|].
      rewrite Ha in Hb. injection Hb as <-. exact Hk.
    + rewrite lookup_insert_ne by congruence. eauto.
  - intros k q H. destruct (di_connecting0 k q H) as (b & Hb & Hk).
    destruct (decide (q = p)) as [->|Hne].
    + rewrite lookup_insert_eq. eexists. split; [reflexivity|].
      rewrite Ha in Hb. injection Hb as <-. exact Hk.
    + rewrite lookup_insert_ne by congruence. eauto.
  - intros q [b Hb]. destruct (decide (q = p)) as [->|Hne].
    + apply di_fresh_attempt0. eauto.
    + rewrite lookup_insert_ne in Hb by congruence. apply di_fresh_attempt0. eauto.
  - intros k q H. destruct (di_calls0 k q H) as (b & Hb & Hk & Hst).
    destruct (decide (q = p)) as [->|Hne].
    + rewrite lookup_insert_eq. eexists. split; [reflexivity|].
      rewrite Ha in Hb. injection Hb as <-. split; [exact Hk|discriminate].
    + rewrite lookup_insert_ne by congruence. eauto.
  - intros q b Hb Hst. destruct (decide (q = p)) as [->|Hne].
    + rewrite lookup_insert_eq in Hb. injection Hb as <-. cbn.
      apply (di_called0 p _ Ha). left. reflexivity.
    + rewrite lookup_insert_ne in Hb by congruence.
      rewrite lookup_insert_ne in Hst by congruence. apply di_called0; assumption.
Qed.

(** The transport of a failed attempt has ended: its promise rejects. *)
Lemma dedup_inv_end_done s p : dedup_inv s -> dedup_inv (end_done s p).
Proof.
  intros Hinv. unfold end_done.
  destruct (attempts s !! p) as [[key cfg [| |e|]]|] eqn:Ha; try exact Hinv.
  set (err := _wrapHostKeyError s key e). clearbody err.
  destruct Hinv.
  constructor; cbn [set_attempt connecting promises attempts callers connect_calls
                    next_attempt next_caller]; try assumption.
  - intros q b Hb Hst. destruct (decide (q = p)) as [->|Hne].
    + rewrite lookup_insert_eq in Hb. injection Hb as <-. cbn in Hst. contradiction.
    + rewrite lookup_insert_ne in Hb by congruence. apply di_registered0; assumption.
  - intros q b Hb. destruct (decide (q = p)) as [->|Hne].
    + rewrite lookup_insert_eq in Hb. injection Hb as <-. cbn.
      rewrite lookup_insert_eq. eexists. split; [reflexivity|discriminate].
    + rewrite lookup_insert_ne in Hb by congruence.
      pose proof (di_promise0 q b Hb) as Hp.
      destruct (a_stage b); rewrite ?lookup_insert_ne by congruence; exact Hp.
  - intros c cfg' k q H. destruct (di_shared0 c cfg' k q H) as (b & Hb & Hk).
    destruct (decide (q = p)) as [->|Hne].
    + rewrite lookup_insert_eq. eexists. split; [reflexivity|].
      rewrite Ha in Hb. injection Hb as <-. exact Hk.
    + rewrite lookup_insert_ne by congruence. eauto.
  - intros k q H. destruct (di_connecting0 k q H) as (b & Hb & Hk).
    destruct (decide (q = p)) as [->|Hne].
    + rewrite lookup_insert_eq. eexists. split; [reflexivity|].
      rewrite Ha in Hb. injection Hb as <-. exact Hk.
    + rewrite lookup_insert_ne by congruence. eauto.
  - intros q [b Hb]. destruct (decide (q = p)) as [->|Hne].
    + apply di_fresh_attempt0. eauto.
    + rewrite lookup_insert_ne in Hb by congruence. apply di_fresh_attempt0. eauto.
  - intros k q H. destruct (di_calls0 k q H) as (b & Hb & Hk & Hst).
    destruct (decide (q = p)) as [->|Hne].
    + rewrite lookup_insert_eq. eexists. split; [reflexivity|].
      rewrite Ha in Hb. injection Hb as <-. split; [exact Hk|discriminate].
    + rewrite lookup_insert_ne by congruence. eauto.
  - intros q b Hb Hst. destruct (decide (q = p)) as [->|Hne].
    + rewrite lookup_insert_eq in Hb. injection Hb as <-. cbn in Hst.
      rewrite lookup_insert_eq in Hst. destruct Hst as [Hst|[h Hst]]; discriminate Hst.
    + rewrite lookup_insert_ne in Hb by congruence.
      rewrite lookup_insert_ne in Hst by congruence. apply di_called0; assumption.
Qed.

Lemma dedup_inv_step s e :
  retries_shared s e = false -> dedup_inv s -> dedup_inv (step s e).
Proof.
  intros He Hinv. destruct e; cbn [step].
  - apply dedup_inv_getConnection, Hinv.
  - apply dedup_inv_resume; assumption.
  - apply dedup_inv_build_done, Hinv.
  - unfold host_verified.
    destruct (attempts s !! p) as [[key cfg [| | |]]|]; try exact Hinv.
    eapply dedup_inv_core; [|exact Hinv]. reflexivity.
  - apply dedup_inv_connect_done, Hinv.
  - apply dedup_inv_end_done, Hinv.
  - unfold transport_error. destruct (attempts s !! p) as [a|]; [|exact Hinv].
    destruct (connections s !! a_key a); [|exact Hinv].
    eapply dedup_inv_core; [|exact Hinv]. reflexivity.
  - unfold transport_closed. destruct (attempts s !! p) as [a|]; [|exact Hinv].
    destruct (connections s !! a_key a); [|exact Hinv].
    eapply dedup_inv_core; [|exact Hinv]. reflexivity.
  - eapply dedup_inv_core; [|exact Hinv]. reflexivity.
  - unfold closeConnection. destruct (connections s !! _connectionKey config); [|exact Hinv].
    eapply dedup_inv_core; [|exact Hinv]. reflexivity.
  - eapply dedup_inv_core; [apply core_cleanup|exact Hinv].
  - eapply dedup_inv_core; [|exact Hinv]. reflexivity.
Qed.

Lemma dedup_inv_reaches s : reaches_unless retries_shared init s -> dedup_inv s.
Proof.
  induction 1 as [|s e H IH He]; [apply dedup_inv_init|].
  apply dedup_inv_step; assumption.
Qed.


Lemma reaches_without_shared_retry evs : forall s0 s,
  reaches_unless retries_shared init s0 -> without_shared_retry s0 evs = true ->
  s = run s0 evs -> reaches_unless retries_shared init s.
Proof.
  induction evs as [|e evs IH]; intros s0 s H0 Hev ->; [exact H0|].
  cbn [without_shared_retry] in Hev. apply andb_prop in Hev as [He Hev].
  apply (IH (step s0 e)); [|exact Hev|reflexivity].
  constructor; [exact H0|]. destruct (retries_shared s0 e); [discriminate He|reflexivity].
Qed.

Lemma in_flight_pending s k p :
  dedup_inv s -> in_flight s k p -> promises s !! p = Some Pending.
Proof.
  intros Hinv (a & Ha & _ & Hst). pose proof (di_promise s Hinv p a Ha) as H.
  destruct (a_stage a); try assumption; contradiction.
Qed.

Lemma pending_in_flight s k p a :
  dedup_inv s -> attempts s !! p = Some a -> a_key a = k ->
  promises s !! p = Some Pending -> in_flight s k p.
Proof.
  intros Hinv Ha Hk Hp. exists a. split; [exact Ha|]. split; [exact Hk|].
  intros Hst. pose proof (di_promise s Hinv p a Ha) as H. rewrite Hst in H.
  destruct H as (ps & H & Hne). congruence.
Qed.

Lemma awaits_registered s cid k p :
  dedup_inv s -> awaits s cid k p -> promises s !! p = Some Pending ->
  connecting s !! k = Some p.
Proof.
  intros Hinv [[cfg H]|H] Hp.
  - destruct (di_shared s Hinv cid cfg k p H) as (a & Ha & Hk).
    destruct (pending_in_flight s k p a Hinv Ha Hk Hp) as (a' & Ha' & Hk' & Hst).
    rewrite <- Hk'. apply (di_registered s Hinv p a' Ha' Hst).
  - apply (di_own s Hinv cid k p H).
Qed.

(** C1, as the code has it. Whatever fails, until a caller that awaited
    the shared promise of its key resumes on the rejection of that
    promise: every key has at most one connect in flight, it is the one
    registered in [connecting] and its promise is pending; all calls
    suspended on an unsettled promise for the key await that one promise;
    no attempt invokes the transport's connect twice, an invocation
    belongs to an attempt for that key that has built its options, and
    every attempt that is connecting or has connected has invoked it. *)
Theorem connect_dedup_until_shared_retry (s : state) :
  reaches_unless retries_shared init s ->
  (forall k p p', in_flight s k p -> in_flight s k p' -> p = p')
  /\ (forall k p, in_flight s k p ->
        connecting s !! k = Some p /\ promises s !! p = Some Pending)
  /\ (forall cid cid' k p p',
        awaits s cid k p -> awaits s cid' k p' ->
        promises s !! p = Some Pending -> promises s !! p' = Some Pending ->
        p = p' /\ in_flight s k p)
  /\ NoDup (map snd (connect_calls s))
  /\ (forall k p, p ∈ connects_for s k ->
        exists a, attempts s !! p = Some a /\ a_key a = k /\ a_stage a <> Building)
  /\ (forall p a, attempts s !! p = Some a ->
        a_stage a = Connecting \/ (exists h, promises s !! p = Some (Fulfilled h)) ->
        p ∈ connects_for s (a_key a)).
Proof.
  intros Hreach. pose proof (dedup_inv_reaches s Hreach) as Hinv.
  assert (Hreg : forall k p, in_flight s k p -> connecting s !! k = Some p).
  { intros k p (a & Ha & Hk & Hst). rewrite <- Hk. apply (di_registered s Hinv p a Ha Hst). }
  split; [|split; [|split; [|split; [|split]]]].
  - intros k p p' H1 H2. apply Hreg in H1, H2. congruence.
  - intros k p H. split; [apply Hreg, H|eapply in_flight_pending; eauto].
  - intros cid cid' k p p' H1 H2 Hp Hp'.
    pose proof (awaits_registered s cid k p Hinv H1 Hp) as E1.
    pose proof (awaits_registered s cid' k p' Hinv H2 Hp') as E2.
    split; [congruence|].
    destruct (di_connecting s Hinv k p E1) as (a & Ha & Hk).
    eapply pending_in_flight; eauto.
  - apply (di_calls_once s Hinv).
  - intros k p. unfold connects_for. rewrite list_elem_of_omap.
    intros ([k' p'] & Hin & E). cbn in E.
    destruct (String.eqb_spec k' k) as [->|]; [|discriminate E]. injection E as ->.
    apply (di_calls s Hinv k p Hin).
  - intros p a Ha Hst. unfold connects_for. rewrite list_elem_of_omap.
    exists (a_key a, p). split; [apply (di_called s Hinv p a Ha Hst)|].
    cbn. rewrite String.eqb_refl. reflexivity.
Qed.

Lemma connect_dedup_until_shared_retry_witness :
  connecting (run init Demo.calls_after_failure) !! Demo.key = Some 1%nat
  /\ promises (run init Demo.calls_after_failure) !! 1%nat = Some Pending
  /\ NoDup (map snd (connect_calls (run init Demo.calls_after_failure)))
  /\ 1%nat ∈ connects_for (run init Demo.calls_after_failure) Demo.key.
Proof.
  destruct (connect_dedup_until_shared_retry (run init Demo.calls_after_failure)
              (reaches_without_shared_retry Demo.calls_after_failure init _
                 (reaches_unless_refl _ _) eq_refl eq_refl))
    as (_ & H2 & _ & H4 & _ & H6).
  destruct (H2 Demo.key 1%nat) as [E1 E2].
  - eexists. split; [vm_compute; reflexivity|]. split; [vm_compute; reflexivity|].
    discriminate.
  - split; [exact E1|]. split; [exact E2|]. split; [exact H4|].
    apply (H6 1%nat (mkAttempt Demo.key Demo.config Connecting)).
    + vm_compute. reflexivity.
    + left. reflexivity.
Defined.

(** Two concurrent calls for one key both await promise 0; when its
    connect fails, the caller that awaited the shared promise connects
    again: the transport's connect is invoked twice, not once. *)
Lemma connect_retried_after_shared_failure :
  callers Demo.two_calls !! 0%nat = Some (AwaitingOwn Demo.key 0)
  /\ callers Demo.two_calls !! 1%nat = Some (AwaitingShared Demo.config Demo.key 0)
  /\ connecting Demo.two_calls !! Demo.key = Some 0%nat
  /\ callers Demo.two_calls_retried !! 0%nat = Some (Threw "connect ECONNREFUSED")
  /\ callers Demo.two_calls_retried !! 1%nat = Some (AwaitingOwn Demo.key 1)
  /\ connects_for Demo.two_calls_retried Demo.key = [0%nat; 1%nat].
Proof. repeat split; vm_compute; reflexivity. Qed.

(** With three concurrent calls the two waiters both retry, and two
    connects for the key are under way at once while [connecting] holds
    only the later one. *)
Remark three_calls_two_connects_in_flight :
  in_flight Demo.three_calls_retried Demo.key 1
  /\ in_flight Demo.three_calls_retried Demo.key 2
  /\ connecting Demo.three_calls_retried !! Demo.key = Some 2%nat
  /\ connects_for Demo.three_calls_retried Demo.key = [0%nat; 1%nat; 2%nat].
Proof.
  split; [|split; [|split]]; try (vm_compute; reflexivity).
  - eexists. split; [vm_compute; reflexivity|]. split; [vm_compute; reflexivity|].
    discriminate.
  - eexists. split; [vm_compute; reflexivity|]. split; [vm_compute; reflexivity|].
    discriminate.
Qed.



End PoolFacts.

(** ** The delete guard *)

Section DeleteGuardFacts.

Import Extension.

(** C9. A path whose normal form is [/] is blocked by
    [checkDeleteSafety] whatever the safety settings, and
    [deleteFromServer] then returns the blocked result having only written
    two log lines: the queue, the connection manager and the closures are
    untouched. *)
Theorem root_delete_always_refused
    (w : world) (safety : SafetyConfig) (relativePath : string) (config : ServerConfig)
    (remotePath : jsval) (token : option nat) :
  normalizeRemotePath remotePath = "/" ->
  checkDeleteSafety safety remotePath = Blocked "Root path deletion is blocked."
  /\ (let r := deleteFromServer w safety relativePath config remotePath token in
      r.2 = DeleteBlocked "Root path deletion is blocked."
      /\ transferQueue r.1 = transferQueue w
      /\ connectionManager r.1 = connectionManager w
      /\ closures r.1 = closures w
      /\ exists line1 line2, output r.1 = (output w ++ [line1; line2])%list).
Proof.
  intros Hroot.
  assert (Hc : checkDeleteSafety safety remotePath = Blocked "Root path deletion is blocked.").
  { unfold checkDeleteSafety. cbv zeta. rewrite Hroot. reflexivity. }
  split; [exact Hc|]. cbv zeta. unfold deleteFromServer. cbv zeta. rewrite Hc.
  cbn [fst snd logTagged appendOperationLog transferQueue connectionManager closures output].
  repeat split. eexists _, _. rewrite <- app_assoc. reflexivity.
Qed.

Lemma root_delete_always_refused_witness :
  checkDeleteSafety Demo.lax_safety (JStr "/srv/../") = Blocked "Root path deletion is blocked."
  /\ (deleteFromServer Demo.fresh_world Demo.lax_safety "index.html" Demo.config
        (JStr "/srv/../") None).2 = DeleteBlocked "Root path deletion is blocked."
  /\ transferQueue
       (deleteFromServer Demo.fresh_world Demo.lax_safety "index.html" Demo.config
          (JStr "/srv/../") None).1 = transferQueue Demo.fresh_world.
Proof.
  destruct (root_delete_always_refused Demo.fresh_world Demo.lax_safety "index.html"
              Demo.config (JStr "/srv/../") None ltac:(vm_compute; reflexivity))
    as (H1 & H2 & H3 & _).
  split; [exact H1|]. split; [exact H2|exact H3].
Defined.

(** For contrast, a path below the root passes the guard with these
    settings and is handed to the queue. *)
Example nonroot_delete_is_queued :
  (deleteFromServer Demo.fresh_world Demo.lax_safety "index.html" Demo.config
     (JStr "/srv/app/index.html") None).2 = DeleteQueued 0.
Proof. vm_compute. reflexivity. Qed.

End DeleteGuardFacts.

(** ** Host trust store: trusting, removing and reloading *)

Section HostTrustRoundTrips.

Import HostTrust.

Variable dirname : string -> string.

Lemma persist_loaded storePath w p :
  loadedPath w = Some p ->
  _persist dirname storePath w
  = {| entries := entries w; loadedPath := loadedPath w;
       files := <[p := FileState (entries w)]> (files w);
       dirs := dirs w; log := log w |}.
Proof. intros E. unfold _persist. rewrite E. cbn. rewrite E. reflexivity. Qed.

Lemma trustFingerprint_spec storePath now cfg fp src w :
  let w1 := _ensureLoaded dirname storePath w in
  let e := mkEntry (cfg_host cfg) (port_or_22 cfg) fp src now in
  trustFingerprint dirname storePath now cfg fp src w
  = {| entries := <[_hostKey cfg := e]> (entries w1);
       loadedPath := Some storePath;
       files := <[storePath := FileState (<[_hostKey cfg := e]> (entries w1))]> (files w);
       dirs := dirs w1; log := log w1 |}.
Proof.
  intros w1 e. unfold trustFingerprint. fold w1. fold e.
  erewrite persist_loaded by (cbn; apply ensureLoaded_loadedPath).
  cbn. subst w1. rewrite ensureLoaded_loadedPath, ensureLoaded_files. reflexivity.
Qed.

(** After [trustFingerprint(config, fp)] the entry is found again:
    [getTrustedEntry] returns it, [verifyFingerprint] answers [match] for
    [fp] and [mismatch], with [fp] as the expected value, for any other
    fingerprint, whatever the policy but [off]; neither call changes the
    store, and the entries of other hosts are the ones that were loaded. *)
Theorem trustFingerprint_then_verify
    (storePath now now' : string) (cfg : ServerConfig) (fp fp' src pol : string) (w : world) :
  let w' := trustFingerprint dirname storePath now cfg fp src w in
  let key := _hostKey cfg in
  getTrustedEntry dirname storePath cfg w'
    = (w', Some (mkEntry (cfg_host cfg) (port_or_22 cfg) fp src now))
  /\ verifyFingerprint dirname storePath now' cfg fp' pol w'
     = (w', if String.eqb pol "off"
            then mkVerdict true pol "policy_off" None None None
            else if String.eqb fp fp'
            then mkVerdict true pol "match" None None None
            else mkVerdict false pol "mismatch" (Some fp) (Some fp')
                   (Some ("Host key mismatch for " ++ key ++ ".")))
  /\ (forall other, other <> key ->
        entries w' !! other = entries (_ensureLoaded dirname storePath w) !! other).
Proof.
  intros w' key. subst w'. rewrite trustFingerprint_spec. fold key.
  set (w' := {| entries := _ |}).
  assert (Hl : _ensureLoaded dirname storePath w' = w')
    by (apply ensureLoaded_loaded; reflexivity).
  split; [|split].
  - unfold getTrustedEntry. rewrite Hl. fold key. cbn. rewrite lookup_insert_eq. reflexivity.
  - unfold verifyFingerprint. rewrite Hl. fold key.
    destruct (String.eqb pol "off"); [reflexivity|].
    cbn [entries w']. rewrite lookup_insert_eq. cbn [fingerprint].
    destruct (String.eqb fp fp'); reflexivity.
  - intros other Hne. cbn. apply lookup_insert_ne. congruence.
Qed.

Lemma removeTrust_spec storePath hostKey w :
  let w1 := _ensureLoaded dirname storePath w in
  removeTrust dirname storePath hostKey w
  = if bool_decide (is_Some (entries w1 !! hostKey))
       || bool_decide (hostKey ∈ inherited_names)
    then
      ({| entries := delete hostKey (entries w1); loadedPath := Some storePath;
          files := <[storePath := FileState (delete hostKey (entries w1))]> (files w);
          dirs := dirs w1; log := log w1 |}, true)
    else (w1, false).
Proof.
  intros w1. unfold removeTrust. fold w1.
  destruct (bool_decide (is_Some (entries w1 !! hostKey))
            || bool_decide (hostKey ∈ inherited_names)); [|reflexivity].
  erewrite persist_loaded by (cbn; apply ensureLoaded_loadedPath).
  cbn. subst w1. rewrite ensureLoaded_loadedPath, ensureLoaded_files. reflexivity.
Qed.

Lemma has_colon_app a b : has_colon (a ++ String ":" b) = true.
Proof.
  induction a as [|c a IH]; [reflexivity|].
  change (String c a ++ String ":" b)%string with (String c (a ++ String ":" b)).
  cbn [has_colon]. rewrite IH. apply orb_true_r.
Qed.

(** A host key is no inherited property name. *)
Lemma hostKey_not_inherited cfg : bool_decide (_hostKey cfg ∈ inherited_names) = false.
Proof.
  apply bool_decide_eq_false_2. intros Hin.
  assert (Hc : has_colon (_hostKey cfg) = true) by apply has_colon_app.
  assert (Hall : Forall (fun n => has_colon n = false) inherited_names)
    by (repeat constructor).
  rewrite Forall_forall in Hall. rewrite (Hall _ Hin) in Hc. discriminate Hc.
Qed.

(** [removeTrust(hostKey)] answers whether the host was trusted. When it
    was, the entry is gone from memory and from the file, the other
    entries stay, and the host is unknown again: [strict] blocks it. When
    it was not, nothing is written. *)
Theorem removeTrust_forgets_host
    (storePath now : string) (cfg : ServerConfig) (fp : string) (w : world) :
  let w1 := _ensureLoaded dirname storePath w in
  let key := _hostKey cfg in
  let r := removeTrust dirname storePath key w in
  r.2 = bool_decide (is_Some (entries w1 !! key))
  /\ entries r.1 !! key = None
  /\ (forall other, other <> key -> entries r.1 !! other = entries w1 !! other)
  /\ (r.2 = true -> files r.1 !! storePath = Some (FileState (entries r.1)))
  /\ (r.2 = false -> r.1 = w1 /\ files r.1 = files w)
  /\ reason (verifyFingerprint dirname storePath now cfg fp "strict" r.1).2 = "unknown_host"
  /\ (removeTrust dirname storePath key r.1).2 = false.
Proof.
  intros w1 key r. subst r key. rewrite removeTrust_spec. fold w1.
  rewrite hostKey_not_inherited, orb_false_r. set (key := _hostKey cfg).
  destruct (entries w1 !! key) as [e|] eqn:He;
    [rewrite bool_decide_eq_true_2 by eauto
    |rewrite bool_decide_eq_false_2 by (intros [? ?]; discriminate)];
    cbn [fst snd].
  - set (w' := {| entries := _ |}).
    assert (Hl : _ensureLoaded dirname storePath w' = w')
      by (apply ensureLoaded_loaded; reflexivity).
    split; [reflexivity|]. split; [apply lookup_delete_eq|].
    split; [intros other Hne; cbn; apply lookup_delete_ne; congruence|].
    split; [intros _; cbn; apply lookup_insert_eq|].
    split; [discriminate|]. split.
    + unfold verifyFingerprint. rewrite Hl. cbn [String.eqb Ascii.eqb]. fold key.
      cbn [entries w']. rewrite lookup_delete_eq. reflexivity.
    + rewrite removeTrust_spec, Hl. cbn [entries w']. subst key.
      rewrite hostKey_not_inherited, orb_false_r, lookup_delete_eq. reflexivity.
  - assert (Hl : _ensureLoaded dirname storePath w1 = w1) by apply ensureLoaded_idem.
    split; [reflexivity|]. split; [exact He|].
    split; [reflexivity|]. split; [discriminate|].
    split; [intros _; split; [reflexivity|apply ensureLoaded_files]|]. split.
    + unfold verifyFingerprint. rewrite Hl. cbn [String.eqb Ascii.eqb]. fold key.
      rewrite He. reflexivity.
    + rewrite removeTrust_spec, Hl. subst key.
      rewrite hostKey_not_inherited, orb_false_r, He. reflexivity.
Qed.

(** What a store over trust states holds is what a new store object
    reads back: after [trustFingerprint], and after a [removeTrust] that
    answered [true], a store created afresh over the same files loads
    exactly the entries that are in memory. *)
Theorem trust_store_reloads
    (storePath now : string) (cfg : ServerConfig) (fp src hostKey : string) (w : world) :
  let reload (w' : world) := _ensureLoaded dirname storePath (init (files w') (dirs w')) in
  let w1 := trustFingerprint dirname storePath now cfg fp src w in
  let r := removeTrust dirname storePath hostKey w in
  entries (reload w1) = entries w1
  /\ (r.2 = true -> entries (reload r.1) = entries r.1).
Proof.
  intros reload w1 r. subst reload w1 r. split.
  - rewrite trustFingerprint_spec. unfold _ensureLoaded, init. cbn.
    rewrite lookup_insert_eq. reflexivity.
  - rewrite removeTrust_spec.
    destruct (bool_decide (is_Some (entries (_ensureLoaded dirname storePath w) !! hostKey))
              || bool_decide (hostKey ∈ inherited_names)); [|discriminate].
    intros _. unfold _ensureLoaded at 1. unfold init. cbn.
    rewrite lookup_insert_eq. reflexivity.
Qed.

(** A store file that is missing, cannot be parsed, or holds a value
    that the load test rejects ([null], a number, a string, a boolean, an
    object without a truthy [entries] property) counts as an empty
    store: a parse failure is logged and not thrown; then every host is
    unknown, [strict] blocks it and [tofu] trusts it, and the write that
    follows leaves a file with that one entry. *)
Theorem unreadable_store_is_empty
    (storePath now : string) (cfg : ServerConfig) (fp : string) (w : world) :
  loadedPath w <> Some storePath ->
  (forall st, files w !! storePath <> Some (FileState st)) ->
  let w1 := _ensureLoaded dirname storePath w in
  let key := _hostKey cfg in
  let e := mkEntry (cfg_host cfg) (port_or_22 cfg) fp "tofu" now in
  entries w1 = ∅
  /\ (forall msg, files w !! storePath = Some (FileCorrupt msg) ->
        log w1 = (log w ++ [("[HOSTKEY] failed to load trust store: " ++ msg)%string])%list)
  /\ reason (verifyFingerprint dirname storePath now cfg fp "strict" w).2 = "unknown_host"
  /\ (verifyFingerprint dirname storePath now cfg fp "tofu" w).2
     = mkVerdict true "tofu" "trusted_now" None None None
  /\ files (verifyFingerprint dirname storePath now cfg fp "tofu" w).1 !! storePath
     = Some (FileState {[ key := e ]}).
Proof.
  intros Hnl Hfile w1 key e.
  assert (He : entries w1 = ∅).
  { subst w1. unfold _ensureLoaded.
    destruct (decide (loadedPath w = Some storePath)); [contradiction|].
    destruct (files w !! storePath) as [[st| |msg]|] eqn:Hf; try reflexivity.
    exfalso. exact (Hfile st eq_refl). }
  split; [exact He|]. split.
  { intros msg Hf. subst w1. unfold _ensureLoaded.
    destruct (decide (loadedPath w = Some storePath)); [contradiction|].
    rewrite Hf. reflexivity. }
  unfold verifyFingerprint. fold w1. fold key. cbn [String.eqb Ascii.eqb Bool.eqb].
  rewrite He, lookup_empty. cbn [fst snd].
  split; [reflexivity|]. split; [reflexivity|].
  rewrite trustFingerprint_spec. cbn [files].
  assert (Hl : _ensureLoaded dirname storePath w1 = w1) by apply ensureLoaded_idem.
  rewrite Hl, He, lookup_insert_eq. fold key. fold e.
  rewrite insert_empty. reflexivity.
Qed.

End HostTrustRoundTrips.

Lemma unreadable_store_is_empty_witness :
  HostTrust.entries
    (HostTrust._ensureLoaded Demo.dirname Demo.storePath
       (HostTrust.init {[ Demo.storePath := HostTrust.FileCorrupt "Unexpected end of JSON input" ]} ∅))
  = ∅
  /\ (HostTrust.verifyFingerprint Demo.dirname Demo.storePath "t0" Demo.config "SHA256:aaaa"
        "tofu"
        (HostTrust.init {[ Demo.storePath := HostTrust.FileCorrupt "Unexpected end of JSON input" ]} ∅)).2
     = HostTrust.mkVerdict true "tofu" "trusted_now" None None None.
Proof.
  pose proof (unreadable_store_is_empty Demo.dirname Demo.storePath "t0" Demo.config
                "SHA256:aaaa"
                (HostTrust.init
                   {[ Demo.storePath := HostTrust.FileCorrupt "Unexpected end of JSON input" ]} ∅))
    as H.
  cbv zeta in H.
  destruct H as (H1 & _ & _ & H4 & _).
  - discriminate.
  - intros st. vm_compute. discriminate.
  - split; [exact H1|exact H4].
Defined.

(** ** Host trust store: a state whose [entries] is a primitive *)

Section HostTrustKeptPrimitive.

Variable dirname : string -> string.

Import HostTrustRaw.

Lemma of_trust_state_ensureLoaded storePath w :
  _ensureLoaded dirname storePath (of_trust_state w)
  = of_trust_state (HostTrust._ensureLoaded dirname storePath w).
Proof.
  unfold _ensureLoaded, HostTrust._ensureLoaded, of_trust_state.
  cbn [loadedPath files dirs log entries].
  destruct (decide (HostTrust.loadedPath w = Some storePath)); [reflexivity|].
  rewrite lookup_fmap.
  destruct (HostTrust.files w !! storePath) as [[| |]|]; reflexivity.
Qed.

Lemma of_trust_state_persist storePath w :
  _persist dirname storePath (of_trust_state w)
  = of_trust_state (HostTrust._persist dirname storePath w).
Proof.
  unfold _persist, HostTrust._persist.
  change (loadedPath (of_trust_state w)) with (HostTrust.loadedPath w).
  destruct (HostTrust.loadedPath w) as [p|] eqn:E.
  - change (loadedPath (of_trust_state w)) with (HostTrust.loadedPath w). rewrite E.
    unfold of_trust_state. cbn. rewrite fmap_insert. reflexivity.
  - rewrite of_trust_state_ensureLoaded.
    change (loadedPath (of_trust_state ?x)) with (HostTrust.loadedPath x).
    destruct (HostTrust.loadedPath (HostTrust._ensureLoaded dirname storePath w));
      [|reflexivity].
    unfold of_trust_state. cbn. rewrite fmap_insert. reflexivity.
Qed.

Lemma of_trust_state_trustFingerprint storePath now cfg fp src w :
  trustFingerprint dirname storePath now cfg fp src (of_trust_state w)
  = (of_trust_state (HostTrust.trustFingerprint dirname storePath now cfg fp src w),
     Returns tt).
Proof.
  unfold trustFingerprint, HostTrust.trustFingerprint.
  rewrite of_trust_state_ensureLoaded. cbn [entries of_trust_state assign].
  f_equal. apply (of_trust_state_persist storePath
                    {| HostTrust.entries := _; HostTrust.loadedPath := _ |}).
Qed.

(** On a trust state the two embeddings of the store agree:
    [verifyFingerprint] returns the same verdict and leaves the same
    world. *)
Lemma of_trust_state_verifyFingerprint storePath now cfg fp pol w :
  verifyFingerprint dirname storePath now cfg fp pol (of_trust_state w)
  = (of_trust_state (HostTrust.verifyFingerprint dirname storePath now cfg fp pol w).1,
     Returns (HostTrust.verifyFingerprint dirname storePath now cfg fp pol w).2).
Proof.
  unfold verifyFingerprint, HostTrust.verifyFingerprint.
  rewrite of_trust_state_ensureLoaded.
  destruct (String.eqb pol "off"); [reflexivity|].
  cbn [entries of_trust_state read].
  destruct (HostTrust.entries (HostTrust._ensureLoaded dirname storePath w)
            !! HostTrust._hostKey cfg) as [current|].
  - destruct (String.eqb (HostTrust.fingerprint current) fp); reflexivity.
  - destruct (String.eqb pol "strict"); [reflexivity|].
    rewrite (of_trust_state_trustFingerprint storePath now cfg fp "tofu"
               (HostTrust._ensureLoaded dirname storePath w)).
    reflexivity.
Qed.

(** C2. The case analysis fails on a store file that passes the load
    test without holding entry records. With the file [{"entries": 5}],
    a new store keeps the parsed object as its state; no entry is stored
    for any host; under [strict] the answer is [unknown_host], but under
    [tofu] the assignment of the new entry throws a TypeError: no verdict
    is returned, nothing is written to the file and nothing is logged. *)
Theorem verifyFingerprint_tofu_throws_on_primitive_entries
    (storePath now : string) (cfg : ServerConfig) (fp : string) :
  let w := init {[ storePath := PrimitiveEntries "number" "5" ]} ∅ in
  let key := HostTrust._hostKey cfg in
  let strict := verifyFingerprint dirname storePath now cfg fp "strict" w in
  let tofu := verifyFingerprint dirname storePath now cfg fp "tofu" w in
  entries (_ensureLoaded dirname storePath w) = Primitive "number" "5"
  /\ read (entries (_ensureLoaded dirname storePath w)) key = None
  /\ strict.2
     = Returns (HostTrust.mkVerdict false "strict" "unknown_host" None None
                  (Some ("No trusted host key exists for " ++ key ++ ".")))
  /\ tofu.2
     = Throws (mkError "" ("Cannot create property '" ++ key ++ "' on number '5'"))
  /\ tofu.1 = _ensureLoaded dirname storePath w
  /\ files tofu.1 = {[ storePath := PrimitiveEntries "number" "5" ]}
  /\ log tofu.1 = [].
Proof.
  cbv zeta.
  assert (El : _ensureLoaded dirname storePath
                 (init {[ storePath := PrimitiveEntries "number" "5" ]} ∅)
               = {| entries := Primitive "number" "5"; loadedPath := Some storePath;
                    files := {[ storePath := PrimitiveEntries "number" "5" ]};
                    dirs := {[ dirname storePath ]} ∪ ∅; log := [] |}).
  { unfold _ensureLoaded, init. cbn [loadedPath files dirs log].
    destruct (decide (None = Some storePath)) as [E|_]; [discriminate E|].
    rewrite lookup_singleton_eq.
    destruct (decide (dirname storePath ∈ (∅ : gset string))) as [E|_]; [|reflexivity].
    exfalso. exact (not_elem_of_empty _ E). }
  assert (Ei : forall w', loadedPath w' = Some storePath ->
                          _ensureLoaded dirname storePath w' = w').
  { intros w' E. unfold _ensureLoaded.
    destruct (decide (loadedPath w' = Some storePath)); [reflexivity|contradiction]. }
  unfold verifyFingerprint, trustFingerprint. rewrite El.
  rewrite Ei by reflexivity. cbn [String.eqb Ascii.eqb Bool.eqb entries read assign].
  cbn [fst snd files log].
  repeat split.
Qed.

End HostTrustKeptPrimitive.

(** ** Credential store: edge cases and successive calls *)

Section CredentialEdges.

Import Credential CredentialSpec CredentialRuns.

Lemma resolve_field_flags ws cfg am ow acc f :
  didNotifyMigration (acc_store (resolve_field ws cfg am ow acc f))
  = didNotifyMigration (acc_store acc)
  /\ notified (acc_store (resolve_field ws cfg am ow acc f)) = notified (acc_store acc).
Proof.
  unfold resolve_field. cbv zeta.
  destruct (_ && negb ow); [split; reflexivity|].
  destruct (_ && _ && _); [split; reflexivity|].
  destruct (_ && ow); split; reflexivity.
Qed.

(** One iteration of the loop of [resolve] on a store with a context. *)
Lemma resolve_field_spec ws cfg am ow acc f sec :
  context (acc_store acc) = Some sec ->
  let s := sec !! _secretKey ws cfg f in
  let p := get_field cfg f in
  let mig := negb (nonempty_string s && negb ow) && nonempty_string p && am in
  let acc' := resolve_field ws cfg am ow acc f in
  context (acc_store acc')
  = Some (if mig then <[_secretKey ws cfg f := default "" p]> sec else sec)
  /\ acc_migrated acc' = (acc_migrated acc ++ (if mig then [f] else []))%list
  /\ acc_result acc'
     = if mig then set_field (acc_result acc) f (default "" p)
       else if nonempty_string s then set_field (acc_result acc) f (default "" s)
       else acc_result acc.
Proof.
  intros Hctx s p mig acc'. subst acc' mig.
  unfold resolve_field, secrets_get. cbv zeta. rewrite Hctx. fold s. fold p.
  rewrite (bool_decide_eq_true_2 (is_Some (Some sec))) by eauto.
  rewrite andb_true_r.
  destruct (nonempty_string s) eqn:Hs, ow; cbn [negb andb].
  - destruct (nonempty_string p && am) eqn:Hp; cbn [acc_store acc_migrated acc_result].
    + cbn. rewrite Hctx. cbn. auto.
    + rewrite app_nil_r. auto.
  - cbn [acc_store acc_migrated acc_result]. rewrite app_nil_r. auto.
  - destruct (nonempty_string p && am) eqn:Hp; cbn [acc_store acc_migrated acc_result].
    + cbn. rewrite Hctx. cbn. auto.
    + rewrite app_nil_r. auto.
  - destruct (nonempty_string p && am) eqn:Hp; cbn [acc_store acc_migrated acc_result].
    + cbn. rewrite Hctx. cbn. auto.
    + rewrite app_nil_r. auto.
Qed.

(** A store that was given no context keeps no secrets: [resolve] hands
    the config back as it is and reports nothing migrated, and
    [migrateFromPlaintext] and [migrateAll] count 0; the store is left as
    it was. *)
Theorem store_without_context_is_inert
    (st : store) (cfg : ServerConfig) (cfgs : list ServerConfig) (ws : string)
    (opts : options) :
  context st = None ->
  resolve st cfg ws opts = (st, {| config := cfg; migratedFields := [] |})
  /\ migrateFromPlaintext st cfg ws opts = (st, 0)
  /\ migrateAll st cfgs ws opts = (st, 0).
Proof.
  intros Hctx.
  assert (Hm : forall c, migrateFromPlaintext st c ws opts = (st, 0)).
  { intros c. unfold migrateFromPlaintext. cbn [fold_left].
    assert (Hf : forall ow n f, migrate_field ws c ow (st, n) f = (st, n)).
    { intros ow n f. unfold migrate_field. rewrite Hctx.
      rewrite (bool_decide_eq_false_2 (is_Some None)) by (intros [? ?]; discriminate).
      cbn [negb]. rewrite orb_true_r. reflexivity. }
    rewrite !Hf. reflexivity. }
  split; [|split].
  - assert (Hf : forall am ow acc f, acc_store acc = st -> resolve_field ws cfg am ow acc f = acc).
    { intros am ow acc f E. unfold resolve_field, secrets_get. cbv zeta. rewrite E, Hctx.
      cbn [nonempty_string andb].
      rewrite (bool_decide_eq_false_2 (is_Some None)) by (intros [? ?]; discriminate).
      rewrite andb_false_r. reflexivity. }
    unfold resolve. cbv zeta. cbn [fold_left].
    set (acc0 := {| acc_store := st; acc_result := cfg; acc_migrated := [] |}).
    rewrite (Hf _ _ acc0 Password eq_refl). rewrite (Hf _ _ acc0 Passphrase eq_refl).
    reflexivity.
  - apply Hm.
  - unfold migrateAll. generalize 0 as n.
    induction cfgs as [|c cfgs IH]; intros n; [reflexivity|].
    cbn [fold_left fst snd]. rewrite Hm. rewrite Z.add_0_r. apply IH.
Qed.

(** With [autoMigrate: false], [resolve] only reads: the store is left
    as it was, nothing is reported migrated, and each field is the stored
    secret when there is a non-empty one and the config's own value when
    not, whatever [overwrite] says. *)
Theorem resolve_without_autoMigrate_only_reads
    (st : store) (cfg : ServerConfig) (ws : string) (opts : options) :
  autoMigrate opts = Some false ->
  let r := resolve st cfg ws opts in
  r.1 = st
  /\ migratedFields r.2 = []
  /\ forall f,
       get_field (config r.2) f
       = if nonempty_string (secrets_get st (_secretKey ws cfg f))
         then secrets_get st (_secretKey ws cfg f)
         else get_field cfg f.
Proof.
  intros Ham r. subst r. unfold resolve. cbv zeta.
  rewrite (bool_decide_eq_true_2 _ Ham). cbn [negb fold_left].
  set (ow := bool_decide _).
  assert (Hstep : forall acc f,
    acc_store acc = st ->
    resolve_field ws cfg false ow acc f
    = {| acc_store := st;
         acc_result :=
           if nonempty_string (secrets_get st (_secretKey ws cfg f))
           then set_field (acc_result acc) f
                  (default "" (secrets_get st (_secretKey ws cfg f)))
           else acc_result acc;
         acc_migrated := acc_migrated acc |}).
  { intros [st' res mg] f E. cbn in E. subst st'. unfold resolve_field. cbv zeta.
    cbn [acc_store acc_result acc_migrated].
    rewrite andb_false_r. cbn [andb].
    destruct (nonempty_string _), ow; reflexivity. }
  rewrite (Hstep {| acc_store := st; acc_result := cfg; acc_migrated := [] |} Password
             eq_refl).
  rewrite Hstep by reflexivity.
  cbn [acc_store acc_result acc_migrated List.length Nat.eqb negb andb fst snd
       config migratedFields].
  split; [reflexivity|]. split; [reflexivity|].
  intros f.
  destruct (nonempty_string (secrets_get st (_secretKey ws cfg Password))) eqn:H1;
    destruct (nonempty_string (secrets_get st (_secretKey ws cfg Passphrase))) eqn:H2;
    destruct f; rewrite ?H1, ?H2;
    try (apply nonempty_string_inv in H1 as (v1 & E1 & _); rewrite E1);
    try (apply nonempty_string_inv in H2 as (v2 & E2 & _); rewrite E2);
    reflexivity.
Qed.

Lemma resolve_flags st cfg ws opts :
  let r := resolve st cfg ws opts in
  notified r.1
  = (notified st
     ++ (if migrated_some r.2 && negb (didNotifyMigration st)
         then [map field_name (migratedFields r.2)] else []))%list
  /\ didNotifyMigration r.1 = didNotifyMigration st || migrated_some r.2.
Proof.
  intros r. subst r. unfold resolve, migrated_some. cbv zeta. cbn [fold_left].
  set (acc0 := {| acc_store := st; acc_result := cfg; acc_migrated := [] |}).
  set (am := negb (bool_decide (autoMigrate opts = Some false))).
  set (ow := bool_decide (overwrite opts = Some true)).
  destruct (resolve_field_flags ws cfg am ow acc0 Password) as [Hd1 Hn1].
  set (acc1 := resolve_field ws cfg am ow acc0 Password) in *.
  destruct (resolve_field_flags ws cfg am ow acc1 Passphrase) as [Hd2 Hn2].
  set (acc2 := resolve_field ws cfg am ow acc1 Passphrase) in *.
  cbn [fst snd migratedFields].
  rewrite Hd2, Hd1. cbn [acc0 acc_store].
  destruct (negb (Nat.eqb (List.length (acc_migrated acc2)) 0));
    destruct (didNotifyMigration st) eqn:Hd;
    cbn [andb negb orb notified didNotifyMigration];
    rewrite ?Hn2, ?Hn1, ?Hd2, ?Hd1; cbn [acc0 acc_store]; rewrite ?app_nil_r; auto.
Qed.

Lemma resolve_all_notified calls : forall st,
  let r := resolve_all st calls in
  notified r.1
  = (notified st
     ++ (if didNotifyMigration st then []
         else match List.filter migrated_some r.2 with
              | x :: _ => [map field_name (migratedFields x)]
              | [] => []
              end))%list.
Proof.
  induction calls as [|c calls IH]; intros st r; subst r.
  - cbn. destruct (didNotifyMigration st); rewrite app_nil_r; reflexivity.
  - cbn [resolve_all].
    destruct (resolve_flags st (rc_config c) (rc_workspaceId c) (rc_options c)) as [Hn Hd].
    destruct (resolve st (rc_config c) (rc_workspaceId c) (rc_options c)) as [st1 r1].
    specialize (IH st1).
    destruct (resolve_all st1 calls) as [st2 rs]. cbn [fst snd] in *.
    rewrite IH, Hd, Hn. cbn [List.filter].
    destruct (didNotifyMigration st), (migrated_some r1); cbn [andb negb orb];
      rewrite ?app_nil_r; reflexivity.
Qed.

(** However often [resolve] is called on one store, [onAutoMigrated] is
    invoked at most once: by the first call that migrated a field, with
    the fields of that call; later migrations are silent. *)
Theorem onAutoMigrated_fires_once
    (ctx : option (gmap string string)) (calls : list resolve_call) :
  let r := resolve_all (create ctx) calls in
  notified r.1
  = match List.filter migrated_some r.2 with
    | x :: _ => [map field_name (migratedFields x)]
    | [] => []
    end
  /\ (List.length (notified r.1) <= 1)%nat.
Proof.
  intros r. subst r.
  pose proof (resolve_all_notified calls (create ctx)) as H. cbv zeta in H.
  cbn [create notified didNotifyMigration app] in H.
  split; [exact H|]. rewrite H.
  destruct (List.filter _ _); cbn; lia.
Qed.

End CredentialEdges.

Lemma store_without_context_is_inert_witness :
  Credential.resolve (CredentialRuns.create None) Demo.config "ws" CredentialSpec.no_options
  = (CredentialRuns.create None,
     {| Credential.config := Demo.config; Credential.migratedFields := [] |}).
Proof.
  apply (store_without_context_is_inert (CredentialRuns.create None) Demo.config [] "ws"
           CredentialSpec.no_options eq_refl).
Defined.

Lemma resolve_without_autoMigrate_only_reads_witness :
  (Credential.resolve CredentialSpec.empty_store Demo.config "ws"
     {| Credential.autoMigrate := Some false; Credential.overwrite := None |}).1
  = CredentialSpec.empty_store.
Proof.
  apply (resolve_without_autoMigrate_only_reads CredentialSpec.empty_store Demo.config "ws"
           {| Credential.autoMigrate := Some false; Credential.overwrite := None |} eq_refl).
Defined.

Section CredentialMigration.

Import Credential CredentialSpec CredentialRuns.

Local Ltac case_nonempty :=
  match goal with
  | |- context [if nonempty_string ?x then _ else _] =>
      destruct (nonempty_string x); cbv iota
  end.

Lemma plaintext_fields_elem cfg f :
  f ∈ plaintext_fields cfg <-> nonempty_string (get_field cfg f) = true.
Proof.
  unfold plaintext_fields. rewrite list_elem_of_In, filter_In. split.
  - intros [_ H]. exact H.
  - intros H. split; [|exact H]. destruct f; cbn; auto.
Qed.

Lemma secretKey_ne ws cfg f g : f <> g -> _secretKey ws cfg f <> _secretKey ws cfg g.
Proof. intros Hne E. apply Hne. eapply secretKey_field_inj, E. Qed.

Lemma nonempty_default v : nonempty_string v = true -> Some (default "" v) = v.
Proof. intros H. apply nonempty_string_inv in H as (s & -> & _). reflexivity. Qed.

(** One iteration of the loop of [migrateFromPlaintext] when it overwrites. *)
Lemma migrate_field_overwrite ws cfg st n f sec :
  context st = Some sec ->
  migrate_field ws cfg true (st, n) f
  = if nonempty_string (get_field cfg f)
    then ({| context := Some (<[_secretKey ws cfg f := default "" (get_field cfg f)]> sec);
             didNotifyMigration := didNotifyMigration st; log := log st;
             notified := notified st |}, n + 1)
    else (st, n).
Proof.
  intros Hctx. unfold migrate_field, secrets_store. rewrite Hctx.
  rewrite (bool_decide_eq_true_2 (is_Some (Some sec))) by eauto.
  destruct (nonempty_string (get_field cfg f)); reflexivity.
Qed.

Lemma migrateFromPlaintext_overwrite st cfg ws opts sec :
  context st = Some sec ->
  overwrite opts <> Some false ->
  let store_field (m : gmap string string) (f : field) :=
    if nonempty_string (get_field cfg f)
    then <[_secretKey ws cfg f := default "" (get_field cfg f)]> m else m in
  migrateFromPlaintext st cfg ws opts
  = ({| context := Some (store_field (store_field sec Password) Passphrase);
        didNotifyMigration := didNotifyMigration st; log := log st;
        notified := notified st |},
     Z.of_nat (List.length (plaintext_fields cfg))).
Proof.
  intros Hctx Hov store_field. subst store_field. unfold migrateFromPlaintext, plaintext_fields.
  rewrite (bool_decide_eq_false_2 _ Hov). cbn [negb fold_left List.filter].
  rewrite (migrate_field_overwrite ws cfg st 0 Password sec Hctx).
  destruct st as [ctx dn lg nt]. cbn in Hctx. subst ctx.
  destruct (nonempty_string (get_field cfg Password));
    (erewrite migrate_field_overwrite by reflexivity);
    destruct (nonempty_string (get_field cfg Passphrase)); reflexivity.
Qed.

(** Unless [overwrite] is [false], [migrateFromPlaintext] stores every
    non-empty plaintext field of the config under its key, replacing what
    was there, and counts exactly those fields; other keys, the log and
    the notification flag are left alone; [migrateAll] returns the number
    of non-empty plaintext fields of all configs. *)
Theorem migrateFromPlaintext_stores_plaintext
    (st : store) (cfg : ServerConfig) (cfgs : list ServerConfig) (ws : string)
    (opts : options) (sec : gmap string string) :
  context st = Some sec ->
  overwrite opts <> Some false ->
  let r := migrateFromPlaintext st cfg ws opts in
  r.2 = Z.of_nat (List.length (plaintext_fields cfg))
  /\ (forall f, f ∈ plaintext_fields cfg ->
        secrets_get r.1 (_secretKey ws cfg f) = get_field cfg f)
  /\ (forall k, (forall f, f ∈ plaintext_fields cfg -> k <> _secretKey ws cfg f) ->
        secrets_get r.1 k = sec !! k)
  /\ log r.1 = log st /\ notified r.1 = notified st
  /\ didNotifyMigration r.1 = didNotifyMigration st
  /\ (migrateAll st cfgs ws opts).2
     = Z.of_nat (List.length (flat_map plaintext_fields cfgs)).
Proof.
  intros Hctx Hov r. subst r.
  rewrite (migrateFromPlaintext_overwrite st cfg ws opts sec Hctx Hov).
  cbn [fst snd log notified didNotifyMigration]. unfold secrets_get. cbn [context].
  assert (Hpq : _secretKey ws cfg Passphrase <> _secretKey ws cfg Password)
    by (apply secretKey_ne; discriminate).
  split; [reflexivity|]. split; [|split; [|split; [|split; [|split]]]]; try reflexivity.
  - intros f Hf. apply plaintext_fields_elem in Hf. destruct f.
    + rewrite Hf.
      destruct (nonempty_string (get_field cfg Passphrase));
        [rewrite lookup_insert_ne by exact Hpq|]; rewrite lookup_insert_eq;
        apply nonempty_default, Hf.
    + rewrite Hf, lookup_insert_eq. apply nonempty_default, Hf.
  - intros k Hk.
    assert (H1 : nonempty_string (get_field cfg Password) = true -> _secretKey ws cfg Password <> k).
    { intros H E. apply (Hk Password); [apply plaintext_fields_elem, H|congruence]. }
    assert (H2 : nonempty_string (get_field cfg Passphrase) = true -> _secretKey ws cfg Passphrase <> k).
    { intros H E. apply (Hk Passphrase); [apply plaintext_fields_elem, H|congruence]. }
    destruct (nonempty_string (get_field cfg Password));
      destruct (nonempty_string (get_field cfg Passphrase));
      rewrite ?lookup_insert_ne by auto; reflexivity.
  - unfold migrateAll.
    assert (Hgen : forall cs st0 n sec0, context st0 = Some sec0 ->
      (fold_left
         (fun (acc : store * Z) c =>
            let '(st1, m) := migrateFromPlaintext acc.1 c ws opts in (st1, acc.2 + m))
         cs (st0, n)).2
      = n + Z.of_nat (List.length (flat_map plaintext_fields cs))).
    { induction cs as [|c cs IH]; intros st0 n sec0 H0.
      - cbn. lia.
      - cbn [fold_left fst snd flat_map].
        rewrite (migrateFromPlaintext_overwrite st0 c ws opts sec0 H0 Hov).
        erewrite IH by reflexivity.
        rewrite length_app. lia. }
    rewrite (Hgen cfgs st 0 sec Hctx). lia.
Qed.

Lemma resolve_field_quiet ws cfg am ow acc f sec :
  context (acc_store acc) = Some sec ->
  negb (nonempty_string (sec !! _secretKey ws cfg f) && negb ow)
  && nonempty_string (get_field cfg f) && am = false ->
  acc_store (resolve_field ws cfg am ow acc f) = acc_store acc.
Proof.
  intros Hctx Hm. unfold resolve_field, secrets_get. cbv zeta. rewrite Hctx.
  rewrite (bool_decide_eq_true_2 (is_Some (Some sec))) by eauto.
  rewrite andb_true_r.
  destruct (nonempty_string (sec !! _secretKey ws cfg f) && negb ow) eqn:H1;
    [reflexivity|].
  cbn [negb andb] in Hm. rewrite Hm.
  destruct (_ && ow); reflexivity.
Qed.

(** After [migrateFromPlaintext] has stored the plaintext fields, a
    [resolve] without [overwrite] finds them: it migrates nothing,
    leaves the store as it is, does not notify, and returns for every
    non-empty plaintext field the very value of the config. *)
Theorem migrate_then_resolve
    (st : store) (cfg : ServerConfig) (ws : string) (mopts ropts : options)
    (sec : gmap string string) :
  context st = Some sec ->
  overwrite mopts <> Some false ->
  overwrite ropts <> Some true ->
  let st1 := (migrateFromPlaintext st cfg ws mopts).1 in
  let r := resolve st1 cfg ws ropts in
  migratedFields r.2 = []
  /\ r.1 = st1
  /\ forall f, f ∈ plaintext_fields cfg -> get_field (config r.2) f = get_field cfg f.
Proof.
  intros Hctx Hm Hr st1 r.
  destruct (migrateFromPlaintext_stores_plaintext st cfg [] ws mopts sec Hctx Hm)
    as (_ & Hstored & _).
  fold st1 in Hstored.
  assert (Hc1 : is_Some (context st1))
    by (apply migrateFromPlaintext_context; rewrite Hctx; eauto).
  destruct Hc1 as [sec1 Hc1].
  assert (Hget : forall k, secrets_get st1 k = sec1 !! k)
    by (intros k; unfold secrets_get; rewrite Hc1; reflexivity).
  assert (Hmig : forall f am,
    negb (nonempty_string (sec1 !! _secretKey ws cfg f) && negb false)
    && nonempty_string (get_field cfg f) && am = false).
  { intros f am. destruct (nonempty_string (get_field cfg f)) eqn:Hp.
    - rewrite <- Hget, (Hstored f) by (apply plaintext_fields_elem, Hp).
      rewrite Hp. reflexivity.
    - rewrite andb_false_r. reflexivity. }
  subst r. unfold resolve. cbv zeta.
  rewrite (bool_decide_eq_false_2 _ Hr). cbn [fold_left].
  set (am := negb (bool_decide (autoMigrate ropts = Some false))).
  set (acc0 := {| acc_store := st1; acc_result := cfg; acc_migrated := [] |}).
  destruct (resolve_field_spec ws cfg am false acc0 Password sec1 Hc1) as (_ & Hm1 & Hr1).
  pose proof (resolve_field_quiet ws cfg am false acc0 Password sec1 Hc1 (Hmig _ _)) as Hs1.
  set (acc1 := resolve_field ws cfg am false acc0 Password) in *.
  assert (Hc1' : context (acc_store acc1) = Some sec1) by (rewrite Hs1; exact Hc1).
  destruct (resolve_field_spec ws cfg am false acc1 Passphrase sec1 Hc1') as (_ & Hm2 & Hr2).
  pose proof (resolve_field_quiet ws cfg am false acc1 Passphrase sec1 Hc1' (Hmig _ _)) as Hs2.
  set (acc2 := resolve_field ws cfg am false acc1 Passphrase) in *.
  rewrite Hmig in Hm1, Hr1, Hm2, Hr2. rewrite app_nil_r in Hm1, Hm2.
  cbn [acc0 acc_migrated acc_result] in Hm1, Hr1.
  rewrite Hm2, Hm1. cbn [List.length Nat.eqb negb andb fst snd migratedFields config].
  split; [reflexivity|]. split; [rewrite Hs2, Hs1; reflexivity|].
  intros f Hf. pose proof Hf as Hp. apply plaintext_fields_elem in Hp.
  pose proof (Hstored f Hf) as Hsf. rewrite Hget in Hsf.
  rewrite Hr2, Hr1. destruct f.
  - rewrite Hsf, Hp.
    destruct (nonempty_string (sec1 !! _secretKey ws cfg Passphrase));
      [rewrite get_set_field_other by discriminate|];
      rewrite get_set_field_same; apply nonempty_default, Hp.
  - rewrite Hsf, Hp. rewrite get_set_field_same. apply nonempty_default, Hp.
Qed.

(** With [overwrite: true] and migration enabled, [resolve] takes the
    plaintext side: every non-empty plaintext field replaces the stored
    secret, is used and is reported migrated, and these are the only
    migrated fields; a field without plaintext falls back on its stored
    secret, which is left untouched. *)
Theorem resolve_overwrite_takes_plaintext
    (st : store) (cfg : ServerConfig) (ws : string) (opts : options)
    (sec : gmap string string) :
  context st = Some sec ->
  overwrite opts = Some true ->
  autoMigrate opts <> Some false ->
  let r := resolve st cfg ws opts in
  migratedFields r.2 = plaintext_fields cfg
  /\ (forall f, f ∈ plaintext_fields cfg ->
        secrets_get r.1 (_secretKey ws cfg f) = get_field cfg f
        /\ get_field (config r.2) f = get_field cfg f)
  /\ (forall f, f ∉ plaintext_fields cfg ->
        secrets_get r.1 (_secretKey ws cfg f) = sec !! _secretKey ws cfg f
        /\ get_field (config r.2) f
           = if nonempty_string (sec !! _secretKey ws cfg f)
             then sec !! _secretKey ws cfg f else get_field cfg f).
Proof.
  intros Hctx Hov Ham r. subst r. unfold resolve. cbv zeta.
  rewrite (bool_decide_eq_true_2 _ Hov), (bool_decide_eq_false_2 _ Ham).
  cbn [negb fold_left].
  set (acc0 := {| acc_store := st; acc_result := cfg; acc_migrated := [] |}).
  destruct (resolve_field_spec ws cfg true true acc0 Password sec Hctx) as (Hc1 & Hm1 & Hr1).
  set (acc1 := resolve_field ws cfg true true acc0 Password) in *.
  destruct (resolve_field_spec ws cfg true true acc1 Passphrase _ Hc1) as (Hc2 & Hm2 & Hr2).
  set (acc2 := resolve_field ws cfg true true acc1 Passphrase) in *.
  rewrite !andb_false_r, !andb_true_r in *. cbn [negb andb] in *.
  cbn [acc0 acc_migrated acc_result app] in Hm1, Hr1.
  assert (Hpq : _secretKey ws cfg Passphrase <> _secretKey ws cfg Password)
    by (apply secretKey_ne; discriminate).
  assert (Hqp : _secretKey ws cfg Password <> _secretKey ws cfg Passphrase)
    by (apply secretKey_ne; discriminate).
  assert (Hstore : forall k,
    secrets_get (if negb (Nat.eqb (List.length (acc_migrated acc2)) 0)
                    && negb (didNotifyMigration (acc_store acc2))
                 then {| context := context (acc_store acc2); didNotifyMigration := true;
                         log := log (acc_store acc2);
                         notified := (notified (acc_store acc2)
                                      ++ [map field_name (acc_migrated acc2)])%list |}
                 else acc_store acc2) k
    = secrets_get (acc_store acc2) k).
  { intros k. destruct (_ && _); reflexivity. }
  cbn [fst snd migratedFields config].
  split; [|split].
  - rewrite Hm2, Hm1. unfold plaintext_fields. cbn [List.filter].
    destruct (nonempty_string (get_field cfg Password));
      destruct (nonempty_string (get_field cfg Passphrase)); reflexivity.
  - intros f Hf. apply plaintext_fields_elem in Hf.
    rewrite Hstore. unfold secrets_get. rewrite Hc2, Hr2, Hr1. destruct f.
    + rewrite Hf. cbv iota.
      destruct (nonempty_string (get_field cfg Passphrase)); cbv iota.
      * rewrite lookup_insert_ne by exact Hpq. rewrite lookup_insert_eq.
        rewrite get_set_field_other by discriminate. rewrite get_set_field_same.
        split; apply nonempty_default, Hf.
      * rewrite lookup_insert_eq.
        case_nonempty;
          [rewrite get_set_field_other by discriminate|]; rewrite get_set_field_same;
          split; apply nonempty_default, Hf.
    + rewrite Hf. cbv iota. rewrite lookup_insert_eq, get_set_field_same.
      split; apply nonempty_default, Hf.
  - intros f Hf.
    assert (Hp : nonempty_string (get_field cfg f) = false).
    { destruct (nonempty_string (get_field cfg f)) eqn:E; [|reflexivity].
      exfalso. apply Hf, plaintext_fields_elem, E. }
    rewrite Hstore. unfold secrets_get. rewrite Hc2, Hr2, Hr1. destruct f.
    + rewrite Hp. cbv iota.
      assert (E : (if nonempty_string (get_field cfg Passphrase)
                   then <[_secretKey ws cfg Passphrase := default "" (get_field cfg Passphrase)]> sec
                   else sec) !! _secretKey ws cfg Password = sec !! _secretKey ws cfg Password).
      { destruct (nonempty_string (get_field cfg Passphrase));
          [apply lookup_insert_ne; exact Hpq|reflexivity]. }
      rewrite E. split; [reflexivity|].
      destruct (nonempty_string (sec !! _secretKey ws cfg Password)) eqn:Hs.
      * destruct (nonempty_string (get_field cfg Passphrase));
          [|case_nonempty]; cbv iota;
          rewrite ?get_set_field_other by discriminate;
          rewrite get_set_field_same; apply nonempty_default, Hs.
      * destruct (nonempty_string (get_field cfg Passphrase));
          [|case_nonempty]; cbv iota;
          rewrite ?get_set_field_other by discriminate; reflexivity.
    + rewrite Hp. cbv iota.
      assert (E : (if nonempty_string (get_field cfg Password)
                   then <[_secretKey ws cfg Password := default "" (get_field cfg Password)]> sec
                   else sec) !! _secretKey ws cfg Passphrase = sec !! _secretKey ws cfg Passphrase).
      { destruct (nonempty_string (get_field cfg Password));
          [apply lookup_insert_ne; exact Hqp|reflexivity]. }
      rewrite E. split; [reflexivity|].
      destruct (nonempty_string (sec !! _secretKey ws cfg Passphrase)) eqn:Hs; cbv iota.
      * rewrite get_set_field_same. apply nonempty_default, Hs.
      * repeat case_nonempty; rewrite ?get_set_field_other by discriminate; reflexivity.
Qed.

End CredentialMigration.

Lemma migrateFromPlaintext_stores_plaintext_witness :
  (Credential.migrateFromPlaintext CredentialSpec.empty_store Demo.config "ws"
     CredentialSpec.no_options).2 = 1
  /\ (Credential.migrateAll CredentialSpec.empty_store [Demo.config; Demo.config] "ws"
        CredentialSpec.no_options).2 = 2.
Proof.
  destruct (migrateFromPlaintext_stores_plaintext CredentialSpec.empty_store Demo.config
              [Demo.config; Demo.config] "ws" CredentialSpec.no_options ∅ eq_refl
              ltac:(discriminate)) as (H1 & _ & _ & _ & _ & _ & H2).
  split; [exact H1|exact H2].
Defined.

Lemma migrate_then_resolve_witness :
  Credential.migratedFields
    (Credential.resolve
       (Credential.migrateFromPlaintext CredentialSpec.empty_store Demo.config "ws"
          CredentialSpec.no_options).1 Demo.config "ws" CredentialSpec.no_options).2 = [].
Proof.
  apply (migrate_then_resolve CredentialSpec.empty_store Demo.config "ws"
           CredentialSpec.no_options CredentialSpec.no_options ∅ eq_refl
           ltac:(discriminate) ltac:(discriminate)).
Defined.

Lemma resolve_overwrite_takes_plaintext_witness :
  Credential.migratedFields
    (Credential.resolve
       {| Credential.context :=
            Some {[ Credential._secretKey "ws" Demo.config Credential.Password := "old" ]};
          Credential.didNotifyMigration := false; Credential.log := [];
          Credential.notified := [] |}
       Demo.config "ws"
       {| Credential.autoMigrate := None; Credential.overwrite := Some true |}).2
  = [Credential.Password].
Proof.
  apply (resolve_overwrite_takes_plaintext
           {| Credential.context :=
                Some {[ Credential._secretKey "ws" Demo.config Credential.Password := "old" ]};
              Credential.didNotifyMigration := false; Credential.log := [];
              Credential.notified := [] |}
           Demo.config "ws"
           {| Credential.autoMigrate := None; Credential.overwrite := Some true |}
           {[ Credential._secretKey "ws" Demo.config Credential.Password := "old" ]}
           eq_refl eq_refl ltac:(discriminate)).
Defined.

(** ** Transfer queue: the cap, the start order and completion on concrete runs *)

Lemma reaches_run_keeps_cap s0 evs :
  forallb TQ.keeps_cap evs = true -> TQSpec.reaches TQ.keeps_cap s0 (TQ.run s0 evs).
Proof.
  induction evs as [|e evs IH] using rev_ind; intros H; [constructor|].
  rewrite forallb_app in H. apply andb_prop in H as [H1 H2]. cbn in H2.
  apply andb_prop in H2 as [H2 _].
  unfold TQ.run. rewrite fold_left_app. cbn [fold_left].
  constructor; [apply IH, H1|exact H2].
Defined.

Lemma activeCount_within_cap_witness :
  TQ.concurrency Demo.four_uploads_cap_2_5 = Finite (5 # 2)
  /\ TQ.activeCount Demo.four_uploads_cap_2_5
     = Z.of_nat (size (TQ.running Demo.four_uploads_cap_2_5))
  /\ 0 <= TQ.activeCount Demo.four_uploads_cap_2_5 <= 3
  /\ TQ.activeCount Demo.four_uploads_cap_2_5 = 3.
Proof.
  destruct (activeCount_within_cap (Some (Finite (5 # 2))) Demo.four_uploads_cap_2_5)
    as (H1 & H2 & H3 & [H4|(q & Eq & _ & H4 & _)]).
  - exists ∅. apply reaches_run_keeps_cap. reflexivity.
  - vm_compute in H4. discriminate H4.
  - vm_compute in Eq. injection Eq as <-.
    change (Qceiling (5 # 2)) with 3 in H4.
    split; [exact H1|]. split; [exact H2|]. split; [split; [exact H3|exact H4]|].
    vm_compute. reflexivity.
Defined.

Lemma started_in_enqueue_order_witness :
  StronglySorted Nat.lt (TQ.started_ids (TQ.log Demo.two_uploads))
  /\ TQ.started_ids (TQ.log Demo.two_uploads) = [0%nat]
  /\ TQ.queue Demo.two_uploads = [1%nat].
Proof.
  destruct (started_in_enqueue_order Demo.two_uploads (reachable_run _ _ _)) as (H1 & _).
  split; [exact H1|]. split; vm_compute; reflexivity.
Defined.

Lemma completion_redrains_witness :
  TQ.drained (TQ.settle Demo.two_cancellable 0 (TQ.Resolved "ok"))
  /\ TQ.queue (TQ.settle Demo.two_cancellable 0 (TQ.Resolved "ok")) = [].
Proof.
  destruct (completion_redrains Demo.two_cancellable 0%nat (TQ.Resolved "ok")) as (H1 & _).
  - apply wf_reachable. apply reachable_run.
  - vm_compute. reflexivity.
  - vm_compute. discriminate.
  - split; [exact H1|vm_compute; reflexivity].
Defined.

(** ** Transfer queue: admission, clearing and bookkeeping *)

Section QueueAdmission.

Import TQ TQSpec TQAccount.
Local Open Scope list_scope.

Lemma free_slots_none s :
  queue s = [] \/ below (activeCount s) (concurrency s) = false -> free_slots s = 0%nat.
Proof.
  intros H. unfold free_slots.
  destruct (concurrency s) as [|q| |]; try reflexivity.
  - destruct H as [->|H]; [cbn [length]; lia|].
    rewrite below_finite in H. apply Z.ltb_ge in H. lia.
  - destruct H as [->|H]; [reflexivity|discriminate H].
Qed.

Lemma free_slots_some s id q' s1 :
  queue s = id :: q' -> below (activeCount s) (concurrency s) = true ->
  queue s1 = q' -> activeCount s1 = activeCount s + 1 -> concurrency s1 = concurrency s ->
  free_slots s = S (free_slots s1).
Proof.
  intros Hq H Hq1 Ha1 Hc1. unfold free_slots.
  rewrite Hc1, Hq, Hq1, Ha1.
  destruct (concurrency s) as [|q| |]; try discriminate H.
  - rewrite below_finite in H. apply Z.ltb_lt in H. cbn [length]. lia.
  - reflexivity.
Qed.

Lemma drain_loop_spec q : forall s,
  queue s = q ->
  (forall x, x ∈ q -> exists it, items s !! x = Some it /\ canceled it = false) ->
  let n := free_slots s in
  let s' := drain_loop q s in
  queue s' = drop n q
  /\ activeCount s' = activeCount s + Z.of_nat n
  /\ started_ids (log s') = started_ids (log s) ++ take n q
  /\ running s' = list_to_set (take n q) ∪ running s
  /\ concurrency s' = concurrency s
  /\ futures s' = futures s
  /\ next_item s' = next_item s
  /\ uncaught s' = uncaught s
  /\ tokens s' = tokens s.
Proof.
  induction q as [|id q' IH]; intros s Hq Hit n s'; subst n s'.
  - rewrite free_slots_none by (left; exact Hq). cbn [length drain_loop drop take].
    rewrite app_nil_r, Hq.
    repeat split; try reflexivity; try lia. apply set_eq; intros x;
      rewrite elem_of_union, elem_of_list_to_set, elem_of_nil; tauto.
  - cbn [drain_loop].
    destruct (below (activeCount s) (concurrency s)) eqn:Hlt.
    + destruct (Hit id ltac:(left)) as (it & Hi & Hc).
      cbn [set_queue items]. rewrite Hi, Hc.
      set (s1 := start (set_queue s q') id it).
      assert (Hq1 : queue s1 = q') by reflexivity.
      assert (Hit1 : forall x, x ∈ q' ->
                exists it', items s1 !! x = Some it' /\ canceled it' = false).
      { intros x Hx. subst s1. cbn [start items set_queue].
        destruct (decide (x = id)) as [->|Hne].
        - rewrite lookup_insert_eq. eexists. split; [reflexivity|exact Hc].
        - rewrite lookup_insert_ne by congruence. apply Hit. right. exact Hx. }
      destruct (IH s1 Hq1 Hit1) as (E1 & E2 & E3 & E4 & E5 & E6 & E7 & E8 & E9).
      rewrite (free_slots_some s id q' s1 Hq Hlt Hq1 eq_refl eq_refl).
      cbn [s1 start set_queue activeCount concurrency log running futures next_item
           uncaught tokens] in *.
      cbn [drop take].
      rewrite E1, E2, E3, E4, E5, E6, E7, E8, E9.
      rewrite started_ids_app. cbn [started_ids omap]. rewrite <- app_assoc.
      repeat split; try reflexivity; try lia.
      apply set_eq; intros x.
      rewrite !elem_of_union, !elem_of_list_to_set, elem_of_singleton, elem_of_cons. tauto.
    + rewrite free_slots_none by (right; exact Hlt). cbn [drop take].
      rewrite app_nil_r, Hq.
      repeat split; try reflexivity; try lia. apply set_eq; intros x;
      rewrite elem_of_union, elem_of_list_to_set, elem_of_nil; tauto.
Qed.

Lemma drain_spec s :
  wf s ->
  let n := free_slots s in
  queue (_drain s) = drop n (queue s)
  /\ activeCount (_drain s) = activeCount s + Z.of_nat n
  /\ started_ids (log (_drain s)) = started_ids (log s) ++ take n (queue s)
  /\ running (_drain s) = list_to_set (take n (queue s)) ∪ running s
  /\ concurrency (_drain s) = concurrency s
  /\ futures (_drain s) = futures s
  /\ next_item (_drain s) = next_item s
  /\ uncaught (_drain s) = uncaught s
  /\ tokens (_drain s) = tokens s.
Proof.
  intros Hwf. apply (drain_loop_spec (queue s) s eq_refl).
  intros x Hx. destruct (wf_queue_pending s Hwf x Hx) as (it & Hi & _ & Hc). eauto.
Qed.

Lemma wf_with_cap s c : wf s -> wf (with_cap s c).
Proof. intros []. constructor; cbn; assumption. Qed.

(** [setConcurrency(value)] puts the clamped cap in force: a finite
    number that is 1 or more, not necessarily an integer, or infinity. It
    then admits, in queue order, exactly as many waiting items as fit
    under the cap rounded up, all of them under an infinite cap; it
    stops no running task, so after the cap is lowered the active count
    may stay above it until tasks complete, and it settles no promise. *)
Theorem setConcurrency_admits_free_slots (s : state) (value : option number) :
  reachable s ->
  let c := clamp_concurrency value in
  let n := free_slots (with_cap s c) in
  let s' := setConcurrency s value in
  concurrency s' = c
  /\ match c with
     | Finite q =>
         (1 <= q)%Q
         /\ n = Z.to_nat (Z.min (Z.of_nat (length (queue s)))
                            (Z.max 0 (Qceiling q - activeCount s)))
         /\ ((q <= inject_Z (activeCount s))%Q -> n = 0%nat)
     | PlusInfinity => n = length (queue s)
     | NaN | MinusInfinity => False
     end
  /\ queue s' = drop n (queue s)
  /\ started_ids (log s') = started_ids (log s) ++ take n (queue s)
  /\ running s' = list_to_set (take n (queue s)) ∪ running s
  /\ activeCount s' = activeCount s + Z.of_nat n
  /\ futures s' = futures s
  /\ (n = 0%nat -> running s' = running s).
Proof.
  intros Hr c n s'. apply wf_reachable in Hr.
  destruct (drain_spec (with_cap s c) (wf_with_cap s c Hr))
    as (E1 & E2 & E3 & E4 & E5 & E6 & _).
  change (_drain (with_cap s c)) with s' in *. fold n in E1, E2, E3, E4.
  cbn [with_cap queue activeCount log running concurrency futures] in *.
  split; [exact E5|]. split.
  { pose proof (clamp_concurrency_ge_1 value) as Hge. fold c in Hge.
    subst n. unfold free_slots. cbn [with_cap queue activeCount concurrency].
    destruct c as [|q| |]; try contradiction; [|reflexivity].
    split; [exact Hge|]. split; [reflexivity|].
    intros Hle. apply Qceiling_resp_le in Hle. rewrite Qceiling_Z in Hle. lia. }
  split; [exact E1|]. split; [exact E3|]. split; [exact E4|].
  split; [exact E2|]. split; [exact E6|].
  intros Hn. rewrite E4, Hn. cbn [take]. apply set_eq; intros x.
  rewrite elem_of_union, elem_of_list_to_set, elem_of_nil. tauto.
Qed.

End QueueAdmission.

Section QueueClearing.

Import TQ TQSpec TQAccount.
Local Open Scope list_scope.

Lemma settled_settle_future s x o y o' :
  futures s !! y = Some (Some o') -> futures (settle_future s x o) !! y = Some (Some o').
Proof.
  intros H. destruct (decide (y = x)) as [->|Hne].
  - unfold settle_future. rewrite H. exact H.
  - rewrite futures_settle_future by exact Hne. exact H.
Qed.

Lemma call_disposeCancel_fields s id s' :
  call_disposeCancel s id = Some s' ->
  queue s' = queue s /\ items s' = items s /\ futures s' = futures s
  /\ running s' = running s /\ activeCount s' = activeCount s
  /\ concurrency s' = concurrency s /\ log s' = log s
  /\ next_item s' = next_item s /\ uncaught s' = uncaught s.
Proof.
  intros H. apply call_disposeCancel_Some in H as [->| ->]; [repeat split; reflexivity|].
  unfold remove_listener. destruct (items s !! id) as [it|]; [|repeat split; reflexivity].
  destruct (token_of it); repeat split; reflexivity.
Qed.

Lemma call_disposeCancel_disposable s id :
  disposable s id -> exists s', call_disposeCancel s id = Some s'.
Proof.
  unfold disposable, call_disposeCancel.
  destruct (disposeCancel <$> items s !! id) as [[| |]|]; intros H; eauto. contradiction.
Qed.

(** The loop of [clearPending] over a prefix of callable disposers. *)
Lemma clear_loop_prefix reason pre : forall post s,
  queue s = pre ++ post ->
  NoDup pre ->
  (forall x, x ∈ pre -> disposable s x) ->
  (forall x, x ∈ pre -> futures s !! x = Some None) ->
  exists s1,
    clear_loop reason (pre ++ post) s = clear_loop reason post s1
    /\ queue s1 = post /\ items s1 = items s
    /\ running s1 = running s /\ activeCount s1 = activeCount s
    /\ concurrency s1 = concurrency s /\ log s1 = log s
    /\ next_item s1 = next_item s /\ uncaught s1 = uncaught s
    /\ (forall x, x ∈ pre -> futures s1 !! x = Some (Some (cleared reason)))
    /\ (forall x, x ∉ pre -> futures s1 !! x = futures s !! x).
Proof.
  induction pre as [|id pre IH]; intros post s Hq Hnd Hd Hp.
  - exists s. cbn [app] in *. repeat split; try assumption; try reflexivity.
    intros x Hx. apply elem_of_nil in Hx. contradiction.
  - apply NoDup_cons in Hnd as [Hnin Hnd]. cbn [app clear_loop].
    set (s0 := settle_future (set_queue s (pre ++ post)) id (Rejected (mkError "" reason))).
    destruct (settle_future_fields (set_queue s (pre ++ post)) id
                (Rejected (mkError "" reason)))
      as (Eq & Ei & Et & Er & Ea & Ec & El & En & Eu).
    fold s0 in Eq, Ei, Et, Er, Ea, Ec, El, En, Eu.
    cbn [set_queue queue items tokens running activeCount concurrency log next_item
         uncaught] in *.
    assert (Hid : futures s0 !! id = Some (Some (cleared reason))).
    { apply settle_future_pending. cbn [set_queue futures]. apply Hp. left. }
    assert (Hd0 : disposable s0 id).
    { unfold disposable. rewrite Ei. apply Hd. left. }
    destruct (call_disposeCancel_disposable s0 id Hd0) as [s2 Hs2].
    rewrite Hs2.
    destruct (call_disposeCancel_fields s0 id s2 Hs2)
      as (Fq & Fi & Ff & Fr & Fa & Fc & Fl & Fn & Fu).
    destruct (IH post s2) as (s1 & E & G).
    + rewrite Fq, Eq. reflexivity.
    + exact Hnd.
    + intros x Hx. unfold disposable. rewrite Fi, Ei. apply Hd. right. exact Hx.
    + intros x Hx. rewrite Ff.
      assert (Hne : x <> id) by (intros ->; contradiction).
      subst s0. rewrite futures_settle_future by exact Hne. cbn [set_queue futures].
      apply Hp. right. exact Hx.
    + exists s1. split; [exact E|].
      destruct G as (G1 & G2 & G3 & G4 & G5 & G6 & G7 & G8 & G9 & G10).
      rewrite G2, G3, G4, G5, G6, G7, G8, Fi, Fr, Fa, Fc, Fl, Fn, Fu, Ei, Er, Ea, Ec, El, En, Eu.
      repeat split; try assumption; try reflexivity.
      * intros x Hx. apply elem_of_cons in Hx as [->|Hx]; [|apply G9, Hx].
        rewrite G10 by exact Hnin. rewrite Ff. exact Hid.
      * intros x Hx. rewrite G10 by (intros H; apply Hx; right; exact H).
        rewrite Ff. subst s0. rewrite futures_settle_future; [reflexivity|].
        intros ->. apply Hx. left.
Qed.

(** [clearPending(reason)] rejects the waiting items from the head of the
    queue on with [Error(reason)] and leaves the running tasks and their
    count alone. When every waiting item has a disposer that can be
    called, or none, the queue ends up empty and all of them are
    rejected. At the first waiting item whose disposer is an object the
    call throws: that item and those before it are rejected and removed,
    the items behind it stay queued with their promises pending. *)
Theorem clearPending_rejects_from_head (s : state) (reason : string) :
  reachable s ->
  let s' := clearPending s reason in
  ((forall x, x ∈ queue s -> disposable s x) ->
     queue s' = [] /\ uncaught s' = uncaught s
     /\ running s' = running s /\ activeCount s' = activeCount s
     /\ (forall x, x ∈ queue s -> futures s' !! x = Some (Some (cleared reason)))
     /\ (forall x, x ∉ queue s -> futures s' !! x = futures s !! x))
  /\ (forall pre bad post,
        queue s = pre ++ bad :: post ->
        (forall x, x ∈ pre -> disposable s x) -> ~ disposable s bad ->
        queue s' = post /\ uncaught s' = uncaught s ++ [type_error]
        /\ running s' = running s /\ activeCount s' = activeCount s
        /\ (forall x, x ∈ pre ++ [bad] -> futures s' !! x = Some (Some (cleared reason)))
        /\ (forall x, x ∈ post -> futures s' !! x = Some None)).
Proof.
  intros Hr s'. apply wf_reachable in Hr. pose proof (wf_queue_NoDup s Hr) as Hnd.
  subst s'. unfold clearPending. split.
  - intros Hd.
    destruct (clear_loop_prefix reason (queue s) [] s) as (s1 & E & G).
    + rewrite app_nil_r. reflexivity.
    + exact Hnd.
    + exact Hd.
    + intros x Hx. apply (wf_queue_future s Hr x Hx).
    + rewrite app_nil_r in E. rewrite E. cbn [clear_loop].
      destruct G as (G1 & G2 & G3 & G4 & G5 & G6 & G7 & G8 & G9 & G10).
      repeat split; assumption.
  - intros pre bad post Hq Hd Hbad. rewrite Hq in Hnd.
    apply NoDup_app in Hnd as (Hnd1 & Hdisj & Hnd2).
    apply NoDup_cons in Hnd2 as [Hbp Hnd2].
    destruct (clear_loop_prefix reason pre (bad :: post) s Hq Hnd1 Hd) as (s1 & E & G).
    + intros x Hx. apply (wf_queue_future s Hr x). rewrite Hq. apply elem_of_app. left. exact Hx.
    + rewrite Hq, E. cbn [clear_loop].
      destruct G as (G1 & G2 & G3 & G4 & G5 & G6 & G7 & G8 & G9 & G10).
      set (s0 := settle_future (set_queue s1 post) bad (Rejected (mkError "" reason))).
      destruct (settle_future_fields (set_queue s1 post) bad (Rejected (mkError "" reason)))
        as (Eq & Ei & Et & Er & Ea & Ec & El & En & Eu).
      fold s0 in Eq, Ei, Et, Er, Ea, Ec, El, En, Eu.
      cbn [set_queue queue items tokens running activeCount concurrency log next_item
           uncaught] in *.
      assert (Hnone : call_disposeCancel s0 bad = None).
      { unfold call_disposeCancel. rewrite Ei, G2. unfold disposable in Hbad.
        destruct (disposeCancel <$> items s !! bad) as [[| |]|]; try reflexivity;
          exfalso; apply Hbad; discriminate. }
      rewrite Hnone. cbn [throw_uncaught queue uncaught running activeCount futures].
      assert (Hbpre : bad ∉ pre).
      { intros Hin. apply (Hdisj bad Hin). left. }
      assert (Hbad0 : futures s1 !! bad = Some None).
      { rewrite G10 by exact Hbpre. apply (wf_queue_future s Hr bad).
        rewrite Hq. apply elem_of_app. right. left. }
      rewrite Eq, Eu, Er, Ea, G3, G4, G8.
      repeat split; try reflexivity.
      * intros x Hx. apply elem_of_app in Hx as [Hx|Hx].
        -- apply settled_settle_future. apply G9, Hx.
        -- apply list_elem_of_singleton in Hx as ->.
           apply settle_future_pending. exact Hbad0.
      * intros x Hx.
        assert (Hxb : x <> bad) by (intros ->; contradiction).
        assert (Hxp : x ∉ pre).
        { intros Hin. apply (Hdisj x Hin). right. exact Hx. }
        subst s0. rewrite futures_settle_future by exact Hxb.
        cbn [set_queue futures]. rewrite G10 by exact Hxp.
        apply (wf_queue_future s Hr x). rewrite Hq. apply elem_of_app. right. right. exact Hx.
Qed.

End QueueClearing.

Lemma clearPending_rejects_from_head_witness :
  TQ.queue (TQ.clearPending Demo.two_cancellable "Extension deactivated") = []
  /\ TQ.futures (TQ.clearPending Demo.two_cancellable "Extension deactivated") !! 1%nat
     = Some (Some (TQAccount.cleared "Extension deactivated"))
  /\ TQ.uncaught (TQ.clearPending Demo.two_uploads "Extension deactivated")
     = [TQ.type_error].
Proof.
  destruct (clearPending_rejects_from_head Demo.two_cancellable "Extension deactivated"
              (reachable_run _ _ _)) as [Ha _].
  destruct (clearPending_rejects_from_head Demo.two_uploads "Extension deactivated"
              (reachable_run _ _ _)) as [_ Hb].
  destruct Ha as (H1 & _ & _ & _ & H5 & _).
  { intros x Hx. vm_compute in Hx. apply list_elem_of_singleton in Hx as ->.
    vm_compute. discriminate. }
  destruct (Hb [] 1%nat []) as (_ & H2 & _).
  { vm_compute. reflexivity. }
  { intros x Hx. apply elem_of_nil in Hx. contradiction. }
  { intros H. apply H. vm_compute. reflexivity. }
  split; [exact H1|]. split; [|exact H2].
  apply H5. vm_compute. left.
Defined.

Section QueuePromises.

Import TQ TQSpec TQAccount.
Local Open Scope list_scope.

Lemma accounted_same s s' :
  queue s' = queue s -> running s' = running s -> futures s' = futures s ->
  next_item s' = next_item s -> accounted s -> accounted s'.
Proof. intros Eq Er Ef En [A1 A2]. split; rewrite ?Eq, ?Er, ?Ef, ?En; assumption. Qed.

Lemma is_Some_settle_future s x o id :
  is_Some (futures (settle_future s x o) !! id) <-> is_Some (futures s !! id).
Proof.
  unfold settle_future. destruct (futures s !! x) as [[o'|]|] eqn:E; try reflexivity.
  cbn [futures]. destruct (decide (id = x)) as [->|Hne].
  - rewrite lookup_insert_eq, E. split; eauto.
  - rewrite lookup_insert_ne by congruence. reflexivity.
Qed.

Lemma pending_settle_future s x o id :
  futures (settle_future s x o) !! id = Some None ->
  futures s !! id = Some None /\ id <> x.
Proof.
  intros H. destruct (decide (id = x)) as [->|Hne].
  - exfalso. unfold settle_future in H. destruct (futures s !! x) as [[o'|]|] eqn:E.
    + rewrite E in H. discriminate H.
    + cbn [futures] in H. rewrite lookup_insert_eq in H. discriminate H.
    + rewrite E in H. discriminate H.
  - rewrite futures_settle_future in H by exact Hne. auto.
Qed.

(** Settling the promise of an item that has left the queue. *)
Lemma accounted_settle_removed s x o q' :
  accounted s ->
  (forall id, id ∈ queue s -> id <> x -> id ∈ q') ->
  x ∉ running s ->
  accounted (settle_future (set_queue s q') x o).
Proof.
  intros [A1 A2] Hq Hr.
  destruct (settle_future_fields (set_queue s q') x o) as (Eq & _ & _ & Er & _ & _ & _ & En & _).
  split.
  - intros id. rewrite is_Some_settle_future, En. apply A1.
  - intros id H. apply pending_settle_future in H as [H Hne]. rewrite Eq, Er.
    cbn [set_queue futures queue running] in *.
    destruct (A2 id H) as [Hin|Hin]; [left; apply Hq; assumption|right; exact Hin].
Qed.

Lemma accounted_drain s : wf s -> accounted s -> accounted (_drain s).
Proof.
  intros Hwf [A1 A2]. destruct (drain_spec s Hwf) as (Eq & _ & _ & Er & _ & Ef & En & _).
  split; rewrite ?Ef, ?En; [exact A1|].
  intros id H. rewrite Eq, Er. destruct (A2 id H) as [Hin|Hin].
  - rewrite <- (take_drop (free_slots s) (queue s)) in Hin.
    apply elem_of_app in Hin as [Hin|Hin]; [right|left; exact Hin].
    apply elem_of_union. left. apply elem_of_list_to_set. exact Hin.
  - right. apply elem_of_union. right. exact Hin.
Qed.

Lemma push_item_fields s task0 token0 label0 :
  let s' := push_item s task0 token0 label0 in
  queue s' = queue s ++ [next_item s]
  /\ futures s' = <[next_item s := None]> (futures s)
  /\ running s' = running s
  /\ next_item s' = S (next_item s).
Proof.
  unfold push_item. cbv zeta.
  destruct (register_listener_fields (new_future s) token0 (next_item s))
    as (Eq & _ & Ef & Er & _ & _ & _ & En & _).
  cbv zeta in *.
  cbn [add_log set_queue set_item queue futures running next_item].
  rewrite Eq, Ef, Er, En. repeat split; reflexivity.
Qed.

Lemma accounted_enqueue s task0 token0 label0 :
  wf s -> accounted s -> accounted (enqueue s task0 token0 label0).
Proof.
  intros Hwf [A1 A2]. unfold enqueue. destruct (token_canceled s token0).
  - destruct (settle_future_fields (new_future s) (next_item s)
                (Rejected createCancellationError))
      as (Eq & _ & _ & Er & _ & _ & _ & En & _).
    split.
    + intros id. rewrite is_Some_settle_future, En. cbn [new_future futures next_item].
      destruct (decide (id = next_item s)) as [->|Hne].
      * rewrite lookup_insert_eq. split; [lia|eauto].
      * rewrite lookup_insert_ne by congruence. rewrite A1. lia.
    + intros id H. apply pending_settle_future in H as [H Hne].
      cbn [new_future futures] in H. rewrite lookup_insert_ne in H by congruence.
      rewrite Eq, Er. apply A2, H.
  - apply accounted_drain; [apply wf_push_item, Hwf|].
    destruct (push_item_fields s task0 token0 label0) as (Eq & Ef & Er & En).
    cbv zeta in *. split; rewrite ?Eq, ?Ef, ?Er, ?En.
    + intros id. destruct (decide (id = next_item s)) as [->|Hne].
      * rewrite lookup_insert_eq. split; [lia|eauto].
      * rewrite lookup_insert_ne by congruence. rewrite A1. lia.
    + intros id H. destruct (decide (id = next_item s)) as [->|Hne].
      * left. apply elem_of_app. right. apply list_elem_of_singleton. reflexivity.
      * rewrite lookup_insert_ne in H by congruence.
        destruct (A2 id H) as [Hin|Hin]; [left; apply elem_of_app; left|right]; exact Hin.
Qed.

Lemma accounted_cancel_listener s h : wf s -> accounted s -> accounted (cancel_listener s h).
Proof.
  intros Hwf Ha. unfold cancel_listener.
  destruct (items s !! h) as [it|] eqn:Hit; [|exact Ha].
  destruct (started it) eqn:Hst; [exact Ha|].
  cbv zeta.
  match goal with |- accounted (add_log ?s0 _) => apply (accounted_same s0); try reflexivity end.
  match goal with |- accounted (settle_future (set_queue ?s1 _) _ _) =>
    apply (accounted_settle_removed s1) end.
  - apply (accounted_same s); try reflexivity. exact Ha.
  - intros id Hq Hne. apply list_elem_of_filter. split; [exact Hne|exact Hq].
  - cbn [set_item running]. intros Hr.
    destruct (wf_running_started s Hwf h Hr) as (it' & Hit' & Hst'). congruence.
Qed.

Lemma accounted_fold_cancel_listener l : forall s,
  wf s -> accounted s -> accounted (fold_left cancel_listener l s).
Proof.
  induction l as [|h l IH]; intros s Hwf Ha; [exact Ha|].
  cbn [fold_left]. apply IH; [apply wf_cancel_listener, Hwf|].
  apply accounted_cancel_listener; assumption.
Qed.

Lemma accounted_call_disposeCancel s id s' :
  call_disposeCancel s id = Some s' -> accounted s -> accounted s'.
Proof.
  intros H. destruct (call_disposeCancel_fields s id s' H)
    as (Eq & _ & Ef & Er & _ & _ & _ & En & _).
  apply accounted_same; assumption.
Qed.

Lemma accounted_clear_loop reason q : forall s,
  queue s = q -> wf s -> accounted s -> accounted (clear_loop reason q s).
Proof.
  induction q as [|id q' IH]; intros s Hq Hwf Ha; [exact Ha|].
  cbn [clear_loop].
  assert (Hin : id ∈ queue s) by (rewrite Hq; left).
  assert (Hnq : id ∉ q').
  { pose proof (wf_queue_NoDup s Hwf) as Hnd. rewrite Hq in Hnd.
    apply NoDup_cons in Hnd as [Hnd _]. exact Hnd. }
  set (s1 := settle_future (set_queue s q') id (Rejected (mkError "" reason))).
  assert (Ha1 : accounted s1).
  { apply accounted_settle_removed; [exact Ha| |eapply wf_queue_not_running; eauto].
    intros x Hx Hne. rewrite Hq in Hx. apply elem_of_cons in Hx as [->|Hx];
      [contradiction|exact Hx]. }
  assert (Hwf1 : wf s1).
  { apply wf_settle_future; [eapply wf_pop; eauto|exact Hnq|].
    cbn [set_queue running]. eapply wf_queue_not_running; eauto. }
  assert (Hq1 : queue s1 = q').
  { subst s1. destruct (settle_future_fields (set_queue s q') id
                          (Rejected (mkError "" reason))) as (-> & _). reflexivity. }
  destruct (call_disposeCancel s1 id) as [s2|] eqn:Hd.
  - apply IH.
    + rewrite (queue_call_disposeCancel _ _ _ Hd). exact Hq1.
    + eapply wf_call_disposeCancel; eauto. rewrite Hq1. exact Hnq.
    + eapply accounted_call_disposeCancel; eauto.
  - apply (accounted_same s1); try reflexivity. exact Ha1.
Qed.

Lemma accounted_settle s id o : wf s -> accounted s -> accounted (settle s id o).
Proof.
  intros Hwf Ha. destruct (decide (id ∈ running s)) as [Hr|Hr].
  - rewrite settle_unfold by exact Hr.
    pose proof (wf_settle_prefix s id o Hwf Hr) as Hp.
    assert (Hnq : id ∉ queue (settle_prefix s id o)).
    { destruct (settle_prefix_fields s id o) as (-> & _).
      intros Hq. exact (wf_queue_not_running s id Hwf Hq Hr). }
    assert (Hap : accounted (settle_prefix s id o)).
    { destruct Ha as [A1 A2]. unfold settle_prefix. cbv zeta.
      set (s0 := {| concurrency := concurrency s; queue := queue s |}).
      destruct (settle_future_fields s0 id o) as (Eq & _ & _ & Er & _ & _ & _ & En & _).
      split; cbn [futures next_item queue running]; rewrite ?Eq, ?Er, ?En.
      - intros x. rewrite is_Some_settle_future. apply A1.
      - intros x H. apply pending_settle_future in H as [H Hne].
        cbn [s0 futures queue running] in *.
        destruct (A2 x H) as [Hin|Hin]; [left; exact Hin|right].
        apply elem_of_difference. split; [exact Hin|].
        intros E. apply elem_of_singleton in E. contradiction. }
    destruct (call_disposeCancel (settle_prefix s id o) id) as [s3|] eqn:Hd.
    + apply accounted_drain.
      * apply wf_add_log; [reflexivity|]. eapply wf_call_disposeCancel; eauto.
      * apply (accounted_same s3); try reflexivity.
        eapply accounted_call_disposeCancel; eauto.
    + apply (accounted_same (settle_prefix s id o)); try reflexivity. exact Hap.
  - unfold settle. rewrite decide_False by exact Hr. exact Ha.
Qed.

Lemma accounted_step s e : wf s -> accounted s -> accounted (step s e).
Proof.
  intros Hwf Ha. destruct e as [task0 token0 label0|t|id o|value|reason]; cbn [step].
  - apply accounted_enqueue; assumption.
  - unfold cancel. destruct (tokens s !! t) as [tk|] eqn:Htk; [|exact Ha].
    destruct (isCancellationRequested tk) eqn:Hc; [exact Ha|].
    apply accounted_fold_cancel_listener.
    + destruct Hwf.
      constructor;
        cbn [set_token queue items futures next_item running activeCount log tokens];
        try assumption.
      intros x it t' Hx Hit Ht'. rewrite get_token_set_token.
      destruct (decide (t = t')) as [<-|Hne]; cbn [has_onCancellationRequested listeners].
      * intros Hon. specialize (wf_listening0 x it t Hx Hit Ht').
        unfold get_token in wf_listening0. rewrite Htk in wf_listening0.
        apply wf_listening0, Hon.
      * apply wf_listening0 with (it := it); assumption.
    + apply (accounted_same s); try reflexivity. exact Ha.
  - apply accounted_settle; assumption.
  - unfold setConcurrency. apply (accounted_drain (with_cap s (clamp_concurrency value))).
    + apply wf_with_cap, Hwf.
    + apply (accounted_same s); try reflexivity. exact Ha.
  - unfold clearPending. apply accounted_clear_loop; [reflexivity|assumption..].
Qed.

Lemma accounted_init c toks : accounted (init c toks).
Proof.
  split; cbn [init futures next_item queue running]; intros id.
  - rewrite lookup_empty. split; [intros [? H]; discriminate H|lia].
  - rewrite lookup_empty. discriminate.
Qed.

Lemma accounted_reachable s : reachable s -> accounted s.
Proof.
  intros (c & toks & H). induction H as [|s e H IH Hall].
  - apply accounted_init.
  - apply accounted_step; [|exact IH]. eapply wf_reaches; [apply wf_init|exact H].
Qed.

Lemma settled_clear_loop reason q id o : forall s,
  futures s !! id = Some (Some o) -> futures (clear_loop reason q s) !! id = Some (Some o).
Proof.
  induction q as [|x q' IH]; intros s H; [exact H|].
  cbn [clear_loop].
  set (s1 := settle_future (set_queue s q') x (Rejected (mkError "" reason))).
  assert (H1 : futures s1 !! id = Some (Some o))
    by (apply settled_settle_future; exact H).
  destruct (call_disposeCancel s1 x) as [s2|] eqn:Hd.
  - apply IH. rewrite (futures_call_disposeCancel _ _ _ Hd). exact H1.
  - exact H1.
Qed.

(** In every reachable queue the promises are accounted for: there is
    one per [enqueue] call so far, and a promise that is still pending
    belongs to an item that waits in the queue or runs, so no item is
    dropped without its promise being settled. A promise settles once: no
    later event changes the outcome it has. *)
Theorem promises_accounted_and_settle_once (s : state) :
  reachable s ->
  (forall id, is_Some (futures s !! id) <-> (id < next_item s)%nat)
  /\ (forall id, futures s !! id = Some None <-> id ∈ queue s \/ id ∈ running s)
  /\ (forall e id o,
        futures s !! id = Some (Some o) -> futures (step s e) !! id = Some (Some o)).
Proof.
  intros Hr. pose proof (wf_reachable s Hr) as Hwf.
  destruct (accounted_reachable s Hr) as [A1 A2].
  split; [exact A1|]. split.
  - intros id. split; [apply A2|].
    intros [H|H]; [apply (wf_queue_future s Hwf id H)|apply (wf_running_future s Hwf id H)].
  - intros e id o H.
    assert (Hlt : (id < next_item s)%nat) by (apply A1; rewrite H; eauto).
    destruct e as [task0 token0 label0|t|x o'|value|reason]; cbn [step].
    + unfold enqueue. destruct (token_canceled s token0).
      * apply settled_settle_future. cbn [new_future futures].
        rewrite lookup_insert_ne by lia. exact H.
      * rewrite drain_keeps_futures.
        destruct (push_item_fields s task0 token0 label0) as (_ & Ef & _).
        cbv zeta in Ef. rewrite Ef, lookup_insert_ne by lia. exact H.
    + unfold cancel. destruct (tokens s !! t) as [tk|]; [|exact H].
      destruct (isCancellationRequested tk); [exact H|].
      match goal with |- futures (fold_left cancel_listener ?l ?s0) !! _ = _ =>
        destruct (fold_cancel_listener_futures l s0) as (_ & _ & Hk & _) end.
      apply Hk. exact H.
    + destruct (decide (x ∈ running s)) as [Hx|Hx].
      * rewrite settle_unfold by exact Hx.
        assert (Hp : futures (settle_prefix s x o') !! id = Some (Some o)).
        { unfold settle_prefix. cbv zeta. cbn [futures].
          apply settled_settle_future. exact H. }
        destruct (call_disposeCancel (settle_prefix s x o') x) as [s3|] eqn:Hd.
        -- rewrite drain_keeps_futures. cbn [add_log futures].
           rewrite (futures_call_disposeCancel _ _ _ Hd). exact Hp.
        -- exact Hp.
      * unfold settle. rewrite decide_False by exact Hx. exact H.
    + unfold setConcurrency. rewrite drain_keeps_futures. exact H.
    + unfold clearPending. apply settled_clear_loop. exact H.
Qed.

End QueuePromises.

Lemma promises_accounted_and_settle_once_witness :
  TQ.futures Demo.first_upload_done !! 1%nat = Some None
  /\ TQ.futures (TQ.step Demo.first_upload_done (TQ.Settle 0 (TQ.Rejected (mkError "" "late"))))
       !! 0%nat = Some (Some (TQ.Resolved "ok")).
Proof.
  destruct (promises_accounted_and_settle_once Demo.first_upload_done) as (_ & H2 & H3).
  - exists (Some (integer 1)), {[ 0%nat := Demo.disposable_token ]}.
    change Demo.first_upload_done
      with (TQ.run (TQ.init (Some (integer 1)) {[ 0%nat := Demo.disposable_token ]})
              [TQ.Enqueue 0 (Some 0%nat) "upload:a"; TQ.Enqueue 1 (Some 0%nat) "upload:b";
               TQ.Settle 0 (TQ.Resolved "ok")]).
    apply reaches_run.
  - split.
    + apply H2. left. vm_compute. left.
    + apply H3. vm_compute. reflexivity.
Defined.

Lemma setConcurrency_admits_free_slots_witness :
  TQ.queue (TQ.setConcurrency Demo.four_uploads_cap_2_5 (Some (Finite (7 # 2)))) = []
  /\ TQ.activeCount (TQ.setConcurrency Demo.four_uploads_cap_2_5 (Some (Finite (7 # 2))))
     = 4.
Proof.
  destruct (setConcurrency_admits_free_slots Demo.four_uploads_cap_2_5
              (Some (Finite (7 # 2))) (reachable_run _ _ _))
    as (_ & _ & H3 & _ & _ & H6 & _).
  split; [exact H3|exact H6].
Defined.

(** ** Connection manager: idle cleanup and the pool invariant *)

Section PoolCleanup.

Import CM CMSpec CMPool.
Local Open Scope list_scope.

Lemma cleanup_fold_spec s (m : gmap string connection) :
  let acc := map_fold
               (fun key conn acc =>
                  if clock s - lastUsed conn >? maxIdleTime
                  then _safeCloseConnection acc key conn else acc) s m in
  (forall k, connections acc !! k
             = match m !! k with
               | Some conn => if idle s conn then None else connections s !! k
               | None => connections s !! k
               end)
  /\ (forall k, dirCache acc !! k
                = match m !! k with
                  | Some conn => if idle s conn then None else dirCache s !! k
                  | None => dirCache s !! k
                  end)
  /\ (forall h, h ∈ ended acc <->
                h ∈ ended s \/ exists k conn, m !! k = Some conn /\ idle s conn = true
                                               /\ sftp conn = h)
  /\ core acc = core s /\ dead acc = dead s /\ clock acc = clock s
  /\ lastHostKeyValidation acc = lastHostKeyValidation s.
Proof.
  cbv zeta.
  apply (map_fold_weak_ind (fun acc m =>
    (forall k, connections acc !! k
               = match m !! k with
                 | Some conn => if idle s conn then None else connections s !! k
                 | None => connections s !! k
                 end)
    /\ (forall k, dirCache acc !! k
                  = match m !! k with
                    | Some conn => if idle s conn then None else dirCache s !! k
                    | None => dirCache s !! k
                    end)
    /\ (forall h, h ∈ ended acc <->
                  h ∈ ended s \/ exists k conn, m !! k = Some conn /\ idle s conn = true
                                                 /\ sftp conn = h)
    /\ core acc = core s /\ dead acc = dead s /\ clock acc = clock s
    /\ lastHostKeyValidation acc = lastHostKeyValidation s)).
  - repeat split; try reflexivity; intros.
    + left. assumption.
    + destruct H as [H|(k & conn & H & _)]; [exact H|].
      rewrite lookup_empty in H. discriminate H.
  - intros key conn m0 acc Hnone (Hc & Hd & He & Hcore & Hdead & Hclock & Hlast).
    fold (idle s conn). destruct (idle s conn) eqn:Hidle.
    + cbn [_safeCloseConnection set_pool connections dirCache ended dead clock
           lastHostKeyValidation].
      split; [|split; [|split; [|repeat split; assumption]]].
      * intros k. destruct (decide (k = key)) as [->|Hne].
        -- rewrite lookup_delete_eq, lookup_insert_eq, Hidle. reflexivity.
        -- rewrite lookup_delete_ne, lookup_insert_ne by congruence. apply Hc.
      * intros k. destruct (decide (k = key)) as [->|Hne].
        -- rewrite lookup_delete_eq, lookup_insert_eq, Hidle. reflexivity.
        -- rewrite lookup_delete_ne, lookup_insert_ne by congruence. apply Hd.
      * intros h. rewrite elem_of_app, list_elem_of_singleton, He. split.
        -- intros [[H|(k & c & Hk & Hi & Hs)] | ->].
           ++ left. exact H.
           ++ right. exists k, c. split; [|auto].
              rewrite lookup_insert_ne; [exact Hk|]. intros <-. congruence.
           ++ right. exists key, conn. rewrite lookup_insert_eq. auto.
        -- intros [H|(k & c & Hk & Hi & Hs)]; [left; left; exact H|].
           destruct (decide (k = key)) as [->|Hne].
           ++ rewrite lookup_insert_eq in Hk. injection Hk as <-. right. auto.
           ++ rewrite lookup_insert_ne in Hk by congruence. left. right. eauto.
    + split; [|split; [|split; [|repeat split; assumption]]].
      * intros k. destruct (decide (k = key)) as [->|Hne].
        -- rewrite lookup_insert_eq, Hidle, Hc, Hnone. reflexivity.
        -- rewrite lookup_insert_ne by congruence. apply Hc.
      * intros k. destruct (decide (k = key)) as [->|Hne].
        -- rewrite lookup_insert_eq, Hidle, Hd, Hnone. reflexivity.
        -- rewrite lookup_insert_ne by congruence. apply Hd.
      * intros h. rewrite He. split.
        -- intros [H|(k & c & Hk & Hi & Hs)]; [left; exact H|].
           right. exists k, c. split; [|auto].
           rewrite lookup_insert_ne; [exact Hk|]. intros <-. congruence.
        -- intros [H|(k & c & Hk & Hi & Hs)]; [left; exact H|].
           destruct (decide (k = key)) as [->|Hne].
           ++ rewrite lookup_insert_eq in Hk. injection Hk as <-. congruence.
           ++ rewrite lookup_insert_ne in Hk by congruence. right. eauto.
Qed.

(** [_cleanupIdleConnections] closes exactly the pooled connections that
    were last used more than five minutes ago: they leave the pool
    together with their directory cache and [end()] is called on each; a
    connection used within the last five minutes stays, and so does
    everything else the manager holds. *)
Theorem cleanup_closes_exactly_idle (s : state) :
  let s' := _cleanupIdleConnections s in
  (forall k, connections s' !! k
             = match connections s !! k with
               | Some conn => if idle s conn then None else Some conn
               | None => None
               end)
  /\ (forall k conn, connections s !! k = Some conn ->
        dirCache s' !! k = if idle s conn then None else dirCache s !! k)
  /\ (forall h, h ∈ ended s' <->
                h ∈ ended s \/ exists k conn, connections s !! k = Some conn
                                               /\ idle s conn = true /\ sftp conn = h)
  /\ connecting s' = connecting s /\ promises s' = promises s
  /\ callers s' = callers s /\ connect_calls s' = connect_calls s.
Proof.
  intros s'. subst s'. unfold _cleanupIdleConnections.
  destruct (cleanup_fold_spec s (connections s)) as (Hc & Hd & He & Hcore & _).
  cbv zeta in *. unfold core in Hcore. injection Hcore as E1 E2 E3 E4 E5 E6 E7.
  split; [|split; [|split; [|repeat split; assumption]]].
  - intros k. rewrite Hc. destruct (connections s !! k) as [conn|]; [|reflexivity].
    destruct (idle s conn); reflexivity.
  - intros k conn Hk. rewrite Hd, Hk. reflexivity.
  - exact He.
Qed.

End PoolCleanup.

Section PoolInvariant.

Import CM CMSpec CMPool.
Local Open Scope list_scope.


















End PoolInvariant.


(** ** extension.js: suppression of repeated operations *)

Section DedupeFacts.

Import Dedupe.

Lemma cleanup_lookup now m k :
  cleanupOperationDedupe now m !! k
  = match m !! k with
    | Some ts => if decide (now - ts > OPERATION_DEDUPE_TTL_MS) then None else Some ts
    | None => None
    end.
Proof.
  unfold cleanupOperationDedupe.
  destruct (m !! k) as [ts|] eqn:Hk.
  - destruct (decide (now - ts > OPERATION_DEDUPE_TTL_MS)) as [Hd|Hd].
    + apply map_lookup_filter_None. right. intros ts' E. rewrite Hk in E.
      injection E as <-. cbn. intros H. apply H. exact Hd.
    + apply map_lookup_filter_Some. split; [exact Hk|]. cbn. exact Hd.
  - apply map_lookup_filter_None. left. exact Hk.
Qed.

Lemma tracks_cleanup t now m last :
  t <= now -> tracks t m last -> tracks now (cleanupOperationDedupe now m) last.
Proof.
  intros Ht [H1 H2]. split.
  - intros k ts. rewrite cleanup_lookup.
    destruct (m !! k) as [ts'|] eqn:Hk; [|discriminate].
    destruct (decide _); [discriminate|]. intros E. injection E as <-.
    destruct (H1 k ts' Hk) as [Hl Hb]. split; [exact Hl|lia].
  - intros k ts Hl. destruct (H2 k ts Hl) as [Hb Hgone]. split; [lia|].
    rewrite cleanup_lookup. destruct (m !! k) as [ts'|] eqn:Hk.
    + destruct (H1 k ts' Hk) as [Hl' _]. rewrite Hl in Hl'. injection Hl' as <-.
      destruct (decide _) as [Hd|]; [intros _; exact Hd|discriminate].
    + intros _. specialize (Hgone eq_refl). lia.
Qed.

Lemma run_follows_times calls : forall t m last,
  clock_advances t calls -> tracks t m last ->
  (run m calls).2 = skipped_by_time last calls.
Proof.
  induction calls as [|c calls IH]; intros t m last Hclk Htr; [reflexivity|].
  destruct Hclk as (Hpos & H1 & H12 & Hclk).
  cbn [run skipped_by_time]. unfold shouldSkipDuplicateOperation. cbv zeta.
  fold (c_key c).
  pose proof (tracks_cleanup t (c_now1 c) m last H1 Htr) as [T1 T2].
  set (m1 := cleanupOperationDedupe (c_now1 c) m) in *.
  assert (Hins : tracks (c_now2 c) (<[c_key c := c_now2 c]> m1)
                   (<[c_key c := c_now2 c]> last)).
  { split.
    - intros k ts. destruct (decide (k = c_key c)) as [->|Hne].
      + rewrite !lookup_insert_eq. intros E. injection E as <-. split; [reflexivity|lia].
      + rewrite !lookup_insert_ne by congruence. intros Hk.
        destruct (T1 k ts Hk). split; [assumption|lia].
    - intros k ts. destruct (decide (k = c_key c)) as [->|Hne].
      + rewrite !lookup_insert_eq. intros E. injection E as <-. split; [lia|discriminate].
      + rewrite !lookup_insert_ne by congruence. intros Hk.
        destruct (T2 k ts Hk) as [Hb Hg]. split; [lia|]. intros Hn. specialize (Hg Hn). lia. }
  destruct (m1 !! c_key c) as [lastSeen|] eqn:Hk.
  - destruct (T1 _ _ Hk) as [Hl Hb]. rewrite Hl.
    replace (lastSeen =? 0) with false by (symmetry; apply Z.eqb_neq; lia).
    cbn [negb andb].
    destruct (c_now2 c - lastSeen <=? OPERATION_DEDUPE_TTL_MS) eqn:Hw.
    + destruct (run m1 calls) as [m2 rs] eqn:Hrun. cbn [snd]. f_equal.
      change rs with (m2, rs).2. rewrite <- Hrun.
      apply (IH (c_now2 c)); [exact Hclk|].
      split.
      * intros k ts Hk'. destruct (T1 k ts Hk'). split; [assumption|lia].
      * intros k ts Hk'. destruct (T2 k ts Hk') as [? Hg]. split; [lia|].
        intros Hn. specialize (Hg Hn). lia.
    + destruct (run (<[c_key c := c_now2 c]> m1) calls) as [m2 rs] eqn:Hrun.
      cbn [snd]. f_equal. change rs with (m2, rs).2. rewrite <- Hrun.
      apply (IH (c_now2 c)); assumption.
  - destruct (last !! c_key c) as [ts|] eqn:Hl.
    + destruct (T2 _ _ Hl) as [Hb Hg]. specialize (Hg Hk).
      replace (c_now2 c - ts <=? OPERATION_DEDUPE_TTL_MS) with false
        by (symmetry; apply Z.leb_gt; lia).
      destruct (run (<[c_key c := c_now2 c]> m1) calls) as [m2 rs] eqn:Hrun.
      cbn [snd]. f_equal. change rs with (m2, rs).2. rewrite <- Hrun.
      apply (IH (c_now2 c)); assumption.
    + destruct (run (<[c_key c := c_now2 c]> m1) calls) as [m2 rs] eqn:Hrun.
      cbn [snd]. f_equal. change rs with (m2, rs).2. rewrite <- Hrun.
      apply (IH (c_now2 c)); assumption.
Qed.

(** With a clock that is positive and never goes back, the answers of
    [shouldSkipDuplicateOperation] depend on the key strings and the
    times alone: a call is skipped exactly when a call with the same key
    string was last let through at most 1500 ms before; being skipped
    does not extend that window, and the clean-up of expired entries
    never changes an answer. Calls are told apart by the key string
    only, and the fields are joined by colons without escaping, so two
    different operations can share a key. *)
Theorem duplicate_skipped_within_ttl (calls : list call) :
  clock_advances 0 calls ->
  (run ∅ calls).2 = skipped_by_time ∅ calls
  /\ (forall opType name host port username password passphrase remotePath relativePath,
        operation_key opType
          (mkConfig name host port (username ++ ":a") password passphrase remotePath)
          relativePath
        = operation_key opType
            (mkConfig name host port username password passphrase remotePath)
            ("a:" ++ relativePath)).
Proof.
  intros H. split.
  - apply (run_follows_times calls 0 ∅ ∅ H).
    split; intros k ts E; rewrite lookup_empty in E; discriminate E.
  - intros. unfold operation_key, port_or_22. cbn [cfg_host cfg_port cfg_username].
    assert (A : forall a b c : string, ((a ++ b) ++ c = a ++ (b ++ c))%string).
    { intros a b c. induction a as [|x a IH]; [reflexivity|].
      change ((String x a ++ b) ++ c)%string with (String x ((a ++ b) ++ c)).
      rewrite IH. reflexivity. }
    rewrite !A. reflexivity.
Qed.

End DedupeFacts.

Lemma duplicate_skipped_within_ttl_witness :
  (Dedupe.run ∅
     [Dedupe.mkCall 1000 1000 "upload" Demo.config "a.txt";
      Dedupe.mkCall 2400 2401 "upload" Demo.config "a.txt";
      Dedupe.mkCall 2500 2500 "upload" Demo.config "b.txt";
      Dedupe.mkCall 2600 2600 "upload" Demo.config "a.txt"]).2
  = [false; true; false; false].
Proof.
  destruct (duplicate_skipped_within_ttl
              [Dedupe.mkCall 1000 1000 "upload" Demo.config "a.txt";
               Dedupe.mkCall 2400 2401 "upload" Demo.config "a.txt";
               Dedupe.mkCall 2500 2500 "upload" Demo.config "b.txt";
               Dedupe.mkCall 2600 2600 "upload" Demo.config "a.txt"]) as [E _].
  - cbn. lia.
  - rewrite E. vm_compute. reflexivity.
Defined.

(** ** Status bar manager: the log and the display *)

Section StatusBarFacts.

Import StatusBar.
Local Open Scope list_scope.

Variable toLocaleString : Z -> string.
Variable toLocaleTimeString : Z -> string.

Let run := StatusBar.run toLocaleString toLocaleTimeString.
Let step := StatusBar.step toLocaleString toLocaleTimeString.
Let refreshOutputChannel := StatusBar.refreshOutputChannel toLocaleString toLocaleTimeString.

Lemma run_snoc s calls c : run s (calls ++ [c]) = step (run s calls) c.
Proof. unfold run, StatusBar.run. rewrite fold_left_app. reflexivity. Qed.

Lemma updateDisplay_fields s :
  stats (updateDisplay s) = stats s /\ currentFiles (updateDisplay s) = currentFiles s
  /\ logLines (updateDisplay s) = logLines s /\ history (updateDisplay s) = history s
  /\ isOutputChannelVisible (updateDisplay s) = isOutputChannelVisible s
  /\ channel (updateDisplay s) = channel s.
Proof. repeat split; reflexivity. Qed.

Lemma addHistory_fields s t f st e now :
  stats (addHistory s t f st e now) = stats s
  /\ logLines (addHistory s t f st e now) = logLines s
  /\ isOutputChannelVisible (addHistory s t f st e now) = isOutputChannelVisible s
  /\ channel (addHistory s t f st e now) = channel s
  /\ currentFiles (addHistory s t f st e now) = currentFiles s.
Proof. destruct st; repeat split; reflexivity. Qed.

(** Every call but [addLogLine] and [showStatus] leaves the log lines,
    the visibility flag and the channel alone. *)
Lemma log_untouched s c now :
  (forall l, c <> AddLogLine l) -> c <> ShowStatus ->
  logLines (step s (c, now)) = logLines s
  /\ isOutputChannelVisible (step s (c, now)) = isOutputChannelVisible s
  /\ channel (step s (c, now)) = channel s.
Proof.
  intros Hl Hs. unfold step.
  destruct c as [f|f [] e|f|f [] e|f|f [] e|l| | |]; cbn [StatusBar.step fst snd];
    try (repeat split; reflexivity).
  - exfalso. eapply Hl. reflexivity.
  - contradiction.
Qed.

Lemma take_cons_take (n : nat) {A} (x : A) (l : list A) :
  (if (n <? length (x :: take n l))%nat then take n (x :: take n l) else x :: take n l)
  = take n (x :: l).
Proof.
  destruct n as [|n]; [reflexivity|].
  destruct (Nat.ltb_spec (S n) (length (x :: take (S n) l))) as [Hlt|Hge].
  - cbn [take]. f_equal. rewrite take_take. f_equal. lia.
  - cbn [length] in Hge. rewrite length_take in Hge. cbn [take]. f_equal.
    rewrite take_ge by lia. rewrite (take_ge l) by lia. reflexivity.
Qed.

(** The operation log keeps the latest 50 lines, newest first, whatever
    else is called in between, and once the log channel has been opened
    it shows exactly the kept lines, oldest first. *)
Theorem log_keeps_latest_lines (calls : list (call * Z)) :
  let s := run create calls in
  logLines s = take maxLogLines (logged calls)
  /\ (length (logLines s) <= 50)%nat
  /\ (isOutputChannelVisible s = true ->
      exists now, channel s = channel (refreshOutputChannel s now)).
Proof.
  cbv zeta.
  assert (H : logLines (run create calls) = take maxLogLines (logged calls)
              /\ (isOutputChannelVisible (run create calls) = true ->
                  exists now, channel (run create calls)
                              = channel (refreshOutputChannel (run create calls) now))).
  { induction calls as [|[c now] calls IH] using rev_ind.
    - split; [reflexivity|]. cbn. discriminate.
    - rewrite run_snoc. destruct IH as [IH1 IH2]. set (s := run create calls) in *.
      unfold logged in *. rewrite omap_app, rev_app_distr.
      assert (Hother : (forall l, c <> AddLogLine l) -> c <> ShowStatus ->
        logLines (step s (c, now))
        = take maxLogLines
            (rev (omap (fun c0 : call * Z => match c0.1 with
                                             | AddLogLine l0 => Some (mkLog l0 c0.2)
                                             | _ => None
                                             end) [(c, now)])
             ++ rev (omap (fun c0 : call * Z => match c0.1 with
                                                | AddLogLine l0 => Some (mkLog l0 c0.2)
                                                | _ => None
                                                end) calls))
        /\ (isOutputChannelVisible (step s (c, now)) = true ->
            exists now0, channel (step s (c, now))
                         = channel (refreshOutputChannel (step s (c, now)) now0))).
      { intros Hnl Hns. destruct (log_untouched s c now Hnl Hns) as (E1 & E2 & E3).
        assert (Hom : omap (fun c0 : call * Z => match c0.1 with
                                                  | AddLogLine l0 => Some (mkLog l0 c0.2)
                                                  | _ => None
                                                  end) [(c, now)] = []).
        { cbn. destruct c; try reflexivity. exfalso. eapply Hnl. reflexivity. }
        rewrite Hom. cbn [rev app]. rewrite E1. split; [exact IH1|].
        rewrite E2, E3. intros Hv. destruct (IH2 Hv) as [now' Hc]. exists now'.
        rewrite Hc. unfold refreshOutputChannel, StatusBar.refreshOutputChannel.
        cbn [channel]. rewrite E1. reflexivity. }
      destruct c as [f|f ok e|f|f ok e|f|f ok e|l| | |];
        try (apply Hother; [intros l0; discriminate|discriminate]).
      + unfold step. cbn [omap fst snd rev app StatusBar.step].
        unfold StatusBar.addLogLine. cbv zeta. cbn [isOutputChannelVisible].
        assert (E : (if (maxLogLines <? length (mkLog l now :: logLines s))%nat
                     then take maxLogLines (mkLog l now :: logLines s)
                     else mkLog l now :: logLines s)
                    = take maxLogLines
                        (mkLog l now
                         :: rev (omap (fun c => match c.1 with
                                                | AddLogLine l0 => Some (mkLog l0 c.2)
                                                | _ => None
                                                end) calls))).
        { rewrite IH1. apply take_cons_take. }
        destruct (isOutputChannelVisible s) eqn:Hv.
        * cbn [StatusBar.refreshOutputChannel logLines isOutputChannelVisible channel].
          split; [exact E|]. intros _. exists now. reflexivity.
        * cbn [logLines isOutputChannelVisible]. split; [exact E|]. discriminate.
      + unfold step. cbn [omap fst snd rev app StatusBar.step].
        split; [exact IH1|]. intros _. exists now. reflexivity. }
  destruct H as [H1 H2]. split; [exact H1|]. split; [|exact H2].
  rewrite H1, length_take. unfold maxLogLines. lia.
Qed.

(** What the item shows after [updateDisplay]. *)
Lemma updateDisplay_item s :
  0 <= uploading (stats s) -> 0 <= downloading (stats s) -> 0 <= deleting (stats s) ->
  let busy := uploading (stats s) + downloading (stats s) + deleting (stats s) in
  (text (statusBarItem (updateDisplay s)) = idle_text <-> busy = 0)
  /\ (backgroundColor (statusBarItem (updateDisplay s)) = None <-> busy = 0).
Proof.
  intros Hu Hd Hx busy. subst busy. unfold updateDisplay. cbn [set_item statusBarItem].
  destruct (Z.gtb_spec (uploading (stats s)) 0);
    [|destruct (Z.gtb_spec (downloading (stats s)) 0);
      [|destruct (Z.gtb_spec (deleting (stats s)) 0)]];
    cbn [busy_item text backgroundColor]; unfold idle_text;
    (split; split; intros Hgoal; try lia; try reflexivity; try discriminate Hgoal).
Qed.

Lemma display_ok_updateDisplay s :
  0 <= uploading (stats s) -> 0 <= downloading (stats s) -> 0 <= deleting (stats s) ->
  (length (history s) <= maxHistory)%nat ->
  display_ok (updateDisplay s).
Proof.
  intros Hu Hd Hx Hh. destruct (updateDisplay_item s Hu Hd Hx) as [H1 H2].
  repeat split; try assumption; try apply H1; try apply H2.
Qed.

Lemma addHistory_length s t f st e now :
  (length (history s) <= maxHistory)%nat ->
  (length (history (addHistory s t f st e now)) <= maxHistory)%nat.
Proof.
  intros H. unfold addHistory. destruct st; [exact H| |]; cbn [set_history history];
    match goal with |- context [(maxHistory <? ?n)%nat] =>
      destruct (Nat.ltb_spec maxHistory n) end;
    rewrite ?length_take; cbn [length] in *; lia.
Qed.

Lemma display_ok_step s c now : display_ok s -> display_ok (step s (c, now)).
Proof.
  intros (Hu & Hd & Hx & Ht & Hb & Hh). unfold step.
  assert (Hkeep : forall s', stats s' = stats s -> statusBarItem s' = statusBarItem s ->
                    history s' = history s -> display_ok s').
  { intros s' E1 E2 E3. unfold display_ok. rewrite E1, E2, E3.
    repeat split; try assumption; try apply Ht; try apply Hb. }
  destruct c as [f|f ok e|f|f ok e|f|f ok e|l| | |]; cbn [StatusBar.step fst snd];
    try (apply Hkeep; reflexivity).
  - apply display_ok_updateDisplay; cbn; try lia; try exact Hh.
  - unfold finishUpload. cbv zeta.
    destruct ok; apply display_ok_updateDisplay;
      cbn [set_stats set_currentFiles stats uploading downloading deleting history];
      rewrite ?(proj1 (addHistory_fields _ _ _ _ _ _));
      cbn [set_stats set_currentFiles stats uploading downloading deleting];
      try lia; apply addHistory_length; exact Hh.
  - apply display_ok_updateDisplay; cbn; try lia; try exact Hh.
  - unfold finishDownload. cbv zeta.
    destruct ok; apply display_ok_updateDisplay;
      cbn [set_stats set_currentFiles stats uploading downloading deleting history];
      rewrite ?(proj1 (addHistory_fields _ _ _ _ _ _));
      cbn [set_stats set_currentFiles stats uploading downloading deleting];
      try lia; apply addHistory_length; exact Hh.
  - apply display_ok_updateDisplay; cbn; try lia; try exact Hh.
  - unfold finishDelete. cbv zeta.
    destruct ok; apply display_ok_updateDisplay;
      cbn [set_stats set_currentFiles stats uploading downloading deleting history];
      rewrite ?(proj1 (addHistory_fields _ _ _ _ _ _));
      cbn [set_stats set_currentFiles stats uploading downloading deleting];
      try lia; apply addHistory_length; exact Hh.
  - unfold StatusBar.addLogLine. cbv zeta. cbn [isOutputChannelVisible].
    destruct (isOutputChannelVisible s); apply Hkeep; reflexivity.
  - apply display_ok_updateDisplay; cbn; lia.
  - unfold display_ok, dispose. cbn [set_item stats statusBarItem text backgroundColor history].
    repeat split; try assumption; try apply Ht; try apply Hb.
Qed.

(** After any sequence of calls the three counters are not negative, at
    most 50 history records are kept, and the status bar item shows the
    idle text and no warning colour exactly when no upload, download or
    delete is counted as running. *)
Theorem status_bar_idle_iff_nothing_running (calls : list (call * Z)) :
  let s := run create calls in
  let busy := uploading (stats s) + downloading (stats s) + deleting (stats s) in
  0 <= uploading (stats s) /\ 0 <= downloading (stats s) /\ 0 <= deleting (stats s)
  /\ (text (statusBarItem s) = idle_text <-> busy = 0)
  /\ (backgroundColor (statusBarItem s) = None <-> busy = 0)
  /\ (length (history s) <= 50)%nat.
Proof.
  cbv zeta. change (display_ok (run create calls)).
  induction calls as [|[c now] calls IH] using rev_ind.
  - repeat split; cbn; try lia; reflexivity.
  - rewrite run_snoc. apply display_ok_step, IH.
Qed.

Lemma since_reset_snoc calls : forall acc c,
  since_reset (calls ++ [c]) acc
  = match c.1 with
    | Reset => []
    | _ => since_reset calls acc ++ [c]
    end.
Proof.
  induction calls as [|[c0 n0] calls IH]; intros acc [c n].
  - destruct c; reflexivity.
  - cbn [app since_reset fst]. destruct c0; rewrite IH; reflexivity.
Qed.

Lemma count_snoc {A} (f : A -> bool) (l : list A) (x : A) :
  Z.of_nat (length (List.filter f (l ++ [x])))
  = Z.of_nat (length (List.filter f l)) + (if f x then 1 else 0).
Proof.
  rewrite List.filter_app, length_app. cbn [List.filter].
  destruct (f x); cbn [length]; lia.
Qed.

(** The totals count the successful [finish...] calls made since the last
    [reset], whether or not a [start...] call went before them, and
    [stats.errors] holds one record per failed one, in call order. *)
Theorem totals_count_finished_operations (calls : list (call * Z)) :
  let s := run create calls in
  let recent := since_reset calls [] in
  totalUploaded (stats s) = Z.of_nat (length (List.filter (finished_ok Upload) recent))
  /\ totalDownloaded (stats s) = Z.of_nat (length (List.filter (finished_ok Download) recent))
  /\ totalDeleted (stats s) = Z.of_nat (length (List.filter (finished_ok Delete) recent))
  /\ errors (stats s) = omap finished_failed recent.
Proof.
  cbv zeta. induction calls as [|[c now] calls IH] using rev_ind.
  - repeat split; reflexivity.
  - rewrite run_snoc, since_reset_snoc. destruct IH as (IU & ID & IX & IE).
    set (s := run create calls) in *. set (recent := since_reset calls []) in *.
    unfold step.
    destruct c as [f|f [] e|f|f [] e|f|f [] e|l| | |];
      cbn [StatusBar.step fst snd];
      rewrite ?count_snoc, ?omap_app;
      cbn [finished_ok finished_failed fst snd omap List.filter length];
      rewrite ?(proj1 (updateDisplay_fields _));
      try (unfold StatusBar.addLogLine; cbv zeta; cbn [isOutputChannelVisible];
           destruct (isOutputChannelVisible s));
      cbn [startUpload finishUpload startDownload finishDownload startDelete finishDelete
           reset set_stats set_currentFiles set_history addHistory stats
           StatusBar.showStatus StatusBar.refreshOutputChannel dispose set_item updateDisplay
           totalUploaded totalDownloaded totalDeleted errors empty_stats];
      rewrite ?IU, ?ID, ?IX, ?IE, ?app_nil_r;
      repeat split; try reflexivity; try lia.
Qed.

End StatusBarFacts.

(** ** Connection manager: host key verdicts and the errors of failed connects *)

Section HostKeyErrors.

Import CM CMSpec CMPool CMHostKey.
Local Open Scope list_scope.

Lemma from_pool_verdicts s cid config key :
  lastHostKeyValidation (from_pool s cid config key) = lastHostKeyValidation s.
Proof.
  unfold from_pool. cbv zeta.
  destruct (connections s !! key) as [conn|]; [|reflexivity].
  destruct (_isConnectionAlive s conn); reflexivity.
Qed.

Lemma step_keeps_verdict s e key :
  touches_verdict s e key = false ->
  lastHostKeyValidation (step s e) !! key = lastHostKeyValidation s !! key.
Proof.
  intros Ht. destruct e as [config|cid|p f|p v|p f|p|p|p|h|config| |dt]; cbn [step].
  - unfold getConnection. cbv zeta.
    match goal with |- context [connecting ?s0 !! ?k] => destruct (connecting s0 !! k) end;
      [reflexivity|]. rewrite from_pool_verdicts. reflexivity.
  - unfold resume.
    destruct (callers s !! cid) as [[config k p|k p|h|e]|]; try reflexivity;
      destruct (promises s !! p) as [[|h|e]|]; try reflexivity.
    rewrite from_pool_verdicts. reflexivity.
  - unfold build_done. destruct (attempts s !! p) as [[k c []]|]; try reflexivity.
    destruct f; reflexivity.
  - unfold host_verified. cbn [touches_verdict] in Ht.
    destruct (attempts s !! p) as [[k c []]|]; try reflexivity.
    cbn [lastHostKeyValidation]. apply lookup_insert_ne.
    intros ->. rewrite String.eqb_refl in Ht. discriminate Ht.
  - unfold connect_done. cbn [touches_verdict] in Ht.
    destruct (attempts s !! p) as [[k c []]|]; try reflexivity.
    destruct f; [reflexivity|].
    cbn [lastHostKeyValidation]. apply lookup_delete_ne.
    intros ->. rewrite String.eqb_refl in Ht. discriminate Ht.
  - unfold end_done. destruct (attempts s !! p) as [[k c []]|]; reflexivity.
  - unfold transport_error. destruct (attempts s !! p) as [a|]; [|reflexivity].
    destruct (connections s !! a_key a); reflexivity.
  - unfold transport_closed. destruct (attempts s !! p) as [a|]; [|reflexivity].
    destruct (connections s !! a_key a); reflexivity.
  - reflexivity.
  - unfold closeConnection. cbv zeta.
    destruct (connections s !! _connectionKey config); reflexivity.
  - unfold _cleanupIdleConnections.
    destruct (cleanup_fold_spec s (connections s)) as (_ & _ & _ & _ & _ & _ & E).
    rewrite E. reflexivity.
  - reflexivity.
Qed.

Lemma run_keeps_verdict key evs : forall s,
  verdict_kept key s evs ->
  lastHostKeyValidation (run s evs) !! key = lastHostKeyValidation s !! key.
Proof.
  induction evs as [|e evs IH]; intros s H; [reflexivity|].
  destruct H as [Ht Hk]. cbn [run fold_left]. fold (run (step s e) evs).
  rewrite (IH _ Hk). apply step_keeps_verdict, Ht.
Qed.

Lemma wrap_blocked s key v e :
  lastHostKeyValidation s !! key = Some v -> HostTrust.allowed v = false ->
  _wrapHostKeyError s key e = host_key_error key v.
Proof. intros Hv Ha. unfold _wrapHostKeyError, host_key_error. rewrite Hv, Ha. reflexivity. Qed.

(** Once the host verifier has blocked the host key of a connection key,
    the verdict stays until a new verdict for that key or a successful
    connect to it. Every connect attempt for the key that fails
    meanwhile, whatever its own error and even when it failed before the
    server was contacted, is rejected with the host key message of that
    verdict, and that is what its [getConnection] call throws. *)
Theorem blocked_host_key_masks_later_errors
    (s0 : state) (p0 p cid : nat) (key : string) (cfg0 cfg : ServerConfig)
    (v : HostTrust.verdict) (evs : list event) (e : string) :
  attempts s0 !! p0 = Some (mkAttempt key cfg0 Connecting) ->
  HostTrust.allowed v = false ->
  verdict_kept key (host_verified s0 p0 v) evs ->
  let s := run (host_verified s0 p0 v) evs in
  attempts s !! p = Some (mkAttempt key cfg (Ending e)) ->
  promises (end_done s p) !! p = Some (Rejected (host_key_error key v))
  /\ (callers s !! cid = Some (AwaitingOwn key p) ->
      callers (resume (end_done s p) cid) !! cid = Some (Threw (host_key_error key v))).
Proof.
  intros Ha Hv Hk s Hp.
  assert (Hl : lastHostKeyValidation s !! key = Some v).
  { subst s. rewrite (run_keeps_verdict key evs _ Hk).
    unfold host_verified. rewrite Ha. cbn [lastHostKeyValidation]. apply lookup_insert_eq. }
  assert (Hpr : promises (end_done s p) !! p = Some (Rejected (host_key_error key v))).
  { unfold end_done. rewrite Hp. cbn [set_attempt promises].
    rewrite (wrap_blocked s key v e Hl Hv). apply lookup_insert_eq. }
  split; [exact Hpr|]. intros Hc.
  assert (Hc' : callers (end_done s p) !! cid = Some (AwaitingOwn key p)).
  { unfold end_done. rewrite Hp. exact Hc. }
  unfold resume. rewrite Hc', Hpr. cbn [set_caller callers]. apply lookup_insert_eq.
Qed.

(** A connect that succeeds forgets the verdict of its key: the next
    attempt for the key that fails, with no verdict recorded since, is
    rejected with its own error. *)
Theorem successful_connect_clears_verdict
    (s0 : state) (p0 p : nat) (key : string) (cfg0 cfg : ServerConfig)
    (evs : list event) (e : string) :
  attempts s0 !! p0 = Some (mkAttempt key cfg0 Connecting) ->
  verdict_kept key (connect_done s0 p0 None) evs ->
  let s := run (connect_done s0 p0 None) evs in
  attempts s !! p = Some (mkAttempt key cfg (Ending e)) ->
  promises (end_done s p) !! p = Some (Rejected e).
Proof.
  intros Ha Hk s Hp.
  assert (Hl : lastHostKeyValidation s !! key = None).
  { subst s. rewrite (run_keeps_verdict key evs _ Hk).
    unfold connect_done. rewrite Ha. cbn [lastHostKeyValidation]. apply lookup_delete_eq. }
  unfold end_done. rewrite Hp. cbn [set_attempt promises].
  unfold _wrapHostKeyError. rewrite Hl. apply lookup_insert_eq.
Qed.

End HostKeyErrors.

Lemma blocked_host_key_masks_later_errors_witness :
  CM.promises
    (CM.end_done
       (CM.run
          (CM.host_verified (CM.run CM.init [CM.Call Demo.config; CM.BuildDone 0 None]) 0
             (HostTrust.mkVerdict false "strict" "unknown_host" None (Some "SHA256:aaaa") None))
          [CM.ConnectDone 0 (Some "Handshake failed"); CM.EndDone 0; CM.Resume 0;
           CM.Call Demo.config; CM.BuildDone 1 (Some "ENOENT: no such file or directory")])
       1) !! 1%nat
  = Some (CM.Rejected
            (CMHostKey.host_key_error Demo.key
               (HostTrust.mkVerdict false "strict" "unknown_host" None (Some "SHA256:aaaa")
                  None))).
Proof.
  apply (blocked_host_key_masks_later_errors
           (CM.run CM.init [CM.Call Demo.config; CM.BuildDone 0 None])
           0 1 1 Demo.key Demo.config Demo.config
           (HostTrust.mkVerdict false "strict" "unknown_host" None (Some "SHA256:aaaa") None)
           [CM.ConnectDone 0 (Some "Handshake failed"); CM.EndDone 0; CM.Resume 0;
            CM.Call Demo.config; CM.BuildDone 1 (Some "ENOENT: no such file or directory")]
           "ENOENT: no such file or directory").
  - vm_compute. reflexivity.
  - reflexivity.
  - cbn [CMHostKey.verdict_kept]. repeat split; vm_compute; reflexivity.
  - vm_compute. reflexivity.
Defined.

Lemma successful_connect_clears_verdict_witness :
  CM.promises
    (CM.end_done
       (CM.run
          (CM.connect_done (CM.run CM.init [CM.Call Demo.config; CM.BuildDone 0 None]) 0 None)
          [CM.Resume 0; CM.SocketLost 0; CM.Call Demo.config; CM.BuildDone 1 None;
           CM.ConnectDone 1 (Some "connect ECONNREFUSED")])
       1) !! 1%nat
  = Some (CM.Rejected "connect ECONNREFUSED").
Proof.
  apply (successful_connect_clears_verdict
           (CM.run CM.init [CM.Call Demo.config; CM.BuildDone 0 None])
           0 1 Demo.key Demo.config Demo.config
           [CM.Resume 0; CM.SocketLost 0; CM.Call Demo.config; CM.BuildDone 1 None;
            CM.ConnectDone 1 (Some "connect ECONNREFUSED")]
           "connect ECONNREFUSED").
  - vm_compute. reflexivity.
  - cbn [CMHostKey.verdict_kept]. repeat split; vm_compute; reflexivity.
  - vm_compute. reflexivity.
Defined.

(** ** Connection manager: the cache of remote directories *)

Section DirCacheFacts.

Import DirCache.
Local Open Scope list_scope.

Lemma dirs_wf_new_set s key : wf s -> wf (new_set s key).
Proof.
  intros H k c. unfold new_set. cbn [dirCache sets next_set].
  destruct (decide (k = key)) as [->|Hne].
  - rewrite lookup_insert_eq. intros E. injection E as <-.
    split; [lia|]. rewrite lookup_insert_eq. eauto.
  - rewrite lookup_insert_ne by congruence. intros Hk. destruct (H k c Hk) as [Hlt Hs].
    split; [lia|]. rewrite lookup_insert_ne by lia. exact Hs.
Qed.

Lemma dirs_wf_cache_add s cache dirs : wf s -> wf (cache_add s cache dirs).
Proof.
  intros H k c Hk. destruct (H k c Hk) as [Hlt Hs]. split; [exact Hlt|].
  unfold cache_add. cbn [sets]. destruct (decide (c = cache)) as [->|Hne].
  - rewrite lookup_insert_eq. eauto.
  - rewrite lookup_insert_ne by congruence. exact Hs.
Qed.

Lemma dirs_wf_ensureDir s config remoteDir : wf s -> wf (ensureDir s config remoteDir).1.
Proof.
  intros H. unfold ensureDir. cbv zeta.
  set (key := CM._connectionKey config).
  set (s1 := match dirCache s !! key with Some _ => s | None => new_set s key end).
  assert (H1 : wf s1)
    by (subst s1; destruct (dirCache s !! key); [exact H|apply dirs_wf_new_set, H]).
  destruct (dirCache s1 !! key) as [cache|]; [|exact H1].
  destruct (bool_decide _); exact H1.
Qed.

Lemma dirs_wf_step s e : wf s -> wf (step s e).
Proof.
  intros H. destruct e as [key|key| |config d|cache d ok]; cbn [step].
  - apply dirs_wf_new_set, H.
  - intros k c Hk. cbn in Hk. apply lookup_delete_Some in Hk as [_ Hk]. apply (H k c Hk).
  - intros k c Hk. cbn in Hk. rewrite lookup_empty in Hk. discriminate Hk.
  - apply dirs_wf_ensureDir, H.
  - unfold mkdir_done. destruct ok; apply dirs_wf_cache_add, H.
Qed.

Lemma dirs_wf_run evs : forall s, wf s -> wf (run s evs).
Proof.
  induction evs as [|e evs IH]; intros s H; [exact H|].
  apply IH, dirs_wf_step, H.
Qed.

Lemma dirs_wf_init : wf init.
Proof. intros k c H. cbn in H. rewrite lookup_empty in H. discriminate H. Qed.

Lemma holds_step s e key cache dirs :
  wf s -> keeps_connection key e = true -> holds s key cache dirs ->
  holds (step s e) key cache dirs.
Proof.
  intros Hwf Hk (Hc & content & Hs & Hsub).
  assert (Hnew : forall k, k <> key -> holds (new_set s k) key cache dirs).
  { intros k Hne. split; cbn [new_set dirCache sets].
    - rewrite lookup_insert_ne by congruence. exact Hc.
    - exists content. split; [|exact Hsub].
      rewrite lookup_insert_ne; [exact Hs|]. destruct (Hwf key cache Hc). lia. }
  assert (Hadd : forall c ds, holds (cache_add s c ds) key cache dirs).
  { intros c ds. split; [exact Hc|]. unfold cache_add. cbn [sets].
    destruct (decide (cache = c)) as [->|Hne].
    - rewrite lookup_insert_eq, Hs. cbn [default]. eexists. split; [reflexivity|].
      etrans; [exact Hsub|apply union_subseteq_r].
    - rewrite lookup_insert_ne by congruence. eauto. }
  destruct e as [k|k| |config d|c d ok]; cbn [step keeps_connection] in *.
  - apply Hnew. intros ->. rewrite String.eqb_refl in Hk. discriminate Hk.
  - split; [|exists content; auto]. cbn. rewrite lookup_delete_ne; [exact Hc|].
    intros ->. rewrite String.eqb_refl in Hk. discriminate Hk.
  - discriminate Hk.
  - unfold ensureDir. cbv zeta. set (k := CM._connectionKey config).
    set (s1 := match dirCache s !! k with Some _ => s | None => new_set s k end).
    assert (H1 : holds s1 key cache dirs).
    { subst s1. destruct (dirCache s !! k) eqn:E; [split; eauto|].
      apply Hnew. intros ->. congruence. }
    destruct (dirCache s1 !! k) as [c|]; [|exact H1].
    destruct (bool_decide _); exact H1.
  - unfold mkdir_done. destruct ok; apply Hadd.
Qed.

Lemma holds_run evs key cache dirs : forall s,
  wf s -> forallb (keeps_connection key) evs = true -> holds s key cache dirs ->
  holds (run s evs) key cache dirs.
Proof.
  induction evs as [|e evs IH]; intros s Hwf Hk H; [exact H|].
  cbn [forallb] in Hk. apply andb_prop in Hk as [Hk1 Hk2].
  apply IH; [apply dirs_wf_step, Hwf|exact Hk2|apply holds_step; assumption].
Qed.

Lemma ensureDir_hit s config d cache dirs :
  holds s (CM._connectionKey config) cache dirs -> d ∈ dirs ->
  ensureDir s config d = (s, None).
Proof.
  intros (Hc & content & Hs & Hsub) Hd. unfold ensureDir. cbv zeta.
  rewrite Hc. rewrite Hc. rewrite Hs. cbn [default].
  rewrite bool_decide_eq_true_2 by (apply Hsub, Hd). reflexivity.
Qed.

Lemma ensureDir_miss s config d cache :
  (ensureDir s config d).2 = Some cache ->
  dirCache (ensureDir s config d).1 !! CM._connectionKey config = Some cache
  /\ mkdirs (ensureDir s config d).1 = mkdirs s ++ [(CM._connectionKey config, d)].
Proof.
  unfold ensureDir. cbv zeta. set (key := CM._connectionKey config).
  destruct (dirCache s !! key) as [c|] eqn:E.
  - rewrite E. destruct (bool_decide _); [discriminate|].
    cbn [fst snd dirCache mkdirs]. intros H. injection H as <-. auto.
  - cbn [new_set dirCache]. rewrite lookup_insert_eq.
    destruct (bool_decide _); [discriminate|].
    cbn [fst snd dirCache mkdirs]. intros H. injection H as <-.
    rewrite lookup_insert_eq. auto.
Qed.

(** Once the [mkdir] of an [ensureDir] call has settled, the directory
    counts as present for as long as the connection of that server is
    neither re-established nor closed: later calls for it return without
    calling [mkdir], also when the [mkdir] had failed. After a successful
    [mkdir] the same holds for every ancestor [/p1], [/p1/p2], ... built
    from the non-empty pieces of the directory. *)
Theorem ensureDir_result_is_cached
    (evs0 evs : list event) (config : ServerConfig) (remoteDir : string) (ok : bool)
    (cache : nat) :
  let key := CM._connectionKey config in
  let s := run init evs0 in
  (ensureDir s config remoteDir).2 = Some cache ->
  forallb (keeps_connection key) evs = true ->
  let s' := run (mkdir_done (ensureDir s config remoteDir).1 cache remoteDir ok) evs in
  mkdirs (ensureDir s config remoteDir).1 = mkdirs s ++ [(key, remoteDir)]
  /\ ensureDir s' config remoteDir = (s', None)
  /\ (ok = true ->
      forall d, d ∈ current_paths "" (parts remoteDir) -> ensureDir s' config d = (s', None)).
Proof.
  intros key s Hmiss Hk s'.
  destruct (ensureDir_miss s config remoteDir cache Hmiss) as [Hc Hm].
  split; [exact Hm|].
  set (s1 := (ensureDir s config remoteDir).1) in *.
  assert (Hwf1 : wf s1) by (apply dirs_wf_ensureDir, dirs_wf_run, dirs_wf_init).
  set (added := if ok then remoteDir :: current_paths "" (parts remoteDir) else [remoteDir]).
  assert (Hh : holds s' key cache (list_to_set added)).
  { subst s'. apply holds_run; [|exact Hk|].
    - unfold mkdir_done. destruct ok; apply dirs_wf_cache_add, Hwf1.
    - split.
      + unfold mkdir_done. destruct ok; exact Hc.
      + unfold mkdir_done, added. destruct ok; cbn [cache_add sets];
          rewrite lookup_insert_eq; eexists; (split; [reflexivity|]); apply union_subseteq_l. }
  split.
  - apply (ensureDir_hit s' config remoteDir cache _ Hh).
    apply elem_of_list_to_set. unfold added. destruct ok; apply list_elem_of_here.
  - intros -> d Hd. apply (ensureDir_hit s' config d cache _ Hh).
    apply elem_of_list_to_set. unfold added. apply list_elem_of_further, Hd.
Qed.

(** A [mkdir] that settles after the connection of its server was
    re-established writes into the [Set] of the old connection: the
    cache of the new connection does not get the directory, and the next
    [ensureDir] for it calls [mkdir] again. *)
Theorem late_mkdir_does_not_fill_new_cache
    (evs0 : list event) (config : ServerConfig) (remoteDir : string) (ok : bool)
    (cache : nat) :
  let key := CM._connectionKey config in
  let s := run init evs0 in
  (ensureDir s config remoteDir).2 = Some cache ->
  let s1 := new_set (ensureDir s config remoteDir).1 key in
  let s2 := mkdir_done s1 cache remoteDir ok in
  (exists cache', (ensureDir s2 config remoteDir).2 = Some cache' /\ cache' <> cache)
  /\ mkdirs (ensureDir s2 config remoteDir).1
     = mkdirs s ++ [(key, remoteDir); (key, remoteDir)].
Proof.
  intros key s Hmiss s1 s2.
  destruct (ensureDir_miss s config remoteDir cache Hmiss) as [Hc Hm].
  set (s0 := (ensureDir s config remoteDir).1) in *.
  assert (Hwf0 : wf s0) by (apply dirs_wf_ensureDir, dirs_wf_run, dirs_wf_init).
  destruct (Hwf0 key cache Hc) as [Hlt _].
  assert (Hd : dirCache s2 !! key = Some (next_set s0)).
  { subst s2 s1. unfold mkdir_done. destruct ok; cbn [cache_add new_set dirCache];
      apply lookup_insert_eq. }
  assert (Hs : sets s2 !! next_set s0 = Some ∅).
  { subst s2 s1. unfold mkdir_done. destruct ok; cbn [cache_add new_set sets];
      (rewrite lookup_insert_ne by lia); apply lookup_insert_eq. }
  assert (Hm2 : mkdirs s2 = mkdirs s0).
  { subst s2 s1. unfold mkdir_done. destruct ok; reflexivity. }
  unfold ensureDir. cbv zeta. fold key. rewrite Hd, Hd, Hs. cbn [default].
  rewrite bool_decide_eq_false_2 by apply not_elem_of_empty. cbn [fst snd mkdirs].
  split.
  - exists (next_set s0). split; [reflexivity|lia].
  - rewrite Hm2, Hm, <- app_assoc. reflexivity.
Qed.

End DirCacheFacts.

Lemma ensureDir_result_is_cached_witness :
  DirCache.ensureDir
    (DirCache.run
       (DirCache.mkdir_done
          (DirCache.ensureDir (DirCache.run DirCache.init [DirCache.Connected Demo.key])
             Demo.config "/srv/app/css").1 0 "/srv/app/css" true)
       [DirCache.EnsureDir Demo.config "/srv/app/js"; DirCache.MkdirDone 0 "/srv/app/js" false])
    Demo.config "/srv/app"
  = (DirCache.run
       (DirCache.mkdir_done
          (DirCache.ensureDir (DirCache.run DirCache.init [DirCache.Connected Demo.key])
             Demo.config "/srv/app/css").1 0 "/srv/app/css" true)
       [DirCache.EnsureDir Demo.config "/srv/app/js"; DirCache.MkdirDone 0 "/srv/app/js" false],
     None).
Proof.
  pose proof (ensureDir_result_is_cached [DirCache.Connected Demo.key]
                [DirCache.EnsureDir Demo.config "/srv/app/js";
                 DirCache.MkdirDone 0 "/srv/app/js" false]
                Demo.config "/srv/app/css" true 0) as H.
  cbv zeta in H. destruct H as (_ & _ & H).
  - vm_compute. reflexivity.
  - reflexivity.
  - apply (H eq_refl). vm_compute. apply list_elem_of_further, list_elem_of_here.
Defined.

Lemma late_mkdir_does_not_fill_new_cache_witness :
  DirCache.mkdirs
    (DirCache.ensureDir
       (DirCache.mkdir_done
          (DirCache.new_set
             (DirCache.ensureDir (DirCache.run DirCache.init [DirCache.Connected Demo.key])
                Demo.config "/srv/app/css").1 (CM._connectionKey Demo.config))
          0 "/srv/app/css" true)
       Demo.config "/srv/app/css").1
  = (DirCache.mkdirs (DirCache.run DirCache.init [DirCache.Connected Demo.key])
     ++ [(CM._connectionKey Demo.config, "/srv/app/css");
         (CM._connectionKey Demo.config, "/srv/app/css")])%list.
Proof.
  apply (late_mkdir_does_not_fill_new_cache [DirCache.Connected Demo.key]
           Demo.config "/srv/app/css" true 0).
  vm_compute. reflexivity.
Defined.

(** ** DownloadManager: what downloadFile fetches *)

Section DownloadFacts.

Import Download.
Local Open Scope list_scope.

Variable cwd : string.
Variable dirname : string -> string.

Lemma assertRemotePathSafe_enabled (remoteBase remotePath : jsval) :
  assertRemotePathSafe cwd remoteBase remotePath true
  = if remote_escapes (normalizeRemotePath remoteBase) (normalizeRemotePath remotePath)
    then Throws {| err_code := PATH_GUARD_REMOTE_TRAVERSAL;
                   err_message := "Remote path traversal blocked: "
                     ++ normalizeRemotePath remotePath ++ " is outside "
                     ++ normalizeRemotePath remoteBase |}
    else Returns (normalizeRemotePath remotePath).
Proof.
  unfold assertRemotePathSafe, remote_escapes. simpl negb. cbv iota zeta.
  rewrite !normalizeRemotePath_or_root.
  destruct (normalizeRemotePath_absolute remoteBase) as [b ->].
  destruct (normalizeRemotePath_absolute remotePath) as [t ->].
  rewrite (relative_absolute_cwd cwd "/"). reflexivity.
Qed.



End DownloadFacts.

(** ** Path guard: the text-level functions on segments *)

(** *** Strings: lengths, characters and substrings *)

Section StringFacts.

Local Open Scope list_scope.

Lemma str_app_nil_l (b : string) : ("" ++ b = b)%string.
Proof. reflexivity. Qed.

Lemma str_app_cons c (a b : string) : (String c a ++ b = String c (a ++ b))%string.
Proof. reflexivity. Qed.

Lemma str_len_cons c a : Str.len (String c a) = 1 + Str.len a.
Proof. unfold Str.len. cbn [String.length]. lia. Qed.

Lemma str_len_nil : Str.len "" = 0.
Proof. reflexivity. Qed.

Lemma str_len_app a b : Str.len (a ++ b)%string = Str.len a + Str.len b.
Proof.
  induction a as [|c a IH]; rewrite ?str_app_cons, ?str_app_nil_l.
  - rewrite str_len_nil. lia.
  - rewrite !str_len_cons, IH. lia.
Qed.

Lemma str_len_nonneg a : 0 <= Str.len a.
Proof. unfold Str.len. lia. Qed.

Lemma str_len_0 a : Str.len a = 0 -> a = ""%string.
Proof.
  destruct a as [|c a]; [reflexivity|]. rewrite str_len_cons.
  pose proof (str_len_nonneg a). lia.
Qed.

Lemma str_app_assoc (a b c : string) : ((a ++ b) ++ c = a ++ (b ++ c))%string.
Proof.
  induction a as [|x a IH]; rewrite ?str_app_cons, ?str_app_nil_l; [reflexivity|].
  rewrite IH. reflexivity.
Qed.

Lemma str_app_nil_r (a : string) : (a ++ "" = a)%string.
Proof.
  induction a as [|x a IH]; rewrite ?str_app_cons, ?str_app_nil_l; [reflexivity|].
  rewrite IH. reflexivity.
Qed.

Lemma get_app_here a c b : String.get (String.length a) (a ++ String c b)%string = Some c.
Proof.
  induction a as [|x a IH]; rewrite ?str_app_cons, ?str_app_nil_l; [reflexivity|exact IH].
Qed.

Lemma get_app_l a b n : (n < String.length a)%nat -> String.get n (a ++ b)%string = String.get n a.
Proof. intros H. symmetry. apply append_correct1, H. Qed.

Lemma substring_snoc s : forall n m cur c,
  String.substring n m s = cur -> String.get (n + m) s = Some c ->
  String.substring n (S m) s = (cur ++ String c "")%string.
Proof.
  induction s as [|x s IH]; intros n m cur c Hs Hg.
  - destruct (n + m)%nat; discriminate Hg.
  - destruct n as [|n].
    + destruct m as [|m].
      * cbn in Hs, Hg. subst cur. injection Hg as ->. cbn. destruct s; reflexivity.
      * cbn [String.substring] in Hs. subst cur. cbn [Nat.add String.get] in Hg.
        rewrite str_app_cons. cbn [String.substring]. f_equal.
        apply (IH 0%nat m _ c eq_refl Hg).
    + cbn [String.substring] in Hs. cbn [Nat.add String.get] in Hg.
      cbn [String.substring]. apply IH; assumption.
Qed.

Lemma substring_prefix a b : String.substring 0 (String.length a) (a ++ b)%string = a.
Proof.
  induction a as [|x a IH]; rewrite ?str_app_cons, ?str_app_nil_l.
  - destruct b; reflexivity.
  - cbn [String.length String.substring]. rewrite IH. reflexivity.
Qed.

Lemma substring_0_0 s : String.substring 0 0 s = ""%string.
Proof. destruct s; reflexivity. Qed.

Lemma last_index_go_app c a : forall b i acc,
  Str.last_index_go c (a ++ b)%string i acc
  = Str.last_index_go c b (i + Str.len a) (Str.last_index_go c a i acc).
Proof.
  induction a as [|x a IH]; intros b i acc; rewrite ?str_app_cons, ?str_app_nil_l;
    cbn [Str.last_index_go].
  - rewrite str_len_nil, Z.add_0_r. reflexivity.
  - rewrite IH, str_len_cons. f_equal. lia.
Qed.

Lemma last_index_go_noslash x : forall i acc,
  PathSem.noslash x = true -> Str.last_index_go Posix.slash x i acc = acc.
Proof.
  induction x as [|c x IH]; intros i acc H; [reflexivity|].
  cbn [PathSem.noslash] in H. cbn [Str.last_index_go].
  apply andb_prop in H as [Hc Hx]. rewrite IH by exact Hx.
  unfold Posix.slash. rewrite (Ascii.eqb_sym "/" c).
  destruct (Ascii.eqb c "/"); [discriminate Hc|reflexivity].
Qed.

Lemma last_index_of_noslash x :
  PathSem.noslash x = true -> Str.last_index_of x Posix.slash = -1.
Proof. apply last_index_go_noslash. Qed.

Lemma last_index_of_app_slash a x :
  PathSem.noslash x = true ->
  Str.last_index_of (a ++ "/" ++ x)%string Posix.slash = Str.len a.
Proof.
  intros H. unfold Str.last_index_of. rewrite last_index_go_app.
  rewrite str_app_cons, str_app_nil_l.
  cbn [Str.last_index_go]. rewrite last_index_go_noslash by exact H.
  reflexivity.
Qed.

Lemma char_at_app_here a c b : Str.char_at (a ++ String c b)%string (Str.len a) = Some c.
Proof.
  unfold Str.char_at. pose proof (str_len_nonneg a).
  destruct (Z.ltb_spec (Str.len a) 0); [lia|]. unfold Str.len. rewrite Nat2Z.id.
  apply get_app_here.
Qed.

End StringFacts.
(** *** Paths joined from pieces *)

Section JoinFacts.

Import PathSpec PathSem.
Local Open Scope list_scope.

Lemma join_cons x y l : join (x :: y :: l) = (x ++ "/" ++ join (y :: l))%string.
Proof. reflexivity. Qed.

Lemma join_snoc l : forall x, l <> [] -> join (l ++ [x]) = (join l ++ "/" ++ x)%string.
Proof.
  induction l as [|y l IH]; intros x Hne; [contradiction|].
  destruct l as [|z l].
  - reflexivity.
  - change ((y :: z :: l) ++ [x]) with (y :: (z :: l) ++ [x]).
    change ((z :: l) ++ [x]) with (z :: (l ++ [x])) at 1.
    rewrite join_cons. change (z :: l ++ [x]) with ((z :: l) ++ [x]).
    rewrite IH by discriminate. rewrite join_cons, !str_app_assoc. reflexivity.
Qed.

Lemma join_single x : join [x] = x.
Proof. reflexivity. Qed.

Lemma join_len_pos l : l <> [] -> Forall piece_ok l -> 0 < Str.len (join l).
Proof.
  intros Hne Hl. destruct l as [|x l]; [contradiction|].
  apply Forall_cons in Hl as [[Hx _] _].
  assert (0 < Str.len x).
  { destruct x as [|c x]; [contradiction|]. rewrite str_len_cons.
    pose proof (str_len_nonneg x). lia. }
  destruct l as [|y l]; [exact H|].
  rewrite join_cons, str_len_app. pose proof (str_len_nonneg ("/" ++ join (y :: l))). lia.
Qed.

Lemma join_snoc_len l x :
  l <> [] -> Forall piece_ok l -> piece_ok x -> 3 <= Str.len (join (l ++ [x])).
Proof.
  intros Hne Hl [Hx _]. rewrite join_snoc by exact Hne.
  rewrite !str_len_app. pose proof (join_len_pos l Hne Hl).
  change (Str.len "/") with 1.
  destruct x as [|c x]; [contradiction|]. rewrite str_len_cons.
  pose proof (str_len_nonneg x). lia.
Qed.

Lemma clean_piece_ok x : clean x = true -> piece_ok x.
Proof.
  unfold clean. intros H. apply andb_prop in H as [H _]. apply andb_prop in H as [H _].
  apply andb_prop in H as [H1 H2]. split; [|exact H2].
  intros ->. discriminate H1.
Qed.

Lemma clean_not_dotdot x : clean x = true -> x <> ".."%string.
Proof.
  unfold clean. intros H. apply andb_prop in H as [_ H]. intros ->. discriminate H.
Qed.

Lemma pieces_ok ka : Forall (fun x => clean x = true) ka.2 -> Forall piece_ok (pieces ka).
Proof.
  intros H. unfold pieces. apply Forall_app. split.
  - apply Forall_forall. intros x Hx. apply list_elem_of_In, repeat_spec in Hx. subst x.
    split; [discriminate|reflexivity].
  - apply Forall_rev. eapply Forall_impl; [exact H|]. intros x. apply clean_piece_ok.
Qed.

Lemma repeat_snoc {A} (x : A) n : repeat x (S n) = repeat x n ++ [x].
Proof. induction n as [|n IH]; [reflexivity|]. cbn [repeat app] in *. rewrite <- IH. reflexivity. Qed.

(** The last piece and what is before it. *)
Lemma pieces_cons k x above : pieces (k, x :: above) = pieces (k, above) ++ [x].
Proof. unfold pieces. cbn [fst snd rev]. rewrite app_assoc. reflexivity. Qed.

Lemma pieces_up k : pieces (S k, []) = pieces (k, []) ++ [".."%string].
Proof. unfold pieces. cbn [fst snd rev]. rewrite !app_nil_r. apply repeat_snoc. Qed.

Lemma pieces_nil ka : pieces ka = [] -> ka = (0%nat, []).
Proof.
  destruct ka as [k above]. unfold pieces. cbn [fst snd]. intros H.
  apply app_eq_nil in H as [H1 H2]. destruct k; [|discriminate H1].
  destruct above as [|x above]; [reflexivity|].
  cbn [rev] in H2. apply app_eq_nil in H2 as [_ H2]. discriminate H2.
Qed.

Lemma lastlen_spec ka l y : pieces ka = l ++ [y] -> lastlen ka = Str.len y.
Proof.
  destruct ka as [k [|x above]]; unfold lastlen; cbn [fst snd].
  - destruct k as [|k]; [intros H; destruct l; discriminate H|].
    rewrite pieces_up. intros H. apply app_inj_tail in H as [_ <-]. reflexivity.
  - rewrite pieces_cons. intros H. apply app_inj_tail in H as [_ <-]. reflexivity.
Qed.

Lemma last_piece_len l y :
  noslash y = true ->
  Str.len (join (l ++ [y])) - 1 - Str.last_index_of (join (l ++ [y])) Posix.slash
  = Str.len y.
Proof.
  intros Hy. destruct l as [|x l].
  - cbn [app]. rewrite join_single, last_index_of_noslash by exact Hy. lia.
  - rewrite join_snoc by discriminate.
    rewrite last_index_of_app_slash by exact Hy.
    rewrite !str_len_app. change (Str.len "/") with 1. lia.
Qed.

End JoinFacts.
(** *** normalizeString: what the loop variables hold *)

Section NormalizeStringFacts.

Import PathSpec PathSem Posix.
Local Open Scope list_scope.

Lemma dots_after_spec cur : forall d,
  -1 <= d ->
  dots_after d cur = if (d =? -1) || negb (alldots cur) then -1 else d + Str.len cur.
Proof.
  induction cur as [|c cur IH]; intros d Hd; cbn [dots_after alldots].
  - rewrite str_len_nil. cbn [negb]. rewrite orb_false_r.
    destruct (Z.eqb_spec d (-1)); lia.
  - rewrite str_len_cons. destruct (Z.eqb_spec d (-1)) as [->|Hne].
    + rewrite andb_false_r. cbn [orb]. rewrite IH by lia. reflexivity.
    + cbn [negb orb]. rewrite andb_true_r. destruct (Ascii.eqb c ".").
      * rewrite IH by lia. cbn [andb].
        destruct (Z.eqb_spec (d + 1) (-1)); [lia|]. cbn [orb].
        destruct (alldots cur); cbn [negb]; lia.
      * rewrite IH by lia. reflexivity.
Qed.

Lemma dots_after_app a : forall b d, dots_after d (a ++ b)%string = dots_after (dots_after d a) b.
Proof.
  induction a as [|c a IH]; intros b d; rewrite ?str_app_cons, ?str_app_nil_l;
    [reflexivity|]. cbn [dots_after]. apply IH.
Qed.

Lemma alldots_1 cur : alldots cur = true -> Str.len cur = 1 -> cur = "."%string.
Proof.
  destruct cur as [|c [|c' cur]]; rewrite ?str_len_cons, ?str_len_nil; intros H L.
  - lia.
  - cbn [alldots] in H. rewrite andb_true_r in H. apply Ascii.eqb_eq in H. subst c. reflexivity.
  - pose proof (str_len_nonneg cur). lia.
Qed.

Lemma alldots_2 cur : alldots cur = true -> Str.len cur = 2 -> cur = ".."%string.
Proof.
  destruct cur as [|c [|c' [|c'' cur]]]; rewrite ?str_len_cons, ?str_len_nil; intros H L.
  - lia.
  - lia.
  - cbn [alldots] in H. rewrite andb_true_r in H. apply andb_prop in H as [H1 H2].
    apply Ascii.eqb_eq in H1, H2. subst. reflexivity.
  - pose proof (str_len_nonneg cur). lia.
Qed.

(** What [dots] and [lastSlash] tell about the segment read. *)
Lemma segment_tests i cur ka ns :
  ns_inv i cur ka ns ->
  ((lastSlash ns =? i - 1) || (dots ns =? 1)) = (String.eqb cur "" || String.eqb cur ".")
  /\ (dots ns =? 2) = String.eqb cur "..".
Proof.
  intros (_ & _ & Hs & Hd). rewrite Hs, Hd, dots_after_spec by lia.
  cbn [Z.eqb orb]. pose proof (str_len_nonneg cur) as Hn. split.
  - destruct (String.eqb_spec cur "") as [->|Hne].
    + rewrite str_len_nil. replace (i - 1 - 0) with (i - 1) by lia.
      rewrite Z.eqb_refl. reflexivity.
    + destruct (Z.eqb_spec (i - 1 - Str.len cur) (i - 1)) as [E|_].
      { exfalso. apply Hne, str_len_0. lia. }
      cbn [orb]. destruct (alldots cur) eqn:Ha; cbn [negb].
      * destruct (Z.eqb_spec (0 + Str.len cur) 1) as [E|E].
        { rewrite (alldots_1 cur Ha) by lia. reflexivity. }
        destruct (String.eqb_spec cur "."); [subst cur; exfalso; apply E; reflexivity|reflexivity].
      * destruct (String.eqb_spec cur "."); [subst cur; discriminate Ha|reflexivity].
  - destruct (alldots cur) eqn:Ha; cbn [negb].
    + destruct (Z.eqb_spec (0 + Str.len cur) 2) as [E|E].
      { rewrite (alldots_2 cur Ha) by lia. reflexivity. }
      destruct (String.eqb_spec cur ".."); [subst cur; exfalso; apply E; reflexivity|reflexivity].
    + destruct (String.eqb_spec cur ".."); [subst cur; discriminate Ha|reflexivity].
Qed.

End NormalizeStringFacts.
(** *** normalizeString: leaving a directory *)

Section NormalizeStringSteps.

Import PathSpec PathSem Posix.
Local Open Scope list_scope.

Lemma char_at_last a c : Str.char_at (a ++ String c "")%string (Str.len (a ++ String c "") - 1) = Some c.
Proof.
  rewrite str_len_app, str_len_cons, str_len_nil.
  replace (Str.len a + (1 + 0) - 1) with (Str.len a) by lia. apply char_at_app_here.
Qed.

Lemma char_at_last2 a c1 c2 :
  Str.char_at (a ++ String c1 (String c2 ""))%string
    (Str.len (a ++ String c1 (String c2 "")) - 1) = Some c2
  /\ Str.char_at (a ++ String c1 (String c2 ""))%string
       (Str.len (a ++ String c1 (String c2 "")) - 2) = Some c1.
Proof.
  split.
  - change (String c1 (String c2 "")) with (String c1 "" ++ String c2 "")%string.
    rewrite <- str_app_assoc. apply char_at_last.
  - rewrite str_len_app, !str_len_cons, str_len_nil.
    replace (Str.len a + (1 + (1 + 0)) - 2) with (Str.len a) by lia. apply char_at_app_here.
Qed.

(** A string that ends with the piece [y], after [l]. *)
Lemma join_ends l y : exists a, join (l ++ [y]) = (a ++ y)%string.
Proof.
  destruct l as [|x l].
  - exists ""%string. reflexivity.
  - exists (join (x :: l) ++ "/")%string. rewrite join_snoc by discriminate.
    rewrite str_app_assoc. reflexivity.
Qed.

(** The test of the [dots === 2] branch fails exactly when the last
    piece is [..]. *)
Lemma dotdot_test ka ns l y :
  res ns = render ka -> lastSegmentLength ns = lastlen ka ->
  pieces ka = l ++ [y] -> y <> ""%string ->
  ((Str.len (res ns) <? 2)
   || negb (lastSegmentLength ns =? 2)
   || negb (Str.is_char dot (Str.char_at (res ns) (Str.len (res ns) - 1)))
   || negb (Str.is_char dot (Str.char_at (res ns) (Str.len (res ns) - 2))))
  = negb (String.eqb y "..").
Proof.
  intros Hr Hl Hp Hy. rewrite Hr, Hl, (lastlen_spec ka l y Hp). unfold render. rewrite Hp.
  destruct (join_ends l y) as [a ->].
  destruct (Z.eqb_spec (Str.len y) 2) as [E|E].
  - destruct y as [|c1 [|c2 [|c3 y]]]; rewrite ?str_len_cons, ?str_len_nil in E;
      try lia; [|pose proof (str_len_nonneg y); lia].
    destruct (char_at_last2 a c1 c2) as [-> ->].
    rewrite str_len_app, !str_len_cons, str_len_nil.
    pose proof (str_len_nonneg a).
    destruct (Z.ltb_spec (Str.len a + (1 + (1 + 0))) 2); [lia|].
    cbn [negb orb Str.is_char]. unfold dot.
    cbn [String.eqb]. rewrite (Ascii.eqb_sym c1 "."), (Ascii.eqb_sym c2 ".").
    destruct (Ascii.eqb "." c1), (Ascii.eqb "." c2); reflexivity.
  - cbn [negb]. rewrite orb_true_r. cbn [orb].
    destruct (String.eqb_spec y ".."); [subst y; exfalso; apply E; reflexivity|reflexivity].
Qed.

Lemma render_nil : render (0%nat, []) = ""%string.
Proof. reflexivity. Qed.

Lemma dotdot_branch_spec aar i ka ns :
  res ns = render ka -> lastSegmentLength ns = lastlen ka -> segs_ok aar ka ->
  ns_inv (i + 1) "" (seg_step aar ka "..") (dotdot_branch aar i ns).
Proof.
  intros Hr Hl [Hc Hk]. destruct ka as [k above]. cbn [fst snd] in *.
  assert (Hfin : forall r n, ns_inv (i + 1) ""
            (seg_step aar (k, above) "..")
            {| res := r; lastSegmentLength := n; lastSlash := i; dots := 0 |}
          <-> r = render (seg_step aar (k, above) "..")
              /\ n = lastlen (seg_step aar (k, above) "..")).
  { intros r n. unfold ns_inv. cbn [res lastSegmentLength lastSlash dots dots_after].
    rewrite str_len_nil. split; [intros (H1 & H2 & _); auto|].
    intros [-> ->]. repeat split; lia. }
  pose proof (pieces_ok (k, above) Hc) as Hok.
  unfold dotdot_branch.
  destruct above as [|x above].
  - destruct k as [|k].
    + (* nothing to leave *)
      rewrite Hr, Hl. change (render (0%nat, [])) with ""%string.
      cbn [Str.len String.length Z.of_nat Z.ltb Z.compare orb Z.gtb Z.eqb negb].
      unfold ns_above_root. rewrite Hr. change (render (0%nat, [])) with ""%string.
      unfold seg_step. cbn [String.eqb Ascii.eqb Bool.eqb orb fst snd].
      destruct aar; apply Hfin; cbn [res lastSegmentLength].
      * split; reflexivity.
      * rewrite Hl. split; reflexivity.
    + (* the last piece is [..] *)
      rewrite (dotdot_test (S k, []) ns (pieces (k, [])) ".." Hr Hl (pieces_up k))
        by discriminate.
      cbn [String.eqb Ascii.eqb Bool.eqb negb].
      assert (aar = true) as -> by (destruct aar; [reflexivity|specialize (Hk eq_refl); discriminate Hk]).
      unfold ns_above_root. apply Hfin. cbn [res lastSegmentLength].
      unfold seg_step. cbn [String.eqb Ascii.eqb Bool.eqb orb fst snd].
      split; [|reflexivity].
      rewrite Hr. unfold render. rewrite (pieces_up (S k)), join_snoc.
      2:{ rewrite pieces_up. destruct (pieces (k, [])); discriminate. }
      assert (0 < Str.len (join (pieces (S k, [])))).
      { apply join_len_pos; [rewrite pieces_up; destruct (pieces (k, [])); discriminate|].
        exact Hok. }
      destruct (Z.gtb_spec (Str.len (join (pieces (S k, [])))) 0); [reflexivity|lia].
  - (* the last piece is a name *)
    apply Forall_cons in Hc as [Hx Hc].
    pose proof (clean_piece_ok x Hx) as [Hxne Hxs].
    rewrite (dotdot_test (k, x :: above) ns (pieces (k, above)) x Hr Hl (pieces_cons k x above))
      by exact Hxne.
    destruct (String.eqb_spec x "..") as [E|_]; [exfalso; exact (clean_not_dotdot x Hx E)|].
    cbn [negb].
    assert (Hstep : seg_step aar (k, x :: above) ".." = (k, above)) by reflexivity.
    rewrite Hstep in Hfin. rewrite Hstep.
    rewrite Hr.
    replace (render (k, x :: above)) with (join (pieces (k, above) ++ [x]))
      by (unfold render; rewrite pieces_cons; reflexivity).
    pose proof (pieces_ok (k, above) Hc) as Hok'.
    destruct (pieces (k, above)) as [|z l] eqn:Hp.
    + (* a single piece *)
      apply pieces_nil in Hp. injection Hp as -> ->.
      cbn [app]. rewrite join_single.
      destruct (Z.gtb_spec (Str.len x) 2).
      * rewrite last_index_of_noslash by exact Hxs. cbn [Z.eqb].
        apply Hfin. split; reflexivity.
      * destruct (Z.eqb_spec (Str.len x) 0) as [E|_];
          [exfalso; apply Hxne, str_len_0, E|].
        cbn [negb]. apply Hfin. split; reflexivity.
    + (* several pieces *)
      pose proof (join_snoc_len (z :: l) x ltac:(discriminate) Hok' (conj Hxne Hxs)) as Hlen.
      destruct (Z.gtb_spec (Str.len (join ((z :: l) ++ [x]))) 2); [|lia].
      rewrite join_snoc by discriminate.
      rewrite last_index_of_app_slash by exact Hxs.
      pose proof (str_len_nonneg (join (z :: l))).
      destruct (Z.eqb_spec (Str.len (join (z :: l))) (-1)); [lia|].
      cbv zeta.
      assert (Hsl : Str.slice (join (z :: l) ++ "/" ++ x) 0 (Str.len (join (z :: l)))
                    = join (z :: l)).
      { unfold Str.slice. rewrite Z.sub_0_r. unfold Str.len at 1. rewrite Nat2Z.id.
        change (Z.to_nat 0) with 0%nat. apply substring_prefix. }
      rewrite Hsl. apply Hfin. split; [unfold render; rewrite Hp; reflexivity|].
      destruct (exists_last (l := z :: l) ltac:(discriminate)) as (l0 & y & E).
      rewrite E. rewrite last_piece_len.
      * symmetry. apply (lastlen_spec (k, above) l0 y). rewrite Hp. exact E.
      * rewrite E in Hok'. apply Forall_app in Hok' as [_ Hy].
        apply Forall_cons in Hy as [[_ Hy] _]. exact Hy.
Qed.

End NormalizeStringSteps.
(** *** normalizeString: one segment after the other *)

Section NormalizeStringLoop.

Import PathSpec PathSem Posix.
Local Open Scope list_scope.

Lemma ns_step_sep_unfold path aar i ns :
  ns_step path aar i slash ns
  = if (lastSlash ns =? i - 1) || (dots ns =? 1) then
      {| res := res ns; lastSegmentLength := lastSegmentLength ns;
         lastSlash := i; dots := 0 |}
    else if dots ns =? 2 then dotdot_branch aar i ns
    else
      let seg := Str.slice path (lastSlash ns + 1) i in
      {| res := if Str.len (res ns) >? 0 then (res ns ++ "/" ++ seg)%string else seg;
         lastSegmentLength := i - lastSlash ns - 1;
         lastSlash := i; dots := 0 |}.
Proof. reflexivity. Qed.

Lemma substring_middle a : forall b c,
  String.substring (String.length a) (String.length b) (a ++ b ++ c)%string = b.
Proof.
  induction a as [|x a IH]; intros b c; rewrite ?str_app_cons, ?str_app_nil_l.
  - apply substring_prefix.
  - cbn [String.length String.substring]. apply IH.
Qed.

Lemma segs_ok_step aar ka cur :
  noslash cur = true -> segs_ok aar ka -> segs_ok aar (seg_step aar ka cur).
Proof.
  intros Hn [Hc Hk]. destruct ka as [k above]. unfold seg_step. cbn [fst snd] in *.
  destruct (String.eqb_spec cur "") as [->|H1]; cbn [orb]; [split; assumption|].
  destruct (String.eqb_spec cur ".") as [->|H2]; [split; assumption|].
  destruct (String.eqb_spec cur "..") as [->|H3].
  - destruct above as [|x above]; split; cbn [fst snd].
    + constructor.
    + intros ->. apply Hk. reflexivity.
    + apply Forall_cons in Hc as [_ Hc]. exact Hc.
    + exact Hk.
  - split; cbn [fst snd]; [|exact Hk]. constructor; [|exact Hc].
    unfold clean. rewrite Hn.
    destruct (String.eqb_spec cur ""); [contradiction|].
    destruct (String.eqb_spec cur "."); [contradiction|].
    destruct (String.eqb_spec cur ".."); [contradiction|]. reflexivity.
Qed.

(** A separator at index [i] ends the segment [cur]. *)
Lemma ns_step_sep path aar i cur ka ns pre0 rest :
  ns_inv i cur ka ns -> segs_ok aar ka -> noslash cur = true ->
  path = (pre0 ++ cur ++ rest)%string -> i = Str.len pre0 + Str.len cur ->
  ns_inv (i + 1) "" (seg_step aar ka cur) (ns_step path aar i slash ns).
Proof.
  intros Hinv Hok Hn Hpath Hi. rewrite ns_step_sep_unfold.
  destruct (segment_tests i cur ka ns Hinv) as [-> ->].
  destruct Hinv as (Hr & Hl & Hs & Hd).
  destruct (String.eqb cur "" || String.eqb cur ".") eqn:Hskip.
  { unfold seg_step. rewrite Hskip. unfold ns_inv. cbn [res lastSegmentLength lastSlash dots dots_after].
    rewrite str_len_nil. repeat split; try assumption; lia. }
  destruct (String.eqb_spec cur "..") as [->|Hdd].
  { apply dotdot_branch_spec; assumption. }
  unfold seg_step. rewrite Hskip.
  destruct (String.eqb_spec cur ".."); [contradiction|].
  cbv zeta. unfold ns_inv. cbn [res lastSegmentLength lastSlash dots dots_after].
  rewrite str_len_nil.
  assert (Hseg : Str.slice path (lastSlash ns + 1) i = cur).
  { unfold Str.slice. rewrite Hs, Hpath.
    replace (i - 1 - Str.len cur + 1) with (Str.len pre0) by lia.
    replace (i - Str.len pre0) with (Str.len cur) by lia.
    unfold Str.len. rewrite !Nat2Z.id. apply substring_middle. }
  rewrite Hseg. split; [|split; [|split]]; try lia.
  - rewrite Hr. unfold render. destruct ka as [k above]. rewrite pieces_cons. cbn [fst snd].
    destruct Hok as [Hc Hk]. pose proof (pieces_ok (k, above) Hc) as Hp.
    destruct (pieces (k, above)) as [|z l] eqn:E.
    + reflexivity.
    + pose proof (join_len_pos (z :: l) ltac:(discriminate) Hp).
      destruct (Z.gtb_spec (Str.len (join (z :: l))) 0); [|lia].
      rewrite join_snoc by discriminate. reflexivity.
  - destruct ka as [k above]. unfold lastlen. cbn [fst snd]. lia.
Qed.

(** Another character at index [i] extends the segment. *)
Lemma ns_step_char path aar i cur ka ns c :
  Ascii.eqb c "/" = false ->
  ns_inv i cur ka ns ->
  ns_inv (i + 1) (cur ++ String c "") ka (ns_step path aar i c ns).
Proof.
  intros Hc (Hr & Hl & Hs & Hd). unfold ns_step, isPosixPathSeparator, slash. rewrite Hc.
  unfold ns_inv. rewrite str_len_app, str_len_cons, str_len_nil, dots_after_app.
  cbn [dots_after]. rewrite <- Hd. unfold dot.
  destruct (Ascii.eqb c "." && negb (dots ns =? -1));
    cbn [res lastSegmentLength lastSlash dots]; repeat split; try assumption; lia.
Qed.

Lemma noslash_snoc cur c :
  noslash cur = true -> Ascii.eqb c "/" = false -> noslash (cur ++ String c "") = true.
Proof.
  intros H Hc. induction cur as [|x cur IH]; rewrite ?str_app_cons, ?str_app_nil_l.
  - cbn [noslash]. rewrite Hc. reflexivity.
  - cbn [noslash] in *. apply andb_prop in H as [H1 H2]. rewrite H1, IH by exact H2.
    reflexivity.
Qed.

Lemma ns_loop_spec path aar rest : forall pre0 cur ka ns code,
  path = (pre0 ++ cur ++ rest)%string ->
  ns_inv (Str.len pre0 + Str.len cur) cur ka ns -> segs_ok aar ka -> noslash cur = true ->
  (isPosixPathSeparator code = true -> cur = ""%string) ->
  res (ns_loop path aar rest (Str.len pre0 + Str.len cur) code ns)
  = render (fold_left (seg_step aar) (split rest cur) ka)
  /\ segs_ok aar (fold_left (seg_step aar) (split rest cur) ka).
Proof.
  induction rest as [|c rest IH]; intros pre0 cur ka ns code Hpath Hinv Hok Hn Hcode.
  - cbn [ns_loop split fold_left].
    destruct (isPosixPathSeparator code) eqn:Hsep.
    + rewrite (Hcode eq_refl) in *. split; [apply Hinv|exact Hok].
    + split; [|apply segs_ok_step; assumption].
      apply (ns_step_sep path aar _ cur ka ns pre0 "" Hinv Hok Hn Hpath eq_refl).
  - cbn [ns_loop split]. destruct (Ascii.eqb c "/") eqn:Hc.
    + apply Ascii.eqb_eq in Hc. subst c. cbn [fold_left].
      pose proof (ns_step_sep path aar _ cur ka ns pre0 (String "/" rest) Hinv Hok Hn
                    Hpath eq_refl) as Hinv'.
      replace (Str.len pre0 + Str.len cur + 1)
        with (Str.len (pre0 ++ cur ++ "/") + Str.len "")
        in * by (rewrite !str_len_app, str_len_nil; change (Str.len "/") with 1; lia).
      apply (IH (pre0 ++ cur ++ "/")%string ""%string).
      * rewrite Hpath, !str_app_assoc. reflexivity.
      * exact Hinv'.
      * apply segs_ok_step; assumption.
      * reflexivity.
      * reflexivity.
    + pose proof (ns_step_char path aar _ cur ka ns c Hc Hinv) as Hinv'.
      replace (Str.len pre0 + Str.len cur + 1)
        with (Str.len pre0 + Str.len (cur ++ String c ""))
        in * by (rewrite !str_len_app, str_len_cons, str_len_nil; lia).
      apply (IH pre0 (cur ++ String c "")%string).
      * rewrite Hpath, !str_app_assoc. reflexivity.
      * exact Hinv'.
      * exact Hok.
      * apply noslash_snoc; assumption.
      * unfold isPosixPathSeparator, slash. rewrite Hc. discriminate.
Qed.

(** [normalizeString] works segment by segment. *)
Lemma normalizeString_segments path aar :
  normalizeString path aar = render (process aar (split path ""))
  /\ segs_ok aar (process aar (split path "")).
Proof.
  unfold normalizeString, process.
  apply (ns_loop_spec path aar path ""%string ""%string (0%nat, []) ns_init Ascii.zero).
  - reflexivity.
  - unfold ns_inv. cbn. repeat split.
  - split; [constructor|reflexivity].
  - reflexivity.
  - discriminate.
Qed.

End NormalizeStringLoop.
(** *** normalizeString and the canonical segments *)

Section CanonicalFacts.

Import PathSpec PathSem Posix.
Local Open Scope list_scope.

Lemma resolve_dots_process aar l : forall ka,
  resolve_dots ka.2
    (List.filter (fun x => negb (String.eqb x "") && negb (String.eqb x ".")) l)
  = rev (fold_left (seg_step aar) l ka).2.
Proof.
  induction l as [|x l IH]; intros [k above]; cbn [fold_left List.filter fst snd].
  - reflexivity.
  - unfold seg_step at 2. cbn [fst snd].
    destruct (String.eqb x ""); cbn [negb andb orb]; [apply (IH (k, above))|].
    destruct (String.eqb x "."); cbn [negb]; [apply (IH (k, above))|].
    cbn [resolve_dots]. destruct (String.eqb x "..").
    + destruct above as [|y above]; cbn [tl]; [apply (IH (_, []))|apply (IH (k, above))].
    + apply (IH (k, x :: above)).
Qed.

Lemma canonical_process aar s : canonical s = rev (process aar (split s "")).2.
Proof. unfold canonical, segments, process. apply (resolve_dots_process aar _ (0%nat, [])). Qed.

Lemma canonical_clean s : Forall (fun x => clean x = true) (canonical s).
Proof.
  rewrite (canonical_process false). apply Forall_rev.
  apply (normalizeString_segments s false).
Qed.

(** [normalizeString] on an absolute path: the canonical segments. *)
Lemma normalizeString_canonical s : normalizeString s false = join (canonical s).
Proof.
  destruct (normalizeString_segments s false) as [-> [_ Hk]].
  unfold render, pieces. rewrite (Hk eq_refl). cbn [repeat app].
  rewrite (canonical_process false). reflexivity.
Qed.

(** [normalizeString] on a relative path: the canonical segments after
    the [..] that lead above the start. *)
Lemma normalizeString_above s :
  exists k, normalizeString s true = join (repeat ".." k ++ canonical s).
Proof.
  destruct (normalizeString_segments s true) as [-> _].
  exists (process true (split s "")).1. unfold render, pieces.
  rewrite (canonical_process true). reflexivity.
Qed.

End CanonicalFacts.
(** *** The segments of a joined path *)

Section SplitFacts.

Import PathSpec PathSem Posix.
Local Open Scope list_scope.

Lemma split_noslash x : forall s cur,
  noslash x = true -> split (x ++ s) cur = split s (cur ++ x).
Proof.
  induction x as [|c x IH]; intros s cur H; rewrite ?str_app_cons, ?str_app_nil_l.
  - rewrite str_app_nil_r. reflexivity.
  - cbn [noslash] in H. apply andb_prop in H as [Hc Hx]. cbn [split].
    destruct (Ascii.eqb c "/"); [discriminate Hc|]. rewrite IH by exact Hx.
    rewrite str_app_assoc. reflexivity.
Qed.

Lemma split_slash s cur : split (String "/" s) cur = cur :: split s "".
Proof. reflexivity. Qed.

Lemma split_join_slash l : forall s,
  l <> [] -> Forall piece_ok l -> split (join l ++ "/" ++ s) "" = l ++ split s "".
Proof.
  induction l as [|x l IH]; intros s Hne Hl; [contradiction|].
  apply Forall_cons in Hl as [[_ Hx] Hl]. destruct l as [|y l].
  - rewrite join_single, split_noslash by exact Hx. reflexivity.
  - rewrite join_cons, !str_app_assoc, split_noslash by exact Hx.
    rewrite str_app_cons, !str_app_nil_l, split_slash.
    rewrite IH by (discriminate || assumption). reflexivity.
Qed.

Lemma split_join l : l <> [] -> Forall piece_ok l -> split (join l) "" = l.
Proof.
  induction l as [|x l IH]; intros Hne Hl; [contradiction|].
  apply Forall_cons in Hl as [[_ Hx] Hl]. destruct l as [|y l].
  - rewrite join_single. rewrite <- (str_app_nil_r x) at 1.
    rewrite split_noslash by exact Hx. reflexivity.
  - rewrite join_cons, split_noslash by exact Hx.
    rewrite str_app_cons, !str_app_nil_l, split_slash.
    rewrite IH by (discriminate || assumption). reflexivity.
Qed.

Lemma segments_allslash t : allslash t = true -> segments t = [].
Proof.
  unfold segments. induction t as [|c t IH]; intros H; [reflexivity|].
  cbn [allslash] in H. apply andb_prop in H as [Hc Ht]. cbn [split]. rewrite Hc.
  cbn [List.filter String.eqb negb andb]. apply IH, Ht.
Qed.

Lemma filter_seg_ok l :
  Forall seg_ok l ->
  List.filter (fun x => negb (String.eqb x "") && negb (String.eqb x ".")) l = l.
Proof.
  induction l as [|x l IH]; intros H; [reflexivity|].
  apply Forall_cons in H as [[[H1 _] H2] Hl]. cbn [List.filter].
  destruct (String.eqb_spec x ""); [contradiction|].
  destruct (String.eqb_spec x "."); [contradiction|].
  cbn [negb andb]. rewrite IH by exact Hl. reflexivity.
Qed.

Lemma seg_ok_piece_ok l : Forall seg_ok l -> Forall piece_ok l.
Proof. intros H. eapply Forall_impl; [exact H|]. intros x [Hx _]. exact Hx. Qed.

(** The segments of a joined path between separators. *)
Lemma segments_join l t :
  Forall seg_ok l -> allslash t = true -> segments ("/" ++ join l ++ t) = l.
Proof.
  intros Hl Ht. unfold segments. rewrite str_app_cons, str_app_nil_l, split_slash.
  cbn [List.filter String.eqb negb andb].
  destruct l as [|x l].
  - change (join []) with ""%string. rewrite str_app_nil_l.
    apply (segments_allslash t Ht).
  - destruct t as [|c t].
    + rewrite str_app_nil_r, split_join by (discriminate || apply seg_ok_piece_ok, Hl).
      apply filter_seg_ok, Hl.
    + cbn [allslash] in Ht. apply andb_prop in Ht as [Hc Ht]. apply Ascii.eqb_eq in Hc.
      subst c. change (String "/" t) with ("/" ++ t)%string.
      rewrite split_join_slash by (discriminate || apply seg_ok_piece_ok, Hl).
      rewrite List.filter_app, filter_seg_ok by exact Hl.
      fold (segments t). rewrite segments_allslash by exact Ht. apply app_nil_r.
Qed.

Lemma clean_seg_ok x : clean x = true -> seg_ok x.
Proof.
  intros H. split; [apply clean_piece_ok, H|].
  unfold clean in H. apply andb_prop in H as [H _]. apply andb_prop in H as [_ H].
  intros ->. discriminate H.
Qed.

Lemma resolve_dots_clean l : forall above,
  Forall (fun x => clean x = true) l -> resolve_dots above l = rev above ++ l.
Proof.
  induction l as [|x l IH]; intros above H; cbn [resolve_dots].
  - rewrite app_nil_r. reflexivity.
  - apply Forall_cons in H as [Hx Hl].
    destruct (String.eqb_spec x "..") as [E|_]; [exfalso; exact (clean_not_dotdot x Hx E)|].
    rewrite IH by exact Hl. cbn [rev]. rewrite <- app_assoc. reflexivity.
Qed.

Lemma resolve_dots_ups k l : resolve_dots [] (repeat ".."%string k ++ l) = resolve_dots [] l.
Proof. induction k as [|k IH]; [reflexivity|]. cbn [repeat app resolve_dots String.eqb Ascii.eqb Bool.eqb tl]. exact IH. Qed.

(** The canonical segments of a path written from pieces. *)
Lemma canonical_join k l t :
  Forall (fun x => clean x = true) l -> allslash t = true ->
  canonical ("/" ++ join (repeat ".." k ++ l) ++ t) = l.
Proof.
  intros Hl Ht. unfold canonical. rewrite segments_join; [|apply Forall_app; split|exact Ht].
  - rewrite resolve_dots_ups, resolve_dots_clean by exact Hl. reflexivity.
  - apply Forall_forall. intros x Hx. apply list_elem_of_In, repeat_spec in Hx. subst x.
    repeat split; discriminate.
  - eapply Forall_impl; [exact Hl|]. intros x. apply clean_seg_ok.
Qed.

End SplitFacts.
(** *** normalize and normalizeRemotePath *)

Section NormalFormFacts.

Import PathSpec PathSem Posix.
Local Open Scope list_scope.

Lemma char_at_cons c s i : 0 < i -> Str.char_at (String c s) i = Str.char_at s (i - 1).
Proof.
  intros H. unfold Str.char_at.
  destruct (Z.ltb_spec i 0); [lia|]. destruct (Z.ltb_spec (i - 1) 0); [lia|].
  replace (Z.to_nat i) with (S (Z.to_nat (i - 1))) by lia. reflexivity.
Qed.

Lemma first_char_spec c r :
  Str.is_char slash (Str.char_at (String c r) 0) = Ascii.eqb c "/".
Proof.
  change (Str.char_at (String c r) 0) with (Some c).
  change (Str.is_char slash (Some c)) with (Ascii.eqb slash c). apply Ascii.eqb_sym.
Qed.

Lemma trailing_spec path :
  path <> ""%string ->
  Str.is_char slash (Str.char_at path (Str.len path - 1)) = ends_with_slash path.
Proof.
  induction path as [|c path IH]; intros Hne; [contradiction|].
  destruct path as [|d path].
  - apply first_char_spec.
  - rewrite str_len_cons, char_at_cons.
    + replace (1 + Str.len (String d path) - 1 - 1) with (Str.len (String d path) - 1) by lia.
      rewrite IH by discriminate. reflexivity.
    + rewrite str_len_cons. pose proof (str_len_nonneg path). lia.
Qed.

Lemma ends_with_slash_app a y :
  y <> ""%string -> ends_with_slash (a ++ y) = ends_with_slash y.
Proof.
  intros Hy. induction a as [|c a IH]; rewrite ?str_app_cons, ?str_app_nil_l; [reflexivity|].
  cbn [ends_with_slash]. destruct (a ++ y)%string eqn:E; [|exact IH].
  destruct a; [rewrite str_app_nil_l in E; contradiction|discriminate E].
Qed.

Lemma ends_with_slash_noslash y : noslash y = true -> ends_with_slash y = false.
Proof.
  induction y as [|c y IH]; intros H; [reflexivity|].
  cbn [noslash] in H. apply andb_prop in H as [Hc Hy]. cbn [ends_with_slash].
  destruct y; [destruct (Ascii.eqb c "/"); [discriminate Hc|reflexivity]|apply IH, Hy].
Qed.

Lemma ends_with_slash_join a l :
  l <> [] -> Forall piece_ok l -> ends_with_slash (a ++ join l) = false.
Proof.
  intros Hne Hl. destruct (exists_last Hne) as (l0 & y & ->).
  apply Forall_app in Hl as [_ Hy]. apply Forall_cons in Hy as [[Hy1 Hy2] _].
  destruct (join_ends l0 y) as [b ->].
  rewrite <- str_app_assoc, ends_with_slash_app by exact Hy1.
  apply ends_with_slash_noslash, Hy2.
Qed.

Lemma join_nil_inv l : Forall piece_ok l -> Str.len (join l) = 0 -> l = [].
Proof.
  intros Hl H. destruct l as [|x l]; [reflexivity|].
  pose proof (join_len_pos (x :: l) ltac:(discriminate) Hl). lia.
Qed.

Lemma clean_pieces l : Forall (fun x => clean x = true) l -> Forall piece_ok l.
Proof. intros H. eapply Forall_impl; [exact H|]. intros x. apply clean_piece_ok. Qed.

(** [path.posix.normalize] on an absolute path. *)
Lemma normalize_absolute r : normalize (String "/" r) = normal_form (String "/" r).
Proof.
  unfold normalize, normal_form. rewrite len_cons.
  replace (Str.is_char slash (Str.char_at (String "/" r) 0)) with true by reflexivity.
  cbv zeta. cbn [negb]. rewrite normalizeString_canonical, trailing_spec by discriminate.
  pose proof (canonical_clean (String "/" r)) as Hc.
  destruct (canonical (String "/" r)) as [|x l] eqn:E.
  - reflexivity.
  - pose proof (join_len_pos (x :: l) ltac:(discriminate) (clean_pieces _ Hc)).
    destruct (Z.eqb_spec (Str.len (join (x :: l))) 0); [lia|].
    destruct (ends_with_slash (String "/" r)).
    + rewrite str_app_cons, str_app_nil_l. reflexivity.
    + rewrite str_app_nil_r. reflexivity.
Qed.

Lemma starts_with_slash_join l t :
  l <> [] -> Forall piece_ok l -> Str.starts_with "/" (join l ++ t) = false.
Proof.
  intros Hne Hl. destruct l as [|x l]; [contradiction|].
  apply Forall_cons in Hl as [[Hx1 Hx2] _].
  assert (exists b, (join (x :: l) ++ t)%string = (x ++ b)%string) as [b ->].
  { destruct l as [|y l]; [exists t; reflexivity|].
    rewrite join_cons, str_app_assoc. eauto. }
  destruct x as [|c x]; [contradiction|]. rewrite str_app_cons.
  cbn [noslash] in Hx2. apply andb_prop in Hx2 as [Hc _].
  cbn [Str.starts_with]. rewrite (Ascii.eqb_sym "/" c).
  destruct (Ascii.eqb c "/"); [discriminate Hc|reflexivity].
Qed.

Lemma pieces_above_ok k l :
  Forall (fun x => clean x = true) l -> Forall piece_ok (repeat ".."%string k ++ l).
Proof.
  intros Hl. apply Forall_app. split; [|apply clean_pieces, Hl].
  apply Forall_forall. intros x Hx. apply list_elem_of_In, repeat_spec in Hx. subst x.
  split; [discriminate|reflexivity].
Qed.

(** [normalizeRemotePath] returns the normal form: the canonical segments
    below the root, with the trailing separator of the input. *)
Lemma normalizeRemotePath_normal_form (v : string) :
  normalizeRemotePath (JStr v) = normal_form v.
Proof.
  unfold normalizeRemotePath.
  destruct v as [|c r]; [vm_compute; reflexivity|].
  destruct (Ascii.eqb_spec c "/") as [->|Hc].
  { rewrite normalize_absolute.
    destruct (normalizeRemotePath_absolute (JStr (String "/" r))) as [t Ht].
    unfold normalizeRemotePath in Ht. rewrite normalize_absolute in Ht.
    destruct (Str.starts_with "/" (normal_form (String "/" r))) eqn:Hs; [reflexivity|].
    exfalso. unfold normal_form in Hs.
    destruct (canonical (String "/" r)); discriminate Hs. }
  set (n1 := normalize (String c r)).
  change ("/" ++ n1)%string with (String "/" n1). rewrite normalize_absolute.
  assert (Hn1 : Str.starts_with "/" n1 = false
                /\ normal_form (String "/" n1) = normal_form (String c r)).
  { subst n1. unfold normalize. rewrite len_cons. cbv zeta.
    rewrite first_char_spec.
    destruct (Ascii.eqb_spec c "/") as [|_]; [contradiction|].
    cbn [negb]. rewrite trailing_spec by discriminate.
    destruct (normalizeString_above (String c r)) as [k ->].
    pose proof (canonical_clean (String c r)) as Hcl.
    pose proof (pieces_above_ok k _ Hcl) as Hok.
    set (L := repeat ".."%string k ++ canonical (String c r)) in *.
    destruct (Z.eqb_spec (Str.len (join L)) 0) as [E|E].
    - apply join_nil_inv in E; [|exact Hok]. subst L.
      apply app_eq_nil in E as [_ E]. unfold normal_form at 2. rewrite E.
      destruct (ends_with_slash (String c r)); split; vm_compute; reflexivity.
    - assert (HL : L <> []) by (intros HL; apply E; rewrite HL; reflexivity).
      set (t := if ends_with_slash (String c r) then "/"%string else ""%string).
      assert (Ht : allslash t = true) by (subst t; destruct (ends_with_slash _); reflexivity).
      replace (if ends_with_slash (String c r) then (join L ++ "/")%string else join L)
        with (join L ++ t)%string
        by (subst t; destruct (ends_with_slash _); [reflexivity|apply str_app_nil_r]).
      split; [apply starts_with_slash_join; assumption|].
      unfold normal_form.
      change (String "/" (join L ++ t)) with ("/" ++ join L ++ t)%string.
      subst L. rewrite canonical_join by assumption.
      destruct (canonical (String c r)) as [|x l] eqn:Ec; [reflexivity|].
      f_equal. f_equal. subst t. destruct (ends_with_slash (String c r)) eqn:Ee.
      + rewrite <- !str_app_assoc. rewrite ends_with_slash_app by discriminate. reflexivity.
      + rewrite str_app_nil_r. rewrite ends_with_slash_join; [reflexivity| |exact Hok].
        destruct (repeat ".."%string k); discriminate. }
  destruct Hn1 as [-> ->]. reflexivity.
Qed.

End NormalFormFacts.
(** *** relative: its two loops *)

Section RelativeFacts.

Import PathSpec PathSem Posix.
Local Open Scope list_scope.

Lemma relative_unfold cwd from0 to0 :
  relative cwd from0 to0
  = if String.eqb from0 to0 then ""%string
    else if String.eqb (resolve cwd from0) (resolve cwd to0) then ""%string
    else relative_resolved (resolve cwd from0) (resolve cwd to0).
Proof. reflexivity. Qed.

Lemma starts_with_app p a b : Str.starts_with p a = true -> Str.starts_with p (a ++ b) = true.
Proof.
  revert a. induction p as [|c p IH]; intros a H; [reflexivity|].
  destruct a as [|d a]; [discriminate H|]. rewrite str_app_cons.
  cbn [Str.starts_with] in *. apply andb_prop in H as [H1 H2]. rewrite H1, IH by exact H2.
  reflexivity.
Qed.

(** The second loop of [relative] yields nothing or a path that starts
    with [..], and the latter once it has reached the end of [from]. *)
Lemma ups_go_spec from fromEnd fuel : forall i out,
  (out = ""%string \/ Str.starts_with ".." out = true) ->
  let r := ups_go from fromEnd fuel i out in
  (r = ""%string \/ Str.starts_with ".." r = true)
  /\ (i <= fromEnd < i + Z.of_nat fuel -> Str.starts_with ".." r = true).
Proof.
  induction fuel as [|fuel IH]; intros i out Hout; cbn [ups_go].
  - split; [exact Hout|lia].
  - cbv zeta.
    set (out' := if (i =? fromEnd) || Str.is_char slash (Str.char_at from i)
                 then (out ++ (if (Str.len out =? 0)%Z then ".." else "/.."))%string else out).
    assert (Hout' : (out' = ""%string \/ Str.starts_with ".." out' = true)
                    /\ (i = fromEnd -> Str.starts_with ".." out' = true)).
    { assert (Happ : Str.starts_with ".."
                       (out ++ (if (Str.len out =? 0)%Z then ".." else "/.."))%string = true).
      { destruct Hout as [->|H]; [reflexivity|]. apply starts_with_app, H. }
      subst out'. destruct (Z.eqb_spec i fromEnd) as [E|E]; cbn [orb].
      - auto.
      - destruct (Str.is_char slash (Str.char_at from i)); [split; [auto|lia]|].
        split; [exact Hout|lia]. }
    destruct Hout' as [H1 H2]. destruct (IH (i + 1) out' H1) as [H3 H4].
    split; [exact H3|]. intros Hi.
    destruct (Z.eq_dec i fromEnd) as [E|E].
    + specialize (H2 E).
      assert (Hkeep : forall fuel' j o, Str.starts_with ".." o = true ->
                Str.starts_with ".." (ups_go from fromEnd fuel' j o) = true).
      { clear. induction fuel' as [|fuel' IH']; intros j o Ho; [exact Ho|].
        cbn [ups_go]. cbv zeta. apply IH'.
        destruct ((j =? fromEnd) || Str.is_char slash (Str.char_at from j)); [|exact Ho].
        apply starts_with_app, Ho. }
      apply Hkeep, H2.
    + apply H4. lia.
Qed.

Lemma common_go_stop from to (n : nat) i lcs :
  lcs < i ->
  (~ exists c, Str.char_at from (1 + i) = Some c /\ Str.char_at to (1 + i) = Some c) ->
  i <= i <= i + Z.of_nat n /\ lcs < i
  /\ (forall j, i <= j < i ->
        exists c, Str.char_at from (1 + j) = Some c /\ Str.char_at to (1 + j) = Some c)
  /\ (i < i + Z.of_nat n ->
      ~ exists c, Str.char_at from (1 + i) = Some c /\ Str.char_at to (1 + i) = Some c).
Proof. intros Hl Hne. repeat split; try lia. exact (fun _ => Hne). Qed.

(** The first loop of [relative]: where the two paths stop agreeing. *)
Lemma common_go_spec from to fuel : forall i lcs,
  lcs < i ->
  let r := common_go from to fuel i lcs in
  i <= r.1 <= i + Z.of_nat fuel /\ r.2 < r.1
  /\ (forall j, i <= j < r.1 ->
        exists c, Str.char_at from (1 + j) = Some c /\ Str.char_at to (1 + j) = Some c)
  /\ (r.1 < i + Z.of_nat fuel ->
      ~ exists c, Str.char_at from (1 + r.1) = Some c /\ Str.char_at to (1 + r.1) = Some c).
Proof.
  induction fuel as [|fuel IH]; intros i lcs Hl; cbn [common_go].
  - cbn [fst snd]. repeat split; lia.
  - destruct (Str.char_at from (1 + i)) as [a|] eqn:Ea.
    2:{ cbn [fst snd]. apply common_go_stop; [exact Hl|].
        intros (c & H & _). congruence. }
    destruct (Str.char_at to (1 + i)) as [b|] eqn:Eb.
    2:{ cbn [fst snd]. apply common_go_stop; [exact Hl|].
        intros (c & _ & H). congruence. }
    destruct (Ascii.eqb_spec a b) as [<-|Hab]; cbn [negb].
    2:{ cbn [fst snd]. apply common_go_stop; [exact Hl|].
        intros (c & H1 & H2). congruence. }
    destruct (IH (i + 1) (if Ascii.eqb a slash then i else lcs)) as (H1 & H2 & H3 & H4).
    { destruct (Ascii.eqb a slash); lia. }
    split; [lia|]. split; [exact H2|]. split.
    + intros j Hj. destruct (Z.eq_dec j i) as [->|Hne]; [eauto|]. apply H3. lia.
    + intros Hlt. apply H4. lia.
Qed.

Lemma char_at_inner f i : 0 <= i -> Str.char_at (String "/" f) (1 + i) = Str.char_at f i.
Proof.
  intros H. rewrite char_at_cons by lia. f_equal. lia.
Qed.

Lemma char_at_app_l a b j :
  0 <= j < Str.len a ->
  exists c, Str.char_at a j = Some c /\ Str.char_at (a ++ b) j = Some c.
Proof.
  revert j. induction a as [|x a IH]; intros j Hj.
  - rewrite str_len_nil in Hj. lia.
  - rewrite str_len_cons in Hj. rewrite str_app_cons.
    destruct (Z.eq_dec j 0) as [->|Hne]; [exists x; split; reflexivity|].
    rewrite !char_at_cons by lia. apply IH. lia.
Qed.

Lemma char_at_None a j : Str.len a <= j -> Str.char_at a j = None.
Proof.
  revert j. induction a as [|x a IH]; intros j Hj.
  - unfold Str.char_at. destruct (j <? 0); [reflexivity|]. destruct (Z.to_nat j); reflexivity.
  - rewrite str_len_cons in Hj. pose proof (str_len_nonneg a).
    rewrite char_at_cons by lia. apply IH. lia.
Qed.

(** Equal characters up to the length of [f] make [f] a prefix. *)
Lemma prefix_of_chars f : forall g,
  (forall j, 0 <= j < Str.len f ->
     exists c, Str.char_at f j = Some c /\ Str.char_at g j = Some c) ->
  exists g', g = (f ++ g')%string.
Proof.
  induction f as [|x f IH]; intros g H.
  - exists g. reflexivity.
  - pose proof (str_len_nonneg f) as Hn.
    destruct (H 0) as (c & H1 & H2); [rewrite str_len_cons; lia|].
    destruct g as [|y g]; [discriminate H2|].
    cbn in H1, H2. injection H1 as <-. injection H2 as <-.
    destruct (IH g) as [g' ->].
    + intros j Hj. destruct (H (j + 1)) as (c & H1 & H2); [rewrite str_len_cons; lia|].
      rewrite !char_at_cons in H1, H2 by lia.
      replace (j + 1 - 1) with j in * by lia. eauto.
    + exists g'. reflexivity.
Qed.

Lemma slice_from_app a b : Str.slice_from (a ++ b) (Str.len a) = b.
Proof.
  unfold Str.slice_from, Str.slice. rewrite str_len_app.
  replace (Str.len a + Str.len b - Str.len a) with (Str.len b) by lia.
  unfold Str.len. rewrite !Nat2Z.id.
  pose proof (substring_middle a b "") as H. rewrite str_app_nil_r in H. exact H.
Qed.

End RelativeFacts.
(** *** relative on two resolved paths *)

Section RelativeResolved.

Import PathSpec PathSem Posix.
Local Open Scope list_scope.

Local Ltac relative_setup f g i lcs Hi Hlcs Heq Hstop :=
  unfold relative_resolved; cbv zeta; rewrite !str_len_cons;
  replace (1 + Str.len f - 1) with (Str.len f) by lia;
  replace (1 + Str.len g - 1) with (Str.len g) by lia;
  pose proof (str_len_nonneg f); pose proof (str_len_nonneg g);
  match goal with
  | |- context [common_go ?from ?to ?fuel 0 (-1)] =>
      pose proof (common_go_spec from to fuel 0 (-1) ltac:(lia)) as Hs;
      destruct (common_go from to fuel 0 (-1)) as [i lcs];
      cbn [fst snd] in Hs; destruct Hs as (Hi & Hlcs & Heq & Hstop)
  end.

(** [to] continues [from] after a separator: the rest is returned. *)
Lemma relative_resolved_inside f g' :
  relative_resolved (String "/" f) (String "/" (f ++ "/" ++ g')) = g'.
Proof.
  set (g := (f ++ "/" ++ g')%string).
  assert (Hg : Str.len g = Str.len f + 1 + Str.len g').
  { subst g. rewrite !str_len_app. change (Str.len "/") with 1. lia. }
  pose proof (str_len_nonneg g').
  relative_setup f g i lcs Hi Hlcs Heq Hstop.
  destruct (Z.ltb_spec (Str.len f) (Str.len g)); [|lia].
  rewrite Z2Nat.id in * by lia.
  assert (i = Str.len f) as ->.
  { destruct (Z.eq_dec i (Str.len f)) as [|Hne]; [assumption|]. exfalso.
    apply Hstop; [lia|]. rewrite !char_at_inner by lia.
    destruct (char_at_app_l f ("/" ++ g') i ltac:(lia)) as (c & Hc1 & Hc2). eauto. }
  rewrite Z.eqb_refl. destruct (Z.gtb_spec (Str.len g) (Str.len f)); [|lia].
  rewrite char_at_inner by lia. subst g. rewrite str_app_cons, str_app_nil_l.
  rewrite char_at_app_here. cbn [Str.is_char]. unfold slash. rewrite Ascii.eqb_refl.
  replace (String "/" (f ++ String "/" g')) with (("/" ++ f ++ "/") ++ g')%string
    by (rewrite !str_app_assoc; reflexivity).
  replace (1 + Str.len f + 1) with (Str.len ("/" ++ f ++ "/"))
    by (rewrite !str_len_app; change (Str.len "/") with 1; lia).
  apply slice_from_app.
Qed.

(** From the root, every path that does not begin with a separator is
    returned as it is. *)
Lemma relative_resolved_from_root c g0 :
  Ascii.eqb c "/" = false ->
  relative_resolved "/" (String "/" (String c g0)) = String c g0.
Proof.
  intros Hc. change "/"%string with (String "/" "").
  generalize (eq_refl ""%string). generalize ""%string at 1 3 as f. intros f Ef.
  set (g := String c g0).
  assert (Hf : Str.len f = 0) by (rewrite Ef; reflexivity).
  assert (Hg : Str.len g = 1 + Str.len g0) by apply str_len_cons.
  pose proof (str_len_nonneg g0).
  relative_setup f g i lcs Hi Hlcs Heq Hstop.
  rewrite Hf in *. destruct (Z.ltb_spec 0 (Str.len g)); [|lia].
  change (Z.to_nat 0) with 0%nat in Hi. assert (i = 0) as -> by lia.
  cbn [Z.eqb]. destruct (Z.gtb_spec (Str.len g) 0); [|lia].
  rewrite char_at_inner by lia. subst g.
  change (Str.char_at (String c g0) 0) with (Some c). cbn [Str.is_char].
  unfold slash. rewrite Ascii.eqb_sym, Hc.
  change (String "/" (String c g0)) with ("/" ++ String c g0)%string.
  change (1 + 0) with (Str.len "/"). apply slice_from_app.
Qed.

(** In every other case the result starts with [..]. *)
Lemma relative_resolved_outside f g :
  f <> ""%string -> (forall g', g <> (f ++ "/" ++ g')%string) ->
  Str.starts_with ".." (relative_resolved (String "/" f) (String "/" g)) = true.
Proof.
  intros Hf Hout.
  assert (Hfl : 0 < Str.len f).
  { destruct f as [|c f]; [contradiction|]. rewrite str_len_cons.
    pose proof (str_len_nonneg f). lia. }
  relative_setup f g i lcs Hi Hlcs Heq Hstop.
  set (length := if Str.len f <? Str.len g then Str.len f else Str.len g) in *.
  assert (Hlen : 0 <= length /\ length <= Str.len f /\ length <= Str.len g).
  { subst length. destruct (Z.ltb_spec (Str.len f) (Str.len g)); lia. }
  rewrite Z2Nat.id in * by lia.
  set (early := if i =? length then _ else _).
  assert (Hearly : early = None).
  { subst early. destruct (Z.eqb_spec i length) as [Ei|]; [|reflexivity].
    destruct (Z.gtb_spec (Str.len g) length) as [Hgt|]; [|reflexivity].
    assert (Elen : length = Str.len f).
    { subst length. destruct (Z.ltb_spec (Str.len f) (Str.len g)); lia. }
    destruct (prefix_of_chars f g) as [g1 ->].
    { intros j Hj. destruct (Heq j ltac:(lia)) as (c & Hc1 & Hc2).
      rewrite !char_at_inner in Hc1, Hc2 by lia. eauto. }
    rewrite char_at_inner by lia. rewrite Ei, Elen.
    destruct g1 as [|c g1].
    { rewrite str_app_nil_r in Hgt. lia. }
    rewrite char_at_app_here. cbn [Str.is_char]. unfold slash.
    destruct (Ascii.eqb_spec "/" c) as [<-|_].
    { exfalso. apply (Hout g1). reflexivity. }
    destruct (Z.eqb_spec (Str.len f) 0); [lia|reflexivity]. }
  rewrite Hearly.
  set (lcs' := if (i =? length) && negb (Str.len g >? length) && (Str.len f >? length)
               then _ else lcs).
  assert (Hl' : lcs' <= Str.len f - 1).
  { subst lcs'.
    destruct ((i =? length) && negb (Str.len g >? length) && (Str.len f >? length)) eqn:E;
      [|lia].
    apply andb_prop in E as [E E3]. apply andb_prop in E as [E1 E2].
    apply Z.eqb_eq in E1. apply Z.gtb_lt in E3.
    destruct (Str.is_char slash (Str.char_at (String "/" f) (1 + i))); [lia|].
    destruct (i =? 0); lia. }
  apply starts_with_app.
  apply (ups_go_spec (String "/" f) (1 + Str.len f)
           (Z.to_nat (1 + Str.len f - (1 + lcs' + 1) + 1)) (1 + lcs' + 1) "").
  - left. reflexivity.
  - rewrite Z2Nat.id by lia. lia.
Qed.

End RelativeResolved.
(** *** The containment test on normal forms *)

Section GuardOnSegments.

Import PathSpec PathSem Posix.
Local Open Scope list_scope.

Lemma canonical_normal_form v t :
  allslash t = true -> canonical (normal_form v ++ t) = canonical v.
Proof.
  intros Ht. unfold normal_form. pose proof (canonical_clean v) as Hc.
  destruct (canonical v) as [|x l] eqn:E.
  - unfold canonical. rewrite segments_allslash; [reflexivity|].
    rewrite str_app_cons, str_app_nil_l. cbn [allslash]. rewrite Ht. reflexivity.
  - rewrite !str_app_assoc.
    apply (canonical_join 0 (x :: l)); [exact Hc|].
    destruct (ends_with_slash v); [|exact Ht].
    rewrite str_app_cons, str_app_nil_l. cbn [allslash]. rewrite Ht. reflexivity.
Qed.

Lemma normal_form_absolute v : exists r, normal_form v = String "/" r.
Proof. unfold normal_form. destruct (canonical v); eexists; reflexivity. Qed.

Lemma resolve_normal_form cwd v :
  resolve cwd (normal_form v) = String "/" (join (canonical v)).
Proof.
  destruct (normal_form_absolute v) as [r Hr]. rewrite Hr, resolve_absolute.
  change (String slash r) with (String "/" r). rewrite <- Hr.
  rewrite normalizeString_canonical, canonical_normal_form by reflexivity. reflexivity.
Qed.

Lemma join_inj l1 l2 :
  Forall (fun x => clean x = true) l1 -> Forall (fun x => clean x = true) l2 ->
  join l1 = join l2 -> l1 = l2.
Proof.
  intros H1 H2 E.
  rewrite <- (canonical_join 0 l1 "" H1 eq_refl), <- (canonical_join 0 l2 "" H2 eq_refl).
  cbn [repeat app]. rewrite E. reflexivity.
Qed.

Lemma prefix_of_Some a : forall b r, prefix_of a b = Some r -> b = a ++ r.
Proof.
  induction a as [|x a IH]; intros b r H; cbn [prefix_of] in H.
  - injection H as ->. reflexivity.
  - destruct b as [|y b]; [discriminate H|].
    destruct (String.eqb_spec x y) as [->|]; [|discriminate H].
    rewrite (IH b r H). reflexivity.
Qed.

Lemma prefix_of_None a : forall b r, prefix_of a b = None -> b <> a ++ r.
Proof.
  induction a as [|x a IH]; intros b r H E; cbn [prefix_of] in H; [discriminate H|].
  destruct b as [|y b]; [discriminate E|]. injection E as -> ->.
  rewrite String.eqb_refl in H. exact (IH _ r H eq_refl).
Qed.

Lemma prefix_of_refl a : prefix_of a a = Some [].
Proof. induction a as [|x a IH]; cbn [prefix_of]; [reflexivity|]. rewrite String.eqb_refl. exact IH. Qed.

Lemma join_app l1 l2 :
  l1 <> [] -> l2 <> [] -> join (l1 ++ l2) = (join l1 ++ "/" ++ join l2)%string.
Proof.
  intros H1 H2. induction l1 as [|x l1 IH]; [contradiction|].
  destruct l1 as [|y l1].
  - destruct l2 as [|z l2]; [contradiction|]. reflexivity.
  - change ((x :: y :: l1) ++ l2) with (x :: y :: (l1 ++ l2)).
    rewrite !join_cons. change (y :: l1 ++ l2) with ((y :: l1) ++ l2).
    rewrite IH by discriminate. rewrite !str_app_assoc. reflexivity.
Qed.

Lemma join_head x more :
  piece_ok x -> exists c s, join (x :: more) = String c s /\ Ascii.eqb c "/" = false
                            /\ Str.starts_with ".." (String c s) = Str.starts_with ".." x.
Proof.
  intros [Hne Hns]. destruct x as [|c x]; [contradiction|].
  cbn [noslash] in Hns. apply andb_prop in Hns as [Hc Hx].
  assert (Hc' : Ascii.eqb c "/" = false) by (destruct (Ascii.eqb c "/"); [discriminate Hc|reflexivity]).
  destruct more as [|y more].
  - exists c, x. auto.
  - rewrite join_cons, str_app_cons. exists c, (x ++ "/" ++ join (y :: more))%string.
    split; [reflexivity|]. split; [exact Hc'|].
    cbn [Str.starts_with]. destruct (Ascii.eqb "." c); [|reflexivity]. cbn [andb].
    destruct x as [|d x].
    + reflexivity.
    + rewrite str_app_cons. cbn [Str.starts_with]. reflexivity.
Qed.

(** On normal forms, the containment test of the guard is the test on
    segments. *)
Lemma remote_escapes_inside b t :
  remote_escapes (normal_form b) (normal_form t) = negb (inside b t).
Proof.
  unfold remote_escapes, inside. rewrite relative_unfold.
  pose proof (canonical_clean b) as Hb. pose proof (canonical_clean t) as Ht.
  destruct (String.eqb_spec (normal_form b) (normal_form t)) as [E|_].
  { assert (Ec : canonical b = canonical t).
    { rewrite <- (canonical_normal_form b "" eq_refl), <- (canonical_normal_form t "" eq_refl).
      rewrite E. reflexivity. }
    rewrite Ec, prefix_of_refl. reflexivity. }
  rewrite !resolve_normal_form.
  destruct (String.eqb_spec (String "/" (join (canonical b))) (String "/" (join (canonical t))))
    as [E|Hne].
  { injection E as E. apply join_inj in E; [|assumption|assumption].
    rewrite E, prefix_of_refl. reflexivity. }
  destruct (prefix_of (canonical b) (canonical t)) as [r|] eqn:Hp.
  - apply prefix_of_Some in Hp.
    destruct r as [|x more].
    { exfalso. apply Hne. rewrite Hp, app_nil_r. reflexivity. }
    assert (Hx : piece_ok x).
    { rewrite Hp in Ht. apply Forall_app in Ht as [_ Ht].
      apply Forall_cons in Ht as [Hx _]. apply clean_piece_ok, Hx. }
    destruct (join_head x more Hx) as (c & s & Ej & Hc & Hs).
    assert (Hrel : relative_resolved (String "/" (join (canonical b)))
                     (String "/" (join (canonical t))) = join (x :: more)).
    { rewrite Hp. destruct (canonical b) as [|y l] eqn:Eb.
      - cbn [app]. rewrite Ej. apply relative_resolved_from_root, Hc.
      - rewrite join_app by discriminate. apply relative_resolved_inside. }
    rewrite Hrel, Ej, Hs. unfold isAbsolute.
    change (Str.char_at (String c s) 0) with (Some c). cbn [Str.is_char].
    unfold slash. rewrite Ascii.eqb_sym, Hc, andb_false_r, orb_false_r.
    destruct (Str.starts_with ".." x); reflexivity.
  - assert (Hout : Str.starts_with ".."
                     (relative_resolved (String "/" (join (canonical b)))
                        (String "/" (join (canonical t)))) = true).
    { apply relative_resolved_outside.
      - destruct (canonical b) as [|y l] eqn:Eb; [discriminate Hp|].
        intros E. pose proof (join_len_pos (y :: l) ltac:(discriminate) (clean_pieces _ Hb)).
        rewrite E in H. rewrite str_len_nil in H. lia.
      - intros g' E.
        assert (Hbne : canonical b <> []) by (intros E0; rewrite E0 in Hp; discriminate Hp).
        assert (Htne : canonical t <> []).
        { intros E0. rewrite E0 in E. change (join []) with ""%string in E.
          destruct (join (canonical b)); discriminate E. }
        pose proof (split_join (canonical t) Htne (clean_pieces _ Ht)) as Hs.
        rewrite E, split_join_slash in Hs by (assumption || apply clean_pieces, Hb).
        exact (prefix_of_None _ _ _ Hp (eq_sym Hs)). }
    rewrite Hout. reflexivity.
Qed.

End GuardOnSegments.
(** *** The path guard on segments *)

Section PathGuardOnSegments.

Import PathSpec PathSem Posix.
Local Open Scope list_scope.

Lemma normalizeRemotePath_text v : normalizeRemotePath v = normal_form (text v).
Proof. destruct v as [s|b]; [apply normalizeRemotePath_normal_form|reflexivity]. Qed.

Lemma ends_with_slash_normal_form s :
  canonical s <> [] -> ends_with_slash (normal_form s) = ends_with_slash s.
Proof.
  intros Hne. unfold normal_form. pose proof (canonical_clean s) as Hc.
  destruct (canonical s) as [|x l]; [contradiction|].
  destruct (ends_with_slash s).
  - rewrite <- !str_app_assoc. rewrite ends_with_slash_app by discriminate. reflexivity.
  - rewrite str_app_nil_r. apply ends_with_slash_join; [discriminate|apply clean_pieces, Hc].
Qed.

Lemma canonical_of_normal_form s : canonical (normal_form s) = canonical s.
Proof.
  rewrite <- (str_app_nil_r (normal_form s)). apply canonical_normal_form. reflexivity.
Qed.

Lemma normal_form_eq a b :
  normal_form a = normal_form b
  <-> canonical a = canonical b
      /\ (canonical b = [] \/ ends_with_slash a = ends_with_slash b).
Proof.
  split.
  - intros E. assert (Ec : canonical a = canonical b).
    { rewrite <- (canonical_of_normal_form a), <- (canonical_of_normal_form b), E.
      reflexivity. }
    split; [exact Ec|]. destruct (canonical b) as [|x l] eqn:Eb; [left; reflexivity|].
    right. rewrite <- (ends_with_slash_normal_form a), <- (ends_with_slash_normal_form b).
    + rewrite E. reflexivity.
    + rewrite Eb. discriminate.
    + rewrite Ec. discriminate.
  - intros [Ec Ht]. unfold normal_form. rewrite Ec.
    destruct (canonical b) as [|x l]; [reflexivity|].
    destruct Ht as [Ht|Ht]; [discriminate Ht|]. rewrite Ht. reflexivity.
Qed.

(** For every input, [normalizeRemotePath] returns [/] followed by the
    canonical segments of the input joined by [/], and a trailing [/] when
    the input ends with one and a segment is left. The segments are
    names: none is empty, [.] or [..], none holds a separator. The result
    has the same segments, and normalizing it again changes nothing. *)
Theorem normalizeRemotePath_is_canonical (v : jsval) :
  let n := normalizeRemotePath v in
  n = normal_form (text v)
  /\ Forall (fun x => clean x = true) (canonical (text v))
  /\ canonical n = canonical (text v)
  /\ normalizeRemotePath (JStr n) = n.
Proof.
  cbv zeta. rewrite normalizeRemotePath_text, normalizeRemotePath_normal_form.
  split; [reflexivity|]. split; [apply canonical_clean|].
  split; [apply canonical_of_normal_form|].
  apply normal_form_eq. split; [apply canonical_of_normal_form|].
  destruct (canonical (text v)) as [|x l] eqn:E; [left; reflexivity|].
  right. apply ends_with_slash_normal_form. rewrite E. discriminate.
Qed.

(** For every base and candidate, the enabled guard returns exactly when
    the canonical segments of the candidate extend those of the base and
    the first segment below the base does not begin with two dots; it
    then returns the normal form of the candidate, and otherwise throws
    [PATH_GUARD_REMOTE_TRAVERSAL]. What it returns lies under the base,
    segment by segment. *)
Theorem assertRemotePathSafe_on_segments (cwd : string) (remoteBase remotePath : jsval) :
  let base := text remoteBase in
  let target := text remotePath in
  assertRemotePathSafe cwd remoteBase remotePath true
  = (if inside base target then Returns (normal_form target)
     else Throws (mkError PATH_GUARD_REMOTE_TRAVERSAL
                    ("Remote path traversal blocked: " ++ normal_form target
                     ++ " is outside " ++ normal_form base)))
  /\ (forall t, assertRemotePathSafe cwd remoteBase remotePath true = Returns t ->
        exists below, canonical t = canonical base ++ below).
Proof.
  cbv zeta.
  assert (E : assertRemotePathSafe cwd remoteBase remotePath true
              = if inside (text remoteBase) (text remotePath)
                then Returns (normal_form (text remotePath))
                else Throws (mkError PATH_GUARD_REMOTE_TRAVERSAL
                               ("Remote path traversal blocked: "
                                ++ normal_form (text remotePath)
                                ++ " is outside " ++ normal_form (text remoteBase)))).
  { rewrite assertRemotePathSafe_enabled, !normalizeRemotePath_text, remote_escapes_inside.
    destruct (inside (text remoteBase) (text remotePath)); reflexivity. }
  split; [exact E|]. intros t Ht. rewrite E in Ht.
  unfold inside in Ht.
  destruct (prefix_of (canonical (text remoteBase)) (canonical (text remotePath)))
    as [below|] eqn:Hp; [|discriminate Ht].
  exists below. apply prefix_of_Some in Hp.
  destruct below as [|x below].
  - injection Ht as <-. rewrite canonical_of_normal_form. exact Hp.
  - destruct (Str.starts_with ".." x); [discriminate Ht|]. injection Ht as <-.
    rewrite canonical_of_normal_form. exact Hp.
Qed.

(** A path is critical exactly when some listed path has the same
    canonical segments and, unless it is the root, the same trailing
    separator. *)
Lemma isCriticalRemotePath_segments (remotePath : jsval) (criticalPaths : list jsval) :
  isCriticalRemotePath remotePath criticalPaths = true
  <-> exists item, In item criticalPaths
        /\ canonical (text item) = canonical (text remotePath)
        /\ (canonical (text remotePath) = []
            \/ ends_with_slash (text item) = ends_with_slash (text remotePath)).
Proof.
  unfold isCriticalRemotePath. rewrite normalizeRemotePath_or_root, existsb_exists.
  split; intros (item & Hin & H); exists item; (split; [exact Hin|]).
  - apply String.eqb_eq in H. rewrite !normalizeRemotePath_text in H.
    apply normal_form_eq, H.
  - apply String.eqb_eq. rewrite !normalizeRemotePath_text. apply normal_form_eq, H.
Qed.

(** [checkDeleteSafety] blocks a delete exactly when the path has no
    canonical segment (it is the root), or critical deletes are blocked,
    the setting lists paths, and some listed path has the same canonical
    segments and the same trailing separator. A path below a listed one
    is not blocked, nor is a listed path written with a trailing
    separator the list does not have. When the path is not the root,
    critical deletes are blocked and the setting is a truthy value that
    is not an array, the call throws a TypeError. In every other case
    the path is returned in normal form. *)
Theorem checkDeleteSafety_on_segments
    (safety : Extension.SafetyConfig) (remotePath : jsval) :
  let p := text remotePath in
  let result := Extension.checkDeleteSafety safety remotePath in
  let listed_twin :=
    exists listed item,
      Extension.listed_paths safety = Some listed /\ In item listed
      /\ canonical (text item) = canonical p
      /\ ends_with_slash (text item) = ends_with_slash p in
  let not_array :=
    Extension.criticalRemotePaths safety = Extension.PathsNotArray in
  let guarded := Extension.blockCriticalDeletes safety <> Some false in
  ((exists reason, result = Extension.Blocked reason)
   <-> canonical p = [] \/ (guarded /\ listed_twin))
  /\ ((exists error, result = Extension.SafetyThrew error)
      <-> canonical p <> [] /\ guarded /\ not_array)
  /\ (result = Extension.Safe (normal_form p)
      <-> canonical p <> [] /\ (guarded -> ~ listed_twin /\ ~ not_array))
  /\ (forall n, result = Extension.Safe n -> n = normal_form p)
  /\ (forall error, result = Extension.SafetyThrew error ->
        error = mkError "" "criticalPaths.some is not a function").
Proof.
  cbv zeta. unfold Extension.checkDeleteSafety. cbv zeta.
  rewrite normalizeRemotePath_text.
  set (p := text remotePath).
  assert (Hroot : String.eqb (normal_form p) "/" = true <-> canonical p = []).
  { rewrite String.eqb_eq. unfold normal_form. pose proof (canonical_clean p) as Hc.
    destruct (canonical p) as [|x l] eqn:E; [tauto|].
    split; [|discriminate]. intros H. exfalso.
    pose proof (join_len_pos (x :: l) ltac:(discriminate) (clean_pieces _ Hc)) as Hl.
    assert (Hlen : Str.len ("/" ++ join (x :: l) ++ (if ends_with_slash p then "/" else ""))
                   = Str.len "/") by (rewrite H; reflexivity).
    rewrite !str_len_app in Hlen.
    pose proof (str_len_nonneg (if ends_with_slash p then "/" else "")). lia. }
  assert (Hcrit : forall listed,
            isCriticalRemotePath (JStr (normal_form p)) listed = true
            <-> exists item, In item listed
                  /\ canonical (text item) = canonical p
                  /\ (canonical p = []
                      \/ ends_with_slash (text item) = ends_with_slash p)).
  { intros listed. rewrite isCriticalRemotePath_segments. cbn [text].
    rewrite canonical_of_normal_form.
    split; intros (item & Hin & Hc & Ht); exists item; (split; [exact Hin|]);
      (split; [exact Hc|]); destruct Ht as [Ht|Ht]; try (left; exact Ht);
      destruct (canonical p) as [|x l] eqn:E; try (left; reflexivity); right.
    - rewrite Ht. apply ends_with_slash_normal_form. rewrite E. discriminate.
    - rewrite Ht. symmetry. apply ends_with_slash_normal_form. rewrite E. discriminate. }
  destruct (String.eqb (normal_form p) "/") eqn:Er.
  { assert (Hr : canonical p = []) by (apply Hroot; reflexivity).
    split; [split; [intros _; left; exact Hr|eauto]|].
    split; [split; [intros [e H]; discriminate H|intros [H _]; contradiction]|].
    split; [split; [discriminate|intros [H _]; contradiction]|].
    split; [discriminate|discriminate]. }
  assert (Hnr : canonical p <> []) by (intros E; apply Hroot in E; discriminate E).
  destruct (bool_decide_reflect (Extension.blockCriticalDeletes safety = Some false)) as [Eb|Eb];
    cbn [negb].
  { split; [split; [intros [r H]; discriminate H|intros [H|[H _]]; contradiction]|].
    split; [split; [intros [e H]; discriminate H|intros (_ & H & _); contradiction]|].
    split; [split; [intros _; split; [exact Hnr|intros H; contradiction]|reflexivity]|].
    split; [intros n H; injection H as <-; reflexivity|discriminate]. }
  unfold Extension.listed_paths.
  destruct (Extension.criticalRemotePaths safety) as [items| |] eqn:Es.
  - destruct (isCriticalRemotePath (JStr (normal_form p)) items) eqn:Ec.
    + destruct (proj1 (Hcrit items) Ec) as (item & Hin & Hc & [Ht|Ht]); [contradiction|].
      split; [split; [intros _; right; split; [exact Eb|]; eauto 10|eauto]|].
      split; [split; [intros [e H]; discriminate H|intros (_ & _ & H); discriminate H]|].
      split; [split; [discriminate|]|].
      * intros [_ H]. destruct (H Eb) as [Hn _]. exfalso. apply Hn. eauto 10.
      * split; [discriminate|discriminate].
    + assert (Hno : ~ exists listed item,
                Some items = Some listed /\ In item listed
                /\ canonical (text item) = canonical p
                /\ ends_with_slash (text item) = ends_with_slash p).
      { intros (listed & item & El & Hin & Hc & Ht). injection El as <-.
        assert (Hf : false = true) by (rewrite <- Ec; apply Hcrit; eauto). discriminate Hf. }
      split; [split; [intros [r H]; discriminate H|intros [H|[_ H]]; contradiction]|].
      split; [split; [intros [e H]; discriminate H|intros (_ & _ & H); discriminate H]|].
      split; [split; [intros _; split; [exact Hnr|intros _; split; [exact Hno|discriminate]]
                     |reflexivity]|].
      split; [intros n H; injection H as <-; reflexivity|discriminate].
  - assert (Hno : ~ exists listed item,
              Some [] = Some listed /\ In item listed
              /\ canonical (text item) = canonical p
              /\ ends_with_slash (text item) = ends_with_slash p).
    { intros (listed & item & El & Hin & _). injection El as <-. destruct Hin. }
    change (isCriticalRemotePath (JStr (normal_form p)) []) with false. cbv iota.
    split; [split; [intros [r H]; discriminate H|intros [H|[_ H]]; contradiction]|].
    split; [split; [intros [e H]; discriminate H|intros (_ & _ & H); discriminate H]|].
    split; [split; [intros _; split; [exact Hnr|intros _; split; [exact Hno|discriminate]]
                   |reflexivity]|].
    split; [intros n H; injection H as <-; reflexivity|discriminate].
  - split; [split; [intros [r H]; discriminate H|]|].
    { intros [H|[_ (listed & item & El & _)]]; [contradiction|discriminate El]. }
    split; [split; [intros _; auto|eauto]|].
    split; [split; [discriminate|]|].
    { intros [_ H]. destruct (H Eb) as [_ Hn]. exfalso. apply Hn. reflexivity. }
    split; [discriminate|]. intros error H. injection H as <-. reflexivity.
Qed.

End PathGuardOnSegments.

(** *** The guard's contract *)

Section RemoteGuardContract.

Import PathSpec PathSem Posix.
Local Open Scope list_scope.

(** The relative path between two normal forms, in segments: what lies
    below the base is returned joined by separators, and when the
    segments of the base are not a prefix of the target's the result
    starts with [..]. *)
Lemma relative_normal_forms cwd b t :
  match prefix_of (canonical b) (canonical t) with
  | Some below => relative cwd (normal_form b) (normal_form t) = join below
  | None => Str.starts_with ".." (relative cwd (normal_form b) (normal_form t)) = true
  end.
Proof.
  rewrite relative_unfold.
  pose proof (canonical_clean b) as Hb. pose proof (canonical_clean t) as Ht.
  destruct (String.eqb_spec (normal_form b) (normal_form t)) as [E|_].
  { assert (Ec : canonical b = canonical t).
    { rewrite <- (canonical_normal_form b "" eq_refl), <- (canonical_normal_form t "" eq_refl).
      rewrite E. reflexivity. }
    rewrite Ec, prefix_of_refl. reflexivity. }
  rewrite !resolve_normal_form.
  destruct (String.eqb_spec (String "/" (join (canonical b))) (String "/" (join (canonical t))))
    as [E|Hne].
  { injection E as E. apply join_inj in E; [|assumption|assumption].
    rewrite E, prefix_of_refl. reflexivity. }
  destruct (prefix_of (canonical b) (canonical t)) as [r|] eqn:Hp.
  - apply prefix_of_Some in Hp.
    destruct r as [|x more].
    { exfalso. apply Hne. rewrite Hp, app_nil_r. reflexivity. }
    assert (Hx : piece_ok x).
    { rewrite Hp in Ht. apply Forall_app in Ht as [_ Ht].
      apply Forall_cons in Ht as [Hx _]. apply clean_piece_ok, Hx. }
    destruct (join_head x more Hx) as (c & s & Ej & Hc & Hs).
    rewrite Hp. destruct (canonical b) as [|y l] eqn:Eb.
    + cbn [app]. rewrite Ej. apply relative_resolved_from_root, Hc.
    + rewrite join_app by discriminate. apply relative_resolved_inside.
  - apply relative_resolved_outside.
    + destruct (canonical b) as [|y l] eqn:Eb; [discriminate Hp|].
      intros E. pose proof (join_len_pos (y :: l) ltac:(discriminate) (clean_pieces _ Hb)).
      rewrite E in H. rewrite str_len_nil in H. lia.
    + intros g' E.
      assert (Hbne : canonical b <> []) by (intros E0; rewrite E0 in Hp; discriminate Hp).
      assert (Htne : canonical t <> []).
      { intros E0. rewrite E0 in E. change (join []) with ""%string in E.
        destruct (join (canonical b)); discriminate E. }
      pose proof (split_join (canonical t) Htne (clean_pieces _ Ht)) as Hs.
      rewrite E, split_join_slash in Hs by (assumption || apply clean_pieces, Hb).
      exact (prefix_of_None _ _ _ Hp (eq_sym Hs)).
Qed.

(** A relative path between normal forms never begins with a separator. *)
Lemma relative_normal_forms_not_absolute cwd b t :
  isAbsolute (relative cwd (normal_form b) (normal_form t)) = false.
Proof.
  pose proof (relative_normal_forms cwd b t) as H.
  pose proof (canonical_clean t) as Ht.
  destruct (prefix_of (canonical b) (canonical t)) as [below|] eqn:Hp.
  - rewrite H. destruct below as [|x more]; [reflexivity|].
    apply prefix_of_Some in Hp. rewrite Hp in Ht. apply Forall_app in Ht as [_ Ht].
    apply Forall_cons in Ht as [Hx _].
    destruct (join_head x more (clean_piece_ok _ Hx)) as (c & s & Ej & Hc & _).
    rewrite Ej. unfold isAbsolute.
    change (Str.char_at (String c s) 0) with (Some c). cbn [Str.is_char].
    unfold slash. rewrite Ascii.eqb_sym, Hc. apply andb_false_r.
  - destruct (relative cwd (normal_form b) (normal_form t)) as [|c s]; [reflexivity|].
    cbn [Str.starts_with] in H. destruct (Ascii.eqb_spec "." c) as [<-|]; [|discriminate H].
    unfold isAbsolute. change (Str.char_at (String "." s) 0) with (Some "."%char).
    apply andb_false_r.
Qed.

(** C3. For every base and candidate, whatever the working directory:
    both arguments are brought to normal form ([/] followed by their
    canonical segments); the posix-relative path from the normalized base
    to the normalized candidate is the segments of the candidate below
    the base, joined by [/], when the base's segments are a prefix of the
    candidate's, and starts with [..] otherwise; it is never absolute.
    With the guard enabled [assertRemotePathSafe] throws an error with
    code [PATH_GUARD_REMOTE_TRAVERSAL] exactly when that relative path
    starts with [..] or is absolute, which is exactly when the candidate
    is not inside the base segment by segment, and otherwise returns the
    normalized candidate. [/srv/app/../../etc/passwd] under [/srv/app]
    throws, [/srv/app/sub/file.txt] under [/srv/app] is returned, and so
    is a candidate that reaches into the base only after normalization. *)
Theorem assertRemotePathSafe_contained_or_throws :
  (forall (cwd : string) (remoteBase remotePath : jsval),
     let base := normalizeRemotePath remoteBase in
     let target := normalizeRemotePath remotePath in
     let relative := Posix.relative cwd base target in
     let escapes := Str.starts_with ".." relative || Posix.isAbsolute relative in
     base = normal_form (text remoteBase)
     /\ target = normal_form (text remotePath)
     /\ match prefix_of (canonical (text remoteBase)) (canonical (text remotePath)) with
        | Some below => relative = join below
        | None => Str.starts_with ".." relative = true
        end
     /\ Posix.isAbsolute relative = false
     /\ escapes = negb (inside (text remoteBase) (text remotePath))
     /\ ((exists msg, assertRemotePathSafe cwd remoteBase remotePath true
                      = Throws (mkError "PATH_GUARD_REMOTE_TRAVERSAL" msg))
         <-> escapes = true)
     /\ (escapes = false
         <-> assertRemotePathSafe cwd remoteBase remotePath true = Returns target))
  /\ (forall cwd,
        assertRemotePathSafe cwd (JStr "/srv/app") (JStr "/srv/app/../../etc/passwd") true
        = Throws (mkError "PATH_GUARD_REMOTE_TRAVERSAL"
                    "Remote path traversal blocked: /etc/passwd is outside /srv/app"))
  /\ (forall cwd,
        assertRemotePathSafe cwd (JStr "/srv/app") (JStr "/srv/app/sub/file.txt") true
        = Returns "/srv/app/sub/file.txt")
  /\ (forall cwd,
        assertRemotePathSafe cwd (JStr "srv//app/") (JStr "/tmp/../srv/./app/sub//x/../file.txt") true
        = Returns "/srv/app/sub/file.txt").
Proof.
  assert (Hgen : forall cwd remoteBase remotePath,
    assertRemotePathSafe cwd remoteBase remotePath true
    = if Str.starts_with ".."
           (relative cwd (normal_form (text remoteBase)) (normal_form (text remotePath)))
         || isAbsolute
              (relative cwd (normal_form (text remoteBase)) (normal_form (text remotePath)))
      then Throws (mkError "PATH_GUARD_REMOTE_TRAVERSAL"
                     ("Remote path traversal blocked: " ++ normal_form (text remotePath)
                      ++ " is outside " ++ normal_form (text remoteBase)))
      else Returns (normal_form (text remotePath))).
  { intros cwd remoteBase remotePath.
    unfold assertRemotePathSafe. simpl negb. cbv iota zeta.
    rewrite !normalizeRemotePath_or_root, !normalizeRemotePath_text. reflexivity. }
  assert (Hesc : forall cwd b t,
    Str.starts_with ".." (relative cwd (normal_form b) (normal_form t))
    || isAbsolute (relative cwd (normal_form b) (normal_form t))
    = negb (inside b t)).
  { intros cwd b t. rewrite relative_normal_forms_not_absolute, orb_false_r.
    pose proof (relative_normal_forms cwd b t) as H. unfold inside.
    pose proof (canonical_clean t) as Ht.
    destruct (prefix_of (canonical b) (canonical t)) as [below|] eqn:Hp; [|exact H].
    rewrite H. destruct below as [|x more]; [reflexivity|].
    apply prefix_of_Some in Hp. rewrite Hp in Ht. apply Forall_app in Ht as [_ Ht].
    apply Forall_cons in Ht as [Hx _].
    destruct (join_head x more (clean_piece_ok _ Hx)) as (c & s & Ej & _ & Hs).
    rewrite Ej, Hs, negb_involutive. reflexivity. }
  split; [|split; [|split]].
  - intros cwd remoteBase remotePath. cbv zeta.
    rewrite Hgen, !normalizeRemotePath_text.
    split; [reflexivity|]. split; [reflexivity|].
    split; [apply relative_normal_forms|].
    split; [apply relative_normal_forms_not_absolute|].
    split; [apply Hesc|].
    destruct (Str.starts_with ".." _ || isAbsolute _); split; split.
    + reflexivity.
    + intros _. eexists. reflexivity.
    + discriminate.
    + discriminate.
    + intros [msg H]. discriminate.
    + discriminate.
    + reflexivity.
    + reflexivity.
  - intros cwd. rewrite Hgen, Hesc. vm_compute. reflexivity.
  - intros cwd. rewrite Hgen, Hesc. vm_compute. reflexivity.
  - intros cwd. rewrite Hgen, Hesc. vm_compute. reflexivity.
Qed.

End RemoteGuardContract.
